(** * Compute-shader program generators of the WebGL backend

    A verification development for three generator files:

    - [src/backends/webgl/mulmat_packed_gpu_cs.ts]: the four packed matrix
      multiplication programs [MatMulPackedProgramCSV1] .. [CSV4] and
      [DecodeMatrixPackedProgram];
    - [src/kernels/webgl/conv_gpu_depthwise_cs.ts]: [DepthwiseConv2DProgramCS]
      and [Conv2DProgramCS].

    Every class is a constructor that stores a few fields and a GLSL compute
    shader body ([userCode]) obtained from a template literal.  The template
    is embedded as a syntax tree of the GLSL it spells out, the holes [${...}]
    being computed exactly as the TypeScript computes them.  A small
    evaluator gives the emitted statements their meaning for one invocation
    (thread) and records the shared-array accesses, texture samples and
    calls it performs.

    Numbers.  TypeScript numbers that hold shapes, tile sizes and strides are
    integers; they are modelled by [Z].  [Math.ceil (a / b)] and
    [Math.floor (a / b)] are the exact ceiling and floor of the quotient for
    a non-zero divisor.  A plain [a / b] whose value is interpolated
    ([TS / WPT], [outChannels / inChannels]) is an integer under the tiling
    invariants of the callers and is modelled by the integer quotient. *)

From Stdlib Require Import ZArith List String Ascii Bool Lia.
Import ListNotations.

Open Scope string_scope.
Open Scope list_scope.
Open Scope Z_scope.

(** ** JavaScript arithmetic used inside the template holes *)

(** [Math.ceil(a / b)] for a positive [b].  For [b = 0] JavaScript gives
    [Infinity] or [NaN], which no integer stands for: the theorems that
    state the exact events of a run, or their number, assume positive tile
    edges. *)
Definition Math_ceil_div (a b : Z) : Z := - ((- a) / b).

(** [Math.floor(a / b)]. *)
Definition Math_floor_div (a b : Z) : Z := a / b.

(** [a % b]: the remainder has the sign of the dividend. *)
Definition js_rem (a b : Z) : Z := Z.rem a b.

(** [a / b] where [b] is not zero and divides [a].  JavaScript divides
    floats: where [b] does not divide [a] the interpolated text is a
    fraction, which [Z.quot] truncates; the theorems that state the exact
    events of a run, or their number, assume tile sizes and channel counts
    that divide. *)
Definition js_div (a b : Z) : Z := Z.quot a b.

(** [a[i]] on a shape; the TypeScript tuple types fix the length, so the
    default is never reached on a well-typed call. *)
Definition at_ (s : list Z) (i : nat) : Z := nth i s 0.

(** Truthiness of [activation: string = null]: [null] and the empty string
    are falsy. *)
Definition truthy (s : option string) : bool :=
  match s with
  | Some EmptyString => false
  | Some _ => true
  | None => false
  end.

(** ** Syntax of the emitted GLSL *)

#[local] Set Warnings "-register-all".

Inductive binop : Type :=
  | Add | Sub | Mul | Div | Lt | Ge | Eq | Ne | And | Or.

Inductive expr : Type :=
  | EInt (z : Z)                         (* integer literal or interpolated number *)
  | EFloat (whole : Z) (frac : string)   (* [whole.frac], e.g. [0.0], [${n}.0] *)
  | EBool (b : bool)                     (* interpolated JavaScript boolean *)
  | EVar (x : string)
  | EField (e : expr) (f : string)       (* [e.f]: component or swizzle *)
  | EIdx (a : string) (idx : list expr)  (* [a[i]], [a[i][j]] *)
  | EBin (op : binop) (a b : expr)
  | ECond (c a b : expr)                 (* [c ? a : b] *)
  | ECall (f : string) (args : list expr).

Inductive stmt : Type :=
  | SDecl (ty x : string) (dims : list expr) (init : option expr)
  | SAssign (lhs rhs : expr)             (* [lhs = rhs;] *)
  | SAddAssign (lhs rhs : expr)          (* [lhs += rhs;] *)
  | SIf (c : expr) (th el : list stmt)
  | SFor (i : string) (lo hi : expr) (step : Z) (body : list stmt)
      (* [for (int i = lo; i < hi; i += step) { body }] *)
  | SCall (f : string) (args : list expr)
  | SContinue
  | SBreak
  | SReturn.

Inductive topdecl : Type :=
  | TConst (ty x : string) (init : expr)         (* [const ty x = init;] *)
  | TShared (ty x : string) (dims : list expr)   (* [shared ty x[d0][d1];] *)
  | TFunc (ret name params : string) (body : string).
      (* a helper function whose body is spliced text *)

Record shader : Type := {
  globals : list topdecl;
  main : list stmt
}.

Declare Scope glsl_scope.
Delimit Scope glsl_scope with glsl.
Bind Scope glsl_scope with expr.

Coercion EInt : Z >-> expr.
Coercion EVar : string >-> expr.

Notation "a + b" := (EBin Add a b) : glsl_scope.
Notation "a - b" := (EBin Sub a b) : glsl_scope.
Notation "a * b" := (EBin Mul a b) : glsl_scope.
Notation "a / b" := (EBin Div a b) : glsl_scope.
Notation "a < b" := (EBin Lt a b) : glsl_scope.
Notation "a >= b" := (EBin Ge a b) : glsl_scope.
Notation "a == b" := (EBin Eq a b) (at level 70, no associativity) : glsl_scope.
Notation "a != b" := (EBin Ne a b) (at level 70, no associativity) : glsl_scope.
Notation "a && b" := (EBin And a b) : glsl_scope.
Notation "a || b" := (EBin Or a b) : glsl_scope.
Notation "e # f" := (EField e f) (at level 25, left associativity) : glsl_scope.

(** [ty x = e;] *)
Definition decl (ty x : string) (e : expr) : stmt := SDecl ty x [] (Some e).
(** [ty x[d0]..;] without initialiser *)
Definition decl_array (ty x : string) (dims : list expr) : stmt := SDecl ty x dims None.
(** [for (int i = 0; i < hi; i++) { body }] *)
Definition for_upto (i : string) (hi : expr) (body : list stmt) : stmt :=
  SFor i (EInt 0) hi 1 body.
(** [if (c) { th }] *)
Definition if_ (c : expr) (th : list stmt) : stmt := SIf c th [].

Definition vec4_0 : expr := ECall "vec4" [EInt 0].

(** ** The program interface ([GPGPUProgram]) *)

Record GPGPUProgram : Type := {
  variableNames : list string;
  usesPackedTextures : option bool;
  outputShape : list Z;
  userCode : shader;
  localGroupSize : option (list Z);
  workPerThread : option (list Z)
}.

(** A constructor call either returns the object or throws; what it prints
    with [console.error] is kept beside the result. *)
Inductive completion (A : Type) : Type :=
  | Returned (a : A)
  | Thrown (message : string).
Arguments Returned {A} a.
Arguments Thrown {A} message.

Record construction : Type := {
  console : list string;
  result : completion GPGPUProgram
}.

(** ** [mulmat_packed_gpu_cs.ts] *)

Section MatMul.

Variables (aShape outShape : list Z) (transposeA transposeB : bool).
Variable (TS : Z).

(** Lines 33-34 (and 122-123, 219-220, 345-346). *)
Definition sharedDim : Z := if transposeA then at_ aShape 1 else at_ aShape 2.
Definition sharedDimensionPacked : Z := Math_ceil_div sharedDim 2.

(** Lines 40-41 (and 132-133, 231-232, 361-362). *)
Definition aSwizzle : expr * expr :=
  if transposeA then (EVar "a" # "xxyy", EVar "a" # "zzww")%glsl
  else (EVar "a" # "xxzz", EVar "a" # "yyww")%glsl.
Definition bSwizzle : expr * expr :=
  if transposeB then (EVar "b" # "xzxz", EVar "b" # "ywyw")%glsl
  else (EVar "b" # "xyxy", EVar "b" # "zwzw")%glsl.

(** [(aSwizzle[0] * bSwizzle[0]) + (aSwizzle[1] * bSwizzle[1])] *)
Definition swizzled_product : expr :=
  (fst aSwizzle * fst bSwizzle + snd aSwizzle * snd bSwizzle)%glsl.

(** [vec4 activation(vec4 x) { ${activation} }] when [activation] is
    truthy, nothing otherwise. *)
Definition activationSnippet (activation : option string) : list topdecl :=
  match activation with
  | Some body => if truthy activation
                 then [TFunc "vec4" "activation" "vec4 x" body] else []
  | None => []
  end.

(** The tile-size guard of lines 85-87, 178-180, 287-289 and 416-418, for
    a tile edge [T]. *)
Definition sizeTS_guard (T : Z) : expr :=
  ECond ((EVar "t" == (EVar "numTiles" - 1))
           && (EInt (js_rem sharedDimensionPacked T) != 0))%glsl
        (EInt (js_rem sharedDimensionPacked T))
        (EInt T).

(** *** [MatMulPackedProgramCSV1] (lines 20-106) *)
Definition MatMulPackedProgramCSV1 (addBias : bool) (activation : option string)
  : GPGPUProgram :=
  let aSample : list expr :=
    if transposeA then [EVar "tileCol" * 2; EVar "globalRow" * 2]%glsl
    else [EVar "globalRow" * 2; EVar "tileCol" * 2]%glsl in
  let bSample : list expr :=
    if transposeB then [EVar "globalCol" * 2; EVar "tileRow" * 2]%glsl
    else [EVar "tileRow" * 2; EVar "globalCol" * 2]%glsl in
  let applyActivationSnippet : list stmt :=
    if truthy activation
    then [SAssign "result" (ECall "activation" [EVar "result"])] else [] in
  let addBiasSnippet : list stmt :=
    if addBias
    then [SAddAssign "result" (ECall "getBiasAtOutCoords" [])] else [] in
  {| variableNames :=
       ["matrixA"; "matrixB"] ++ (if addBias then ["bias"] else []);
     usesPackedTextures := Some true;
     outputShape := outShape;
     localGroupSize := Some [TS; TS];
     workPerThread := None;
     userCode := {|
       globals :=
         activationSnippet activation ++
         [ TConst "float" "sharedDimension" (EFloat sharedDimensionPacked "0");
           TShared "vec4" "Asub" [EInt TS; EInt TS];
           TShared "vec4" "Bsub" [EInt TS; EInt TS] ];
       main :=
         [ decl "ivec3" "rc" (ECall "getOutputCoords" []);
           decl "int" "row" (ECall "int" [EVar "gl_LocalInvocationID" # "y"]%glsl);
           decl "int" "col" (ECall "int" [EVar "gl_LocalInvocationID" # "x"]%glsl);
           decl "int" "globalRow" (ECall "int" [EVar "gl_GlobalInvocationID" # "y"]%glsl);
           decl "int" "globalCol" (ECall "int" [EVar "gl_GlobalInvocationID" # "x"]%glsl);
           decl "int" "numTiles" (EInt (Math_ceil_div sharedDimensionPacked TS));
           decl "vec4" "result" vec4_0;
           for_upto "t" "numTiles"
             [ decl "int" "tileRow" (TS * "t" + "row");
               decl "int" "tileCol" (TS * "t" + "col");
               SAssign (EIdx "Asub" [EVar "row"; EVar "col"])
                       (ECall "getMatrixA" ((EVar "rc" # "x")%glsl :: aSample));
               SAssign (EIdx "Bsub" [EVar "row"; EVar "col"])
                       (ECall "getMatrixB" ((EVar "rc" # "x")%glsl :: bSample));
               SCall "memoryBarrierShared" [];
               SCall "barrier" [];
               decl "int" "sizeTS" (sizeTS_guard TS);
               for_upto "i" "sizeTS"
                 [ decl "vec4" "a" (EIdx "Asub" [EVar "row"; EVar "i"]);
                   decl "vec4" "b" (EIdx "Bsub" [EVar "i"; EVar "col"]);
                   SAddAssign "result" swizzled_product ];
               SCall "barrier" [] ] ]
         ++ addBiasSnippet
         ++ applyActivationSnippet
         ++ [ SCall "setOutput" [EVar "result"] ]
     |}
  |}.

(** *** [MatMulPackedProgramCSV2] (lines 108-203) *)
Definition MatMulPackedProgramCSV2 (WPT : Z) (addBias : bool)
  (activation : option string) : GPGPUProgram :=
  let RTS := js_div TS WPT in
  let aSample : list expr :=
    if transposeA
    then [EVar "tileCol" * 2; (EVar "globalRow" + EVar "w" * RTS) * 2]%glsl
    else [(EVar "globalRow" + EVar "w" * RTS) * 2; EVar "tileCol" * 2]%glsl in
  let bSample : list expr :=
    if transposeB
    then [EVar "globalCol" * 2; (EVar "tileRow" + EVar "w" * RTS) * 2]%glsl
    else [(EVar "tileRow" + EVar "w" * RTS) * 2; EVar "globalCol" * 2]%glsl in
  let applyActivationSnippet : list stmt :=
    if truthy activation
    then [SAssign "result" (ECall "activation" [EVar "result"])] else [] in
  let addBiasSnippet : list stmt :=
    if addBias
    then [SAddAssign "result" (ECall "getBiasAtOutCoords" [])] else [] in
  {| variableNames :=
       ["matrixA"; "matrixB"] ++ (if addBias then ["bias"] else []);
     usesPackedTextures := Some true;
     outputShape := outShape;
     localGroupSize := Some [TS; RTS];
     workPerThread := Some [1; WPT];
     userCode := {|
       globals :=
         activationSnippet activation ++
         [ TConst "float" "sharedDimension" (EFloat sharedDimensionPacked "0");
           TShared "vec4" "Asub" [EInt TS; EInt TS];
           TShared "vec4" "Bsub" [EInt TS; EInt TS] ];
       main :=
         [ decl "ivec3" "rc" (ECall "getOutputCoords" []);
           decl "int" "row" (ECall "int" [EVar "gl_LocalInvocationID" # "y"]%glsl);
           decl "int" "col" (ECall "int" [EVar "gl_LocalInvocationID" # "x"]%glsl);
           decl "int" "globalRow"
             (TS * ECall "int" [EVar "gl_WorkGroupID" # "y"]%glsl + "row");
           decl "int" "globalCol"
             (TS * ECall "int" [EVar "gl_WorkGroupID" # "x"]%glsl + "col");
           decl "int" "numTiles" (EInt (Math_ceil_div sharedDimensionPacked TS));
           decl_array "vec4" "result" [EInt WPT];
           for_upto "t" "numTiles"
             [ decl "int" "tileRow" (TS * "t" + "row");
               decl "int" "tileCol" (TS * "t" + "col");
               for_upto "w" WPT
                 [ SAssign (EIdx "Asub" [EVar "row" + EVar "w" * RTS; EVar "col"]%glsl)
                           (ECall "getMatrixA" ((EVar "rc" # "x")%glsl :: aSample));
                   SAssign (EIdx "Bsub" [EVar "row" + EVar "w" * RTS; EVar "col"]%glsl)
                           (ECall "getMatrixB" ((EVar "rc" # "x")%glsl :: bSample)) ];
               SCall "memoryBarrierShared" [];
               SCall "barrier" [];
               decl "int" "sizeTS" (sizeTS_guard TS);
               for_upto "i" "sizeTS"
                 [ decl "vec4" "b" (EIdx "Bsub" [EVar "i"; EVar "col"]);
                   for_upto "w" WPT
                     [ decl "vec4" "a"
                         (EIdx "Asub" [EVar "row" + EVar "w" * RTS; EVar "i"]%glsl);
                       SAddAssign (EIdx "result" [EVar "w"]) swizzled_product ] ];
               SCall "barrier" [] ] ]
         ++ addBiasSnippet
         ++ applyActivationSnippet
         ++ [ for_upto "w" WPT
                [ SCall "imageStore"
                    [ EVar "outputColor";
                      ECall "ivec2" [EVar "globalCol"; EVar "globalRow" + EVar "w" * RTS]%glsl;
                      EIdx "result" [EVar "w"] ] ] ]
     |}
  |}.

(** *** [MatMulPackedProgramCSV3] (lines 205-329) *)
Definition MatMulPackedProgramCSV3 (WPT : Z) (addBias : bool)
  (activation : option string) : construction :=
  let RTS := js_div TS WPT in
  let aSample : list expr :=
    if transposeA
    then [(EVar "tileCol" + EVar "innerCol" * RTS) * 2;
          (EVar "globalRow" + EVar "innerRow" * RTS) * 2]%glsl
    else [(EVar "globalRow" + EVar "innerRow" * RTS) * 2;
          (EVar "tileCol" + EVar "innerCol" * RTS) * 2]%glsl in
  let bSample : list expr :=
    if transposeB
    then [(EVar "globalCol" + EVar "innerCol" * RTS) * 2;
          (EVar "tileRow" + EVar "innerRow" * RTS) * 2]%glsl
    else [(EVar "tileRow" + EVar "innerRow" * RTS) * 2;
          (EVar "globalCol" + EVar "innerCol" * RTS) * 2]%glsl in
  let acc : expr := EIdx "result" [EVar "innerRow"; EVar "innerCol"] in
  let applyActivationSnippet : list stmt :=
    if truthy activation
    then [SAssign acc (ECall "activation" [acc])] else [] in
  {| console := if addBias then ["bias is not supported"] else [];
     result := Returned
      {| variableNames := ["matrixA"; "matrixB"];
         usesPackedTextures := Some true;
         outputShape := outShape;
         localGroupSize := Some [RTS; RTS];
         workPerThread := Some [WPT; WPT];
         userCode := {|
           globals :=
             activationSnippet activation ++
             [ TShared "vec4" "Asub" [EInt TS; EInt TS];
               TShared "vec4" "Bsub" [EInt TS; EInt TS] ];
           main :=
             [ decl "ivec3" "rc" (ECall "getOutputCoords" []);
               decl "int" "row" (ECall "int" [EVar "gl_LocalInvocationID" # "y"]%glsl);
               decl "int" "col" (ECall "int" [EVar "gl_LocalInvocationID" # "x"]%glsl);
               decl "int" "globalRow"
                 (TS * ECall "int" [EVar "gl_WorkGroupID" # "y"]%glsl + "row");
               decl "int" "globalCol"
                 (TS * ECall "int" [EVar "gl_WorkGroupID" # "x"]%glsl + "col");
               decl_array "vec4" "Breg" [EInt WPT];
               decl_array "vec4" "result" [EInt WPT; EInt WPT];
               for_upto "innerRow" WPT
                 [ for_upto "innerCol" WPT [ SAssign acc vec4_0 ] ];
               decl "int" "numTiles" (EInt (Math_ceil_div sharedDimensionPacked TS));
               for_upto "t" "numTiles"
                 [ decl "int" "tileRow" (TS * "t" + "row");
                   decl "int" "tileCol" (TS * "t" + "col");
                   for_upto "innerRow" WPT
                     [ decl "int" "inputRow" ("row" + EVar "innerRow" * RTS);
                       for_upto "innerCol" WPT
                         [ decl "int" "inputCol" ("col" + EVar "innerCol" * RTS);
                           SAssign (EIdx "Asub" [EVar "inputRow"; EVar "inputCol"])
                             (ECall "getMatrixA" ((EVar "rc" # "x")%glsl :: aSample));
                           SAssign (EIdx "Bsub" [EVar "inputRow"; EVar "inputCol"])
                             (ECall "getMatrixB" ((EVar "rc" # "x")%glsl :: bSample)) ] ];
                   SCall "memoryBarrierShared" [];
                   SCall "barrier" [];
                   decl "int" "sizeTS" (sizeTS_guard TS);
                   for_upto "k" "sizeTS"
                     [ for_upto "inner" WPT
                         [ SAssign (EIdx "Breg" [EVar "inner"])
                             (EIdx "Bsub" [EVar "k"; EVar "col" + EVar "inner" * RTS]%glsl) ];
                       for_upto "innerRow" WPT
                         [ decl "vec4" "a"
                             (EIdx "Asub" [EVar "row" + EVar "innerRow" * RTS; EVar "k"]%glsl);
                           for_upto "innerCol" WPT
                             [ decl "vec4" "b" (EIdx "Breg" [EVar "innerCol"]);
                               SAddAssign acc swizzled_product ] ] ];
                   SCall "barrier" [] ];
               for_upto "innerRow" WPT
                 [ decl "int" "outputRow" ("globalRow" + EVar "innerRow" * RTS);
                   if_ ("outputRow" >= EInt (Math_ceil_div (at_ outShape 1) 2))
                     [ SContinue ];
                   for_upto "innerCol" WPT
                     ([ decl "int" "outputCol" ("globalCol" + EVar "innerCol" * RTS);
                        if_ ("outputCol" >= EInt (Math_ceil_div (at_ outShape 2) 2))
                          [ SContinue ] ]
                      ++ applyActivationSnippet
                      ++ [ SCall "imageStore"
                             [ EVar "outputColor";
                               ECall "ivec2" [EVar "outputCol"; EVar "outputRow"];
                               acc ] ]) ] ]
         |}
      |}
  |}.

(** *** [MatMulPackedProgramCSV4] (lines 331-459) *)
Definition MatMulPackedProgramCSV4 (TSK WPT : Z) (addBias : bool)
  (activation : option string) : construction :=
  let '(TSM, TSN) := (TS, TS) in
  let '(WPTM, WPTN) := (WPT, WPT) in
  let LPTA := js_div (TSK * WPTM * WPTN) TSN in
  let '(RTSM, RTSN) := (js_div TSM WPTM, js_div TSN WPTN) in
  let aSample : list expr :=
    if transposeA
    then [EVar "tiledIndex" * 2; (EVar "offsetM" + EVar "row") * 2]%glsl
    else [(EVar "offsetM" + EVar "row") * 2; EVar "tiledIndex" * 2]%glsl in
  let bSample : list expr :=
    if transposeB
    then [(EVar "offsetN" + EVar "row") * 2; EVar "tiledIndex" * 2]%glsl
    else [EVar "tiledIndex" * 2; (EVar "offsetN" + EVar "row") * 2]%glsl in
  let acc : expr := EIdx "acc" [EVar "wm"; EVar "wn"] in
  let applyActivationSnippet : list stmt :=
    if truthy activation
    then [SAssign acc (ECall "activation" [acc])] else [] in
  {| console := if addBias then ["bias is not supported"] else [];
     result := Returned
      {| variableNames := ["matrixA"; "matrixB"];
         usesPackedTextures := Some true;
         outputShape := outShape;
         localGroupSize := Some [RTSN; RTSM];
         workPerThread := Some [WPTN; WPTM];
         userCode := {|
           globals :=
             activationSnippet activation ++
             [ TShared "vec4" "Asub" [EInt TSM; EInt TSK];
               TShared "vec4" "Bsub" [EInt TSK; EInt TSN] ];
           main :=
             [ decl "ivec3" "rc" (ECall "getOutputCoords" []);
               decl "int" "tidm" (ECall "int" [EVar "gl_LocalInvocationID" # "y"]%glsl);
               decl "int" "tidn" (ECall "int" [EVar "gl_LocalInvocationID" # "x"]%glsl);
               decl "int" "offsetM"
                 (TSM * ECall "int" [EVar "gl_WorkGroupID" # "y"]%glsl);
               decl "int" "offsetN"
                 (TSN * ECall "int" [EVar "gl_WorkGroupID" # "x"]%glsl);
               decl_array "vec4" "Breg" [EInt WPTN];
               decl_array "vec4" "acc" [EInt WPTM; EInt WPTN];
               for_upto "wm" WPTM
                 [ for_upto "wn" WPTN [ SAssign acc vec4_0 ] ];
               decl "int" "numTiles" (EInt (Math_ceil_div sharedDimensionPacked TSK));
               for_upto "t" "numTiles"
                 [ for_upto "i" LPTA
                     [ decl "int" "tid" (EVar "tidm" * RTSN + "tidn");
                       decl "int" "id" (EVar "i" * RTSN * RTSM + "tid");
                       decl "int" "row" (EVar "id" / TSK);
                       decl "int" "col" (ECall "imod" [EVar "id"; EInt TSK]);
                       decl "int" "tiledIndex" (TSK * "t" + "col");
                       SAssign (EIdx "Asub" [EVar "row"; EVar "col"])
                         (ECall "getMatrixA" ((EVar "rc" # "x")%glsl :: aSample));
                       SAssign (EIdx "Bsub" [EVar "col"; EVar "row"])
                         (ECall "getMatrixB" ((EVar "rc" # "x")%glsl :: bSample)) ];
                   SCall "memoryBarrierShared" [];
                   SCall "barrier" [];
                   decl "int" "sizeTS" (sizeTS_guard TSK);
                   for_upto "k" "sizeTS"
                     [ for_upto "wn" WPTN
                         [ decl "int" "col" ("tidn" + EVar "wn" * RTSN);
                           SAssign (EIdx "Breg" [EVar "wn"])
                             (EIdx "Bsub" [EVar "k"; EVar "col"]) ];
                       for_upto "wm" WPTM
                         [ decl "int" "row" ("tidm" + EVar "wm" * RTSM);
                           decl "vec4" "a" (EIdx "Asub" [EVar "row"; EVar "k"]);
                           for_upto "wn" WPTN
                             [ decl "vec4" "b" (EIdx "Breg" [EVar "wn"]);
                               SAddAssign acc swizzled_product ] ] ];
                   SCall "barrier" [] ];
               for_upto "wm" WPTM
                 [ decl "int" "globalRow" ("offsetM" + "tidm" + EVar "wm" * RTSM);
                   if_ ("globalRow" >= EInt (Math_ceil_div (at_ outShape 1) 2))
                     [ SContinue ];
                   for_upto "wn" WPTN
                     ([ decl "int" "globalCol" ("offsetN" + "tidn" + EVar "wn" * RTSN);
                        if_ ("globalCol" >= EInt (Math_ceil_div (at_ outShape 2) 2))
                          [ SContinue ] ]
                      ++ applyActivationSnippet
                      ++ [ SCall "imageStore"
                             [ EVar "outputColor";
                               ECall "ivec2" [EVar "globalCol"; EVar "globalRow"];
                               acc ] ]) ] ]
         |}
      |}
  |}.

End MatMul.

(** *** [DecodeMatrixPackedProgram] (second unit of the same file)

    [getGlslDifferences] and [shader_util.getLogicalCoordinatesFromFlatIndex]
    live in other files of the backend; the name of the output image and the
    text of the coordinate snippet are taken as given. *)
Section Decode.

Variable glsl_output : string.
Variable getLogicalCoordinatesFromFlatIndex : list string -> list Z -> string.

Definition DecodeMatrixPackedProgram (outShape texShape : list Z) : GPGPUProgram :=
  {| variableNames := ["A"];
     usesPackedTextures := Some true;
     outputShape := outShape;
     localGroupSize := None;
     workPerThread := None;
     userCode := {|
       globals :=
         [ TFunc "ivec3" "outCoordsFromFlatIndex" "int index"
             (String.append
                (getLogicalCoordinatesFromFlatIndex ["r"; "c"; "d"] outShape)
                " return ivec3(r, c, d);") ];
       main :=
         [ decl "ivec2" "resTexRC" (ECall "ivec2" [EVar "gl_GlobalInvocationID" # "yx"]%glsl);
           decl "int" "index"
             (4 * (EVar "resTexRC" # "x" * at_ texShape 1 + EVar "resTexRC" # "y"));
           decl "vec4" "result" (ECall "vec4" [EFloat 0 ""]);
           SFor "i" 0 4 1
             [ decl "int" "flatIndex" ("index" + "i");
               decl "ivec3" "rc" (ECall "outCoordsFromFlatIndex" [EVar "flatIndex"]);
               SAssign (EIdx "result" [EVar "i"])
                 (ECall "getChannel"
                    [ ECall "getA" [EVar "rc" # "x"; EVar "rc" # "y"; EVar "rc" # "z"]%glsl;
                      ECall "vec2" [EVar "rc" # "y"; EVar "rc" # "z"]%glsl ]) ];
           SCall "imageStore"
             [ EVar glsl_output;
               ECall "ivec2" [EVar "gl_GlobalInvocationID" # "xy"]%glsl;
               EVar "result" ] ]
     |}
  |}.

End Decode.

(** ** [conv_gpu_depthwise_cs.ts] *)

(** The fields of [Conv2DInfo] (declared in [ops/conv_util]) that the two
    constructors read. *)
Record PadInfo : Type := { top : Z; left : Z }.

Record Conv2DInfo : Type := {
  outShape : list Z;
  inHeight : Z;
  inWidth : Z;
  inChannels : Z;
  outChannels : Z;
  padInfo : PadInfo;
  strideHeight : Z;
  strideWidth : Z;
  dilationHeight : Z;
  dilationWidth : Z;
  filterHeight : Z;
  filterWidth : Z
}.

(** *** [DepthwiseConv2DProgramCS] (lines 21-131) *)
Definition DepthwiseConv2DProgramCS (convInfo : Conv2DInfo) : GPGPUProgram :=
  let xNumRows := inHeight convInfo in
  let xNumCols := inWidth convInfo in
  let padTop := top (padInfo convInfo) in
  let padLeft := left (padInfo convInfo) in
  let strideHeight := strideHeight convInfo in
  let strideWidth := strideWidth convInfo in
  let dilationHeight := dilationHeight convInfo in
  let dilationWidth := dilationWidth convInfo in
  let filterHeight := filterHeight convInfo in
  let filterWidth := filterWidth convInfo in
  let channelMul := js_div (outChannels convInfo) (inChannels convInfo) in
  let localGroupSize0 := 8 * channelMul in
  let localGroupSize1 := 7 in
  {| variableNames := ["x"; "W"];
     usesPackedTextures := None;
     outputShape := outShape convInfo;
     localGroupSize := Some [localGroupSize0; localGroupSize1];
     workPerThread := None;
     userCode := {|
       globals :=
         [ TConst "ivec2" "strides" (ECall "ivec2" [EInt strideHeight; EInt strideWidth]);
           TConst "ivec2" "pads" (ECall "ivec2" [EInt padTop; EInt padLeft]);
           TConst "int" "cacheH" (EInt filterHeight);
           TConst "int" "cacheW"
             (EInt ((localGroupSize1 - 1) * strideWidth + filterWidth));
           TConst "int" "cacheC" (EInt (js_div localGroupSize0 channelMul));
           TConst "int" "cacheHW" (EVar "cacheH" * EVar "cacheW");
           TShared "float" "cache" [EVar "cacheH"; EVar "cacheW" * EVar "cacheC"]%glsl ];
       main :=
         [ decl "ivec4" "coords" (ECall "getFirstThreadOutputCoords" []);
           decl "int" "batch" (EVar "coords" # "x");
           decl "ivec2" "cacheRCCorner" (EVar "coords" # "yz" * "strides" - "pads");
           decl "int" "cacheRCorner" (EVar "cacheRCCorner" # "x");
           decl "int" "cacheCCorner" (EVar "cacheRCCorner" # "y");
           decl "int" "cacheDCorner" (EVar "coords" # "w" / channelMul);
           (* Fill cache *)
           decl "int" "index" (ECall "int" [EVar "gl_LocalInvocationIndex"]);
           if_ ("index" < "cacheHW")
             [ decl "int" "row" (EVar "index" / "cacheW");
               decl "int" "col" (ECall "imod" [EVar "index"; EVar "cacheW"]);
               if_ (((("cacheRCorner" + "row" >= 0) &&
                      ("cacheCCorner" + "col" >= 0)) &&
                     ("cacheRCorner" + "row" < inHeight convInfo)) &&
                    ("cacheCCorner" + "col" < inWidth convInfo))
                 [ for_upto "i" "cacheC"
                     [ if_ ("cacheDCorner" + "i" >= inChannels convInfo) [ SBreak ];
                       SAssign
                         (EIdx "cache" [EVar "row"; EVar "col" * "cacheC" + "i"]%glsl)
                         (ECall "getX"
                            [ EVar "batch"; "cacheRCorner" + "row";
                              "cacheCCorner" + "col"; "cacheDCorner" + "i" ]%glsl) ] ] ];
           SCall "memoryBarrierShared" [];
           SCall "barrier" [];
           (* Discard threads that are out of bounds *)
           if_ (ECall "int" [EVar "gl_GlobalInvocationID" # "x"]%glsl
                  >= outChannels convInfo)
             [ SReturn ];
           SAssign "coords" (ECall "getOutputCoords" []);
           decl "ivec2" "xRCCorner" (EVar "coords" # "yz" * "strides" - "pads");
           decl "int" "xRCorner" (EVar "xRCCorner" # "x");
           decl "int" "xCCorner" (EVar "xRCCorner" # "y");
           decl "int" "d2" (EVar "coords" # "w");
           decl "int" "d1" (EVar "d2" / channelMul);
           decl "int" "q" ("d2" - EVar "d1" * channelMul);
           decl "float" "dotProd" (EFloat 0 "0");
           for_upto "wR" filterHeight
             [ decl "int" "xR" ("xRCorner" + EVar "wR" * dilationHeight);
               if_ (("xR" < 0) || ("xR" >= xNumRows)) [ SContinue ];
               decl "int" "sR" ("xR" - "cacheRCorner");
               for_upto "wC" filterWidth
                 [ decl "int" "xC" ("xCCorner" + EVar "wC" * dilationWidth);
                   if_ (("xC" < 0) || ("xC" >= xNumCols)) [ SContinue ];
                   decl "int" "sC" (("xC" - "cacheCCorner") * "cacheC");
                   decl "float" "xVal"
                     (EIdx "cache" [EVar "sR"; "sC" + "d1" - "cacheDCorner"]%glsl);
                   decl "float" "wVal"
                     (ECall "getW" [EVar "wR"; EVar "wC"; EVar "d1"; EVar "q"]);
                   SAddAssign "dotProd" (EVar "xVal" * "wVal") ] ];
           SCall "setOutput" [EVar "dotProd"] ]
     |}
  |}.

(** *** [Conv2DProgramCS] (third unit of the same file) *)
Definition Conv2DProgramCS (convInfo : Conv2DInfo) : GPGPUProgram :=
  let localGroupSize_ := [8; 16] in
  let padTop := top (padInfo convInfo) in
  let padLeft := left (padInfo convInfo) in
  let strideHeight := strideHeight convInfo in
  let strideWidth := strideWidth convInfo in
  let dilationHeight := dilationHeight convInfo in
  let dilationWidth := dilationWidth convInfo in
  let filterHeight := filterHeight convInfo in
  let filterWidth := filterWidth convInfo in
  let inputDepthNearestVec4 := Math_floor_div (inChannels convInfo) 4 * 4 in
  let inputDepthVec4Remainder := js_rem (inChannels convInfo) 4 in
  let BLOCK_SIZE := at_ localGroupSize_ 1 in
  let cacheAt (k : Z) : expr :=
    EIdx "cache" [EVar "sR"; if k =? 0 then ("sC" + inputDepthNearestVec4)%glsl
                             else ("sC" + inputDepthNearestVec4 + k)%glsl] in
  let wAt (k : Z) : expr :=
    ECall "getW" [EVar "wR"; EVar "wC";
                  if k =? 0 then EInt inputDepthNearestVec4
                  else (inputDepthNearestVec4 + k)%glsl; EVar "d2"] in
  {| variableNames := ["x"; "W"];
     usesPackedTextures := None;
     outputShape := outShape convInfo;
     localGroupSize := Some localGroupSize_;
     workPerThread := None;
     userCode := {|
       globals :=
         [ TConst "ivec2" "strides" (ECall "ivec2" [EInt strideHeight; EInt strideWidth]);
           TConst "ivec2" "pads" (ECall "ivec2" [EInt padTop; EInt padLeft]);
           TConst "int" "cacheH" 3;
           TConst "int" "cacheW" (EInt (BLOCK_SIZE * strideWidth + 1));
           TConst "int" "cacheC" (EInt (inChannels convInfo));
           TConst "int" "cacheHW" (EVar "cacheH" * EVar "cacheW");
           TShared "float" "cache" [EVar "cacheH"; EVar "cacheW" * EVar "cacheC"]%glsl ];
       main :=
         [ decl "ivec4" "coords" (ECall "getOutputCoords" []);
           decl "int" "batch" (EIdx "coords" [EInt 0]);
           decl "int" "d2" (EIdx "coords" [EInt 3]);
           decl "ivec2" "xRCCorner" (EVar "coords" # "yz" * "strides" - "pads");
           decl "int" "xRCorner" (EVar "xRCCorner" # "x");
           decl "int" "xCCorner" (EVar "xRCCorner" # "y");
           decl "ivec2" "cacheRCCorner"
             (ECall "ivec2" [EVar "coords" # "y";
                             BLOCK_SIZE * (EVar "coords" # "z" / BLOCK_SIZE)]%glsl
              * "strides");
           decl "int" "cacheRCorner" (EVar "cacheRCCorner" # "x");
           decl "int" "cacheCCorner" (EVar "cacheRCCorner" # "y");
           (* Fill cache *)
           decl "int" "index" (ECall "int" [EVar "gl_LocalInvocationIndex"]);
           if_ ("index" < "cacheHW")
             [ decl "int" "row" (EVar "index" / "cacheW");
               decl "int" "col" (ECall "imod" [EVar "index"; EVar "cacheW"]);
               if_ (("cacheRCorner" + "row" < inHeight convInfo) &&
                    ("cacheCCorner" + "col" < inWidth convInfo))
                 [ for_upto "i" (inChannels convInfo)
                     [ SAssign
                         (EIdx "cache"
                            [EVar "row"; EVar "col" * inChannels convInfo + "i"]%glsl)
                         (ECall "getX"
                            [ EVar "batch"; "cacheRCorner" + "row";
                              "cacheCCorner" + "col"; EVar "i" ]%glsl) ] ] ];
           SCall "memoryBarrierShared" [];
           SCall "barrier" [];
           decl "float" "dotProd" (EFloat 0 "0");
           for_upto "wR" filterHeight
             [ decl "int" "xR" ("xRCorner" + EVar "wR" * dilationHeight);
               if_ (("xR" < 0) || ("xR" >= inHeight convInfo)) [ SContinue ];
               decl "int" "sR" ("xR" - "cacheRCorner");
               for_upto "wC" filterWidth
                 [ decl "int" "xC" ("xCCorner" + EVar "wC" * dilationWidth);
                   if_ (("xC" < 0) || ("xC" >= inWidth convInfo)) [ SContinue ];
                   decl "int" "sC" (("xC" - "cacheCCorner") * inChannels convInfo);
                   SFor "d1" 0 inputDepthNearestVec4 4
                     [ decl "vec4" "xValues"
                         (ECall "vec4"
                            [ EIdx "cache" [EVar "sR"; "sC" + "d1"]%glsl;
                              EIdx "cache" [EVar "sR"; "sC" + "d1" + 1]%glsl;
                              EIdx "cache" [EVar "sR"; "sC" + "d1" + 2]%glsl;
                              EIdx "cache" [EVar "sR"; "sC" + "d1" + 3]%glsl ]);
                       decl "vec4" "wValues"
                         (ECall "vec4"
                            [ ECall "getW" [EVar "wR"; EVar "wC"; EVar "d1"; EVar "d2"];
                              ECall "getW" [EVar "wR"; EVar "wC"; "d1" + 1; EVar "d2"]%glsl;
                              ECall "getW" [EVar "wR"; EVar "wC"; "d1" + 2; EVar "d2"]%glsl;
                              ECall "getW" [EVar "wR"; EVar "wC"; "d1" + 3; EVar "d2"]%glsl ]);
                       SAddAssign "dotProd" (ECall "dot" [EVar "xValues"; EVar "wValues"]) ];
                   SIf (EBool (inputDepthVec4Remainder =? 1))
                     [ SAddAssign "dotProd" (cacheAt 0 * wAt 0) ]
                     [ SIf (EBool (inputDepthVec4Remainder =? 2))
                         [ decl "vec2" "xValues" (ECall "vec2" [cacheAt 0; cacheAt 1]);
                           decl "vec2" "wValues" (ECall "vec2" [wAt 0; wAt 1]);
                           SAddAssign "dotProd"
                             (ECall "dot" [EVar "xValues"; EVar "wValues"]) ]
                         [ SIf (EBool (inputDepthVec4Remainder =? 3))
                             [ decl "vec3" "xValues"
                                 (ECall "vec3" [cacheAt 0; cacheAt 1; cacheAt 2]);
                               decl "vec3" "wValues"
                                 (ECall "vec3" [wAt 0; wAt 1; wAt 2]);
                               SAddAssign "dotProd"
                                 (ECall "dot" [EVar "xValues"; EVar "wValues"]) ]
                             [] ] ] ] ];
           SCall "setOutput" [EVar "dotProd"] ]
     |}
  |}.

(** ** Meaning of the emitted statements for one invocation

    Integers and integer vectors are computed; everything of a floating
    type is opaque ([VOpq]).  The bodies only compute tensor and tile
    indices, which are interpreted over [Z].  Division is the truncating
    integer division of GLSL.  Every access [a[i][j]] to an array, every call
    of a sampler and every call statement is recorded, in program order. *)

Inductive value : Type :=
  | VInt (z : Z)
  | VVec (l : list Z)
  | VBool (b : bool)
  | VOpq.

Inductive event : Type :=
  | ARead (a : string) (idx : list value)
  | AWrite (a : string) (idx : list value)
  | Sample (f : string) (args : list value)
  | Call (f : string) (args : list value).

Inductive outcome : Type :=
  | ONormal | OBreak | OContinue | OReturn | OStuck.

(** What the backend and the GPU give one invocation: the built-in
    identifiers, and the coordinates returned by [getOutputCoords()] and
    [getFirstThreadOutputCoords()] (both defined by the shader compiler of
    the backend). *)
Record thread : Type := {
  gl_LocalInvocationID : list Z;
  gl_WorkGroupID : list Z;
  gl_GlobalInvocationID : list Z;
  gl_LocalInvocationIndex : Z;
  outputCoords : list Z;
  firstThreadOutputCoords : list Z
}.

Definition env : Type := list (string * value).

Fixpoint lookup (x : string) (rho : env) : option value :=
  match rho with
  | [] => None
  | (y, v) :: rho' => if String.eqb x y then Some v else lookup x rho'
  end.

Definition comp_index (c : ascii) : option nat :=
  if Ascii.eqb c "x" then Some 0%nat
  else if Ascii.eqb c "y" then Some 1%nat
  else if Ascii.eqb c "z" then Some 2%nat
  else if Ascii.eqb c "w" then Some 3%nat
  else None.

Fixpoint components (l : list Z) (f : string) : option (list Z) :=
  match f with
  | EmptyString => Some []
  | String c f' =>
      match comp_index c, components l f' with
      | Some i, Some r =>
          match nth_error l i with
          | Some z => Some (z :: r)
          | None => None
          end
      | _, _ => None
      end
  end.

Definition swizzle (v : value) (f : string) : value :=
  match v with
  | VVec l =>
      match components l f with
      | Some [z] => VInt z
      | Some (z :: r) => VVec (z :: r)
      | _ => VOpq
      end
  | _ => VOpq
  end.

Definition int_op (op : binop) : option (Z -> Z -> Z) :=
  match op with
  | Add => Some Z.add
  | Sub => Some Z.sub
  | Mul => Some Z.mul
  | Div => Some Z.quot
  | _ => None
  end.

Definition int_cmp (op : binop) : option (Z -> Z -> bool) :=
  match op with
  | Lt => Some Z.ltb
  | Ge => Some Z.geb
  | Eq => Some Z.eqb
  | Ne => Some (fun a b => negb (Z.eqb a b))
  | _ => None
  end.

Fixpoint zip_with (f : Z -> Z -> Z) (l1 l2 : list Z) : list Z :=
  match l1, l2 with
  | a :: l1', b :: l2' => f a b :: zip_with f l1' l2'
  | _, _ => []
  end.

Definition eval_binop (op : binop) (v1 v2 : value) : value :=
  match v1, v2 with
  | VInt a, VInt b =>
      match int_op op, int_cmp op with
      | Some f, _ => VInt (f a b)
      | None, Some c => VBool (c a b)
      | None, None => VOpq
      end
  | VVec l1, VVec l2 =>
      match int_op op with
      | Some f => if Nat.eqb (List.length l1) (List.length l2)
                  then VVec (zip_with f l1 l2) else VOpq
      | None => VOpq
      end
  | VVec l, VInt b =>
      match int_op op with
      | Some f => VVec (map (fun a => f a b) l)
      | None => VOpq
      end
  | VInt a, VVec l =>
      match int_op op with
      | Some f => VVec (map (fun b => f a b) l)
      | None => VOpq
      end
  | VBool a, VBool b =>
      match op with
      | And => VBool (a && b)
      | Or => VBool (a || b)
      | Eq => VBool (Bool.eqb a b)
      | Ne => VBool (negb (Bool.eqb a b))
      | _ => VOpq
      end
  | _, _ => VOpq
  end.

(** Modelled from the spec: the integer-modulo helper [imod] of the backend
    ("an integer-modulo helper" of the intrinsic surface); on the
    non-negative indices it is applied to, every definition of the
    remainder agrees. *)
Definition imod (x y : Z) : Z := x - y * Z.quot x y.

(** [ivec2(..)], [ivec3(..)], [ivec4(..)]: the integer components of the
    arguments, in order. *)
Fixpoint flatten_ints (vs : list value) : option (list Z) :=
  match vs with
  | [] => Some []
  | VInt z :: r => option_map (cons z) (flatten_ints r)
  | VVec l :: r => option_map (app l) (flatten_ints r)
  | _ :: _ => None
  end.

Definition pure_builtins : list string :=
  ["vec2"; "vec3"; "vec4"; "dot"; "activation"; "getChannel";
   "outCoordsFromFlatIndex"].

Definition mem (x : string) (l : list string) : bool :=
  existsb (String.eqb x) l.

Section Semantics.

Variable T : thread.

Definition builtin_var (x : string) : option value :=
  if String.eqb x "gl_LocalInvocationID" then Some (VVec (gl_LocalInvocationID T))
  else if String.eqb x "gl_WorkGroupID" then Some (VVec (gl_WorkGroupID T))
  else if String.eqb x "gl_GlobalInvocationID" then Some (VVec (gl_GlobalInvocationID T))
  else if String.eqb x "gl_LocalInvocationIndex" then Some (VInt (gl_LocalInvocationIndex T))
  else None.

Definition call (f : string) (vs : list value) : value * list event :=
  if String.eqb f "int" then
    (match vs with [v] => v | _ => VOpq end, [])
  else if String.eqb f "imod" then
    (match vs with [VInt a; VInt b] => VInt (imod a b) | _ => VOpq end, [])
  else if mem f ["ivec2"; "ivec3"; "ivec4"] then
    (match flatten_ints vs with Some l => VVec l | None => VOpq end, [])
  else if String.eqb f "getOutputCoords" then (VVec (outputCoords T), [])
  else if String.eqb f "getFirstThreadOutputCoords" then
    (VVec (firstThreadOutputCoords T), [])
  else if mem f pure_builtins then (VOpq, [])
  else (VOpq, [Sample f vs]).

Section EvalList.
Variable eval : expr -> value * list event.
Fixpoint eval_list (es : list expr) : list value * list event :=
  match es with
  | [] => ([], [])
  | e :: es' =>
      let '(v, ev1) := eval e in
      let '(vs, ev2) := eval_list es' in
      (v :: vs, ev1 ++ ev2)
  end.
End EvalList.

Fixpoint eval (rho : env) (e : expr) {struct e} : value * list event :=
  match e with
  | EInt z => (VInt z, [])
  | EFloat _ _ => (VOpq, [])
  | EBool b => (VBool b, [])
  | EVar x =>
      match builtin_var x with
      | Some v => (v, [])
      | None => (match lookup x rho with Some v => v | None => VOpq end, [])
      end
  | EField e1 f => let '(v, ev) := eval rho e1 in (swizzle v f, ev)
  | EIdx a idx =>
      let '(vs, ev) := eval_list (eval rho) idx in
      match lookup a rho, vs with
      | Some (VVec l), [VInt i] =>
          (match nth_error l (Z.to_nat i) with
           | Some z => if 0 <=? i then VInt z else VOpq
           | None => VOpq
           end, ev)
      | _, _ => (VOpq, ev ++ [ARead a vs])
      end
  | EBin op a b =>
      let '(v1, ev1) := eval rho a in
      match op, v1 with
      | And, VBool false => (VBool false, ev1)
      | Or, VBool true => (VBool true, ev1)
      | _, _ => let '(v2, ev2) := eval rho b in (eval_binop op v1 v2, ev1 ++ ev2)
      end
  | ECond c a b =>
      let '(vc, ev) := eval rho c in
      match vc with
      | VBool true => let '(v, ev') := eval rho a in (v, ev ++ ev')
      | VBool false => let '(v, ev') := eval rho b in (v, ev ++ ev')
      | _ => (VOpq, ev)
      end
  | ECall f args =>
      let '(vs, ev) := eval_list (eval rho) args in
      let '(v, ev') := call f vs in
      (v, ev ++ ev')
  end.

Definition result_of : Type := outcome * env * list event.

Section Blocks.
Variable exec_stmt : stmt -> env -> result_of.

Fixpoint exec_block (ss : list stmt) (rho : env) : result_of :=
  match ss with
  | [] => (ONormal, rho, [])
  | s :: ss' =>
      match exec_stmt s rho with
      | (ONormal, rho1, ev1) =>
          let '(o, rho2, ev2) := exec_block ss' rho1 in (o, rho2, ev1 ++ ev2)
      | r => r
      end
  end.
End Blocks.

(** [n] iterations of a counting loop whose counter starts at [k]: the
    emitted bodies never assign their counter or their bound. *)
Fixpoint for_iter (run : env -> result_of) (i : string) (k step : Z) (n : nat)
  (rho : env) : result_of :=
  match n with
  | O => (ONormal, rho, [])
  | S n' =>
      match run ((i, VInt k) :: rho) with
      | (ONormal, rho1, ev1) | (OContinue, rho1, ev1) =>
          let '(o, rho2, ev2) := for_iter run i (k + step) step n' rho1 in
          (o, rho2, ev1 ++ ev2)
      | (OBreak, rho1, ev1) => (ONormal, rho1, ev1)
      | r => r
      end
  end.

(** Number of values [lo, lo + step, ..] below [hi]. *)
Definition trip_count (lo hi step : Z) : nat :=
  Z.to_nat ((hi - lo + step - 1) / step).

Fixpoint exec_stmt (s : stmt) (rho : env) {struct s} : result_of :=
  match s with
  | SDecl _ x _ (Some e) =>
      let '(v, ev) := eval rho e in (ONormal, (x, v) :: rho, ev)
  | SDecl _ _ _ None => (ONormal, rho, [])
  | SAssign (EVar x) rhs =>
      let '(v, ev) := eval rho rhs in (ONormal, (x, v) :: rho, ev)
  | SAssign (EIdx a idx) rhs =>
      let '(vs, ev1) := eval_list (eval rho) idx in
      let '(_, ev2) := eval rho rhs in
      (ONormal, rho, ev1 ++ ev2 ++ [AWrite a vs])
  | SAssign _ rhs =>
      let '(_, ev) := eval rho rhs in (ONormal, rho, ev)
  | SAddAssign (EVar x) rhs =>
      let '(v, ev) := eval rho rhs in
      let old := match lookup x rho with Some w => w | None => VOpq end in
      (ONormal, (x, eval_binop Add old v) :: rho, ev)
  | SAddAssign (EIdx a idx) rhs =>
      let '(vs, ev1) := eval_list (eval rho) idx in
      let '(_, ev2) := eval rho rhs in
      (ONormal, rho, ev1 ++ [ARead a vs] ++ ev2 ++ [AWrite a vs])
  | SAddAssign _ rhs =>
      let '(_, ev) := eval rho rhs in (ONormal, rho, ev)
  | SIf c th el =>
      let '(vc, ev) := eval rho c in
      match vc with
      | VBool true =>
          let '(o, rho1, ev1) := exec_block exec_stmt th rho in (o, rho1, ev ++ ev1)
      | VBool false =>
          let '(o, rho1, ev1) := exec_block exec_stmt el rho in (o, rho1, ev ++ ev1)
      | _ => (OStuck, rho, ev)
      end
  | SFor i lo hi step body =>
      let '(vlo, ev1) := eval rho lo in
      let '(vhi, ev2) := eval rho hi in
      match vlo, vhi with
      | VInt a, VInt b =>
          if 0 <? step then
            let '(o, rho1, ev3) :=
              for_iter (exec_block exec_stmt body) i a step (trip_count a b step) rho in
            (o, rho1, ev1 ++ ev2 ++ ev3)
          else (OStuck, rho, ev1 ++ ev2)
      | _, _ => (OStuck, rho, ev1 ++ ev2)
      end
  | SCall f args =>
      let '(vs, ev) := eval_list (eval rho) args in
      (ONormal, rho, ev ++ [Call f vs])
  | SContinue => (OContinue, rho, [])
  | SBreak => (OBreak, rho, [])
  | SReturn => (OReturn, rho, [])
  end.

Definition exec : list stmt -> env -> result_of := exec_block exec_stmt.

(** The [const] declarations in scope of [main], evaluated in order. *)
Fixpoint global_env (ds : list topdecl) (rho : env) : env :=
  match ds with
  | [] => rho
  | TConst _ x e :: ds' => global_env ds' ((x, fst (eval rho e)) :: rho)
  | _ :: ds' => global_env ds' rho
  end.

(** The declared extents of the shared array [a]. *)
Fixpoint shared_extents (a : string) (ds : list topdecl) (rho : env)
  : option (list value) :=
  match ds with
  | [] => None
  | TShared _ x dims :: ds' =>
      if String.eqb a x then Some (fst (eval_list (eval rho) dims))
      else shared_extents a ds' rho
  | _ :: ds' => shared_extents a ds' rho
  end.

Definition run (p : GPGPUProgram) : result_of :=
  exec (main (userCode p)) (global_env (globals (userCode p)) []).

Definition trace (p : GPGPUProgram) : list event := snd (run p).

End Semantics.

(** ** The four matrix-multiplication variants, uniformly *)

Inductive variant : Type := CSV1 | CSV2 | CSV3 | CSV4.

Definition no_program : GPGPUProgram :=
  {| variableNames := []; usesPackedTextures := None; outputShape := [];
     userCode := {| globals := []; main := [] |};
     localGroupSize := None; workPerThread := None |}.

(** The object a construction hands to its caller. *)
Definition returned (c : construction) : GPGPUProgram :=
  match result c with
  | Returned p => p
  | Thrown _ => no_program
  end.

(** [new MatMulPackedProgramCSVn(..)]; [TSK] is an argument of the fourth
    variant only and [WPT] of all but the first. *)
Definition construct (v : variant) (aShape outShape : list Z)
  (transposeA transposeB : bool) (TS TSK WPT : Z) (addBias : bool)
  (activation : option string) : construction :=
  match v with
  | CSV1 => {| console := [];
               result := Returned (MatMulPackedProgramCSV1 aShape outShape
                                     transposeA transposeB TS addBias activation) |}
  | CSV2 => {| console := [];
               result := Returned (MatMulPackedProgramCSV2 aShape outShape
                                     transposeA transposeB TS WPT addBias activation) |}
  | CSV3 => MatMulPackedProgramCSV3 aShape outShape transposeA transposeB TS WPT
              addBias activation
  | CSV4 => MatMulPackedProgramCSV4 aShape outShape transposeA transposeB TS TSK WPT
              addBias activation
  end.

Definition matmul_program (v : variant) (aShape outShape : list Z)
  (transposeA transposeB : bool) (TS TSK WPT : Z) (addBias : bool)
  (activation : option string) : GPGPUProgram :=
  returned (construct v aShape outShape transposeA transposeB TS TSK WPT
              addBias activation).

(** The edge of the tiles that cut the reduction dimension. *)
Definition tile_edge (v : variant) (TS TSK : Z) : Z :=
  match v with
  | CSV4 => TSK
  | _ => TS
  end.

(** ** Reading the emitted body *)

Section FirstSome.
Context {A B : Type} (f : A -> option B).
Fixpoint first_some (l : list A) : option B :=
  match l with
  | [] => None
  | a :: l' =>
      match f a with
      | Some b => Some b
      | None => first_some l'
      end
  end.
End FirstSome.

(** The initialiser of the first declaration of [x], in program order,
    nested bodies included. *)
Fixpoint find_decl_stmt (x : string) (s : stmt) : option expr :=
  match s with
  | SDecl _ y _ (Some e) => if String.eqb x y then Some e else None
  | SIf _ th el =>
      match first_some (find_decl_stmt x) th with
      | Some e => Some e
      | None => first_some (find_decl_stmt x) el
      end
  | SFor _ _ _ _ body => first_some (find_decl_stmt x) body
  | _ => None
  end.

Definition find_decl (x : string) (ss : list stmt) : option expr :=
  first_some (find_decl_stmt x) ss.

(** The swizzles [x.f] applied to the variable [x], in program order. *)
Fixpoint expr_fields (x : string) (e : expr) : list string :=
  match e with
  | EField (EVar y) f => if String.eqb x y then [f] else []
  | EField e1 _ => expr_fields x e1
  | EIdx _ idx => flat_map (expr_fields x) idx
  | EBin _ a b => expr_fields x a ++ expr_fields x b
  | ECond c a b => expr_fields x c ++ expr_fields x a ++ expr_fields x b
  | ECall _ args => flat_map (expr_fields x) args
  | _ => []
  end.

Definition opt_fields (x : string) (o : option expr) : list string :=
  match o with
  | Some e => expr_fields x e
  | None => []
  end.

Fixpoint stmt_fields (x : string) (s : stmt) : list string :=
  match s with
  | SDecl _ _ dims init => flat_map (expr_fields x) dims ++ opt_fields x init
  | SAssign lhs rhs | SAddAssign lhs rhs => expr_fields x lhs ++ expr_fields x rhs
  | SIf c th el =>
      expr_fields x c ++ flat_map (stmt_fields x) th ++ flat_map (stmt_fields x) el
  | SFor _ lo hi _ body =>
      expr_fields x lo ++ expr_fields x hi ++ flat_map (stmt_fields x) body
  | SCall _ args => flat_map (expr_fields x) args
  | _ => []
  end.

(** The swizzle patterns the body applies to the packed texel [x]. *)
Definition swizzles_of (x : string) (p : GPGPUProgram) : list string :=
  flat_map (stmt_fields x) (main (userCode p)).

(** The value interpolated as [int numTiles = ..;]. *)
Definition emitted_numTiles (p : GPGPUProgram) : option Z :=
  match find_decl "numTiles" (main (userCode p)) with
  | Some (EInt n) => Some n
  | _ => None
  end.

(** The value the emitted initialiser of [sizeTS] takes in iteration [t]
    of the tile loop. *)
Definition emitted_sizeTS (T : thread) (p : GPGPUProgram) (t : Z) : option value :=
  match find_decl "sizeTS" (main (userCode p)), emitted_numTiles p with
  | Some e, Some n => Some (fst (eval T [("t", VInt t); ("numTiles", VInt n)] e))
  | _, _ => None
  end.

(** The declared extents of a shared array of the program. *)
Definition declared_extents (a : string) (p : GPGPUProgram) : option (list expr) :=
  first_some (fun d => match d with
                       | TShared _ x dims => if String.eqb a x then Some dims else None
                       | _ => None
                       end) (globals (userCode p)).

(** The values the emitted declarations [int d1 = ..;] and [int q = ..;]
    give, for an invocation whose output channel is [d2]. *)
Definition index_mapping (T : thread) (p : GPGPUProgram) (d2 : Z) : option (Z * Z) :=
  match find_decl "d1" (main (userCode p)), find_decl "q" (main (userCode p)) with
  | Some e1, Some e2 =>
      match fst (eval T [("d2", VInt d2)] e1) with
      | VInt d1 =>
          match fst (eval T [("d1", VInt d1); ("d2", VInt d2)] e2) with
          | VInt q => Some (d1, q)
          | _ => None
          end
      | _ => None
      end
  | _, _ => None
  end.

(** The depthwise example of the spec: an 8 x 8 input with 3 channels,
    multiplier 2, a 3 x 3 filter, stride 1 and padding 1. *)
Definition depthwise_example : Conv2DInfo :=
  {| outShape := [1; 8; 8; 6];
     inHeight := 8; inWidth := 8; inChannels := 3; outChannels := 6;
     padInfo := {| top := 1; left := 1 |};
     strideHeight := 1; strideWidth := 1;
     dilationHeight := 1; dilationWidth := 1;
     filterHeight := 3; filterWidth := 3 |}.

(** ** What a block can record *)

Inductive kind : Type :=
  | KRead (a : string)
  | KWrite (a : string)
  | KSample (f : string)
  | KCall (f : string).

Definition kind_of (e : event) : kind :=
  match e with
  | ARead a _ => KRead a
  | AWrite a _ => KWrite a
  | Sample f _ => KSample f
  | Call f _ => KCall f
  end.

(** The functions [call] computes itself; every other call is a sample. *)
Definition intrinsics : list string :=
  ["int"; "imod"; "ivec2"; "ivec3"; "ivec4"; "getOutputCoords";
   "getFirstThreadOutputCoords"] ++ pure_builtins.

Definition sample_kind (f : string) : list kind :=
  if mem f intrinsics then [] else [KSample f].

Fixpoint expr_kinds (e : expr) : list kind :=
  match e with
  | EField e1 _ => expr_kinds e1
  | EIdx a idx => KRead a :: flat_map expr_kinds idx
  | EBin _ a b => expr_kinds a ++ expr_kinds b
  | ECond c a b => expr_kinds c ++ expr_kinds a ++ expr_kinds b
  | ECall f args => sample_kind f ++ flat_map expr_kinds args
  | _ => []
  end.

Fixpoint stmt_kinds (s : stmt) : list kind :=
  match s with
  | SDecl _ _ _ (Some e) => expr_kinds e
  | SDecl _ _ _ None => []
  | SAssign (EIdx a idx) rhs => KWrite a :: flat_map expr_kinds idx ++ expr_kinds rhs
  | SAssign _ rhs => expr_kinds rhs
  | SAddAssign (EIdx a idx) rhs =>
      KRead a :: KWrite a :: flat_map expr_kinds idx ++ expr_kinds rhs
  | SAddAssign _ rhs => expr_kinds rhs
  | SIf c th el => expr_kinds c ++ flat_map stmt_kinds th ++ flat_map stmt_kinds el
  | SFor _ lo hi _ body => expr_kinds lo ++ expr_kinds hi ++ flat_map stmt_kinds body
  | SCall f args => KCall f :: flat_map expr_kinds args
  | _ => []
  end.

Definition block_kinds (ss : list stmt) : list kind := flat_map stmt_kinds ss.

(** The identifiers and function names a block mentions. *)
Fixpoint expr_names (e : expr) : list string :=
  match e with
  | EVar x => [x]
  | EField e1 _ => expr_names e1
  | EIdx _ idx => flat_map expr_names idx
  | EBin _ a b => expr_names a ++ expr_names b
  | ECond c a b => expr_names c ++ expr_names a ++ expr_names b
  | ECall f args => f :: flat_map expr_names args
  | _ => []
  end.

Fixpoint stmt_names (s : stmt) : list string :=
  match s with
  | SDecl _ _ _ (Some e) => expr_names e
  | SDecl _ _ _ None => []
  | SAssign lhs rhs | SAddAssign lhs rhs => expr_names lhs ++ expr_names rhs
  | SIf c th el => expr_names c ++ flat_map stmt_names th ++ flat_map stmt_names el
  | SFor _ lo hi _ body => expr_names lo ++ expr_names hi ++ flat_map stmt_names body
  | SCall _ args => flat_map expr_names args
  | _ => []
  end.

Definition block_names (ss : list stmt) : list string := flat_map stmt_names ss.

(** Two invocations that give the same meaning to the name [x]. *)
Definition same_input (T1 T2 : thread) (x : string) : Prop :=
  builtin_var T1 x = builtin_var T2 x /\ forall vs, call T1 x vs = call T2 x vs.

Definition outcome_of (r : result_of) : outcome := fst (fst r).
Definition env_of (r : result_of) : env := snd (fst r).
Definition events_of (r : result_of) : list event := snd r.

(** Every recorded event is of one of the kinds [ks]. *)
Definition emits (ks : list kind) (evs : list event) : Prop :=
  Forall (fun ev => In (kind_of ev) ks) evs.

(** An [imageStore] whose coordinate [(col, row)] lies inside the packed
    output of [rows] x [cols] texels; other events are not concerned. *)
Definition store_in_range (rows cols : Z) (ev : event) : bool :=
  match ev with
  | Call f args =>
      if String.eqb f "imageStore" then
        match args with
        | [_; VVec [col; row]; _] => (row <? rows) && (col <? cols)
        | _ => false
        end
      else true
  | _ => true
  end.

(** The loop nest that commits the accumulators in the third and fourth
    variants (lines 310-325 and 441-455), for given names of the loop
    counters [iv], [jv] and of the coordinates [rv], [cv], their
    initialisers [re], [ce], the activation snippet [act] and the accumulator
    [acc]:
    [[
      for (int iv = 0; iv < WPT; iv++) {
        int rv = re;
        if (rv >= rows) { continue; }
        for (int jv = 0; jv < WPT; jv++) {
          int cv = ce;
          if (cv >= cols) { continue; }
          act
          imageStore(outputColor, ivec2(cv, rv), acc);
        }
      }
    ]] *)
Section StoreNest.

Variables (rows cols : Z).
Variables (iv jv rv cv : string) (re ce : expr) (WPT : Z).
Variables (act : list stmt) (acc : expr).

Definition store_stmt : stmt :=
  SCall "imageStore" [ EVar "outputColor"; ECall "ivec2" [EVar cv; EVar rv]; acc ].

Definition inner_body : list stmt :=
  [ decl "int" cv ce; if_ (EVar cv >= EInt cols) [ SContinue ] ]
  ++ act ++ [ store_stmt ].

Definition outer_body : list stmt :=
  [ decl "int" rv re;
    if_ (EVar rv >= EInt rows) [ SContinue ];
    for_upto jv WPT inner_body ].

Definition store_nest : stmt := for_upto iv WPT outer_body.

End StoreNest.

(** Thread (1, 1) of workgroup (0, 0). *)
Definition thread_1_1 : thread :=
  {| gl_LocalInvocationID := [1; 1; 0];
     gl_WorkGroupID := [0; 0; 0];
     gl_GlobalInvocationID := [1; 1; 0];
     gl_LocalInvocationIndex := 3;
     outputCoords := [0; 1; 1];
     firstThreadOutputCoords := [0; 0; 0] |}.

(** The [imageStore] events of a trace. *)
Definition stores (evs : list event) : list event :=
  filter (fun ev => match ev with
                    | Call f _ => String.eqb f "imageStore"
                    | _ => false
                    end) evs.

(** The statements of a body before its first call of [f], and those after
    it, at the top level of the body. *)
Fixpoint until_call (f : string) (ss : list stmt) : list stmt :=
  match ss with
  | [] => []
  | SCall g args :: ss' =>
      if String.eqb g f then [] else SCall g args :: until_call f ss'
  | s :: ss' => s :: until_call f ss'
  end.

Fixpoint after_call (f : string) (ss : list stmt) : list stmt :=
  match ss with
  | [] => []
  | SCall g _ :: ss' => if String.eqb g f then ss' else after_call f ss'
  | _ :: ss' => after_call f ss'
  end.

(** The phases of a convolution body: what precedes the fence of the
    shared memory, the fence and the barrier, what follows the barrier. *)
Definition fill_phase (p : GPGPUProgram) : list stmt :=
  until_call "memoryBarrierShared" (main (userCode p)).

Definition compute_phase (p : GPGPUProgram) : list stmt :=
  after_call "barrier" (main (userCode p)).

Definition synchronisation : list event :=
  [Call "memoryBarrierShared" []; Call "barrier" []].

(** The events of the fill phase of an invocation. *)
Definition fill_events (T : thread) (p : GPGPUProgram) : list event :=
  events_of (exec T (fill_phase p) (global_env T (globals (userCode p)) [])).

(** An invocation of the depthwise example whose channel (7) is beyond the
    6 output channels: local index 7 in a workgroup of 16 x 7 whose first
    invocation computes the output pixel (1, 1). *)
Definition out_of_range_thread : thread :=
  {| gl_LocalInvocationID := [7; 0; 0];
     gl_WorkGroupID := [0; 0; 0];
     gl_GlobalInvocationID := [7; 1; 1];
     gl_LocalInvocationIndex := 7;
     outputCoords := [0; 1; 1; 7];
     firstThreadOutputCoords := [0; 1; 1; 0] |}.

(** ** Accumulators and their initialisation *)

(** The statements of a body before its first top-level loop on [i], and
    the body of that loop. *)
Fixpoint before_loop (i : string) (ss : list stmt) : list stmt :=
  match ss with
  | [] => []
  | SFor j lo hi step body :: ss' =>
      if String.eqb j i then [] else SFor j lo hi step body :: before_loop i ss'
  | s :: ss' => s :: before_loop i ss'
  end.

Fixpoint loop_body (i : string) (ss : list stmt) : list stmt :=
  match ss with
  | [] => []
  | SFor j _ _ _ body :: ss' => if String.eqb j i then body else loop_body i ss'
  | _ :: ss' => loop_body i ss'
  end.

Definition is_vec4_0 (e : expr) : bool :=
  match e with
  | ECall f [EInt 0] => String.eqb f "vec4"
  | _ => false
  end.

(** The left-hand sides a block sets to [vec4(0)], nested loops included. *)
Fixpoint stmt_zero_inits (s : stmt) : list expr :=
  match s with
  | SDecl _ x _ (Some e) => if is_vec4_0 e then [EVar x] else []
  | SAssign lhs rhs => if is_vec4_0 rhs then [lhs] else []
  | SIf _ th el => flat_map stmt_zero_inits th ++ flat_map stmt_zero_inits el
  | SFor _ _ _ _ body => flat_map stmt_zero_inits body
  | _ => []
  end.

Definition zero_inits (ss : list stmt) : list expr := flat_map stmt_zero_inits ss.

(** The left-hand sides a block accumulates into with [+=]. *)
Fixpoint stmt_accumulated (s : stmt) : list expr :=
  match s with
  | SAddAssign lhs _ => [lhs]
  | SIf _ th el => flat_map stmt_accumulated th ++ flat_map stmt_accumulated el
  | SFor _ _ _ _ body => flat_map stmt_accumulated body
  | _ => []
  end.

Definition accumulated (ss : list stmt) : list expr := flat_map stmt_accumulated ss.

(** The variables and arrays a block gives a value to. *)
Definition lvalue_name (e : expr) : list string :=
  match e with
  | EVar x => [x]
  | EIdx a _ => [a]
  | _ => []
  end.

Fixpoint stmt_assigned (s : stmt) : list string :=
  match s with
  | SDecl _ x _ (Some _) => [x]
  | SAssign lhs _ | SAddAssign lhs _ => lvalue_name lhs
  | SIf _ th el => flat_map stmt_assigned th ++ flat_map stmt_assigned el
  | SFor _ _ _ _ body => flat_map stmt_assigned body
  | _ => []
  end.

Definition assigned (ss : list stmt) : list string := flat_map stmt_assigned ss.

(** The variables and arrays a block gives a value to with [=], in a
    declaration with an initialiser or in an assignment, nested blocks
    included; [+=] does not count. *)
Fixpoint stmt_initialised (s : stmt) : list string :=
  match s with
  | SDecl _ x _ (Some _) => [x]
  | SAssign lhs _ => lvalue_name lhs
  | SIf _ th el => flat_map stmt_initialised th ++ flat_map stmt_initialised el
  | SFor _ _ _ _ body => flat_map stmt_initialised body
  | _ => []
  end.

Definition initialised (ss : list stmt) : list string := flat_map stmt_initialised ss.

(** The arrays a block stores to with [a[..] = e], nested blocks included. *)
Fixpoint stmt_plain_stores (s : stmt) : list string :=
  match s with
  | SAssign (EIdx a _) _ => [a]
  | SIf _ th el => flat_map stmt_plain_stores th ++ flat_map stmt_plain_stores el
  | SFor _ _ _ _ body => flat_map stmt_plain_stores body
  | _ => []
  end.

Definition plain_stores (ss : list stmt) : list string := flat_map stmt_plain_stores ss.

(** Every store to a cell of the array [a] comes after a load of that cell:
    the first access to a cell that is stored to is a load. *)
Definition read_before_written (a : string) (evs : list event) : Prop :=
  forall pre idx post, evs = pre ++ AWrite a idx :: post -> In (ARead a idx) pre.

(** The statements before the tile loop [for (int t = 0; ..)], and the body
    of the tile loop. *)
Definition before_tiles (p : GPGPUProgram) : list stmt :=
  before_loop "t" (main (userCode p)).

Definition tile_body (p : GPGPUProgram) : list stmt :=
  loop_body "t" (main (userCode p)).

(** The first access to the array [a] in a trace. *)
Definition first_access (a : string) (evs : list event) : option event :=
  find (fun ev => match ev with
                  | ARead b _ | AWrite b _ => String.eqb a b
                  | _ => false
                  end) evs.

(** ** Inputs of the cache-safety evaluation *)

(** A 3 x 3 convolution with padding 1 and stride 1 over an 8 x 8 input with
    one channel. *)
Definition padded_conv : Conv2DInfo :=
  {| outShape := [1; 8; 8; 8];
     inHeight := 8; inWidth := 8; inChannels := 1; outChannels := 8;
     padInfo := {| top := 1; left := 1 |};
     strideHeight := 1; strideWidth := 1;
     dilationHeight := 1; dilationWidth := 1;
     filterHeight := 3; filterWidth := 3 |}.

(** The invocation of [Conv2DProgramCS] that computes the output pixel
    (1, 0) of channel 0: the first of its workgroup. *)
Definition pixel_1_0 : thread :=
  {| gl_LocalInvocationID := [0; 0; 0];
     gl_WorkGroupID := [0; 8; 0];
     gl_GlobalInvocationID := [0; 8; 0];
     gl_LocalInvocationIndex := 0;
     outputCoords := [0; 1; 0; 0];
     firstThreadOutputCoords := [0; 1; 0; 0] |}.

(** A 5 x 5 depthwise convolution with stride 2 and padding 1 over a
    14 x 14 input with 8 channels, multiplier 1: the output is 7 x 7 x 8 and
    one workgroup of 8 x 7 invocations computes a row of it. *)
Definition depthwise_5x5 : Conv2DInfo :=
  {| outShape := [1; 7; 7; 8];
     inHeight := 14; inWidth := 14; inChannels := 8; outChannels := 8;
     padInfo := {| top := 1; left := 1 |};
     strideHeight := 2; strideWidth := 2;
     dilationHeight := 1; dilationWidth := 1;
     filterHeight := 5; filterWidth := 5 |}.

(** The invocation with local index [i] of the first workgroup ([i] below
    [8 * 7]): channel [i mod 8] of the output pixel [(0, i / 8)]. *)
Definition first_group (i : nat) : thread :=
  let x := Z.of_nat i mod 8 in
  let y := Z.of_nat i / 8 in
  {| gl_LocalInvocationID := [x; y; 0];
     gl_WorkGroupID := [0; 0; 0];
     gl_GlobalInvocationID := [x; y; 0];
     gl_LocalInvocationIndex := Z.of_nat i;
     outputCoords := [0; 0; y; x];
     firstThreadOutputCoords := [0; 0; 0; 0] |}.

Definition writes_cell (a : string) (r c : Z) (ev : event) : bool :=
  match ev with
  | AWrite b [VInt r'; VInt c'] => String.eqb a b && (r =? r') && (c =? c')
  | _ => false
  end.

Definition reads_cell (a : string) (r c : Z) (ev : event) : bool :=
  match ev with
  | ARead b [VInt r'; VInt c'] => String.eqb a b && (r =? r') && (c =? c')
  | _ => false
  end.

(** The extents of the shared array [a] of a program, as integers. *)
Definition extents (T : thread) (a : string) (p : GPGPUProgram) : option (list value) :=
  shared_extents T a (globals (userCode p)) (global_env T (globals (userCode p)) []).

(** ** The receptive field *)

(** The local variables a block declares or assigns, loop counters
    included. *)
Fixpoint stmt_binds (s : stmt) : list string :=
  match s with
  | SDecl _ x _ (Some _) => [x]
  | SAssign (EVar x) _ | SAddAssign (EVar x) _ => [x]
  | SIf _ th el => flat_map stmt_binds th ++ flat_map stmt_binds el
  | SFor i _ _ _ body => i :: flat_map stmt_binds body
  | _ => []
  end.

Definition block_binds (ss : list stmt) : list string := flat_map stmt_binds ss.

(** Every sample of the filter in the expression is [getW(wR, wC, ..)]. *)
Fixpoint expr_taps (e : expr) : bool :=
  match e with
  | EField e1 _ => expr_taps e1
  | EIdx _ idx => forallb expr_taps idx
  | EBin _ a b => expr_taps a && expr_taps b
  | ECond c a b => expr_taps c && expr_taps a && expr_taps b
  | ECall f args =>
      (if String.eqb f "getW" then
         match args with
         | EVar a :: EVar b :: _ => String.eqb a "wR" && String.eqb b "wC"
         | _ => false
         end
       else true) && forallb expr_taps args
  | _ => true
  end.

Fixpoint stmt_taps (s : stmt) : bool :=
  match s with
  | SDecl _ _ _ (Some e) => expr_taps e
  | SDecl _ _ _ None => true
  | SAssign lhs rhs | SAddAssign lhs rhs => expr_taps lhs && expr_taps rhs
  | SIf c th el => expr_taps c && forallb stmt_taps th && forallb stmt_taps el
  | SFor _ lo hi _ body => expr_taps lo && expr_taps hi && forallb stmt_taps body
  | SCall _ args => forallb expr_taps args
  | _ => true
  end.

(** A sample of the filter at the tap [(kR, kC)]; other events are not
    concerned. *)
Definition tap_is (kR kC : Z) (ev : event) : bool :=
  match ev with
  | Sample f args =>
      if String.eqb f "getW" then
        match args with
        | VInt a :: VInt b :: _ => (a =? kR) && (b =? kC)
        | _ => false
        end
      else true
  | _ => true
  end.

(** A sample of the filter whose tap [(wR, wC)] meets the input inside
    [[0, inHeight) x [0, inWidth)], for the window whose corner is
    [(xRCorner, xCCorner)]. *)
Definition tap_in_input (convInfo : Conv2DInfo) (xRCorner xCCorner : Z) (ev : event)
  : bool :=
  match ev with
  | Sample f args =>
      if String.eqb f "getW" then
        match args with
        | VInt wR :: VInt wC :: _ =>
            let xR := xRCorner + wR * dilationHeight convInfo in
            let xC := xCCorner + wC * dilationWidth convInfo in
            (0 <=? xR) && (xR <? inHeight convInfo) &&
            (0 <=? xC) && (xC <? inWidth convInfo)
        | _ => false
        end
      else true
  | _ => true
  end.

(** The loop nest over the filter taps, common to the two convolutions
    (lines 108-126 of the depthwise unit, 219-277 of the standard one); [rest]
    is what an accepted tap executes. *)
Definition window_nest (convInfo : Conv2DInfo) (rest : list stmt) : stmt :=
  for_upto "wR" (filterHeight convInfo)
    [ decl "int" "xR" ("xRCorner" + EVar "wR" * dilationHeight convInfo);
      if_ (("xR" < 0) || ("xR" >= inHeight convInfo)) [ SContinue ];
      decl "int" "sR" ("xR" - "cacheRCorner");
      for_upto "wC" (filterWidth convInfo)
        ([ decl "int" "xC" ("xCCorner" + EVar "wC" * dilationWidth convInfo);
           if_ (("xC" < 0) || ("xC" >= inWidth convInfo)) [ SContinue ] ]
         ++ rest) ].

(** What an accepted tap executes: the statements of the inner loop after
    its guard. *)
Definition tap_statements (s : stmt) : list stmt :=
  match s with
  | SFor _ _ _ _ [_; _; _; SFor _ _ _ _ (_ :: _ :: rest)] => rest
  | _ => []
  end.

(** The corner of the window of the output pixel [(y, z)]. *)
Definition window_corner (convInfo : Conv2DInfo) (y z : Z) : Z * Z :=
  (y * strideHeight convInfo - top (padInfo convInfo),
   z * strideWidth convInfo - left (padInfo convInfo)).

(** ** Inputs and helper functions of a program *)

Definition upper (c : ascii) : ascii :=
  let n := nat_of_ascii c in
  if (Nat.leb 97 n && Nat.leb n 122)%bool then ascii_of_nat (n - 32) else c.

(** Modelled from the spec: the "named per-input sampling functions
    ([get<InputName>(...)])" the backend supplies for the inputs listed in
    [variableNames]; the first letter of the name is capitalised. *)
Definition sampler_of (input : string) : string :=
  match input with
  | EmptyString => "get"
  | String c rest => String.append "get" (String (upper c) rest)
  end.

(** The sampler [f] reads the input [x]: at given coordinates
    ([getMatrixA(..)], [getX(..)]) or at the coordinates of the output
    ([getBiasAtOutCoords()]). *)
Definition samples_input (f x : string) : bool :=
  String.eqb f (sampler_of x) ||
  String.eqb f (String.append (sampler_of x) "AtOutCoords").

(** The samplers a body calls. *)
Definition samplers (p : GPGPUProgram) : list string :=
  flat_map (fun k => match k with KSample f => [f] | _ => [] end)
    (block_kinds (main (userCode p))).

(** The helper functions a program defines beside [main]. *)
Definition helpers (p : GPGPUProgram) : list (string * string) :=
  flat_map (fun d => match d with
                     | TFunc _ name _ body => [(name, body)]
                     | _ => []
                     end) (globals (userCode p)).

(** Every sampler the body calls reads a declared input, and every declared
    input is read by the body. *)
Definition binds_its_inputs (p : GPGPUProgram) : Prop :=
  (forall f, In f (samplers p) ->
             exists x, In x (variableNames p) /\ samples_input f x = true) /\
  (forall x, In x (variableNames p) ->
             exists f, In f (samplers p) /\ samples_input f x = true).

(** ** Barrier intervals *)

(** Between two barriers an invocation is either loading the shared
    arrays or consuming them. *)
Inductive phase : Type := Filling | Computing.

Definition other (ph : phase) : phase :=
  match ph with
  | Filling => Computing
  | Computing => Filling
  end.

(** One event: a write to a shared array is accepted while filling, a read
    while computing, [barrier()] changes the phase. *)
Definition phase_step (sh : list string) (ph : phase) (ev : event) : option phase :=
  match ev with
  | AWrite a _ =>
      if mem a sh then match ph with Filling => Some Filling | Computing => None end
      else Some ph
  | ARead a _ =>
      if mem a sh then match ph with Computing => Some Computing | Filling => None end
      else Some ph
  | Call f _ => if String.eqb f "barrier" then Some (other ph) else Some ph
  | Sample _ _ => Some ph
  end.

Fixpoint phases (sh : list string) (ph : phase) (evs : list event) : option phase :=
  match evs with
  | [] => Some ph
  | ev :: evs' =>
      match phase_step sh ph ev with
      | Some ph' => phases sh ph' evs'
      | None => None
      end
  end.

(** A block in which [break] and [continue] occur only inside loops. *)
Fixpoint stmt_jumps (s : stmt) : bool :=
  match s with
  | SIf _ th el => existsb stmt_jumps th || existsb stmt_jumps el
  | SContinue | SBreak => true
  | _ => false
  end.

Definition jumps (ss : list stmt) : bool := existsb stmt_jumps ss.

(** The statements of a body after its first top-level loop on [i]. *)
Fixpoint after_loop (i : string) (ss : list stmt) : list stmt :=
  match ss with
  | [] => []
  | SFor j _ _ _ _ :: ss' => if String.eqb j i then ss' else after_loop i ss'
  | _ :: ss' => after_loop i ss'
  end.

(** The two halves of a tile iteration: the loads before the fence, and
    what lies between the first barrier and the closing one. *)
Definition tile_loads (p : GPGPUProgram) : list stmt :=
  until_call "memoryBarrierShared" (tile_body p).

Definition tile_products (p : GPGPUProgram) : list stmt :=
  until_call "barrier" (after_call "barrier" (tile_body p)).

(** The kinds of event that leave an invocation in the phase [ph]. *)
Definition allowed (sh : list string) (ph : phase) (k : kind) : bool :=
  match k with
  | KRead a => match ph with Filling => negb (mem a sh) | Computing => true end
  | KWrite a => match ph with Filling => true | Computing => negb (mem a sh) end
  | KCall f => negb (String.eqb f "barrier")
  | KSample _ => true
  end.

(** A run that starts in the phase [ph] respects the phases; if it ends
    normally, it ends in the phase [ph']. *)
Definition keeps_phases (sh : list string) (ph : phase) (r : result_of) (ph' : phase)
  : Prop :=
  exists ph1, phases sh ph (events_of r) = Some ph1 /\
              (outcome_of r = ONormal -> ph1 = ph').

(** Blocks as phase transformers. *)
Definition moves (T : thread) (sh : list string) (ph : phase) (ss : list stmt)
  (ph' : phase) : Prop :=
  forall rho, keeps_phases sh ph (exec T ss rho) ph'.

(** The executions of [barrier()] in a trace. *)
Definition is_barrier (ev : event) : bool :=
  match ev with
  | Call f _ => String.eqb f "barrier"
  | _ => false
  end.

Definition barriers (evs : list event) : nat := List.length (filter is_barrier evs).

(** Blocks without branches: declarations, assignments, calls and counting
    loops between literal bounds. *)
Fixpoint stmt_straight (s : stmt) : bool :=
  match s with
  | SDecl _ _ _ _ | SAssign _ _ | SAddAssign _ _ | SCall _ _ => true
  | SFor _ (EInt _) (EInt _) step body => (0 <? step) && forallb stmt_straight body
  | _ => false
  end.

Definition straight (ss : list stmt) : bool := forallb stmt_straight ss.

(** The shared arrays of the four multiplications and of the two
    convolutions. *)
Definition tiles : list string := ["Asub"; "Bsub"].
Definition caches : list string := ["cache"].

(** A block that, started in an environment satisfying [I], ends normally
    in one satisfying [J] after [c] barriers. *)
Definition passes (T : thread) (I J : env -> Prop) (ss : list stmt) (c : nat) : Prop :=
  forall rho, I rho ->
    let r := exec T ss rho in
    outcome_of r = ONormal /\ J (env_of r) /\ barriers (events_of r) = c.

(** The number of tiles is in scope. *)
Definition tiles_known (n : Z) (rho : env) : Prop :=
  lookup "numTiles" rho = Some (VInt n).

(** Tile [t] of [n] is being processed. *)
Definition in_tile (n t : Z) (rho : env) : Prop :=
  lookup "numTiles" rho = Some (VInt n) /\ lookup "t" rho = Some (VInt t).

(** The counter and the body of the loop over the reduction index of a
    tile, [for (int k = 0; k < sizeTS; k++) { .. }]. *)
Definition reduction (p : GPGPUProgram) : string * list stmt :=
  match tile_products p with
  | [_; SFor i _ _ _ body] => (i, body)
  | _ => (EmptyString, [])
  end.

(** The statements of a block before its first top-level declaration of
    [x], and those after it. *)
Fixpoint before_decl (x : string) (ss : list stmt) : list stmt :=
  match ss with
  | [] => []
  | SDecl ty y dims init :: ss' =>
      if String.eqb y x then [] else SDecl ty y dims init :: before_decl x ss'
  | s :: ss' => s :: before_decl x ss'
  end.

Fixpoint after_decl (x : string) (ss : list stmt) : list stmt :=
  match ss with
  | [] => []
  | SDecl _ y _ _ :: ss' => if String.eqb y x then ss' else after_decl x ss'
  | _ :: ss' => after_decl x ss'
  end.

(** ** What an invocation decodes and stores *)

(** The values the local [x] has taken, the latest first. *)
Definition bound_values (x : string) (rho : env) : list value :=
  flat_map (fun b => if String.eqb x (fst b) then [snd b] else []) rho.

(** The coordinates of the [imageStore] calls of a trace, in order. *)
Definition store_coordinates (evs : list event) : list (list Z) :=
  flat_map (fun ev => match ev with
                      | Call f [_; VVec c; _] =>
                          if String.eqb f "imageStore" then [c] else []
                      | _ => []
                      end) evs.

(** The calls of the sampler [f] in a trace, in order. *)
Definition samples_of (f : string) (evs : list event) : list (list value) :=
  flat_map (fun ev => match ev with
                      | Sample g args => if String.eqb g f then [args] else []
                      | _ => []
                      end) evs.

(** The flat indices of the output an invocation of the decoder turns into
    coordinates. *)
Definition decoded (T : thread) (p : GPGPUProgram) : list value :=
  bound_values "flatIndex" (env_of (run T p)).

(** The invocation at [(x, y)] of a two-dimensional dispatch. *)
Definition texel (x y : Z) : thread :=
  {| gl_LocalInvocationID := [x; y; 0];
     gl_WorkGroupID := [0; 0; 0];
     gl_GlobalInvocationID := [x; y; 0];
     gl_LocalInvocationIndex := 0;
     outputCoords := [];
     firstThreadOutputCoords := [] |}.

(** The values the counter of [for (int i = k; ..; i++)] takes in [n]
    iterations, and those of [for (int i = 0; i < hi; i++)]. *)
Fixpoint counter_values (k : Z) (n : nat) : list Z :=
  match n with
  | O => []
  | S n' => k :: counter_values (k + 1) n'
  end.

Definition range (hi : Z) : list Z := counter_values 0 (Z.to_nat hi).

(** The texels the loop nest of the third and fourth variant commits, for
    the rows [R i] and the columns [C j] of the accumulators [(i, j)] of an
    invocation: those inside the packed output, row by row. *)
Definition committed (rows cols WPT : Z) (R C : Z -> Z) : list (list Z) :=
  flat_map (fun i =>
              if R i <? rows
              then flat_map (fun j => if C j <? cols then [[C j; R i]] else [])
                     (range WPT)
              else [])
    (range WPT).

(** The environment gives the locals [keep] their values. *)
Definition holds (keep : list (string * value)) (rho : env) : Prop :=
  forall x v, In (x, v) keep -> lookup x rho = Some v.

(** A thread given by its place [(x, y)] in the workgroup [(gx, gy)]. *)
Definition placed (T : thread) (x y gx gy : Z) : Prop :=
  (exists z, gl_LocalInvocationID T = [x; y; z]) /\
  (exists gz, gl_WorkGroupID T = [gx; gy; gz]).

Definition place (x y gx gy : Z) : thread :=
  {| gl_LocalInvocationID := [x; y; 0];
     gl_WorkGroupID := [gx; gy; 0];
     gl_GlobalInvocationID := [x; y; 0];
     gl_LocalInvocationIndex := 0;
     outputCoords := [0; 0; 0];
     firstThreadOutputCoords := [0; 0; 0] |}.

(** ** Indexing the shared tiles *)

(** An access to the two-dimensional array [a] inside its extents
    [d0 x d1]; other events are not concerned. *)
Definition in_bounds (a : string) (d0 d1 : Z) (ev : event) : bool :=
  match ev with
  | ARead b idx | AWrite b idx =>
      if String.eqb b a then
        match idx with
        | [VInt r; VInt c] => (0 <=? r) && (r <? d0) && (0 <=? c) && (c <? d1)
        | _ => false
        end
      else true
  | _ => true
  end.

(** A block that, started in an environment that gives the locals [keep]
    their values, ends normally in one that gives [keep'] theirs, all its
    events satisfying [P]. *)
Definition safe (T : thread) (P : event -> Prop) (keep : list (string * value))
  (ss : list stmt) (keep' : list (string * value)) : Prop :=
  forall rho, holds keep rho ->
    let r := exec T ss rho in
    outcome_of r = ONormal /\ Forall P (events_of r) /\ holds keep' (env_of r).

(** The value of the emitted [sizeTS] in tile [t] of [n], for the packed
    reduction extent [R] and the tile edge [E]. *)
Definition sizeTS_value (R E n t : Z) : Z :=
  if (t =? n - 1) && negb (js_rem R E =? 0) then js_rem R E else E.

(** The tiling invariants of the callers: the tile edge is positive and,
    where the work per thread divides it, the quotients interpolated into
    the body are integers. *)
Definition well_tiled (v : variant) (TS TSK WPT : Z) : Prop :=
  match v with
  | CSV1 => 0 < TS
  | CSV2 | CSV3 => 0 < TS /\ 0 < WPT /\ TS mod WPT = 0
  | CSV4 => 0 < TS /\ 0 < WPT /\ TS mod WPT = 0 /\
            0 < TSK /\ (TSK * WPT * WPT) mod TS = 0
  end.

(** Both tiles are indexed inside their extents. *)
Definition tiles_in_bounds (a0 a1 b0 b1 : Z) (ev : event) : Prop :=
  in_bounds "Asub" a0 a1 ev = true /\ in_bounds "Bsub" b0 b1 ev = true.

(** Kinds of event that do not touch the tiles. *)
Definition off_tiles (k : kind) : bool :=
  match k with
  | KRead a | KWrite a => negb (mem a tiles)
  | _ => true
  end.

(** ** Filling the cache *)

(** A sample of the input [x] inside
    [[0, inHeight) x [0, inWidth) x [0, inChannels)]; other events are not
    concerned. *)
Definition sample_in_input (convInfo : Conv2DInfo) (ev : event) : bool :=
  match ev with
  | Sample f args =>
      if String.eqb f "getX" then
        match args with
        | [_; VInt r; VInt c; VInt d] =>
            (0 <=? r) && (r <? inHeight convInfo) &&
            (0 <=? c) && (c <? inWidth convInfo) &&
            (0 <=? d) && (d <? inChannels convInfo)
        | _ => false
        end
      else true
  | _ => true
  end.

(** The cache of [cacheH x cacheWC] cells is indexed inside its extents and
    the input is sampled inside the tensor. *)
Definition fill_ok (convInfo : Conv2DInfo) (cacheH cacheWC : Z) (ev : event) : Prop :=
  in_bounds "cache" cacheH cacheWC ev = true /\ sample_in_input convInfo ev = true.

(** The width of the cache of the depthwise program and of the standard
    one, in pixels. *)
Definition depthwise_cacheW (convInfo : Conv2DInfo) : Z :=
  (7 - 1) * strideWidth convInfo + filterWidth convInfo.

Definition conv2d_cacheW (convInfo : Conv2DInfo) : Z :=
  16 * strideWidth convInfo + 1.

(** ** Loading the shared tiles *)

(** The stores to the shared tiles in a trace, in order. *)
Definition tile_store (ev : event) : bool :=
  match ev with
  | AWrite a _ => mem a tiles
  | _ => false
  end.

Definition tile_stores (evs : list event) : list event := filter tile_store evs.

(** Kinds of event other than a store to a tile. *)
Definition no_store (k : kind) : bool :=
  match k with
  | KWrite a => negb (mem a tiles)
  | _ => true
  end.

Definition silent (ev : event) : Prop := tile_store ev = false.

(** A block that, started in an environment that gives the locals [keep]
    their values, ends normally in one that gives [keep'] theirs, its stores
    to the tiles being [L], in this order. *)
Definition fills (T : thread) (keep : list (string * value)) (ss : list stmt)
  (keep' : list (string * value)) (L : list event) : Prop :=
  forall rho, holds keep rho ->
    let r := exec T ss rho in
    outcome_of r = ONormal /\ tile_stores (events_of r) = L /\ holds keep' (env_of r).

(** [Asub[r][c] = ..; Bsub[r'][c'] = ..;] *)
Definition store_pair (r c r' c' : Z) : list event :=
  [AWrite "Asub" [VInt r; VInt c]; AWrite "Bsub" [VInt r'; VInt c']].

(** The cells the invocation [(x, y)] of a workgroup stores in one tile
    iteration, in the order of its loops. *)
Definition loads (v : variant) (TS TSK WPT x y : Z) : list event :=
  let RTS := js_div TS WPT in
  match v with
  | CSV1 => store_pair y x y x
  | CSV2 =>
      flat_map (fun w => store_pair (y + w * RTS) x (y + w * RTS) x) (range WPT)
  | CSV3 =>
      flat_map (fun i =>
                  flat_map (fun j =>
                              store_pair (y + i * RTS) (x + j * RTS)
                                (y + i * RTS) (x + j * RTS))
                    (range WPT))
        (range WPT)
  | CSV4 =>
      flat_map (fun i =>
                  let id := i * RTS * RTS + (y * RTS + x) in
                  store_pair (Z.quot id TSK) (imod id TSK) (imod id TSK) (Z.quot id TSK))
        (range (js_div (TSK * WPT * WPT) TS))
  end.

(** ** What the convolutions read after the barrier *)

(** The events of a trace a view keeps, in order. *)
Definition observe {A : Type} (view : event -> option A) (evs : list event) : list A :=
  flat_map (fun ev => match view ev with Some a => [a] | None => [] end) evs.

(** A block that, started in an environment that gives the locals [keep]
    their values, ends with the outcome [o] in one that gives [keep'] theirs,
    the view keeping [L] of its events. *)
Definition yields {A : Type} (T : thread) (view : event -> option A)
  (keep : list (string * value)) (ss : list stmt) (o : outcome)
  (keep' : list (string * value)) (L : list A) : Prop :=
  forall rho, holds keep rho ->
    let r := exec T ss rho in
    outcome_of r = o /\ observe view (events_of r) = L /\ holds keep' (env_of r).

(** The values the counter of [for (int i = k; ..; i += step)] takes in [n]
    iterations. *)
Fixpoint steps (k step : Z) (n : nat) : list Z :=
  match n with
  | O => []
  | S n' => k :: steps (k + step) step n'
  end.

(** The arguments of the samples of the filter. *)
Definition weight (ev : event) : option (list value) :=
  match ev with
  | Sample f args => if String.eqb f "getW" then Some args else None
  | _ => None
  end.

Definition weight_kind (k : kind) : bool :=
  match k with
  | KSample f => String.eqb f "getW"
  | _ => false
  end.

(** The cells of the cache that are read. *)
Definition cache_read (ev : event) : option (list value) :=
  match ev with
  | ARead a idx => if String.eqb a "cache" then Some idx else None
  | _ => None
  end.

Definition cache_read_kind (k : kind) : bool :=
  match k with
  | KRead a => String.eqb a "cache"
  | _ => false
  end.

(** The barriers passed and the outputs committed. *)
Definition milestone (ev : event) : option string :=
  match ev with
  | Call f _ => if mem f ["barrier"; "setOutput"] then Some f else None
  | _ => None
  end.

Definition milestone_kind (k : kind) : bool :=
  match k with
  | KCall f => mem f ["barrier"; "setOutput"]
  | _ => false
  end.

(** The taps [(wR, wC)] of the filter that meet the input inside, for the
    window whose corner is [(xRCorner, xCCorner)], in the order of the loop
    nest. *)
Definition taps (convInfo : Conv2DInfo) (xRCorner xCCorner : Z) : list (Z * Z) :=
  flat_map (fun wR =>
              let xR := xRCorner + wR * dilationHeight convInfo in
              if (xR <? 0) || (xR >=? inHeight convInfo) then []
              else
                flat_map (fun wC =>
                            let xC := xCCorner + wC * dilationWidth convInfo in
                            if (xC <? 0) || (xC >=? inWidth convInfo) then []
                            else [(wR, wC)])
                  (range (filterWidth convInfo)))
    (range (filterHeight convInfo)).

(** What the channel loops of the standard convolution present of [g 0],
    [g 1], ..: blocks of four, then the remainder. *)
Definition vec4_blocks {A : Type} (inChannels : Z) (g : Z -> A) : list A :=
  let inputDepthNearestVec4 := Math_floor_div inChannels 4 * 4 in
  let inputDepthVec4Remainder := js_rem inChannels 4 in
  flat_map (fun d1 => [g d1; g (d1 + 1); g (d1 + 2); g (d1 + 3)])
    (steps 0 4 (trip_count 0 inputDepthNearestVec4 4))
  ++ (if inputDepthVec4Remainder =? 1 then [g inputDepthNearestVec4]
      else if inputDepthVec4Remainder =? 2
      then [g inputDepthNearestVec4; g (inputDepthNearestVec4 + 1)]
      else if inputDepthVec4Remainder =? 3
      then [g inputDepthNearestVec4; g (inputDepthNearestVec4 + 1);
            g (inputDepthNearestVec4 + 2)]
      else []).

(** The cell of the cache that holds the channel [c] of the input under the
    tap [(wR, wC)] of the output pixel [(y, z)]: [cache[sR][sC + c]]. *)
Definition conv2d_cell (convInfo : Conv2DInfo) (y z wR wC c : Z) : list value :=
  let xR := y * strideHeight convInfo - top (padInfo convInfo)
            + wR * dilationHeight convInfo in
  let xC := z * strideWidth convInfo - left (padInfo convInfo)
            + wC * dilationWidth convInfo in
  let cacheRCorner := y * strideHeight convInfo in
  let cacheCCorner := 16 * Z.quot z 16 * strideWidth convInfo in
  [VInt (xR - cacheRCorner); VInt ((xC - cacheCCorner) * inChannels convInfo + c)].

(** The filter weight and the cell of the cache the depthwise convolution
    multiplies under the tap [(wR, wC)], for the output [(y, z, d2)] of a
    workgroup whose first invocation has the output [(y0, z0, w0)]. *)
Definition depthwise_weight (convInfo : Conv2DInfo) (d2 wR wC : Z) : list value :=
  let channelMul := js_div (outChannels convInfo) (inChannels convInfo) in
  let d1 := Z.quot d2 channelMul in
  [VInt wR; VInt wC; VInt d1; VInt (d2 - d1 * channelMul)].

Definition depthwise_cell (convInfo : Conv2DInfo) (y0 z0 w0 y z d2 wR wC : Z)
  : list value :=
  let channelMul := js_div (outChannels convInfo) (inChannels convInfo) in
  let cacheC := js_div (8 * channelMul) channelMul in
  let xR := y * strideHeight convInfo - top (padInfo convInfo)
            + wR * dilationHeight convInfo in
  let xC := z * strideWidth convInfo - left (padInfo convInfo)
            + wC * dilationWidth convInfo in
  let cacheRCorner := y0 * strideHeight convInfo - top (padInfo convInfo) in
  let cacheCCorner := z0 * strideWidth convInfo - left (padInfo convInfo) in
  let cacheDCorner := Z.quot w0 channelMul in
  let d1 := Z.quot d2 channelMul in
  [VInt (xR - cacheRCorner); VInt ((xC - cacheCCorner) * cacheC + d1 - cacheDCorner)].

(** ** The traffic of the shared tiles *)










(** ** What the cache holds *)

(** The samples of the input and the stores to the cache. *)
Definition fill_event (ev : event) : option event :=
  match ev with
  | Sample f _ => if String.eqb f "getX" then Some ev else None
  | AWrite a _ => if String.eqb a "cache" then Some ev else None
  | _ => None
  end.

Definition fill_kind (k : kind) : bool :=
  match k with
  | KSample f => String.eqb f "getX"
  | KWrite a => String.eqb a "cache"
  | _ => false
  end.

(** The sample of the input at [fst p], stored in the cell [snd p]. *)
Definition stored (p : list value * list value) : list event :=
  [Sample "getX" (fst p); AWrite "cache" (snd p)].

(** What the invocation with the local index [idx] and the output
    coordinates [(b, y, z, _)] puts in the cache of the standard convolution:
    the coordinates of the input, with the cell that receives the value. *)
Definition conv2d_filled (convInfo : Conv2DInfo) (idx b y z : Z)
  : list (list value * list value) :=
  let cacheW := conv2d_cacheW convInfo in
  let row := Z.quot idx cacheW in
  let col := imod idx cacheW in
  let cacheRCorner := y * strideHeight convInfo in
  let cacheCCorner := 16 * Z.quot z 16 * strideWidth convInfo in
  if (idx <? 3 * cacheW)
     && ((cacheRCorner + row <? inHeight convInfo)
         && (cacheCCorner + col <? inWidth convInfo))
  then map (fun i =>
              ([VInt b; VInt (cacheRCorner + row); VInt (cacheCCorner + col); VInt i],
               [VInt row; VInt (col * inChannels convInfo + i)]))
         (range (inChannels convInfo))
  else [].

(** The same for the depthwise convolution, for the invocation with the
    local index [idx] of a workgroup whose first invocation has the output
    coordinates [(b0, y0, z0, w0)]. *)
Definition depthwise_filled (convInfo : Conv2DInfo) (idx b0 y0 z0 w0 : Z)
  : list (list value * list value) :=
  let channelMul := js_div (outChannels convInfo) (inChannels convInfo) in
  let cacheW := depthwise_cacheW convInfo in
  let cacheC := js_div (8 * channelMul) channelMul in
  let row := Z.quot idx cacheW in
  let col := imod idx cacheW in
  let cacheRCorner := y0 * strideHeight convInfo - top (padInfo convInfo) in
  let cacheCCorner := z0 * strideWidth convInfo - left (padInfo convInfo) in
  let cacheDCorner := Z.quot w0 channelMul in
  if (idx <? filterHeight convInfo * cacheW)
     && ((cacheRCorner + row >=? 0) && (cacheCCorner + col >=? 0)
         && (cacheRCorner + row <? inHeight convInfo)
         && (cacheCCorner + col <? inWidth convInfo))
  then map (fun i =>
              ([VInt b0; VInt (cacheRCorner + row); VInt (cacheCCorner + col);
                VInt (cacheDCorner + i)],
               [VInt row; VInt (col * cacheC + i)]))
         (range (Z.min cacheC (inChannels convInfo - cacheDCorner)))
  else [].

(** ** The phases of the depthwise convolution *)

(** Every event, as it is recorded. *)
Definition every_event (ev : event) : option event := Some ev.

(** What an invocation executes for the tap [t] of its window: the load of
    the cell of the cache, then the sample of the weight. *)
Definition tap_events (convInfo : Conv2DInfo) (y0 z0 w0 y z d2 : Z) (t : Z * Z)
  : list event :=
  [ ARead "cache" (depthwise_cell convInfo y0 z0 w0 y z d2 (fst t) (snd t));
    Sample "getW" (depthwise_weight convInfo d2 (fst t) (snd t)) ].

(** The events of the compute phase of the invocation with the output
    coordinates [(_, y, z, d2)], in a workgroup whose first invocation has
    the output coordinates [(_, y0, z0, w0)]: its taps, then the commit of
    the sum, a float. *)
Definition compute_events (convInfo : Conv2DInfo) (y0 z0 w0 y z d2 : Z) : list event :=
  flat_map (tap_events convInfo y0 z0 w0 y z d2)
    (taps convInfo (fst (window_corner convInfo y z)) (snd (window_corner convInfo y z)))
  ++ [Call "setOutput" [VOpq]].

(** The events of the fill of the invocation with the local index [idx], in
    a workgroup whose first invocation has the output coordinates
    [(b0, y0, z0, w0)]. *)
Definition filling_events (convInfo : Conv2DInfo) (idx b0 y0 z0 w0 : Z) : list event :=
  flat_map stored (depthwise_filled convInfo idx b0 y0 z0 w0).

Definition every_kind (k : kind) : bool := true.

(** * Properties *)

(** ** Arithmetic of the template holes *)

Lemma Math_ceil_div_spec (a b : Z) :
  0 < b -> b * (Math_ceil_div a b - 1) < a <= b * Math_ceil_div a b.
Proof.
  intros Hb. unfold Math_ceil_div.
  pose proof (Z.div_mod (- a) b ltac:(lia)) as Hdm.
  pose proof (Z.mod_pos_bound (- a) b Hb) as Hm.
  nia.
Qed.

Lemma Math_ceil_div_exact (a b : Z) :
  0 < b -> a mod b = 0 -> b * Math_ceil_div a b = a.
Proof.
  intros Hb Hm. unfold Math_ceil_div.
  apply Z.mod_divide in Hm; [|lia]. destruct Hm as [q ->].
  rewrite <- Z.mul_opp_l, Z.div_mul by lia. lia.
Qed.

Lemma js_rem_mod (a b : Z) : 0 <= a -> 0 < b -> js_rem a b = a mod b.
Proof. intros. unfold js_rem. apply Z.rem_mod_nonneg; lia. Qed.

Lemma last_tile_remainder (a b : Z) :
  0 <= a -> 0 < b -> a mod b <> 0 ->
  a mod b = a - b * (Math_ceil_div a b - 1).
Proof.
  intros Ha Hb Hne.
  pose proof (Math_ceil_div_spec a b Hb) as Hc.
  pose proof (Z.div_mod a b ltac:(lia)) as Hdm.
  pose proof (Z.mod_pos_bound a b Hb) as Hm.
  assert (Math_ceil_div a b = a / b + 1) by nia.
  nia.
Qed.

(** ** Tiles of the reduction dimension *)

Lemma emitted_numTiles_eq v aShape outShape tA tB TS TSK WPT addBias act :
  emitted_numTiles (matmul_program v aShape outShape tA tB TS TSK WPT addBias act)
  = Some (Math_ceil_div (sharedDimensionPacked aShape tA) (tile_edge v TS TSK)).
Proof. destruct v; reflexivity. Qed.

Lemma find_sizeTS v aShape outShape tA tB TS TSK WPT addBias act :
  find_decl "sizeTS"
    (main (userCode (matmul_program v aShape outShape tA tB TS TSK WPT addBias act)))
  = Some (sizeTS_guard aShape tA (tile_edge v TS TSK)).
Proof. destruct v; reflexivity. Qed.

Lemma eval_sizeTS_guard T aShape tA E n t :
  fst (eval T [("t", VInt t); ("numTiles", VInt n)] (sizeTS_guard aShape tA E))
  = VInt (if (t =? n - 1) && negb (js_rem (sharedDimensionPacked aShape tA) E =? 0)
          then js_rem (sharedDimensionPacked aShape tA) E else E).
Proof.
  unfold sizeTS_guard. cbn.
  destruct (t =? n - 1); cbn; [|reflexivity].
  destruct (js_rem (sharedDimensionPacked aShape tA) E =? 0); reflexivity.
Qed.

(** C1. For each of the four variants, with [R = ceil(sharedDim / 2) > 0]
    the packed reduction extent and [E > 0] the tile edge ([TS], or [TSK] for
    the fourth variant): the emitted [numTiles] is the ceiling of [R / E], and
    in the last tile the emitted [sizeTS] is [R - E * (numTiles - 1)] when
    [R mod E <> 0] and [E] otherwise; the same guard in all four. *)
Theorem C1_tile_remainder
  (v : variant) (aShape outShape : list Z) (tA tB : bool) (TS TSK WPT : Z)
  (addBias : bool) (act : option string) (T : thread) :
  let R := sharedDimensionPacked aShape tA in
  let E := tile_edge v TS TSK in
  let p := matmul_program v aShape outShape tA tB TS TSK WPT addBias act in
  0 < R -> 0 < E ->
  exists numTiles,
    emitted_numTiles p = Some numTiles /\
    E * (numTiles - 1) < R <= E * numTiles /\
    emitted_sizeTS T p (numTiles - 1)
    = Some (VInt (if R mod E =? 0 then E else R - E * (numTiles - 1))).
Proof.
  intros R E p HR HE.
  exists (Math_ceil_div R E). split; [apply emitted_numTiles_eq|].
  split; [apply Math_ceil_div_spec; assumption|].
  unfold emitted_sizeTS, p.
  rewrite find_sizeTS, emitted_numTiles_eq, eval_sizeTS_guard.
  fold R E. rewrite Z.eqb_refl, js_rem_mod by lia. cbn [andb].
  destruct (R mod E =? 0) eqn:Hm; cbn [negb]; [reflexivity|].
  apply Z.eqb_neq in Hm. rewrite (last_tile_remainder R E) by lia. reflexivity.
Qed.

Lemma C1_tile_remainder_witness :
  0 < sharedDimensionPacked [1; 4; 10] false /\
  0 < tile_edge CSV4 4 2 /\
  exists numTiles,
    emitted_numTiles
      (matmul_program CSV4 [1; 4; 10] [1; 4; 4] false false 4 2 2 false None)
    = Some numTiles /\
    2 * (numTiles - 1) < 5 <= 2 * numTiles /\
    emitted_sizeTS thread_1_1
      (matmul_program CSV4 [1; 4; 10] [1; 4; 4] false false 4 2 2 false None)
      (numTiles - 1)
    = Some (VInt (if 5 mod 2 =? 0 then 2 else 5 - 2 * (numTiles - 1))).
Proof.
  split; [reflexivity|]. split; [reflexivity|].
  apply (C1_tile_remainder CSV4 [1; 4; 10] [1; 4; 4] false false 4 2 2 false None);
    reflexivity.
Defined.

(** Before the last tile the guard leaves the whole edge. *)
Lemma full_tiles_before_the_last
  (v : variant) (aShape outShape : list Z) (tA tB : bool) (TS TSK WPT : Z)
  (addBias : bool) (act : option string) (T : thread) (t : Z) :
  let p := matmul_program v aShape outShape tA tB TS TSK WPT addBias act in
  t <> Math_ceil_div (sharedDimensionPacked aShape tA) (tile_edge v TS TSK) - 1 ->
  emitted_sizeTS T p t = Some (VInt (tile_edge v TS TSK)).
Proof.
  intros p Ht. unfold emitted_sizeTS, p.
  rewrite find_sizeTS, emitted_numTiles_eq, eval_sizeTS_guard.
  apply Z.eqb_neq in Ht. rewrite Ht. reflexivity.
Qed.

(** ** Swizzles of the packed operands *)

(** C2. In each of the four variants and for every shape, tile size, bias
    flag and activation, the body applies to the texel [a] the swizzles
    [xxzz], [yyww] when [transposeA] is false and [xxyy], [zzww] when it is
    true, and to the texel [b] the swizzles [xyxy], [zwzw] when [transposeB]
    is false and [xzxz], [ywyw] when it is true, and no others. *)
Theorem C2_swizzle_table
  (v : variant) (aShape outShape : list Z) (tA tB : bool) (TS TSK WPT : Z)
  (addBias : bool) (act : option string) :
  let p := matmul_program v aShape outShape tA tB TS TSK WPT addBias act in
  swizzles_of "a" p = (if tA then ["xxyy"; "zzww"] else ["xxzz"; "yyww"]) /\
  swizzles_of "b" p = (if tB then ["xzxz"; "ywyw"] else ["xyxy"; "zwzw"]).
Proof.
  destruct v, tA, tB, addBias, act as [[|c s]|]; split; reflexivity.
Qed.

(** ** The end-to-end matmul example *)

(** C7, as the spec has it: [numTiles] would be 2.  The constructor halves
    the shared dimension first ([sharedDimensionPacked = ceil(4 / 2) = 2]), so
    one tile of edge 2 covers it. *)
Lemma C7_numTiles_is_not_2 :
  emitted_numTiles (MatMulPackedProgramCSV1 [1; 4; 4] [1; 4; 4] false false 2 false None)
  <> Some 2.
Proof. vm_compute. discriminate. Qed.

(** C7, amended. For [aShape = [1,4,4]], [outputShape = [1,4,4]], no
    transposition and [TS = 2], the first variant has
    [localGroupSize = [2,2]], emits [numTiles = 1], and declares the shared
    arrays [Asub] and [Bsub] with extents [2][2]. *)
Theorem C7_end_to_end_matmul :
  let p := MatMulPackedProgramCSV1 [1; 4; 4] [1; 4; 4] false false 2 false None in
  localGroupSize p = Some [2; 2] /\
  emitted_numTiles p = Some 1 /\
  declared_extents "Asub" p = Some [EInt 2; EInt 2] /\
  declared_extents "Bsub" p = Some [EInt 2; EInt 2].
Proof. repeat split. Qed.

(** ** Output shapes *)

(** C9. Every constructor stores the output shape it is given: the four
    matmul variants and the packed decode their [outputShape] argument, the
    two convolutions [convInfo.outShape]. *)
Theorem C9_shape_conformance :
  (forall v aShape outShape tA tB TS TSK WPT addBias act,
      outputShape (matmul_program v aShape outShape tA tB TS TSK WPT addBias act)
      = outShape) /\
  (forall glsl_output coords outShape texShape,
      outputShape (DecodeMatrixPackedProgram glsl_output coords outShape texShape)
      = outShape) /\
  (forall convInfo,
      outputShape (DepthwiseConv2DProgramCS convInfo) = outShape convInfo) /\
  (forall convInfo,
      outputShape (Conv2DProgramCS convInfo) = outShape convInfo).
Proof.
  repeat split. intros v; destruct v; reflexivity.
Qed.

(** ** Bias requests on the third and fourth variants *)

(** C5, as the spec has it: a bias request would make the construction
    fail.  It returns an object. *)
Lemma C5_bias_request_returns_a_program :
  (forall e, result (MatMulPackedProgramCSV3 [1; 4; 4] [1; 4; 4] false false 2 1 true None)
             <> Thrown e) /\
  (forall e, result (MatMulPackedProgramCSV4 [1; 4; 4] [1; 4; 4] false false 2 2 1 true None)
             <> Thrown e).
Proof. split; intros e; discriminate. Qed.

(** C5, amended. With [addBias = true] the third and fourth variants print
    [bias is not supported] with [console.error] and return a program all
    the same: its inputs are [matrixA] and [matrixB] only, and it is the
    program built without the bias request. *)
Theorem C5_bias_is_reported_and_ignored
  (aShape outShape : list Z) (tA tB : bool) (TS TSK WPT : Z) (act : option string) :
  let c3 b := MatMulPackedProgramCSV3 aShape outShape tA tB TS WPT b act in
  let c4 b := MatMulPackedProgramCSV4 aShape outShape tA tB TS TSK WPT b act in
  (console (c3 true) = ["bias is not supported"] /\
   (exists p, result (c3 true) = Returned p /\
              variableNames p = ["matrixA"; "matrixB"] /\
              result (c3 false) = Returned p) /\
   console (c3 false) = []) /\
  (console (c4 true) = ["bias is not supported"] /\
   (exists p, result (c4 true) = Returned p /\
              variableNames p = ["matrixA"; "matrixB"] /\
              result (c4 false) = Returned p) /\
   console (c4 false) = []).
Proof.
  split; (split; [reflexivity|]; split; [|reflexivity]);
    eexists; (split; [reflexivity|]); split; reflexivity.
Qed.

(** ** Channel mapping of the depthwise convolution *)

Lemma depthwise_index_mapping_eq (T : thread) (convInfo : Conv2DInfo) (d2 : Z) :
  let cm := js_div (outChannels convInfo) (inChannels convInfo) in
  index_mapping T (DepthwiseConv2DProgramCS convInfo) d2
  = Some (Z.quot d2 cm, d2 - Z.quot d2 cm * cm).
Proof. reflexivity. Qed.

(** C8. For a depthwise descriptor with
    [outChannels = inChannels * channelMultiplier], [inChannels] and the
    multiplier positive, and every [d2] in [[0, outChannels)], the emitted
    [d1 = d2 / channelMul] and [q = d2 - d1 * channelMul] satisfy
    [0 <= d1 < inChannels] and [0 <= q < channelMultiplier]; with
    [inChannels = 3], multiplier 2 and [d2 = 5]: [d1 = 2] and [q = 1]. *)
Theorem C8_depthwise_index_mapping
  (T : thread) (convInfo : Conv2DInfo) (channelMultiplier d2 : Z) :
  0 < inChannels convInfo ->
  0 < channelMultiplier ->
  outChannels convInfo = inChannels convInfo * channelMultiplier ->
  0 <= d2 < outChannels convInfo ->
  (exists d1 q,
      index_mapping T (DepthwiseConv2DProgramCS convInfo) d2 = Some (d1, q) /\
      0 <= d1 < inChannels convInfo /\
      0 <= q < channelMultiplier /\
      d2 = d1 * channelMultiplier + q) /\
  index_mapping T (DepthwiseConv2DProgramCS depthwise_example) 5 = Some (2, 1).
Proof.
  intros Hin Hcm Hout Hd2. split; [|reflexivity].
  assert (Hmul : js_div (outChannels convInfo) (inChannels convInfo) = channelMultiplier).
  { unfold js_div. rewrite Hout, Z.mul_comm. apply Z.quot_mul. lia. }
  rewrite depthwise_index_mapping_eq, Hmul.
  rewrite Z.quot_div_nonneg by lia.
  pose proof (Z.div_mod d2 channelMultiplier ltac:(lia)) as Hdm.
  pose proof (Z.mod_pos_bound d2 channelMultiplier Hcm) as Hm.
  eexists _, _. split; [reflexivity|].
  assert (0 <= d2 / channelMultiplier) by (apply Z.div_pos; lia).
  assert (d2 / channelMultiplier < inChannels convInfo)
    by (apply Z.div_lt_upper_bound; nia).
  nia.
Qed.

Lemma C8_depthwise_index_mapping_witness :
  0 < inChannels depthwise_example /\
  0 < 2 /\
  outChannels depthwise_example = inChannels depthwise_example * 2 /\
  0 <= 5 < outChannels depthwise_example /\
  (exists d1 q,
      index_mapping out_of_range_thread
        (DepthwiseConv2DProgramCS depthwise_example) 5 = Some (d1, q) /\
      0 <= d1 < 3 /\ 0 <= q < 2 /\ 5 = d1 * 2 + q) /\
  index_mapping out_of_range_thread
    (DepthwiseConv2DProgramCS depthwise_example) 5 = Some (2, 1).
Proof.
  split; [reflexivity|]. split; [reflexivity|]. split; [reflexivity|].
  split; [simpl; lia|].
  apply (C8_depthwise_index_mapping out_of_range_thread depthwise_example 2 5);
    simpl; lia.
Defined.

(** ** Induction on the syntax *)

Section Induction.

Variable P : expr -> Prop.
Hypothesis HInt : forall z, P (EInt z).
Hypothesis HFloat : forall w f, P (EFloat w f).
Hypothesis HBool : forall b, P (EBool b).
Hypothesis HVar : forall x, P (EVar x).
Hypothesis HField : forall e f, P e -> P (EField e f).
Hypothesis HIdx : forall a idx, Forall P idx -> P (EIdx a idx).
Hypothesis HBin : forall op a b, P a -> P b -> P (EBin op a b).
Hypothesis HCond : forall c a b, P c -> P a -> P b -> P (ECond c a b).
Hypothesis HCall : forall f args, Forall P args -> P (ECall f args).

Lemma expr_induction (e : expr) : P e.
Proof.
  revert e. fix IH 1. intros [z|w f|b|x|e1 f|a idx|op a b|c a b|f args].
  - apply HInt.
  - apply HFloat.
  - apply HBool.
  - apply HVar.
  - apply HField, IH.
  - apply HIdx. induction idx as [|x l IHl]; constructor; [apply IH|exact IHl].
  - apply HBin; apply IH.
  - apply HCond; apply IH.
  - apply HCall. induction args as [|x l IHl]; constructor; [apply IH|exact IHl].
Qed.

End Induction.

Section StmtInduction.

Variable P : stmt -> Prop.
Hypothesis HDecl : forall ty x dims init, P (SDecl ty x dims init).
Hypothesis HAssign : forall lhs rhs, P (SAssign lhs rhs).
Hypothesis HAddAssign : forall lhs rhs, P (SAddAssign lhs rhs).
Hypothesis HIf : forall c th el, Forall P th -> Forall P el -> P (SIf c th el).
Hypothesis HFor : forall i lo hi step body, Forall P body -> P (SFor i lo hi step body).
Hypothesis HCall : forall f args, P (SCall f args).
Hypothesis HContinue : P SContinue.
Hypothesis HBreak : P SBreak.
Hypothesis HReturn : P SReturn.

Lemma stmt_induction (s : stmt) : P s.
Proof.
  revert s. fix IH 1. intros [ty x dims init|lhs rhs|lhs rhs|c th el|i lo hi step body|f args| | |].
  - apply HDecl.
  - apply HAssign.
  - apply HAddAssign.
  - apply HIf.
    + induction th as [|x l IHl]; constructor; [apply IH|exact IHl].
    + induction el as [|x l IHl]; constructor; [apply IH|exact IHl].
  - apply HFor. induction body as [|x l IHl]; constructor; [apply IH|exact IHl].
  - apply HCall.
  - apply HContinue.
  - apply HBreak.
  - apply HReturn.
Qed.

End StmtInduction.

(** ** General facts about the evaluator *)

Lemma emits_nil ks : emits ks [].
Proof. constructor. Qed.

Lemma emits_app ks e1 e2 : emits ks e1 -> emits ks e2 -> emits ks (e1 ++ e2).
Proof. intros; apply Forall_app; split; assumption. Qed.

Lemma emits_incl ks ks' evs : incl ks ks' -> emits ks evs -> emits ks' evs.
Proof.
  intros Hi He. eapply Forall_impl; [|exact He]. intros ev Hin. apply Hi, Hin.
Qed.

Lemma emits_one ks ev : In (kind_of ev) ks -> emits ks [ev].
Proof. intros; constructor; [assumption|constructor]. Qed.

Create HintDb emits.
#[local] Hint Resolve emits_nil emits_app emits_one : emits.

Ltac emits_sub :=
  match goal with
  | H : emits ?ks ?ev |- emits _ ?ev =>
      apply (emits_incl ks _ ev); [|exact H];
      let k := fresh "k" in
      let Hk := fresh "Hk" in
      intros k Hk; simpl in Hk |- *; rewrite ?in_app_iff in *; intuition auto
  end.

Section Generic.

Variable T : thread.

Lemma call_kinds f vs : emits (sample_kind f) (snd (call T f vs)).
Proof.
  unfold sample_kind. destruct (mem f intrinsics) eqn:E.
  - unfold mem in E. apply existsb_exists in E. destruct E as (g & Hg & E).
    apply String.eqb_eq in E. subst g.
    unfold intrinsics, pure_builtins in Hg. cbn [app In] in Hg.
    repeat (destruct Hg as [<-|Hg]; [constructor|]). destruct Hg.
  - unfold call.
    repeat match goal with
           | |- context [if ?b then _ else _] => destruct b
           end; cbn [snd]; try constructor.
    + cbn. auto.
    + constructor.
Qed.

Lemma eval_list_kinds rho es :
  Forall (fun e => forall rho, emits (expr_kinds e) (snd (eval T rho e))) es ->
  emits (flat_map expr_kinds es) (snd (eval_list (eval T rho) es)).
Proof.
  induction 1 as [|e es He _ IH]; simpl; [constructor|].
  specialize (He rho).
  destruct (eval T rho e) as [v ev1], (eval_list (eval T rho) es) as [vs ev2].
  simpl in *. apply emits_app; emits_sub.
Qed.

Lemma eval_kinds e : forall rho, emits (expr_kinds e) (snd (eval T rho e)).
Proof.
  induction e as [z|w f|b|x|e f IH|a idx IH|op a b IHa IHb|c a b IHc IHa IHb|f args IH]
    using expr_induction; intros rho; simpl.
  - constructor.
  - constructor.
  - constructor.
  - destruct (builtin_var T x); constructor.
  - specialize (IH rho). destruct (eval T rho e) as [v ev]. exact IH.
  - pose proof (eval_list_kinds rho idx IH) as H.
    destruct (eval_list (eval T rho) idx) as [vs ev]. simpl in H.
    assert (Hd : emits (KRead a :: flat_map expr_kinds idx) (ev ++ [ARead a vs])).
    { apply emits_app; [emits_sub|apply emits_one; simpl; auto]. }
    assert (Hs : emits (KRead a :: flat_map expr_kinds idx) ev) by emits_sub.
    destruct (lookup a rho) as [[z|l|b|]|]; try exact Hd.
    destruct vs as [|[i|l'|b|] [|v' vs']]; try exact Hd. exact Hs.
  - specialize (IHa rho). specialize (IHb rho).
    destruct (eval T rho a) as [v1 ev1], (eval T rho b) as [v2 ev2]. simpl in *.
    assert (Hd : emits (expr_kinds a ++ expr_kinds b) (ev1 ++ ev2))
      by (apply emits_app; emits_sub).
    assert (Hs : emits (expr_kinds a ++ expr_kinds b) ev1) by emits_sub.
    destruct op; try exact Hd; destruct v1 as [z|l|[|]|]; first [exact Hd|exact Hs].
  - specialize (IHc rho). specialize (IHa rho). specialize (IHb rho).
    destruct (eval T rho c) as [vc ev], (eval T rho a) as [va eva],
      (eval T rho b) as [vb evb]. simpl in *.
    destruct vc as [z|l|[|]|]; simpl; try emits_sub; apply emits_app; emits_sub.
  - pose proof (eval_list_kinds rho args IH) as H.
    destruct (eval_list (eval T rho) args) as [vs ev]. simpl in H.
    pose proof (call_kinds f vs) as Hc.
    destruct (call T f vs) as [v ev']. simpl in *.
    apply emits_app; emits_sub.
Qed.

Lemma eval_list_kinds' rho es :
  emits (flat_map expr_kinds es) (snd (eval_list (eval T rho) es)).
Proof.
  apply eval_list_kinds, Forall_forall. intros e _. apply eval_kinds.
Qed.

Lemma for_iter_kinds ks run i step :
  (forall rho, emits ks (events_of (run rho))) ->
  forall n k rho, emits ks (events_of (for_iter run i k step n rho)).
Proof.
  intros Hrun. induction n as [|n IH]; intros k rho; simpl; [constructor|].
  specialize (Hrun ((i, VInt k) :: rho)).
  destruct (run ((i, VInt k) :: rho)) as [[o rho1] ev1].
  specialize (IH (k + step) rho1).
  destruct (for_iter run i (k + step) step n rho1) as [[o2 rho2] ev2].
  unfold events_of in *; simpl in *.
  destruct o; simpl; auto with emits.
Qed.

Lemma exec_block_kinds ss :
  Forall (fun s => forall rho, emits (stmt_kinds s) (events_of (exec_stmt T s rho))) ss ->
  forall rho, emits (block_kinds ss) (events_of (exec_block (exec_stmt T) ss rho)).
Proof.
  induction 1 as [|s ss Hs _ IH]; intros rho; simpl; [constructor|].
  specialize (Hs rho).
  destruct (exec_stmt T s rho) as [[o rho1] ev1].
  specialize (IH rho1).
  destruct (exec_block (exec_stmt T) ss rho1) as [[o2 rho2] ev2].
  unfold events_of, block_kinds in *; simpl in *.
  destruct o; simpl; try emits_sub. apply emits_app; emits_sub.
Qed.

Lemma exec_stmt_kinds s :
  forall rho, emits (stmt_kinds s) (events_of (exec_stmt T s rho)).
Proof.
  induction s as [ty x dims init|lhs rhs|lhs rhs|c th el IHt IHe|i lo hi step body IH
                 |f args| | |] using stmt_induction;
    intros rho; unfold events_of; simpl.
  - destruct init as [e|]; [|constructor].
    pose proof (eval_kinds e rho) as H. destruct (eval T rho e) as [v ev]. exact H.
  - pose proof (eval_kinds rhs rho) as H.
    destruct lhs; try (destruct (eval T rho rhs) as [v ev]; exact H).
    pose proof (eval_list_kinds' rho idx) as Hi.
    destruct (eval_list (eval T rho) idx) as [vs ev1], (eval T rho rhs) as [v ev2].
    simpl in *. repeat apply emits_app; try emits_sub. apply emits_one; simpl; auto.
  - pose proof (eval_kinds rhs rho) as H.
    destruct lhs; try (destruct (eval T rho rhs) as [v ev]; exact H).
    pose proof (eval_list_kinds' rho idx) as Hi.
    destruct (eval_list (eval T rho) idx) as [vs ev1], (eval T rho rhs) as [v ev2].
    simpl in *. apply emits_app; [emits_sub|].
    constructor; [simpl; auto|].
    apply emits_app; [emits_sub|apply emits_one; simpl; auto].
  - pose proof (eval_kinds c rho) as Hc.
    pose proof (exec_block_kinds th IHt rho) as Ht.
    pose proof (exec_block_kinds el IHe rho) as He.
    destruct (eval T rho c) as [vc ev].
    destruct (exec_block (exec_stmt T) th rho) as [[o1 r1] ev1].
    destruct (exec_block (exec_stmt T) el rho) as [[o2 r2] ev2].
    unfold events_of, block_kinds in *; simpl in *.
    destruct vc as [z|l|[|]|]; simpl; try emits_sub; apply emits_app; emits_sub.
  - pose proof (eval_kinds lo rho) as Hlo. pose proof (eval_kinds hi rho) as Hhi.
    destruct (eval T rho lo) as [vlo ev1], (eval T rho hi) as [vhi ev2]. simpl in *.
    assert (Hd : emits (expr_kinds lo ++ expr_kinds hi ++ flat_map stmt_kinds body)
                   (ev1 ++ ev2)) by (apply emits_app; emits_sub).
    destruct vlo as [a|l|b|]; try exact Hd.
    destruct vhi as [b|l|b|]; try exact Hd.
    destruct (0 <? step); try exact Hd.
    pose proof (for_iter_kinds (block_kinds body) (exec_block (exec_stmt T) body) i step
                  (exec_block_kinds body IH) (trip_count a b step) a rho) as Hf.
    destruct (for_iter _ i a step _ rho) as [[o r] ev3].
    unfold events_of, block_kinds in *; simpl in *.
    repeat apply emits_app; emits_sub.
  - pose proof (eval_list_kinds' rho args) as Hi.
    destruct (eval_list (eval T rho) args) as [vs ev]. simpl in *.
    apply emits_app; [emits_sub|apply emits_one; simpl; auto].
  - constructor.
  - constructor.
  - constructor.
Qed.

Lemma exec_kinds ss rho : emits (block_kinds ss) (events_of (exec T ss rho)).
Proof.
  apply exec_block_kinds, Forall_forall. intros s _. apply exec_stmt_kinds.
Qed.

(** Running [a ++ b] is running [a], then [b] if [a] ends normally. *)
Lemma exec_app a b rho :
  exec T (a ++ b) rho =
  match exec T a rho with
  | (ONormal, rho1, ev1) =>
      let '(o, rho2, ev2) := exec T b rho1 in (o, rho2, ev1 ++ ev2)
  | r => r
  end.
Proof.
  unfold exec. revert rho. induction a as [|s a IH]; intros rho; simpl.
  - destruct (exec_block (exec_stmt T) b rho) as [[o r] ev]. reflexivity.
  - destruct (exec_stmt T s rho) as [[o rho1] ev1].
    destruct o; try reflexivity.
    rewrite IH.
    destruct (exec_block (exec_stmt T) a rho1) as [[o2 rho2] ev2].
    destruct o2; try reflexivity.
    destruct (exec_block (exec_stmt T) b rho2) as [[o3 rho3] ev3].
    rewrite app_assoc. reflexivity.
Qed.

Lemma exec_cons s ss rho :
  exec T (s :: ss) rho =
  match exec_stmt T s rho with
  | (ONormal, rho1, ev1) =>
      let '(o, rho2, ev2) := exec T ss rho1 in (o, rho2, ev1 ++ ev2)
  | r => r
  end.
Proof. reflexivity. Qed.

Lemma exec_nil rho : exec T [] rho = (ONormal, rho, []).
Proof. reflexivity. Qed.

Lemma exec_single s rho : exec T [s] rho = exec_stmt T s rho.
Proof.
  rewrite exec_cons. destruct (exec_stmt T s rho) as [[o rho1] ev1].
  destruct o; try reflexivity. rewrite exec_nil, app_nil_r. reflexivity.
Qed.

Lemma exec_decl ty x e rho :
  exec_stmt T (decl ty x e) rho
  = (ONormal, (x, fst (eval T rho e)) :: rho, snd (eval T rho e)).
Proof. simpl. destruct (eval T rho e). reflexivity. Qed.

(** [if (x >= B) continue;] on a local [x]. *)
Lemma exec_guard x B rho :
  builtin_var T x = None ->
  exec_stmt T (if_ (EVar x >= EInt B) [ SContinue ]) rho =
  match lookup x rho with
  | Some (VInt z) => if z >=? B then (OContinue, rho, []) else (ONormal, rho, [])
  | _ => (OStuck, rho, [])
  end.
Proof.
  intros Hx. simpl. rewrite Hx.
  destruct (lookup x rho) as [[z|l|b|]|]; simpl; try reflexivity.
  all: destruct (z >=? B); reflexivity.
Qed.

Lemma exec_for_upto i hi body rho :
  exec_stmt T (for_upto i (EInt hi) body) rho =
  for_iter (exec T body) i 0 1 (trip_count 0 hi 1) rho.
Proof.
  simpl. unfold exec.
  destruct (for_iter _ i 0 1 _ rho) as [[o rho1] ev]. reflexivity.
Qed.

End Generic.

(** ** Counting loops *)

Lemma for_iter_rule (I : env -> Prop) (P : event -> Prop) (O : outcome -> Prop)
  (run : env -> result_of) (i : string) (step : Z) :
  O ONormal ->
  (forall k rho, I rho ->
     let r := run ((i, VInt k) :: rho) in
     I (env_of r) /\ Forall P (events_of r) /\
     (outcome_of r = ONormal \/ outcome_of r = OContinue \/ outcome_of r = OBreak \/
      O (outcome_of r))) ->
  forall n k rho, I rho ->
     let r := for_iter run i k step n rho in
     I (env_of r) /\ Forall P (events_of r) /\ O (outcome_of r).
Proof.
  intros HO Hrun. induction n as [|n IH]; intros k rho HI; simpl.
  - unfold env_of, events_of, outcome_of; simpl. auto.
  - specialize (Hrun k rho HI). simpl in Hrun.
    destruct (run ((i, VInt k) :: rho)) as [[o rho1] ev1].
    unfold env_of, events_of, outcome_of in *; simpl in *.
    destruct Hrun as (HI1 & HP1 & Ho).
    specialize (IH (k + step) rho1 HI1). simpl in IH.
    destruct (for_iter run i (k + step) step n rho1) as [[o2 rho2] ev2].
    simpl in IH. destruct IH as (HI2 & HP2 & HO2).
    destruct o; simpl; repeat split; auto using Forall_app;
      try (apply Forall_app; split; assumption);
      destruct Ho as [Ho|[Ho|[Ho|Ho]]]; try discriminate; assumption.
Qed.

Lemma expr_no_call (e : expr) (f : string) : ~ In (KCall f) (expr_kinds e).
Proof.
  induction e as [z|w g|b|x|e g IH|a idx IH|op a b IHa IHb|c a b IHc IHa IHb|g args IH]
    using expr_induction; simpl; try tauto.
  - intros [H|H]; [discriminate|].
    apply in_flat_map in H. destruct H as (x & Hx & Hin).
    rewrite Forall_forall in IH. exact (IH x Hx Hin).
  - rewrite in_app_iff. tauto.
  - rewrite !in_app_iff. tauto.
  - rewrite in_app_iff. intros [H|H].
    + unfold sample_kind in H. destruct (mem g intrinsics); [destruct H|].
      destruct H as [H|[]]. discriminate.
    + apply in_flat_map in H. destruct H as (x & Hx & Hin).
      rewrite Forall_forall in IH. exact (IH x Hx Hin).
Qed.

Lemma events_of_eta (r : result_of) :
  events_of (let '(o, rho, ev) := r in (o, rho, ev)) = events_of r.
Proof. destruct r as [[o rho] ev]. reflexivity. Qed.

Lemma env_of_eta (r : result_of) :
  env_of (let '(o, rho, ev) := r in (o, rho, ev)) = env_of r.
Proof. destruct r as [[o rho] ev]. reflexivity. Qed.

(** *** Stores behind the two range guards

    The loop nest that commits the accumulators of the third and of the
    fourth variant, for any names of its variables and any initialisers of
    the two coordinates. *)
Section StoreGuards.

Variable T : thread.
Variables (rows cols : Z).
Variables (iv jv rv cv : string) (re ce : expr) (WPT : Z).
Variables (act : list stmt) (acc : expr).

Hypothesis cv_local : builtin_var T cv = None.
Hypothesis rv_local : builtin_var T rv = None.
Hypothesis rv_cv : String.eqb rv cv = false.
Hypothesis rv_jv : String.eqb rv jv = false.
Hypothesis act_env : forall rho, env_of (exec T act rho) = rho.
Hypothesis act_kinds : ~ In (KCall "imageStore") (block_kinds act).

Let P (ev : event) : Prop := store_in_range rows cols ev = true.

#[local] Set Warnings "-notation-for-abbreviation".
#[local] Notation store_stmt := (store_stmt rv cv acc).
#[local] Notation inner_body := (inner_body cols rv cv ce act acc).
#[local] Notation outer_body := (outer_body rows cols jv rv cv re ce WPT act acc).
#[local] Notation store_nest := (store_nest rows cols iv jv rv cv re ce WPT act acc).

Lemma no_store_in_range ks evs :
  emits ks evs -> ~ In (KCall "imageStore") ks -> Forall P evs.
Proof.
  intros He Hn. eapply Forall_impl; [|exact He].
  intros [a i|a i|f a|f a] Hin; try reflexivity.
  unfold P; simpl. destruct (String.eqb f "imageStore") eqn:E; [|reflexivity].
  apply String.eqb_eq in E. subst f. contradiction.
Qed.

Lemma eval_in_range rho e : Forall P (snd (eval T rho e)).
Proof. eapply no_store_in_range; [apply eval_kinds|apply expr_no_call]. Qed.

(** The store itself, once both coordinates are known to be in range. *)
Lemma store_in_range_ok rho c r :
  lookup cv rho = Some (VInt c) -> lookup rv rho = Some (VInt r) ->
  r < rows -> c < cols ->
  Forall P (events_of (exec T [ store_stmt ] rho)) /\
  env_of (exec T [ store_stmt ] rho) = rho.
Proof.
  intros Hc Hr Hlr Hlc.
  pose proof (eval_in_range rho acc) as Hk.
  unfold exec, events_of, env_of. cbn. rewrite cv_local, rv_local, Hc, Hr.
  destruct (eval T rho acc) as [v ev]. cbn in *.
  rewrite !app_nil_r. split; [|reflexivity]. apply Forall_app. split.
  - exact Hk.
  - constructor; [|constructor]. unfold P. cbn.
    apply andb_true_intro. split; apply Z.ltb_lt; assumption.
Qed.

Lemma act_then_store rho c r :
  lookup cv rho = Some (VInt c) -> lookup rv rho = Some (VInt r) ->
  r < rows -> c < cols ->
  Forall P (events_of (exec T (act ++ [ store_stmt ]) rho)) /\
  env_of (exec T (act ++ [ store_stmt ]) rho) = rho.
Proof.
  intros Hc Hr Hlr Hlc. rewrite exec_app.
  pose proof (exec_kinds T act rho) as Hk. pose proof (act_env rho) as He.
  destruct (exec T act rho) as [[o rho1] ev1].
  unfold env_of, events_of in *. cbn in He, Hk. subst rho1.
  assert (H1 : Forall P ev1) by (eapply no_store_in_range; eassumption).
  destruct (store_in_range_ok rho c r Hc Hr Hlr Hlc) as [H2 H3].
  unfold events_of, env_of in H2, H3.
  destruct (exec T [store_stmt] rho) as [[o2 rho2] ev2]. cbn in H2, H3.
  destruct o; cbn; auto. split; [apply Forall_app; split; assumption|assumption].
Qed.

Lemma inner_body_ok rho r k :
  lookup rv rho = Some (VInt r) -> r < rows ->
  let res := exec T inner_body ((jv, VInt k) :: rho) in
  lookup rv (env_of res) = Some (VInt r) /\ Forall P (events_of res).
Proof.
  intros Hr Hlt res. subst res. unfold inner_body.
  assert (Hframe : forall v, lookup rv ((cv, v) :: (jv, VInt k) :: rho) = Some (VInt r)).
  { intros v. cbn [lookup]. rewrite rv_cv, rv_jv. exact Hr. }
  pose proof (eval_in_range ((jv, VInt k) :: rho) ce) as Hce.
  cbn [app]. rewrite exec_cons, exec_decl. cbv beta iota.
  rewrite exec_cons, exec_guard by exact cv_local.
  cbn [lookup]. rewrite String.eqb_refl.
  destruct (fst (eval T ((jv, VInt k) :: rho) ce)) as [c|l|b|];
    try (unfold env_of, events_of; cbn [fst snd]; rewrite ?app_nil_r;
         split; [apply Hframe|exact Hce]).
  destruct (c >=? cols) eqn:E;
    try (unfold env_of, events_of; cbn [fst snd]; rewrite ?app_nil_r;
         split; [apply Hframe|exact Hce]).
  assert (Hc : c < cols) by (rewrite Z.geb_leb in E; apply Z.leb_gt in E; lia).
  destruct (act_then_store ((cv, VInt c) :: (jv, VInt k) :: rho) c r) as [H1 H2];
    [cbn [lookup]; rewrite String.eqb_refl; reflexivity|apply Hframe|assumption|assumption|].
  destruct (exec T (act ++ [store_stmt]) _) as [[o2 rho2] ev2].
  unfold env_of, events_of in *. cbn [fst snd app] in *. subst rho2.
  split; [apply Hframe|]. apply Forall_app. split; [exact Hce|exact H1].
Qed.

Lemma inner_loop_ok rho r :
  lookup rv rho = Some (VInt r) -> r < rows ->
  Forall P (events_of (exec_stmt T (for_upto jv WPT inner_body) rho)).
Proof.
  intros Hr Hlt. rewrite exec_for_upto.
  refine (proj1 (proj2 (for_iter_rule (fun rho => lookup rv rho = Some (VInt r)) P
                          (fun _ => True) (exec T inner_body) jv 1 I _ _ 0 rho Hr))).
  intros k rho' H. destruct (inner_body_ok rho' r k H Hlt) as [Ha Hb].
  split; [exact Ha|split; [exact Hb|do 3 right; exact I]].
Qed.

Lemma outer_body_ok rho k :
  Forall P (events_of (exec T outer_body ((iv, VInt k) :: rho))).
Proof.
  unfold outer_body.
  pose proof (eval_in_range ((iv, VInt k) :: rho) re) as Hre.
  rewrite exec_cons, exec_decl. cbv beta iota.
  rewrite exec_cons, exec_guard by exact rv_local.
  cbn [lookup]. rewrite String.eqb_refl.
  destruct (fst (eval T ((iv, VInt k) :: rho) re)) as [r|l|b|];
    try (unfold events_of; cbn [snd]; rewrite ?app_nil_r; exact Hre).
  destruct (r >=? rows) eqn:E;
    try (unfold events_of; cbn [snd]; rewrite ?app_nil_r; exact Hre).
  assert (Hr : r < rows) by (rewrite Z.geb_leb in E; apply Z.leb_gt in E; lia).
  pose proof (inner_loop_ok ((rv, VInt r) :: (iv, VInt k) :: rho) r) as Hin.
  cbn [lookup] in Hin. rewrite String.eqb_refl in Hin. specialize (Hin eq_refl Hr).
  cbv beta iota. rewrite exec_single.
  destruct (exec_stmt T (for_upto jv WPT inner_body) _) as [[o rho1] ev1].
  unfold events_of in *. cbn [snd app] in *. rewrite ?app_nil_r.
  apply Forall_app; split; assumption.
Qed.

Lemma store_nest_ok rho : Forall P (events_of (exec_stmt T store_nest rho)).
Proof.
  unfold store_nest. rewrite exec_for_upto.
  refine (proj1 (proj2 (for_iter_rule (fun _ => True) P (fun _ => True)
                          (exec T outer_body) iv 1 I _ _ 0 rho I))).
  intros k rho' _. pose proof (outer_body_ok rho' k) as Hb.
  split; [exact I|split; [exact Hb|do 3 right; exact I]].
Qed.

End StoreGuards.

(** ** Commits of the accumulators *)

Lemma assign_idx_env T a idx rhs rho :
  env_of (exec T [SAssign (EIdx a idx) rhs] rho) = rho.
Proof.
  rewrite exec_single. simpl.
  destruct (eval_list (eval T rho) idx), (eval T rho rhs). reflexivity.
Qed.

Ltac not_among :=
  cbn; let H := fresh "H" in
       intros H; repeat (destruct H as [H|H]; [discriminate H|]); exact H.

Lemma activation_in_place T (acc_name : string) (idx : list expr) (act : option string) :
  let acc := EIdx acc_name idx in
  let snippet := if truthy act then [SAssign acc (ECall "activation" [acc])] else [] in
  (forall rho, env_of (exec T snippet rho) = rho) /\
  ~ In (KCall "imageStore") (block_kinds snippet).
Proof.
  intros acc snippet. subst snippet. destruct (truthy act); split.
  - intros rho. apply assign_idx_env.
  - unfold block_kinds. cbn [flat_map stmt_kinds acc]. rewrite app_nil_r.
    intros [H|H]; [discriminate|]. rewrite in_app_iff in H.
    destruct H as [H|H]; [|exact (expr_no_call _ _ H)].
    apply in_flat_map in H. destruct H as (e & _ & H). exact (expr_no_call _ _ H).
  - reflexivity.
  - intros [].
Qed.

Lemma run_split T (pre : list stmt) (s : stmt) (rho : env) (P : event -> Prop) :
  Forall P (events_of (exec T pre rho)) ->
  (forall rho', Forall P (events_of (exec_stmt T s rho'))) ->
  Forall P (events_of (exec T (pre ++ [s]) rho)).
Proof.
  intros Hpre Hs. rewrite exec_app.
  destruct (exec T pre rho) as [[o rho1] ev1].
  specialize (Hs rho1). rewrite <- exec_single in Hs.
  destruct (exec T [s] rho1) as [[o2 rho2] ev2].
  unfold events_of in *. cbn [snd] in *.
  destruct o; try assumption. cbn [snd]. apply Forall_app. split; assumption.
Qed.

Lemma CSV3_stores_in_range T aShape outShape tA tB TS WPT addBias act :
  Forall (fun ev => store_in_range (Math_ceil_div (at_ outShape 1) 2)
                      (Math_ceil_div (at_ outShape 2) 2) ev = true)
    (trace T (returned (MatMulPackedProgramCSV3 aShape outShape tA tB TS WPT addBias act))).
Proof.
  unfold trace, run. fold exec.
  set (rho := global_env T _ []). clearbody rho.
  set (m := main _).
  destruct (activation_in_place T "result" [EVar "innerRow"; EVar "innerCol"] act)
    as [Henv Hk].
  assert (Hm : m = firstn 10 m ++
                 [store_nest (Math_ceil_div (at_ outShape 1) 2)
                    (Math_ceil_div (at_ outShape 2) 2)
                    "innerRow" "innerCol" "outputRow" "outputCol"
                    ("globalRow" + EVar "innerRow" * js_div TS WPT)
                    ("globalCol" + EVar "innerCol" * js_div TS WPT) WPT
                    (if truthy act
                     then [SAssign (EIdx "result" [EVar "innerRow"; EVar "innerCol"])
                             (ECall "activation"
                                [EIdx "result" [EVar "innerRow"; EVar "innerCol"]])]
                     else [])
                    (EIdx "result" [EVar "innerRow"; EVar "innerCol"])])
    by reflexivity.
  rewrite Hm. apply (run_split T).
  - eapply no_store_in_range; [apply exec_kinds|].
    subst m. destruct tA, tB; not_among.
  - intros rho'. apply store_nest_ok; try reflexivity; assumption.
Qed.

Lemma CSV4_stores_in_range T aShape outShape tA tB TS TSK WPT addBias act :
  Forall (fun ev => store_in_range (Math_ceil_div (at_ outShape 1) 2)
                      (Math_ceil_div (at_ outShape 2) 2) ev = true)
    (trace T (returned (MatMulPackedProgramCSV4 aShape outShape tA tB TS TSK WPT
                          addBias act))).
Proof.
  unfold trace, run. fold exec.
  set (rho := global_env T _ []). clearbody rho.
  set (m := main _).
  destruct (activation_in_place T "acc" [EVar "wm"; EVar "wn"] act) as [Henv Hk].
  assert (Hm : m = firstn 10 m ++
                 [store_nest (Math_ceil_div (at_ outShape 1) 2)
                    (Math_ceil_div (at_ outShape 2) 2)
                    "wm" "wn" "globalRow" "globalCol"
                    ("offsetM" + "tidm" + EVar "wm" * js_div TS WPT)
                    ("offsetN" + "tidn" + EVar "wn" * js_div TS WPT) WPT
                    (if truthy act
                     then [SAssign (EIdx "acc" [EVar "wm"; EVar "wn"])
                             (ECall "activation" [EIdx "acc" [EVar "wm"; EVar "wn"]])]
                     else [])
                    (EIdx "acc" [EVar "wm"; EVar "wn"])])
    by reflexivity.
  rewrite Hm. apply (run_split T).
  - eapply no_store_in_range; [apply exec_kinds|].
    subst m. destruct tA, tB; not_among.
  - intros rho'. apply store_nest_ok; try reflexivity; assumption.
Qed.

Lemma no_stores ks evs :
  emits ks evs -> ~ In (KCall "imageStore") ks -> stores evs = [].
Proof.
  intros He Hn. induction He as [|ev evs Hev _ IH]; [reflexivity|].
  cbn [stores filter]. fold (stores evs). rewrite IH.
  destruct ev as [a i|a i|f a|f a]; try reflexivity.
  destruct (String.eqb f "imageStore") eqn:E; [|reflexivity].
  apply String.eqb_eq in E. subst f. contradiction.
Qed.

Lemma CSV1_kinds aShape outShape tA tB TS addBias act :
  ~ In (KCall "imageStore")
      (block_kinds
         (main (userCode (MatMulPackedProgramCSV1 aShape outShape tA tB TS addBias act)))).
Proof.
  destruct tA, tB, addBias, (truthy act) eqn:E; cbn; rewrite E; not_among.
Qed.

Lemma CSV1_never_stores T aShape outShape tA tB TS addBias act rows cols :
  Forall (fun ev => store_in_range rows cols ev = true)
    (trace T (MatMulPackedProgramCSV1 aShape outShape tA tB TS addBias act)).
Proof.
  unfold trace, run. fold exec.
  eapply no_store_in_range; [apply exec_kinds|apply CSV1_kinds].
Qed.

(** C4, evaluated.  Every variant would guard every commit of an
    accumulator by a check of its output coordinate.  The second variant does
    not: its store loop [for (int w = 0; w < WPT; w++) imageStore(outputColor,
    ivec2(globalCol, globalRow + w * RTS), result[w]);] has no guard, where
    the third and the fourth variant skip the rows and the columns beyond the
    packed output.  With an output of 2 x 2, packed in 1 x 1 texels, and a
    workgroup of 2 x 2 invocations, the invocation (1, 1) executes one
    [imageStore], at the packed coordinate (1, 1), outside the output. *)
Lemma C4_CSV2_stores_out_of_range :
  let p := MatMulPackedProgramCSV2 [1; 2; 2] [1; 2; 2] false false 2 1 false None in
  Math_ceil_div (at_ (outputShape p) 1) 2 = 1 /\
  Math_ceil_div (at_ (outputShape p) 2) 2 = 1 /\
  stores (trace thread_1_1 p) = [Call "imageStore" [VOpq; VVec [1; 1]; VOpq]] /\
  ~ Forall (fun ev => store_in_range 1 1 ev = true) (trace thread_1_1 p).
Proof.
  repeat split. intros H. rewrite Forall_forall in H.
  specialize (H (Call "imageStore" [VOpq; VVec [1; 1]; VOpq])).
  assert (Hin : In (Call "imageStore" [VOpq; VVec [1; 1]; VOpq])
                  (trace thread_1_1
                     (MatMulPackedProgramCSV2 [1; 2; 2] [1; 2; 2] false false 2 1 false None))).
  { vm_compute. intuition. }
  specialize (H Hin). vm_compute in H. discriminate.
Qed.

(** The guards of the third variant at work: a workgroup of 2 x 2 threads
    with [WPT = 2] over a packed output of 3 x 3 texels; thread (1, 1) owns
    the coordinates (1, 1), (3, 1), (1, 3) and (3, 3) and stores the first
    only. *)
Lemma CSV3_overhang_example :
  stores (trace thread_1_1
            (returned (MatMulPackedProgramCSV3 [1; 6; 6] [1; 6; 6] false false 4 2
                         false None)))
  = [Call "imageStore" [VOpq; VVec [1; 1]; VOpq]].
Proof. vm_compute. reflexivity. Qed.

(** The siblings of the second variant.  In the first, third and fourth
    variants no invocation executes an [imageStore] whose packed coordinate
    [(col, row)] has [row >= ceil(outputShape[1] / 2)] or
    [col >= ceil(outputShape[2] / 2)]: the third and the fourth variant reach
    their store only past the two guards [if (row >= ..) continue;] and
    [if (col >= ..) continue;], and the first hands its single accumulator to
    [setOutput] and has no [imageStore]. *)
Lemma commits_of_the_siblings_are_in_range
  (T : thread) (aShape outShape : list Z) (tA tB : bool) (TS TSK WPT : Z)
  (addBias : bool) (act : option string) :
  let in_range ev :=
    store_in_range (Math_ceil_div (at_ outShape 1) 2)
      (Math_ceil_div (at_ outShape 2) 2) ev = true in
  let p v := matmul_program v aShape outShape tA tB TS TSK WPT addBias act in
  Forall in_range (trace T (p CSV1)) /\
  Forall in_range (trace T (p CSV3)) /\
  Forall in_range (trace T (p CSV4)) /\
  stores (trace T (p CSV1)) = [] /\
  last (main (userCode (p CSV1))) SReturn = SCall "setOutput" [EVar "result"].
Proof.
  intros in_range p. split; [apply CSV1_never_stores|].
  split; [apply CSV3_stores_in_range|].
  split; [apply CSV4_stores_in_range|].
  split.
  - eapply no_stores; [apply exec_kinds|apply CSV1_kinds].
  - destruct addBias, (truthy act) eqn:E; cbn; rewrite E; reflexivity.
Qed.

(** ** Invocations that differ only in what a block does not mention *)

Section SameInputs.

Variables T1 T2 : thread.

Lemma eval_list_same rho es :
  Forall (fun e => forall rho,
              (forall x, In x (expr_names e) -> same_input T1 T2 x) ->
              eval T1 rho e = eval T2 rho e) es ->
  (forall x, In x (flat_map expr_names es) -> same_input T1 T2 x) ->
  eval_list (eval T1 rho) es = eval_list (eval T2 rho) es.
Proof.
  induction 1 as [|e es He _ IH]; intros Hs; simpl; [reflexivity|].
  rewrite He, IH; [reflexivity| |];
    intros x Hx; apply Hs; simpl; rewrite in_app_iff; auto.
Qed.

Lemma eval_same e :
  forall rho, (forall x, In x (expr_names e) -> same_input T1 T2 x) ->
              eval T1 rho e = eval T2 rho e.
Proof.
  induction e as [z|w f|b|x|e f IH|a idx IH|op a b IHa IHb|c a b IHc IHa IHb|f args IH]
    using expr_induction; intros rho Hs; simpl in *.
  - reflexivity.
  - reflexivity.
  - reflexivity.
  - destruct (Hs x (or_introl eq_refl)) as [-> _]. reflexivity.
  - rewrite IH by assumption. reflexivity.
  - rewrite (eval_list_same rho idx IH Hs). reflexivity.
  - rewrite IHa, IHb; [reflexivity| |]; intros x Hx; apply Hs; rewrite in_app_iff; auto.
  - rewrite IHc, IHa, IHb; [reflexivity| | |];
      intros x Hx; apply Hs; rewrite !in_app_iff; auto.
  - rewrite (eval_list_same rho args IH (fun x Hx => Hs x (or_intror Hx))).
    destruct (eval_list (eval T2 rho) args) as [vs ev].
    destruct (Hs f (or_introl eq_refl)) as [_ ->]. reflexivity.
Qed.

Lemma eval_list_same' rho es :
  (forall x, In x (flat_map expr_names es) -> same_input T1 T2 x) ->
  eval_list (eval T1 rho) es = eval_list (eval T2 rho) es.
Proof.
  apply eval_list_same, Forall_forall. intros e _ rho'. apply eval_same.
Qed.

Lemma for_iter_ext run1 run2 i step :
  (forall rho, run1 rho = run2 rho) ->
  forall n k rho, for_iter run1 i k step n rho = for_iter run2 i k step n rho.
Proof.
  intros Hrun. induction n as [|n IH]; intros k rho; simpl; [reflexivity|].
  rewrite Hrun. destruct (run2 ((i, VInt k) :: rho)) as [[o rho1] ev1].
  destruct o; try reflexivity; rewrite IH; reflexivity.
Qed.

Lemma exec_block_same ss :
  Forall (fun s => forall rho,
              (forall x, In x (stmt_names s) -> same_input T1 T2 x) ->
              exec_stmt T1 s rho = exec_stmt T2 s rho) ss ->
  forall rho, (forall x, In x (block_names ss) -> same_input T1 T2 x) ->
              exec_block (exec_stmt T1) ss rho = exec_block (exec_stmt T2) ss rho.
Proof.
  induction 1 as [|s ss Hs _ IH]; intros rho Hn; simpl; [reflexivity|].
  rewrite Hs by (intros x Hx; apply Hn; unfold block_names; simpl;
                 rewrite in_app_iff; auto).
  destruct (exec_stmt T2 s rho) as [[o rho1] ev1].
  destruct o; try reflexivity.
  rewrite IH by (intros x Hx; apply Hn; unfold block_names; simpl;
                 rewrite in_app_iff; auto).
  reflexivity.
Qed.

Lemma exec_stmt_same s :
  forall rho, (forall x, In x (stmt_names s) -> same_input T1 T2 x) ->
              exec_stmt T1 s rho = exec_stmt T2 s rho.
Proof.
  induction s as [ty x dims init|lhs rhs|lhs rhs|c th el IHt IHe|i lo hi step body IH
                 |f args| | |] using stmt_induction;
    intros rho Hs; simpl in *.
  - destruct init as [e|]; [|reflexivity]. rewrite (eval_same e rho Hs). reflexivity.
  - assert (Hr : eval T1 rho rhs = eval T2 rho rhs)
      by (apply eval_same; intros x Hx; apply Hs; rewrite in_app_iff; auto).
    destruct lhs; rewrite ?Hr; try reflexivity.
    rewrite (eval_list_same' rho idx); [reflexivity|].
    intros x Hx; apply Hs; rewrite in_app_iff; auto.
  - assert (Hr : eval T1 rho rhs = eval T2 rho rhs)
      by (apply eval_same; intros x Hx; apply Hs; rewrite in_app_iff; auto).
    destruct lhs; rewrite ?Hr; try reflexivity.
    rewrite (eval_list_same' rho idx); [reflexivity|].
    intros x Hx; apply Hs; rewrite in_app_iff; auto.
  - rewrite (eval_same c rho) by (intros x Hx; apply Hs; rewrite in_app_iff; auto).
    destruct (eval T2 rho c) as [vc ev].
    rewrite (exec_block_same th IHt rho)
      by (intros x Hx; apply Hs; rewrite !in_app_iff; auto).
    rewrite (exec_block_same el IHe rho)
      by (intros x Hx; apply Hs; rewrite !in_app_iff; auto).
    reflexivity.
  - rewrite (eval_same lo rho) by (intros x Hx; apply Hs; rewrite !in_app_iff; auto).
    rewrite (eval_same hi rho) by (intros x Hx; apply Hs; rewrite !in_app_iff; auto).
    destruct (eval T2 rho lo) as [vlo ev1], (eval T2 rho hi) as [vhi ev2].
    destruct vlo as [a|l|b|]; try reflexivity.
    destruct vhi as [b|l|b|]; try reflexivity.
    destruct (0 <? step); try reflexivity.
    rewrite (for_iter_ext (exec_block (exec_stmt T1) body)
               (exec_block (exec_stmt T2) body)); [reflexivity|].
    intros rho'. apply (exec_block_same body IH).
    intros x Hx; apply Hs; rewrite !in_app_iff; auto.
  - rewrite (eval_list_same' rho args Hs). reflexivity.
  - reflexivity.
  - reflexivity.
  - reflexivity.
Qed.

Lemma exec_same ss rho :
  (forall x, In x (block_names ss) -> same_input T1 T2 x) ->
  exec T1 ss rho = exec T2 ss rho.
Proof.
  apply exec_block_same, Forall_forall. intros s _. apply exec_stmt_same.
Qed.

End SameInputs.

(** ** Phases of the depthwise body *)

Ltac zcbn :=
  cbn -[Z.mul Z.add Z.sub Z.quot Z.div Z.opp Z.ltb Z.geb Z.eqb js_div imod
        for_iter trip_count].

Section DepthwisePhases.

Variable convInfo : Conv2DInfo.
Variable T : thread.

Let p := DepthwiseConv2DProgramCS convInfo.

(** The fill statement ends normally once the corners are integers. *)
Lemma fill_statement_normal rho i hw cw rc cc dc c :
  lookup "index" rho = Some (VInt i) ->
  lookup "cacheHW" rho = Some (VInt hw) ->
  lookup "cacheW" rho = Some (VInt cw) ->
  lookup "cacheRCorner" rho = Some (VInt rc) ->
  lookup "cacheCCorner" rho = Some (VInt cc) ->
  lookup "cacheDCorner" rho = Some (VInt dc) ->
  lookup "cacheC" rho = Some (VInt c) ->
  outcome_of (exec_stmt T (nth 7 (main (userCode p)) SReturn) rho) = ONormal.
Proof.
  intros Hi Hhw Hcw Hrc Hcc Hdc Hc.
  zcbn. rewrite Hi, Hhw. zcbn.
  destruct (i <? hw); zcbn; [|reflexivity].
  rewrite Hrc, Hcc, Hcw. zcbn. change (0 <? 1) with true.
  repeat match goal with
         | |- context [Z.geb ?a ?b] => destruct (Z.geb a b); zcbn
         | |- context [Z.ltb ?a ?b] => destruct (Z.ltb a b); zcbn
         end; try reflexivity.
  rewrite Hc; zcbn.
  match goal with
  | |- context [for_iter ?run ?i ?k ?s ?n ?r] =>
      pose proof (for_iter_rule
                    (fun rho0 => lookup "cacheDCorner" rho0 = Some (VInt dc))
                    (fun _ => True) (fun o => o = ONormal) run i s eq_refl) as Hrule;
      assert (Hloop : outcome_of (for_iter run i k s n r) = ONormal);
      [ apply Hrule; [|zcbn; exact Hdc]; clear Hrule;
        intros k' rho' Hd; zcbn; rewrite Hd; zcbn;
        destruct (dc + k' >=? inChannels convInfo); zcbn;
        (split; [exact Hd|split; [auto|auto]])
      | destruct (for_iter run i k s n r) as [[o rho1] ev1];
        unfold outcome_of in *; cbn [fst] in Hloop; subst o; reflexivity ]
  end.
Qed.

Lemma fill_declarations b y z w :
  firstThreadOutputCoords T = [b; y; z; w] ->
  exists rho hw cw rc cc dc c,
    exec T (firstn 7 (main (userCode p))) (global_env T (globals (userCode p)) [])
    = (ONormal, rho, []) /\
    lookup "index" rho = Some (VInt (gl_LocalInvocationIndex T)) /\
    lookup "cacheHW" rho = Some (VInt hw) /\
    hw = filterHeight convInfo * ((7 - 1) * strideWidth convInfo + filterWidth convInfo) /\
    lookup "cacheW" rho = Some (VInt cw) /\
    lookup "cacheRCorner" rho = Some (VInt rc) /\
    lookup "cacheCCorner" rho = Some (VInt cc) /\
    lookup "cacheDCorner" rho = Some (VInt dc) /\
    lookup "cacheC" rho = Some (VInt c).
Proof.
  intros Hf. unfold exec. zcbn. rewrite Hf. zcbn.
  do 7 eexists. split; [reflexivity|]. repeat split; reflexivity.
Qed.

Lemma fill_phase_normal b y z w :
  firstThreadOutputCoords T = [b; y; z; w] ->
  outcome_of (exec T (fill_phase p) (global_env T (globals (userCode p)) [])) = ONormal.
Proof.
  intros Hf.
  change (fill_phase p)
    with (firstn 7 (main (userCode p)) ++ [nth 7 (main (userCode p)) SReturn]).
  rewrite exec_app.
  destruct (fill_declarations b y z w Hf)
    as (rho & hw & cw & rc & cc & dc & c & -> & Hi & Hhw & _ & Hcw & Hrc & Hcc & Hdc & Hc).
  rewrite exec_single.
  pose proof (fill_statement_normal rho _ hw cw rc cc dc c Hi Hhw Hcw Hrc Hcc Hdc Hc) as Hn.
  destruct (exec_stmt T _ rho) as [[o rho1] ev1]. exact Hn.
Qed.

(** Invocations whose local index is not below [cacheHW] fill nothing. *)
Lemma fill_skipped b y z w :
  firstThreadOutputCoords T = [b; y; z; w] ->
  filterHeight convInfo * ((7 - 1) * strideWidth convInfo + filterWidth convInfo)
    <= gl_LocalInvocationIndex T ->
  fill_events T p = [].
Proof.
  intros Hf Hle. unfold fill_events.
  change (fill_phase p)
    with (firstn 7 (main (userCode p)) ++ [nth 7 (main (userCode p)) SReturn]).
  rewrite exec_app.
  destruct (fill_declarations b y z w Hf)
    as (rho & hw & cw & rc & cc & dc & c & -> & Hi & Hhw & -> & _).
  rewrite exec_single. zcbn. rewrite Hi, Hhw. zcbn.
  replace (gl_LocalInvocationIndex T <? _) with false
    by (symmetry; apply Z.ltb_ge; exact Hle).
  reflexivity.
Qed.

Lemma depthwise_main_phases :
  main (userCode p)
  = fill_phase p
    ++ [SCall "memoryBarrierShared" []; SCall "barrier" []]
    ++ compute_phase p.
Proof. reflexivity. Qed.

Lemma fill_phase_kinds :
  block_kinds (fill_phase p) = [KWrite "cache"; KSample "getX"].
Proof. reflexivity. Qed.

Lemma compute_phase_kinds :
  block_kinds (compute_phase p) = [KRead "cache"; KSample "getW"; KCall "setOutput"].
Proof. reflexivity. Qed.

Lemma discard_returns rho gx gs :
  gl_GlobalInvocationID T = gx :: gs ->
  outChannels convInfo <= gx ->
  exec T (compute_phase p) rho = (OReturn, rho, []).
Proof.
  intros Hg Hle. unfold exec. zcbn. rewrite Hg. zcbn.
  replace (gx >=? outChannels convInfo) with true
    by (symmetry; rewrite Z.geb_leb; apply Z.leb_le; exact Hle).
  reflexivity.
Qed.

Lemma fill_events_same T' :
  gl_LocalInvocationIndex T' = gl_LocalInvocationIndex T ->
  firstThreadOutputCoords T' = firstThreadOutputCoords T ->
  fill_events T' p = fill_events T p.
Proof.
  intros Hi Hf. unfold fill_events.
  change (global_env T' (globals (userCode p)) [])
    with (global_env T (globals (userCode p)) []).
  f_equal. apply exec_same. intros x Hx. cbn in Hx.
  repeat (destruct Hx as [<-|Hx];
          [split; [try reflexivity; cbn; congruence
                  |intros vs; try reflexivity; cbn; congruence]|]).
  destruct Hx.
Qed.

End DepthwisePhases.

Lemma depthwise_trace_phases
  (convInfo : Conv2DInfo) (T : thread) (b y z w gx : Z) (gs : list Z) :
  firstThreadOutputCoords T = [b; y; z; w] ->
  gl_GlobalInvocationID T = gx :: gs ->
  let p := DepthwiseConv2DProgramCS convInfo in
  exists rest,
    trace T p = fill_events T p ++ synchronisation ++ rest /\
    emits [KWrite "cache"; KSample "getX"] (fill_events T p) /\
    emits [KRead "cache"; KSample "getW"; KCall "setOutput"] rest /\
    (outChannels convInfo <= gx -> rest = [] /\ outcome_of (run T p) = OReturn).
Proof.
  intros Hf Hg p. subst p. set (p := DepthwiseConv2DProgramCS convInfo).
  pose proof (fill_phase_normal convInfo T b y z w Hf) as Hn.
  pose proof (exec_kinds T (fill_phase p) (global_env T (globals (userCode p)) [])) as Hk.
  fold p in Hn.
  unfold trace, run, fill_events. fold exec.
  change (main (userCode p))
    with (main (userCode (DepthwiseConv2DProgramCS convInfo))).
  rewrite (depthwise_main_phases convInfo), exec_app. fold p.
  destruct (exec T (fill_phase p) (global_env T (globals (userCode p)) []))
    as [[o rho1] fill].
  unfold outcome_of, events_of in *. cbn [fst snd] in *. subst o.
  cbn [app]. rewrite exec_cons. cbn [exec_stmt eval_list app].
  rewrite exec_cons. cbn [exec_stmt eval_list app].
  pose proof (exec_kinds T (compute_phase p) rho1) as Hc.
  pose proof (discard_returns convInfo T rho1 gx gs Hg) as Hd. fold p in Hd.
  destruct (exec T (compute_phase p) rho1) as [[o2 rho2] rest].
  unfold events_of in Hc. cbn [fst snd] in *.
  exists rest. split; [reflexivity|].
  split; [exact Hk|]. split; [exact Hc|].
  intros Hle. specialize (Hd Hle). inversion Hd; subst. split; reflexivity.
Qed.

(** The order at work: the invocation of channel 7 (of 6) fills its cache
    cell for the three input channels, passes the fence and the barrier, and
    returns. *)
Lemma out_of_range_thread_fills_then_returns :
  run out_of_range_thread (DepthwiseConv2DProgramCS depthwise_example)
  = (OReturn,
     env_of (run out_of_range_thread (DepthwiseConv2DProgramCS depthwise_example)),
     [ Sample "getX" [VInt 0; VInt 0; VInt 7; VInt 0];
       AWrite "cache" [VInt 0; VInt 56];
       Sample "getX" [VInt 0; VInt 0; VInt 7; VInt 1];
       AWrite "cache" [VInt 0; VInt 57];
       Sample "getX" [VInt 0; VInt 0; VInt 7; VInt 2];
       AWrite "cache" [VInt 0; VInt 58];
       Call "memoryBarrierShared" [];
       Call "barrier" [] ]).
Proof. vm_compute. reflexivity. Qed.

(** ** Samples outside the input *)

Section Frame.

Variable T : thread.

Lemma for_iter_frame x run i step :
  String.eqb x i = false ->
  (forall rho, lookup x (env_of (run rho)) = lookup x rho) ->
  forall n k rho, lookup x (env_of (for_iter run i k step n rho)) = lookup x rho.
Proof.
  intros Hxi Hrun. induction n as [|n IH]; intros k rho; simpl; [reflexivity|].
  specialize (Hrun ((i, VInt k) :: rho)). cbn [lookup] in Hrun. rewrite Hxi in Hrun.
  destruct (run ((i, VInt k) :: rho)) as [[o rho1] ev1].
  specialize (IH (k + step) rho1).
  destruct (for_iter run i (k + step) step n rho1) as [[o2 rho2] ev2].
  unfold env_of in *. cbn [fst snd] in *.
  destruct o; cbn [fst snd]; congruence.
Qed.

Lemma exec_block_frame x ss :
  Forall (fun s => ~ In x (stmt_binds s) ->
                   forall rho, lookup x (env_of (exec_stmt T s rho)) = lookup x rho) ss ->
  ~ In x (block_binds ss) ->
  forall rho, lookup x (env_of (exec_block (exec_stmt T) ss rho)) = lookup x rho.
Proof.
  induction 1 as [|s ss Hs _ IH]; intros Hn rho; simpl; [reflexivity|].
  unfold block_binds in Hn. simpl in Hn. rewrite in_app_iff in Hn.
  specialize (Hs (fun H => Hn (or_introl H)) rho).
  destruct (exec_stmt T s rho) as [[o rho1] ev1].
  specialize (IH (fun H => Hn (or_intror H)) rho1).
  destruct (exec_block (exec_stmt T) ss rho1) as [[o2 rho2] ev2].
  unfold env_of in *. cbn [fst snd] in *.
  destruct o; cbn [fst snd]; congruence.
Qed.

Lemma exec_stmt_frame x s :
  ~ In x (stmt_binds s) ->
  forall rho, lookup x (env_of (exec_stmt T s rho)) = lookup x rho.
Proof.
  induction s as [ty y dims init|lhs rhs|lhs rhs|c th el IHt IHe|i lo hi step body IH
                 |f args| | |] using stmt_induction;
    intros Hn rho; unfold env_of; simpl in *.
  - destruct init as [e|]; [|reflexivity].
    destruct (eval T rho e) as [v ev]. cbn [fst snd lookup].
    destruct (String.eqb x y) eqn:E; [|reflexivity].
    apply String.eqb_eq in E. subst. exfalso. apply Hn. simpl. auto.
  - destruct lhs; try (destruct (eval T rho rhs); reflexivity).
    + destruct (eval T rho rhs) as [v ev]. cbn [fst snd lookup].
      destruct (String.eqb x x0) eqn:E; [|reflexivity].
      apply String.eqb_eq in E. subst. exfalso. apply Hn. simpl. auto.
    + destruct (eval_list (eval T rho) idx), (eval T rho rhs). reflexivity.
  - destruct lhs; try (destruct (eval T rho rhs); reflexivity).
    + destruct (eval T rho rhs) as [v ev]. cbn [fst snd lookup].
      destruct (String.eqb x x0) eqn:E; [|reflexivity].
      apply String.eqb_eq in E. subst. exfalso. apply Hn. simpl. auto.
    + destruct (eval_list (eval T rho) idx), (eval T rho rhs). reflexivity.
  - rewrite in_app_iff in Hn.
    pose proof (exec_block_frame x th IHt (fun H => Hn (or_introl H)) rho) as Ht.
    pose proof (exec_block_frame x el IHe (fun H => Hn (or_intror H)) rho) as He.
    destruct (eval T rho c) as [vc ev].
    destruct (exec_block (exec_stmt T) th rho) as [[o1 r1] ev1].
    destruct (exec_block (exec_stmt T) el rho) as [[o2 r2] ev2].
    unfold env_of in *. cbn [fst snd] in *.
    destruct vc as [z|l|[|]|]; cbn [fst snd]; auto.
  - destruct (eval T rho lo) as [vlo ev1], (eval T rho hi) as [vhi ev2].
    destruct vlo as [a|l|b|]; try reflexivity.
    destruct vhi as [b|l|b|]; try reflexivity.
    destruct (0 <? step); try reflexivity.
    assert (Hxi : String.eqb x i = false).
    { apply String.eqb_neq. intros ->. apply Hn. auto. }
    pose proof (for_iter_frame x (exec_block (exec_stmt T) body) i step Hxi
                  (exec_block_frame x body IH (fun H => Hn (or_intror H)))
                  (trip_count a b step) a rho) as Hf.
    destruct (for_iter _ i a step _ rho) as [[o r] ev3]. exact Hf.
  - destruct (eval_list (eval T rho) args). reflexivity.
  - reflexivity.
  - reflexivity.
  - reflexivity.
Qed.

(** A block leaves the variables it does not bind as they are. *)
Lemma exec_frame x ss rho :
  ~ In x (block_binds ss) ->
  lookup x (env_of (exec T ss rho)) = lookup x rho.
Proof.
  intros Hn. apply exec_block_frame; [|exact Hn].
  apply Forall_forall. intros s _ Hs. apply exec_stmt_frame, Hs.
Qed.

End Frame.

Section Taps.

Variable T : thread.
Variables kR kC : Z.

Let Q (ev : event) : Prop := tap_is kR kC ev = true.

Let tap_env (rho : env) : Prop :=
  lookup "wR" rho = Some (VInt kR) /\ lookup "wC" rho = Some (VInt kC).

Lemma call_taps f vs :
  String.eqb f "getW" = false -> Forall Q (snd (call T f vs)).
Proof.
  intros Hf. pose proof (call_kinds T f vs) as Hk.
  eapply Forall_impl; [|exact Hk]. intros ev Hin.
  unfold sample_kind in Hin. destruct (mem f intrinsics); [destruct Hin|].
  destruct Hin as [Hin|[]]. destruct ev; try discriminate Hin.
  injection Hin as ->. unfold Q. cbn [tap_is]. rewrite Hf. reflexivity.
Qed.

Lemma eval_list_taps rho es :
  Forall (fun e => expr_taps e = true -> forall rho, tap_env rho ->
                   Forall Q (snd (eval T rho e))) es ->
  forallb expr_taps es = true -> tap_env rho ->
  Forall Q (snd (eval_list (eval T rho) es)).
Proof.
  induction 1 as [|e es He _ IH]; intros Hok Hrho; simpl; [constructor|].
  simpl in Hok. apply andb_true_iff in Hok. destruct Hok as [H1 H2].
  specialize (He H1 rho Hrho). specialize (IH H2 Hrho).
  destruct (eval T rho e) as [v ev1], (eval_list (eval T rho) es) as [vs ev2].
  apply Forall_app. split; assumption.
Qed.

Lemma eval_taps e :
  expr_taps e = true -> forall rho, tap_env rho -> Forall Q (snd (eval T rho e)).
Proof.
  induction e as [z|w f|b|x|e f IH|a idx IH|op a b IHa IHb|c a b IHc IHa IHb|f args IH]
    using expr_induction; intros Hok rho Hrho; simpl in *.
  - constructor.
  - constructor.
  - constructor.
  - destruct (builtin_var T x); constructor.
  - specialize (IH Hok rho Hrho). destruct (eval T rho e) as [v ev]. exact IH.
  - pose proof (eval_list_taps rho idx IH Hok Hrho) as H.
    destruct (eval_list (eval T rho) idx) as [vs ev]. simpl in H.
    assert (Hd : Forall Q (ev ++ [ARead a vs])).
    { apply Forall_app. split; [exact H|]. constructor; [reflexivity|constructor]. }
    destruct (lookup a rho) as [[z|l|b|]|]; try exact Hd.
    destruct vs as [|[i|l'|b|] [|v' vs']]; try exact Hd. exact H.
  - apply andb_true_iff in Hok. destruct Hok as [H1 H2].
    specialize (IHa H1 rho Hrho). specialize (IHb H2 rho Hrho).
    destruct (eval T rho a) as [v1 ev1], (eval T rho b) as [v2 ev2]. simpl in *.
    assert (Hd : Forall Q (ev1 ++ ev2)) by (apply Forall_app; split; assumption).
    destruct op; try exact Hd; destruct v1 as [z|l|[|]|]; first [exact Hd|exact IHa].
  - apply andb_true_iff in Hok. destruct Hok as [Hok H3].
    apply andb_true_iff in Hok. destruct Hok as [H1 H2].
    specialize (IHc H1 rho Hrho). specialize (IHa H2 rho Hrho).
    specialize (IHb H3 rho Hrho).
    destruct (eval T rho c) as [vc ev], (eval T rho a) as [va eva],
      (eval T rho b) as [vb evb]. simpl in *.
    destruct vc as [z|l|[|]|]; simpl; try assumption; apply Forall_app; split; assumption.
  - apply andb_true_iff in Hok. destruct Hok as [Hf Hargs].
    pose proof (eval_list_taps rho args IH Hargs Hrho) as H.
    destruct (String.eqb f "getW") eqn:E.
    + apply String.eqb_eq in E. subst f.
      destruct args as [|[| | |a| | | | |] [|[| | |b| | | | |] args']]; try discriminate Hf.
      apply andb_true_iff in Hf. destruct Hf as [Ha Hb].
      apply String.eqb_eq in Ha, Hb. subst a b.
      destruct Hrho as [HR HC].
      cbn [eval_list eval] in H |- *.
      change (builtin_var T "wR") with (@None value) in H |- *.
      change (builtin_var T "wC") with (@None value) in H |- *.
      rewrite HR, HC in H |- *. cbn iota beta in H |- *.
      destruct (eval_list (eval T rho) args') as [vs ev]. cbn [app snd] in H |- *.
      apply Forall_app. split; [exact H|].
      constructor; [|constructor]. unfold Q. cbn. rewrite !Z.eqb_refl. reflexivity.
    + pose proof (call_taps f (fst (eval_list (eval T rho) args)) E) as Hc.
      destruct (eval_list (eval T rho) args) as [vs ev]. cbn [fst snd] in *.
      destruct (call T f vs) as [v ev']. cbn [snd] in *.
      apply Forall_app. split; assumption.
Qed.

Lemma eval_list_taps' rho es :
  forallb expr_taps es = true -> tap_env rho ->
  Forall Q (snd (eval_list (eval T rho) es)).
Proof.
  apply eval_list_taps, Forall_forall. intros e _. apply eval_taps.
Qed.

End Taps.

Section TapBlocks.

Variable T : thread.
Variables kR kC : Z.

Let Q (ev : event) : Prop := tap_is kR kC ev = true.

Let tap_env (rho : env) : Prop :=
  lookup "wR" rho = Some (VInt kR) /\ lookup "wC" rho = Some (VInt kC).

Let unbound (l : list string) : Prop := ~ In "wR" l /\ ~ In "wC" l.

Lemma unbound_app l1 l2 : unbound (l1 ++ l2) -> unbound l1 /\ unbound l2.
Proof.
  unfold unbound. rewrite !in_app_iff. tauto.
Qed.

Lemma tap_env_frame s rho :
  unbound (stmt_binds s) -> tap_env rho -> tap_env (env_of (exec_stmt T s rho)).
Proof.
  intros [H1 H2] [HR HC]. split; rewrite exec_stmt_frame; assumption.
Qed.

Lemma exec_block_taps ss :
  Forall (fun s => stmt_taps s = true -> unbound (stmt_binds s) ->
                   forall rho, tap_env rho ->
                   Forall Q (events_of (exec_stmt T s rho))) ss ->
  forallb stmt_taps ss = true -> unbound (block_binds ss) ->
  forall rho, tap_env rho ->
  Forall Q (events_of (exec_block (exec_stmt T) ss rho)) /\
  tap_env (env_of (exec_block (exec_stmt T) ss rho)).
Proof.
  induction 1 as [|s ss Hs _ IH]; intros Hok Hun rho Hrho; simpl.
  - split; [constructor|exact Hrho].
  - simpl in Hok. apply andb_true_iff in Hok. destruct Hok as [H1 H2].
    unfold block_binds in Hun. simpl in Hun. apply unbound_app in Hun.
    destruct Hun as [Hu1 Hu2].
    specialize (Hs H1 Hu1 rho Hrho).
    pose proof (tap_env_frame s rho Hu1 Hrho) as Hf.
    destruct (exec_stmt T s rho) as [[o rho1] ev1].
    unfold env_of, events_of in *. cbn [fst snd] in *.
    specialize (IH H2 Hu2 rho1 Hf).
    destruct (exec_block (exec_stmt T) ss rho1) as [[o2 rho2] ev2].
    cbn [fst snd] in IH. destruct IH as [IH1 IH2].
    destruct o; cbn [fst snd]; try (split; assumption).
    split; [apply Forall_app; split; assumption|assumption].
Qed.

Lemma exec_stmt_taps s :
  stmt_taps s = true -> unbound (stmt_binds s) ->
  forall rho, tap_env rho -> Forall Q (events_of (exec_stmt T s rho)).
Proof.
  induction s as [ty y dims init|lhs rhs|lhs rhs|c th el IHt IHe|i lo hi step body IH
                 |f args| | |] using stmt_induction;
    intros Hok Hun rho Hrho; unfold events_of; simpl in *.
  - destruct init as [e|]; [|constructor].
    pose proof (eval_taps T kR kC e Hok rho Hrho) as H.
    destruct (eval T rho e) as [v ev]. exact H.
  - apply andb_true_iff in Hok. destruct Hok as [Hl Hr].
    pose proof (eval_taps T kR kC rhs Hr rho Hrho) as H.
    destruct lhs; try (destruct (eval T rho rhs) as [v ev]; exact H).
    pose proof (eval_list_taps' T kR kC rho idx Hl Hrho) as Hi.
    destruct (eval_list (eval T rho) idx) as [vs ev1], (eval T rho rhs) as [v ev2].
    cbn [snd] in *. apply Forall_app. split; [exact Hi|].
    apply Forall_app. split; [exact H|]. constructor; [reflexivity|constructor].
  - apply andb_true_iff in Hok. destruct Hok as [Hl Hr].
    pose proof (eval_taps T kR kC rhs Hr rho Hrho) as H.
    destruct lhs; try (destruct (eval T rho rhs) as [v ev]; exact H).
    pose proof (eval_list_taps' T kR kC rho idx Hl Hrho) as Hi.
    destruct (eval_list (eval T rho) idx) as [vs ev1], (eval T rho rhs) as [v ev2].
    cbn [snd] in *. apply Forall_app. split; [exact Hi|].
    constructor; [reflexivity|].
    apply Forall_app. split; [exact H|]. constructor; [reflexivity|constructor].
  - apply andb_true_iff in Hok. destruct Hok as [Hok He].
    apply andb_true_iff in Hok. destruct Hok as [Hc Ht].
    apply unbound_app in Hun. destruct Hun as [Hut Hue].
    pose proof (eval_taps T kR kC c Hc rho Hrho) as H.
    destruct (exec_block_taps th IHt Ht Hut rho Hrho) as [H1 _].
    destruct (exec_block_taps el IHe He Hue rho Hrho) as [H2 _].
    destruct (eval T rho c) as [vc ev].
    destruct (exec_block (exec_stmt T) th rho) as [[o1 r1] ev1].
    destruct (exec_block (exec_stmt T) el rho) as [[o2 r2] ev2].
    unfold events_of in *. cbn [fst snd] in *.
    destruct vc as [z|l|[|]|]; cbn [snd]; try assumption;
      apply Forall_app; split; assumption.
  - apply andb_true_iff in Hok. destruct Hok as [Hok Hb].
    apply andb_true_iff in Hok. destruct Hok as [Hlo Hhi].
    pose proof (eval_taps T kR kC lo Hlo rho Hrho) as H1.
    pose proof (eval_taps T kR kC hi Hhi rho Hrho) as H2.
    destruct (eval T rho lo) as [vlo ev1], (eval T rho hi) as [vhi ev2].
    cbn [snd] in *.
    assert (Hd : Forall Q (ev1 ++ ev2)) by (apply Forall_app; split; assumption).
    destruct vlo as [a|l|b|]; try exact Hd.
    destruct vhi as [b|l|b|]; try exact Hd.
    destruct (0 <? step); try exact Hd.
    destruct Hun as [HuR HuC]. simpl in HuR, HuC.
    assert (HiR : String.eqb "wR" i = false)
      by (apply String.eqb_neq; intros E; apply HuR; auto).
    assert (HiC : String.eqb "wC" i = false)
      by (apply String.eqb_neq; intros E; apply HuC; auto).
    assert (Hub : unbound (block_binds body)) by (split; intros E; [apply HuR|apply HuC]; auto).
    pose proof (for_iter_rule tap_env Q (fun _ => True)
                  (exec_block (exec_stmt T) body) i step I) as Hrule.
    assert (Hbody : forall k rho', tap_env rho' ->
              let r := exec_block (exec_stmt T) body ((i, VInt k) :: rho') in
              tap_env (env_of r) /\ Forall Q (events_of r) /\
              (outcome_of r = ONormal \/ outcome_of r = OContinue \/
               outcome_of r = OBreak \/ True)).
    { intros k rho' [HR HC].
      assert (Hrho' : tap_env ((i, VInt k) :: rho')).
      { split; cbn [lookup]; [rewrite HiR|rewrite HiC]; assumption. }
      destruct (exec_block_taps body IH Hb Hub _ Hrho') as [Ha Hb'].
      split; [exact Hb'|]. split; [exact Ha|]. do 3 right. exact I. }
    specialize (Hrule Hbody (trip_count a b step) a rho Hrho).
    destruct Hrule as (_ & Hev & _).
    destruct (for_iter _ i a step _ rho) as [[o r] ev3].
    unfold events_of in Hev. cbn [snd] in *. rewrite app_assoc.
    apply Forall_app. split; assumption.
  - pose proof (eval_list_taps' T kR kC rho args Hok Hrho) as Hi.
    destruct (eval_list (eval T rho) args) as [vs ev]. cbn [snd] in *.
    apply Forall_app. split; [exact Hi|]. constructor; [reflexivity|constructor].
  - constructor.
  - constructor.
  - constructor.
Qed.

(** In a block whose filter samples are all [getW(wR, wC, ..)] and that
    binds neither [wR] nor [wC], every sample is at the current tap. *)
Lemma exec_taps ss rho :
  forallb stmt_taps ss = true ->
  ~ In "wR" (block_binds ss) -> ~ In "wC" (block_binds ss) ->
  lookup "wR" rho = Some (VInt kR) -> lookup "wC" rho = Some (VInt kC) ->
  Forall Q (events_of (exec T ss rho)).
Proof.
  intros Hok HR HC HlR HlC.
  refine (proj1 (exec_block_taps ss _ Hok (conj HR HC) rho (conj HlR HlC))).
  apply Forall_forall. intros s _. apply exec_stmt_taps.
Qed.

End TapBlocks.

(** [if (x < 0 || x >= B) continue;] on a local [x]. *)
Lemma exec_window_guard T x B rho :
  builtin_var T x = None ->
  exec_stmt T (if_ ((EVar x < 0) || (EVar x >= EInt B)) [ SContinue ]) rho =
  match lookup x rho with
  | Some (VInt v) =>
      if (v <? 0) || (v >=? B) then (OContinue, rho, []) else (ONormal, rho, [])
  | _ => (OStuck, rho, [])
  end.
Proof.
  intros Hx. simpl. rewrite Hx.
  destruct (lookup x rho) as [[v|l|b|]|]; simpl; try reflexivity.
  destruct (v <? 0); simpl; [reflexivity|].
  destruct (v >=? B); reflexivity.
Qed.

Section Window.

Variable T : thread.
Variable convInfo : Conv2DInfo.
Variable rest : list stmt.
Variables X Y : Z.

Hypothesis rest_taps : forallb stmt_taps rest = true.
Hypothesis rest_binds :
  forall x, In x ["wR"; "wC"; "xRCorner"; "xCCorner"] -> ~ In x (block_binds rest).

Let P (ev : event) : Prop := tap_in_input convInfo X Y ev = true.

Let inner : list stmt :=
  [ decl "int" "xC" ("xCCorner" + EVar "wC" * dilationWidth convInfo);
    if_ (("xC" < 0) || ("xC" >= inWidth convInfo)) [ SContinue ] ] ++ rest.

Let outer : list stmt :=
  [ decl "int" "xR" ("xRCorner" + EVar "wR" * dilationHeight convInfo);
    if_ (("xR" < 0) || ("xR" >= inHeight convInfo)) [ SContinue ];
    decl "int" "sR" ("xR" - "cacheRCorner");
    for_upto "wC" (filterWidth convInfo) inner ].

Lemma tap_in_range kR kC ev :
  0 <= X + kR * dilationHeight convInfo < inHeight convInfo ->
  0 <= Y + kC * dilationWidth convInfo < inWidth convInfo ->
  tap_is kR kC ev = true -> P ev.
Proof.
  intros HR HC. unfold P. destruct ev as [a i|a i|f args|f args]; try reflexivity.
  cbn [tap_is tap_in_input]. destruct (String.eqb f "getW"); [|reflexivity].
  destruct args as [|[a| | |] [|[b| | |] args']]; try discriminate.
  intros H. apply andb_true_iff in H. destruct H as [Ha Hb].
  apply Z.eqb_eq in Ha, Hb. subst a b. cbv zeta.
  repeat (apply andb_true_intro; split);
    first [apply Z.leb_le; lia|apply Z.ltb_lt; lia].
Qed.

Lemma inner_binds x :
  In x ["wR"; "xCCorner"] -> ~ In x (block_binds inner).
Proof.
  intros Hx H. unfold inner, block_binds in H. cbn [flat_map app stmt_binds decl if_] in H.
  destruct H as [<-|H].
  - destruct Hx as [Hx|[Hx|[]]]; discriminate Hx.
  - apply (rest_binds x); [|exact H]. simpl in *. tauto.
Qed.

Lemma inner_tap_ok rho kR k :
  lookup "wR" rho = Some (VInt kR) ->
  lookup "xCCorner" rho = Some (VInt Y) ->
  0 <= X + kR * dilationHeight convInfo < inHeight convInfo ->
  let res := exec T inner (("wC", VInt k) :: rho) in
  (lookup "wR" (env_of res) = Some (VInt kR) /\
   lookup "xCCorner" (env_of res) = Some (VInt Y)) /\
  Forall P (events_of res).
Proof.
  intros HR HY Hin res. subst res. split.
  - split; (rewrite exec_frame; [assumption|apply inner_binds; simpl; tauto]).
  - unfold inner. cbn [app]. rewrite exec_cons, exec_decl.
    assert (Hval : eval T (("wC", VInt k) :: rho)
                     ("xCCorner" + EVar "wC" * dilationWidth convInfo)%glsl
                   = (VInt (Y + k * dilationWidth convInfo), []))
      by (zcbn; rewrite HY; reflexivity).
    rewrite Hval. cbv beta iota. cbn [fst snd].
    rewrite exec_cons, exec_window_guard by reflexivity.
    cbn [lookup String.eqb Ascii.eqb Bool.eqb]. cbv beta iota.
    destruct ((Y + k * dilationWidth convInfo <? 0)
              || (Y + k * dilationWidth convInfo >=? inWidth convInfo)) eqn:E;
      [constructor|].
    apply orb_false_iff in E. destruct E as [E1 E2].
    apply Z.ltb_ge in E1. rewrite Z.geb_leb in E2. apply Z.leb_gt in E2.
    pose proof (exec_taps T kR k rest
                  (("xC", VInt (Y + k * dilationWidth convInfo)) :: ("wC", VInt k) :: rho)
                  rest_taps
                  (rest_binds "wR" ltac:(simpl; tauto))
                  (rest_binds "wC" ltac:(simpl; tauto)) HR eq_refl) as Ht.
    destruct (exec T rest _) as [[o rho1] ev1].
    unfold events_of in *. cbn [snd app] in *.
    eapply Forall_impl; [|exact Ht]. intros ev. apply tap_in_range; lia.
Qed.

Lemma inner_loop_taps rho kR :
  lookup "wR" rho = Some (VInt kR) ->
  lookup "xCCorner" rho = Some (VInt Y) ->
  0 <= X + kR * dilationHeight convInfo < inHeight convInfo ->
  Forall P (events_of (exec_stmt T (for_upto "wC" (filterWidth convInfo) inner) rho)).
Proof.
  intros HR HY Hin. rewrite exec_for_upto.
  refine (proj1 (proj2 (for_iter_rule
                          (fun rho => lookup "wR" rho = Some (VInt kR) /\
                                      lookup "xCCorner" rho = Some (VInt Y))
                          P (fun _ => True) (exec T inner) "wC" 1 I _ _ 0 rho
                          (conj HR HY)))).
  intros k rho' [HR' HY']. destruct (inner_tap_ok rho' kR k HR' HY' Hin) as [Ha Hb].
  split; [exact Ha|split; [exact Hb|do 3 right; exact I]].
Qed.

Lemma outer_binds x :
  In x ["xRCorner"; "xCCorner"] -> ~ In x (block_binds outer).
Proof.
  intros Hx H. unfold outer, inner, block_binds in H.
  cbn [flat_map app stmt_binds decl if_ for_upto] in H.
  rewrite app_nil_r in H.
  repeat (destruct H as [<-|H]; [destruct Hx as [Hx|[Hx|[]]]; discriminate Hx|]).
  apply (rest_binds x); [|exact H]. simpl in *. tauto.
Qed.

Lemma outer_tap_ok rho k :
  lookup "xRCorner" rho = Some (VInt X) ->
  lookup "xCCorner" rho = Some (VInt Y) ->
  let res := exec T outer (("wR", VInt k) :: rho) in
  (lookup "xRCorner" (env_of res) = Some (VInt X) /\
   lookup "xCCorner" (env_of res) = Some (VInt Y)) /\
  Forall P (events_of res).
Proof.
  intros HX HY res. subst res. split.
  - split; (rewrite exec_frame; [assumption|apply outer_binds; simpl; tauto]).
  - unfold outer. rewrite exec_cons, exec_decl.
    assert (Hval : eval T (("wR", VInt k) :: rho)
                     ("xRCorner" + EVar "wR" * dilationHeight convInfo)%glsl
                   = (VInt (X + k * dilationHeight convInfo), []))
      by (zcbn; rewrite HX; reflexivity).
    rewrite Hval. cbv beta iota. cbn [fst snd].
    rewrite exec_cons, exec_window_guard by reflexivity.
    cbn [lookup String.eqb Ascii.eqb Bool.eqb]. cbv beta iota.
    destruct ((X + k * dilationHeight convInfo <? 0)
              || (X + k * dilationHeight convInfo >=? inHeight convInfo)) eqn:E;
      [constructor|].
    apply orb_false_iff in E. destruct E as [E1 E2].
    apply Z.ltb_ge in E1. rewrite Z.geb_leb in E2. apply Z.leb_gt in E2.
    rewrite exec_cons, exec_decl.
    set (rho2 := (_ :: _ :: _ :: rho)).
    assert (Hs : snd (eval T (("xR", VInt (X + k * dilationHeight convInfo))
                               :: ("wR", VInt k) :: rho)
                        ("xR" - "cacheRCorner")%glsl) = [])
      by reflexivity.
    rewrite Hs. cbv beta iota. rewrite exec_single.
    pose proof (inner_loop_taps rho2 k eq_refl HY ltac:(lia)) as Hl.
    destruct (exec_stmt T (for_upto "wC" (filterWidth convInfo) inner) rho2)
      as [[o rho3] ev3].
    unfold events_of in *. cbn [snd app] in *. exact Hl.
Qed.

(** Every filter sample recorded by the loop nest is at a tap that meets
    the input. *)
Lemma window_nest_taps rho :
  lookup "xRCorner" rho = Some (VInt X) ->
  lookup "xCCorner" rho = Some (VInt Y) ->
  Forall P (events_of (exec_stmt T (window_nest convInfo rest) rho)).
Proof.
  intros HX HY. unfold window_nest. fold inner. fold outer. rewrite exec_for_upto.
  refine (proj1 (proj2 (for_iter_rule
                          (fun rho => lookup "xRCorner" rho = Some (VInt X) /\
                                      lookup "xCCorner" rho = Some (VInt Y))
                          P (fun _ => True) (exec T outer) "wR" 1 I _ _ 0 rho
                          (conj HX HY)))).
  intros k rho' [HX' HY']. destruct (outer_tap_ok rho' k HX' HY') as [Ha Hb].
  split; [exact Ha|split; [exact Hb|do 3 right; exact I]].
Qed.

End Window.

Lemma no_taps convInfo X Y ks evs :
  emits ks evs -> ~ In (KSample "getW") ks ->
  Forall (fun ev => tap_in_input convInfo X Y ev = true) evs.
Proof.
  intros He Hn. eapply Forall_impl; [|exact He].
  intros [a i|a i|f a|f a] Hin; try reflexivity.
  cbn [tap_in_input]. destruct (String.eqb f "getW") eqn:E; [|reflexivity].
  apply String.eqb_eq in E. subst f. contradiction.
Qed.

Lemma exec_app_normal T a b rho :
  outcome_of (exec T (a ++ b) rho) = ONormal ->
  outcome_of (exec T a rho) = ONormal /\
  env_of (exec T (a ++ b) rho) = env_of (exec T b (env_of (exec T a rho))).
Proof.
  rewrite exec_app. destruct (exec T a rho) as [[o rho1] ev1].
  unfold outcome_of, env_of. cbn [fst snd].
  destruct o; try discriminate.
  destruct (exec T b rho1) as [[o2 rho2] ev2]. cbn [fst snd]. auto.
Qed.

Lemma exec_app_events T (P : event -> Prop) a b rho :
  Forall P (events_of (exec T a rho)) ->
  (outcome_of (exec T a rho) = ONormal ->
   Forall P (events_of (exec T b (env_of (exec T a rho))))) ->
  Forall P (events_of (exec T (a ++ b) rho)).
Proof.
  rewrite exec_app. destruct (exec T a rho) as [[o rho1] ev1].
  unfold outcome_of, env_of, events_of. cbn [fst snd].
  intros Ha Hb. destruct o; try exact Ha. specialize (Hb eq_refl).
  destruct (exec T b rho1) as [[o2 rho2] ev2]. cbn [fst snd] in *.
  apply Forall_app. split; assumption.
Qed.

Section ConvolutionTaps.

Variable convInfo : Conv2DInfo.
Variable T : thread.
Variables b y z d : Z.
Hypothesis own_coords : outputCoords T = [b; y; z; d].

Let X := fst (window_corner convInfo y z).
Let Y := snd (window_corner convInfo y z).
Let P (ev : event) : Prop := tap_in_input convInfo X Y ev = true.

(** What follows a body up to its tap loop: the loop, then [setOutput]. *)
Lemma taps_then_output rest rho :
  forallb stmt_taps rest = true ->
  (forall x, In x ["wR"; "wC"; "xRCorner"; "xCCorner"] -> ~ In x (block_binds rest)) ->
  lookup "xRCorner" rho = Some (VInt X) ->
  lookup "xCCorner" rho = Some (VInt Y) ->
  Forall P (events_of (exec T [window_nest convInfo rest;
                               SCall "setOutput" [EVar "dotProd"]] rho)).
Proof.
  intros Ht Hb HX HY.
  change [window_nest convInfo rest; SCall "setOutput" [EVar "dotProd"]]
    with ([window_nest convInfo rest] ++ [SCall "setOutput" [EVar "dotProd"]]).
  apply exec_app_events.
  - rewrite exec_single. apply window_nest_taps; assumption.
  - intros _. eapply no_taps; [apply exec_kinds|]. not_among.
Qed.

(** In the depthwise body every filter sample [getW(wR, wC, ..)] is at a tap
    whose input coordinate lies in [[0, inHeight) x [0, inWidth)]: the others
    are skipped by the two [continue] guards and add nothing to [dotProd]. *)
Lemma depthwise_samples_inside_the_input :
  Forall P (trace T (DepthwiseConv2DProgramCS convInfo)).
Proof.
  unfold trace, run. fold exec.
  set (p := DepthwiseConv2DProgramCS convInfo).
  set (rho0 := global_env T (globals (userCode p)) []).
  set (A1 := firstn 11 (main (userCode p))).
  set (A2 := firstn 8 (skipn 11 (main (userCode p)))).
  set (rest := tap_statements (nth 19 (main (userCode p)) SReturn)).
  change (main (userCode p))
    with ((A1 ++ A2) ++ [window_nest convInfo rest; SCall "setOutput" [EVar "dotProd"]]).
  apply exec_app_events.
  - eapply no_taps; [apply exec_kinds|]. not_among.
  - intros Hn. apply exec_app_normal in Hn. destruct Hn as [_ ->].
    set (rho1 := env_of (exec T A1 rho0)).
    assert (Hs : lookup "strides" rho1
                 = Some (VVec [strideHeight convInfo; strideWidth convInfo]))
      by (unfold rho1; rewrite exec_frame; [reflexivity|not_among]).
    assert (Hp : lookup "pads" rho1
                 = Some (VVec [top (padInfo convInfo); left (padInfo convInfo)]))
      by (unfold rho1; rewrite exec_frame; [reflexivity|not_among]).
    clearbody rho1.
    apply taps_then_output.
    + reflexivity.
    + intros x Hx. cbn in Hx.
      repeat (destruct Hx as [<-|Hx]; [not_among|]). destruct Hx.
    + unfold A2, exec. zcbn. rewrite own_coords. zcbn. rewrite Hs, Hp. reflexivity.
    + unfold A2, exec. zcbn. rewrite own_coords. zcbn. rewrite Hs, Hp. reflexivity.
Qed.

(** The same in the body of the standard convolution. *)
Lemma conv2d_samples_inside_the_input :
  Forall P (trace T (Conv2DProgramCS convInfo)).
Proof.
  unfold trace, run. fold exec.
  set (p := Conv2DProgramCS convInfo).
  set (rho0 := global_env T (globals (userCode p)) []).
  set (B1 := firstn 6 (main (userCode p))).
  set (B2 := firstn 8 (skipn 6 (main (userCode p)))).
  set (rest := tap_statements (nth 14 (main (userCode p)) SReturn)).
  change (main (userCode p))
    with ((B1 ++ B2) ++ [window_nest convInfo rest; SCall "setOutput" [EVar "dotProd"]]).
  apply exec_app_events.
  - eapply no_taps; [apply exec_kinds|]. not_among.
  - intros Hn. apply exec_app_normal in Hn. destruct Hn as [_ ->].
    apply taps_then_output.
    + reflexivity.
    + intros x Hx. cbn in Hx.
      repeat (destruct Hx as [<-|Hx]; [not_among|]). destruct Hx.
    + rewrite exec_frame by not_among.
      unfold B1, exec. zcbn. rewrite own_coords. reflexivity.
    + rewrite exec_frame by not_among.
      unfold B1, exec. zcbn. rewrite own_coords. reflexivity.
Qed.

End ConvolutionTaps.

(** ** Shared cache of the convolutions *)

(** C3, evaluated.  The samples outside the input are skipped in both
    bodies (the two lemmas above); the accesses to the shared cache are not
    all safe.  [Conv2DProgramCS] places the corner of its cache at
    [coords.y * stride], without the padding that [xRCorner] subtracts: with
    padding 1 the invocation of the output pixel (1, 0) reads
    [cache[-1][0]], outside the declared [cache[3][17]].
    [DepthwiseConv2DProgramCS] fills one cache cell per invocation: with a
    5 x 5 filter and stride 2 the cache has 5 x 17 cells and the workgroup
    56 invocations, and the first invocation reads [cache[4][8]], which no
    invocation of its workgroup writes. *)
Lemma C3_cache_reads_outside_the_fill :
  (extents pixel_1_0 "cache" (Conv2DProgramCS padded_conv) = Some [VInt 3; VInt 17] /\
   existsb (reads_cell "cache" (-1) 0) (trace pixel_1_0 (Conv2DProgramCS padded_conv))
   = true) /\
  (localGroupSize (DepthwiseConv2DProgramCS depthwise_5x5) = Some [8; 7] /\
   extents (first_group 0) "cache" (DepthwiseConv2DProgramCS depthwise_5x5)
   = Some [VInt 5; VInt 136] /\
   existsb (reads_cell "cache" 4 8)
     (trace (first_group 0) (DepthwiseConv2DProgramCS depthwise_5x5)) = true /\
   forallb (fun i => negb (existsb (writes_cell "cache" 4 8)
                             (fill_events (first_group i)
                                (DepthwiseConv2DProgramCS depthwise_5x5))))
     (seq 0 56) = true).
Proof. vm_compute. repeat split. Qed.

(** ** Arrays that are only written by [+=] *)

(** No store to the array [a]. *)
Lemma no_write_read_first a ks evs :
  emits ks evs -> ~ In (KWrite a) ks -> read_before_written a evs.
Proof.
  intros He Hn pre idx post E. exfalso. apply Hn.
  unfold emits in He. rewrite Forall_forall in He.
  apply (He (AWrite a idx)). rewrite E. apply in_elt.
Qed.

Lemma read_first_app a e1 e2 :
  read_before_written a e1 -> read_before_written a e2 ->
  read_before_written a (e1 ++ e2).
Proof.
  intros H1 H2 pre idx post E.
  apply app_eq_app in E. destruct E as (l & [[E1 E2]|[E1 E2]]).
  - destruct l as [|x l].
    + cbn in E2. destruct (H2 [] idx post (eq_sym E2)).
    + injection E2 as <- E2. apply (H1 pre idx l). rewrite E1. reflexivity.
  - rewrite E1. apply in_or_app. right. apply (H2 l idx post E2).
Qed.

(** [a[i] += e]: the load, the events of [e], the store. *)
Lemma add_assign_read_first a vs ks ev2 :
  emits ks ev2 -> ~ In (KWrite a) ks ->
  read_before_written a (ARead a vs :: ev2 ++ [AWrite a vs]).
Proof.
  intros He Hn pre idx post E.
  assert (Hq : forall i, ~ In (AWrite a i) ev2).
  { intros i Hi. apply Hn. unfold emits in He. rewrite Forall_forall in He.
    apply (He _ Hi). }
  destruct pre as [|x pre]; [discriminate E|].
  injection E as <- E. left.
  apply app_eq_app in E. destruct E as (l & [[E1 E2]|[E1 E2]]).
  - destruct l as [|x l].
    + injection E2 as -> _. reflexivity.
    + injection E2 as <- _. exfalso. apply (Hq idx). rewrite E1. apply in_elt.
  - destruct l as [|x l].
    + injection E2 as ->. reflexivity.
    + injection E2 as _ E2. destruct l; discriminate E2.
Qed.

Lemma expr_kinds_no_write a e : ~ In (KWrite a) (expr_kinds e).
Proof.
  induction e as [z|w f|b|x|e f IH|b idx IH|op e1 e2 IH1 IH2|c e1 e2 IHc IH1 IH2|f args IH]
    using expr_induction; cbn [expr_kinds]; try solve [intros []].
  - exact IH.
  - intros [H|H]; [discriminate H|].
    apply in_flat_map in H. destruct H as (e & He & H).
    rewrite Forall_forall in IH. exact (IH e He H).
  - rewrite in_app_iff. tauto.
  - rewrite !in_app_iff. tauto.
  - rewrite in_app_iff. intros [H|H].
    + unfold sample_kind in H. destruct (mem f intrinsics); [destruct H|].
      destruct H as [H|[]]. discriminate H.
    + apply in_flat_map in H. destruct H as (e & He & H).
      rewrite Forall_forall in IH. exact (IH e He H).
Qed.

Lemma exprs_kinds_no_write a es : ~ In (KWrite a) (flat_map expr_kinds es).
Proof.
  intros H. apply in_flat_map in H. destruct H as (e & _ & H).
  exact (expr_kinds_no_write a e H).
Qed.

Section ReadFirst.

Variable T : thread.
Variable a : string.

Lemma eval_read_first rho e : read_before_written a (snd (eval T rho e)).
Proof.
  apply (no_write_read_first a (expr_kinds e)); [apply eval_kinds|].
  apply expr_kinds_no_write.
Qed.

Lemma eval_list_read_first rho es :
  read_before_written a (snd (eval_list (eval T rho) es)).
Proof.
  apply (no_write_read_first a (flat_map expr_kinds es)); [apply eval_list_kinds'|].
  apply exprs_kinds_no_write.
Qed.

Lemma for_iter_read_first run i step :
  (forall rho, read_before_written a (events_of (run rho))) ->
  forall n k rho, read_before_written a (events_of (for_iter run i k step n rho)).
Proof.
  intros Hrun. induction n as [|n IH]; intros k rho; simpl.
  - intros pre idx post E. destruct pre; discriminate E.
  - specialize (Hrun ((i, VInt k) :: rho)).
    destruct (run ((i, VInt k) :: rho)) as [[o rho1] ev1].
    specialize (IH (k + step) rho1).
    destruct (for_iter run i (k + step) step n rho1) as [[o2 rho2] ev2].
    unfold events_of in *; simpl in *.
    destruct o; simpl; try exact Hrun; apply read_first_app; assumption.
Qed.

Lemma exec_block_read_first ss :
  Forall (fun s => ~ In a (stmt_plain_stores s) ->
                   forall rho, read_before_written a (events_of (exec_stmt T s rho))) ss ->
  ~ In a (plain_stores ss) ->
  forall rho, read_before_written a (events_of (exec_block (exec_stmt T) ss rho)).
Proof.
  induction 1 as [|s ss Hs _ IH]; intros Hn rho; simpl.
  - intros pre idx post E. destruct pre; discriminate E.
  - unfold plain_stores in Hn. cbn [flat_map] in Hn. rewrite in_app_iff in Hn.
    specialize (Hs (fun H => Hn (or_introl H)) rho).
    destruct (exec_stmt T s rho) as [[o rho1] ev1].
    specialize (IH (fun H => Hn (or_intror H)) rho1).
    destruct (exec_block (exec_stmt T) ss rho1) as [[o2 rho2] ev2].
    unfold events_of in *; simpl in *.
    destruct o; simpl; try exact Hs. apply read_first_app; assumption.
Qed.

Lemma exec_stmt_read_first s :
  ~ In a (stmt_plain_stores s) ->
  forall rho, read_before_written a (events_of (exec_stmt T s rho)).
Proof.
  induction s as [ty x dims init|lhs rhs|lhs rhs|c th el IHt IHe|i lo hi step body IH
                 |f args| | |] using stmt_induction;
    intros Hn rho; unfold events_of; simpl.
  - destruct init as [e|]; [|intros pre idx post E; destruct pre; discriminate E].
    pose proof (eval_read_first rho e) as H. destruct (eval T rho e) as [v ev]. exact H.
  - pose proof (eval_kinds T rhs rho) as H.
    pose proof (eval_read_first rho rhs) as Hr.
    destruct lhs; try (destruct (eval T rho rhs) as [v ev]; exact Hr).
    pose proof (eval_list_read_first rho idx) as Hi.
    destruct (eval_list (eval T rho) idx) as [vs ev1], (eval T rho rhs) as [v ev2].
    simpl in *. apply read_first_app; [exact Hi|]. apply read_first_app; [exact Hr|].
    apply (no_write_read_first a [KWrite a0]); [apply emits_one; left; reflexivity|].
    intros [E|[]]. injection E as ->. apply Hn. left. reflexivity.
  - pose proof (eval_kinds T rhs rho) as H.
    pose proof (eval_read_first rho rhs) as Hr.
    destruct lhs; try (destruct (eval T rho rhs) as [v ev]; exact Hr).
    pose proof (eval_list_read_first rho idx) as Hi.
    destruct (eval_list (eval T rho) idx) as [vs ev1], (eval T rho rhs) as [v ev2].
    simpl in *. apply read_first_app; [exact Hi|].
    destruct (String.eqb a a0) eqn:E.
    + apply String.eqb_eq in E. subst a0.
      apply (add_assign_read_first a vs (expr_kinds rhs)); [exact H|].
      apply expr_kinds_no_write.
    + apply (no_write_read_first a (KRead a0 :: KWrite a0 :: expr_kinds rhs)).
      * constructor; [left; reflexivity|].
        apply emits_app; [eapply emits_incl; [|exact H]; intros k Hk; right; right; exact Hk|].
        apply emits_one. right. left. reflexivity.
      * intros [E'|[E'|E']]; [discriminate E'| |exact (expr_kinds_no_write a rhs E')].
        injection E' as ->. rewrite String.eqb_refl in E. discriminate E.
  - cbn [stmt_plain_stores] in Hn. rewrite in_app_iff in Hn.
    pose proof (eval_read_first rho c) as Hc.
    pose proof (exec_block_read_first th IHt (fun H => Hn (or_introl H)) rho) as Ht.
    pose proof (exec_block_read_first el IHe (fun H => Hn (or_intror H)) rho) as He.
    destruct (eval T rho c) as [vc ev].
    destruct (exec_block (exec_stmt T) th rho) as [[o1 r1] ev1].
    destruct (exec_block (exec_stmt T) el rho) as [[o2 r2] ev2].
    unfold events_of in *; simpl in *.
    destruct vc as [z|l|[|]|]; simpl; try exact Hc; apply read_first_app; assumption.
  - cbn [stmt_plain_stores] in Hn.
    pose proof (eval_read_first rho lo) as Hlo. pose proof (eval_read_first rho hi) as Hhi.
    destruct (eval T rho lo) as [vlo ev1], (eval T rho hi) as [vhi ev2]. simpl in *.
    assert (Hd : read_before_written a (ev1 ++ ev2)) by (apply read_first_app; assumption).
    destruct vlo as [x|l|b|]; try exact Hd.
    destruct vhi as [y|l|b|]; try exact Hd.
    destruct (0 <? step); try exact Hd.
    pose proof (for_iter_read_first (exec_block (exec_stmt T) body) i step
                  (exec_block_read_first body IH Hn) (trip_count x y step) x rho) as Hf.
    destruct (for_iter _ i x step _ rho) as [[o r] ev3].
    unfold events_of in *; simpl in *.
    apply read_first_app; [exact Hlo|]. apply read_first_app; assumption.
  - pose proof (eval_list_read_first rho args) as Hi.
    destruct (eval_list (eval T rho) args) as [vs ev]. simpl in *.
    apply read_first_app; [exact Hi|].
    apply (no_write_read_first a [KCall f]); [apply emits_one; left; reflexivity|].
    intros [E|[]]. discriminate E.
  - intros pre idx post E. destruct pre; discriminate E.
  - intros pre idx post E. destruct pre; discriminate E.
  - intros pre idx post E. destruct pre; discriminate E.
Qed.

(** A block that never stores to [a] with [=] loads every cell of [a]
    before it stores to it. *)
Lemma exec_read_first ss rho :
  ~ In a (plain_stores ss) ->
  read_before_written a (events_of (exec T ss rho)).
Proof.
  intros Hn. apply exec_block_read_first; [|exact Hn].
  apply Forall_forall. intros s _. apply exec_stmt_read_first.
Qed.

End ReadFirst.

(** The first access to such an array, if there is one, is a load. *)
Lemma first_access_is_a_load a evs :
  read_before_written a evs ->
  forall ev, first_access a evs = Some ev -> exists idx, ev = ARead a idx.
Proof.
  unfold first_access.
  induction evs as [|e evs IH]; intros Hr ev Hf; [discriminate Hf|].
  cbn [find] in Hf.
  destruct e as [b i|b i|f args|f args].
  - destruct (String.eqb a b) eqn:E.
    + apply String.eqb_eq in E. subst b. injection Hf as <-. exists i. reflexivity.
    + apply IH; [|exact Hf]. intros pre idx post Epre.
      destruct (Hr (ARead b i :: pre) idx post) as [H|H];
        [rewrite Epre; reflexivity| |exact H].
      injection H as -> _. rewrite String.eqb_refl in E. discriminate E.
  - destruct (String.eqb a b) eqn:E.
    + apply String.eqb_eq in E. subst b. destruct (Hr [] i evs eq_refl).
    + apply IH; [|exact Hf]. intros pre idx post Epre.
      destruct (Hr (AWrite b i :: pre) idx post) as [H|H];
        [rewrite Epre; reflexivity|discriminate H|exact H].
  - apply IH; [|exact Hf]. intros pre idx post Epre.
    destruct (Hr (Sample f args :: pre) idx post) as [H|H];
      [rewrite Epre; reflexivity|discriminate H|exact H].
  - apply IH; [|exact Hf]. intros pre idx post Epre.
    destruct (Hr (Call f args :: pre) idx post) as [H|H];
      [rewrite Epre; reflexivity|discriminate H|exact H].
Qed.

(** ** Initialisation of the accumulators *)

(** C10. The first, third and fourth variant set every accumulator the tile
    loop adds to to [vec4(0)] before the loop ([vec4 result = vec4(0)], or
    the loop nest over [WPT] x [WPT] entries of [result] / [acc]).  The
    second declares [vec4 result[WPT]] without initialiser and adds to
    [result[w]] inside the tile loop; nothing gives [result] a value before:
    no statement before the tile loop assigns it, no statement of the body of
    the tile loop, at any depth, sets anything to [vec4(0)] or gives [result]
    a value with [=], and in the events of every invocation each store to an
    entry of [result] comes after a load of that entry: the first access of
    an invocation to [result], if it has one, is the load of a [+=]. *)
Theorem C10_accumulator_initialisation
  (aShape outShape : list Z) (tA tB : bool) (TS TSK WPT : Z)
  (addBias : bool) (act : option string) :
  let p v := matmul_program v aShape outShape tA tB TS TSK WPT addBias act in
  let result3 := EIdx "result" [EVar "innerRow"; EVar "innerCol"] in
  let acc4 := EIdx "acc" [EVar "wm"; EVar "wn"] in
  (accumulated (tile_body (p CSV1)) = [EVar "result"] /\
   zero_inits (before_tiles (p CSV1)) = [EVar "result"] /\
   In (decl "vec4" "result" vec4_0) (before_tiles (p CSV1))) /\
  (accumulated (tile_body (p CSV3)) = [result3] /\
   zero_inits (before_tiles (p CSV3)) = [result3] /\
   In (decl_array "vec4" "result" [EInt WPT; EInt WPT]) (before_tiles (p CSV3)) /\
   In (for_upto "innerRow" WPT [for_upto "innerCol" WPT [SAssign result3 vec4_0]])
      (before_tiles (p CSV3))) /\
  (accumulated (tile_body (p CSV4)) = [acc4] /\
   zero_inits (before_tiles (p CSV4)) = [acc4] /\
   In (decl_array "vec4" "acc" [EInt WPT; EInt WPT]) (before_tiles (p CSV4)) /\
   In (for_upto "wm" WPT [for_upto "wn" WPT [SAssign acc4 vec4_0]])
      (before_tiles (p CSV4))) /\
  (accumulated (tile_body (p CSV2)) = [EIdx "result" [EVar "w"]] /\
   zero_inits (before_tiles (p CSV2)) = [] /\
   ~ In "result" (assigned (before_tiles (p CSV2))) /\
   In (decl_array "vec4" "result" [EInt WPT]) (before_tiles (p CSV2)) /\
   zero_inits (tile_body (p CSV2)) = [] /\
   ~ In "result" (initialised (tile_body (p CSV2))) /\
   forall T : thread,
     read_before_written "result" (trace T (p CSV2)) /\
     forall ev, first_access "result" (trace T (p CSV2)) = Some ev ->
                exists idx, ev = ARead "result" idx).
Proof.
  intros p result3 acc4.
  split; [repeat split; try reflexivity; cbn; tauto|].
  split; [repeat split; try reflexivity; cbn; tauto|].
  split; [repeat split; try reflexivity; cbn; tauto|].
  split; [reflexivity|]. split; [reflexivity|].
  split.
  { cbn. intros H. repeat (destruct H as [H|H]; [discriminate H|]). exact H. }
  split; [cbn; tauto|].
  split; [subst p; destruct tA, tB; reflexivity|].
  split.
  { cbn. intros H. repeat (destruct H as [H|H]; [discriminate H|]). exact H. }
  intros T.
  assert (Hr : read_before_written "result" (trace T (p CSV2))).
  { unfold trace, run. fold exec. apply exec_read_first.
    subst p. destruct addBias, (truthy act) eqn:E; cbn; rewrite ?E; cbn;
      intros H; repeat (destruct H as [H|H]; [discriminate H|]); exact H. }
  split; [exact Hr|]. apply first_access_is_a_load. exact Hr.
Qed.

(** The second variant at work: the first access of an invocation to its
    accumulator array is the read of [result[0] += ..]; in the third it is
    the write of the initialisation. *)
Lemma first_access_to_the_accumulators :
  first_access "result"
    (trace thread_1_1
       (MatMulPackedProgramCSV2 [1; 2; 2] [1; 2; 2] false false 2 1 false None))
  = Some (ARead "result" [VInt 0]) /\
  first_access "result"
    (trace thread_1_1
       (returned (MatMulPackedProgramCSV3 [1; 2; 2] [1; 2; 2] false false 2 1 false None)))
  = Some (AWrite "result" [VInt 0; VInt 0]).
Proof. vm_compute. split; reflexivity. Qed.

(** ** Inputs and helpers *)

Ltac binds_by_cases :=
  split;
  [ intros f Hf; cbn in Hf;
    repeat (destruct Hf as [<-|Hf];
            [first [ eexists; split; [left; reflexivity|reflexivity]
                   | eexists; split; [right; left; reflexivity|reflexivity]
                   | eexists; split; [right; right; left; reflexivity|reflexivity] ]|]);
    destruct Hf
  | intros x Hx; cbn in Hx;
    repeat (destruct Hx as [<-|Hx];
            [first [ eexists; split; [left; reflexivity|reflexivity]
                   | eexists; split; [right; left; reflexivity|reflexivity]
                   | eexists; split; [right; right; left; reflexivity|reflexivity]
                   | eexists; split; [do 3 right; left; reflexivity|reflexivity]
                   | eexists; split; [do 4 right; left; reflexivity|reflexivity]
                   | eexists; split; [do 5 right; left; reflexivity|reflexivity]
                   | eexists; split; [do 6 right; left; reflexivity|reflexivity]
                   | eexists; split; [do 7 right; left; reflexivity|reflexivity]
                   | eexists; split; [do 8 right; left; reflexivity|reflexivity]
                   | eexists; split; [do 9 right; left; reflexivity|reflexivity]
                   | eexists; split; [do 10 right; left; reflexivity|reflexivity]
                   | eexists; split; [do 11 right; left; reflexivity|reflexivity]
                   | eexists; split; [do 12 right; left; reflexivity|reflexivity]
                   | eexists; split; [do 13 right; left; reflexivity|reflexivity]
                   | eexists; split; [do 14 right; left; reflexivity|reflexivity]
                   | eexists; split; [do 15 right; left; reflexivity|reflexivity]
                   | eexists; split; [do 16 right; left; reflexivity|reflexivity] ]|]);
    destruct Hx ].

Lemma matmul_binds_its_inputs v aShape outShape tA tB TS TSK WPT addBias act :
  binds_its_inputs (matmul_program v aShape outShape tA tB TS TSK WPT addBias act).
Proof.
  unfold binds_its_inputs, samplers.
  destruct v, tA, tB, addBias, (truthy act) eqn:E; cbn; rewrite ?E; binds_by_cases.
Qed.

Lemma decode_binds_its_inputs glsl_output coords outShape texShape :
  binds_its_inputs (DecodeMatrixPackedProgram glsl_output coords outShape texShape).
Proof. unfold binds_its_inputs, samplers. cbn. binds_by_cases. Qed.

Lemma depthwise_binds_its_inputs convInfo :
  binds_its_inputs (DepthwiseConv2DProgramCS convInfo).
Proof. unfold binds_its_inputs, samplers. cbn. binds_by_cases. Qed.

Lemma conv2d_binds_its_inputs convInfo :
  binds_its_inputs (Conv2DProgramCS convInfo).
Proof.
  unfold binds_its_inputs, samplers. cbn.
  destruct (Math_floor_div (inChannels convInfo) 4 * 4 =? 0); cbn; binds_by_cases.
Qed.

(** X1. The inputs a program declares in [variableNames] are exactly the
    inputs its body samples, for each of the seven programs and all
    arguments: every sampler called in [main] is [get<Input>] or
    [get<Input>AtOutCoords] of a declared input, and every declared input has
    such a call.  In particular the first two variants declare [bias] exactly
    when they call [getBiasAtOutCoords()], and the third and the fourth, which
    ignore [addBias], neither declare nor sample it. *)
Theorem X1_declared_inputs_are_the_sampled_inputs
  (v : variant) (aShape outShape texShape : list Z) (tA tB : bool) (TS TSK WPT : Z)
  (addBias : bool) (act : option string) (convInfo : Conv2DInfo)
  (glsl_output : string) (coords : list string -> list Z -> string) :
  let p := matmul_program v aShape outShape tA tB TS TSK WPT addBias act in
  binds_its_inputs p /\
  binds_its_inputs (DecodeMatrixPackedProgram glsl_output coords outShape texShape) /\
  binds_its_inputs (DepthwiseConv2DProgramCS convInfo) /\
  binds_its_inputs (Conv2DProgramCS convInfo) /\
  (In "bias" (variableNames p) <-> In "getBiasAtOutCoords" (samplers p)) /\
  (In "bias" (variableNames p) <->
   addBias = true /\ (v = CSV1 \/ v = CSV2)).
Proof.
  intros p. split; [apply matmul_binds_its_inputs|].
  split; [apply decode_binds_its_inputs|].
  split; [apply depthwise_binds_its_inputs|].
  split; [apply conv2d_binds_its_inputs|].
  subst p. unfold samplers.
  destruct v, tA, tB, addBias, (truthy act) eqn:E; cbn; rewrite ?E; cbn;
    (split; split; intros H;
     repeat match goal with
            | H : _ \/ _ |- _ => destruct H as [H|H]
            | H : _ /\ _ |- _ => destruct H as [? H]
            | H : False |- _ => destruct H
            end; try discriminate; auto 10).
Qed.

Lemma mem_In x l : mem x l = true <-> In x l.
Proof.
  unfold mem. rewrite existsb_exists. split.
  - intros (y & Hy & E). apply String.eqb_eq in E. subst y. exact Hy.
  - intros H. exists x. split; [exact H|apply String.eqb_refl].
Qed.

(** X2. The helper [vec4 activation(vec4 x) { .. }] is defined exactly
    when the body calls it, in each of the four variants: both happen when
    the [activation] argument is truthy, and then the helper's body is the
    argument; an empty string is treated as [null]. *)
Theorem X2_activation_defined_iff_applied
  (v : variant) (aShape outShape : list Z) (tA tB : bool) (TS TSK WPT : Z)
  (addBias : bool) (act : option string) :
  let p a := matmul_program v aShape outShape tA tB TS TSK WPT addBias a in
  (In "activation" (block_names (main (userCode (p act)))) <->
   In "activation" (map fst (helpers (p act)))) /\
  helpers (p act) = match act with
                    | Some body => if truthy act then [("activation", body)] else []
                    | None => []
                    end /\
  p (Some EmptyString) = p None.
Proof.
  intros p. subst p. split; [|split].
  - rewrite <- !mem_In.
    destruct act as [[|c s]|]; destruct v, tA, tB, addBias; vm_compute; tauto.
  - destruct act as [[|c s]|]; destruct v; reflexivity.
  - destruct v; reflexivity.
Qed.

(** ** Barriers and the shared arrays *)

Lemma phases_app sh ph e1 e2 :
  phases sh ph (e1 ++ e2) =
  match phases sh ph e1 with
  | Some ph1 => phases sh ph1 e2
  | None => None
  end.
Proof.
  revert ph. induction e1 as [|ev e1 IH]; intros ph; simpl; [reflexivity|].
  destruct (phase_step sh ph ev); [apply IH|reflexivity].
Qed.

Lemma phases_stay sh ph ks evs :
  emits ks evs -> forallb (allowed sh ph) ks = true -> phases sh ph evs = Some ph.
Proof.
  intros He Hk. rewrite forallb_forall in Hk.
  induction He as [|ev evs Hev _ IH]; [reflexivity|].
  simpl. specialize (Hk _ Hev).
  assert (Hs : phase_step sh ph ev = Some ph).
  { destruct ev as [a i|a i|f a|f a], ph; simpl in *;
      try reflexivity; destruct (mem _ sh) || destruct (String.eqb _ _);
      try reflexivity; discriminate. }
  rewrite Hs. exact IH.
Qed.

Lemma emits_none evs : emits [] evs -> evs = [].
Proof. intros H. destruct H as [|ev evs Hev _]; [reflexivity|destruct Hev]. Qed.

Lemma barriers_app e1 e2 : barriers (e1 ++ e2) = (barriers e1 + barriers e2)%nat.
Proof. unfold barriers. rewrite filter_app, length_app. reflexivity. Qed.

Lemma no_barriers ks evs :
  emits ks evs -> ~ In (KCall "barrier") ks -> barriers evs = 0%nat.
Proof.
  intros He Hn. induction He as [|ev evs Hev _ IH]; [reflexivity|].
  unfold barriers in *. simpl.
  destruct ev as [a i|a i|f a|f a]; simpl; try exact IH.
  destruct (String.eqb f "barrier") eqn:E; [|exact IH].
  apply String.eqb_eq in E. subst f. contradiction.
Qed.

Section Discipline.

Variable T : thread.
Variable sh : list string.

(** A counting loop hands [break] and [continue] to nobody. *)
Lemma for_iter_no_jump run i step n :
  forall k rho,
    outcome_of (for_iter run i k step n rho) <> OBreak /\
    outcome_of (for_iter run i k step n rho) <> OContinue.
Proof.
  induction n as [|n IH]; intros k rho; simpl; [split; discriminate|].
  destruct (run ((i, VInt k) :: rho)) as [[o rho1] ev1].
  specialize (IH (k + step) rho1).
  destruct (for_iter run i (k + step) step n rho1) as [[o2 rho2] ev2].
  unfold outcome_of in *; simpl in *.
  destruct o; simpl; try (split; discriminate); exact IH.
Qed.

Lemma exec_stmt_no_jump s :
  stmt_jumps s = false ->
  forall rho, outcome_of (exec_stmt T s rho) <> OBreak /\
              outcome_of (exec_stmt T s rho) <> OContinue.
Proof.
  induction s as [ty x dims init|lhs rhs|lhs rhs|c th el IHt IHe|i lo hi step body IH
                 |f args| | |] using stmt_induction;
    intros Hj rho; unfold outcome_of; simpl in *; try discriminate.
  - destruct init as [e|]; [destruct (eval T rho e)|]; split; discriminate.
  - destruct lhs; try (destruct (eval T rho rhs); split; discriminate).
    destruct (eval_list (eval T rho) idx), (eval T rho rhs); split; discriminate.
  - destruct lhs; try (destruct (eval T rho rhs); split; discriminate).
    destruct (eval_list (eval T rho) idx), (eval T rho rhs); split; discriminate.
  - apply orb_false_elim in Hj. destruct Hj as [Ht He].
    assert (Hb : forall ss, Forall (fun s => stmt_jumps s = false ->
                   forall rho, outcome_of (exec_stmt T s rho) <> OBreak /\
                               outcome_of (exec_stmt T s rho) <> OContinue) ss ->
                 existsb stmt_jumps ss = false ->
                 forall rho, outcome_of (exec_block (exec_stmt T) ss rho) <> OBreak /\
                             outcome_of (exec_block (exec_stmt T) ss rho) <> OContinue).
    { clear. induction 1 as [|s ss Hs _ IHss]; intros Hj rho; simpl.
      - split; discriminate.
      - simpl in Hj. apply orb_false_elim in Hj. destruct Hj as [H1 H2].
        specialize (Hs H1 rho). destruct (exec_stmt T s rho) as [[o rho1] ev1].
        specialize (IHss H2 rho1).
        destruct (exec_block (exec_stmt T) ss rho1) as [[o2 rho2] ev2].
        unfold outcome_of in *; simpl in *. destruct o; simpl; assumption. }
    pose proof (Hb th IHt Ht rho) as H1. pose proof (Hb el IHe He rho) as H2.
    destruct (eval T rho c) as [vc ev].
    destruct (exec_block (exec_stmt T) th rho) as [[o1 r1] ev1].
    destruct (exec_block (exec_stmt T) el rho) as [[o2 r2] ev2].
    unfold outcome_of in *; simpl in *.
    destruct vc as [z|l|[|]|]; simpl; try (split; discriminate); assumption.
  - destruct (eval T rho lo) as [vlo ev1], (eval T rho hi) as [vhi ev2].
    destruct vlo as [a|l|b|]; try (split; discriminate).
    destruct vhi as [b|l|b|]; try (split; discriminate).
    destruct (0 <? step); try (split; discriminate).
    pose proof (for_iter_no_jump (exec_block (exec_stmt T) body) i step
                  (trip_count a b step) a rho) as H.
    destruct (for_iter _ i a step _ rho) as [[o r] ev3].
    unfold outcome_of in *; simpl in *. exact H.
  - destruct (eval_list (eval T rho) args). split; discriminate.
  - split; discriminate.
Qed.

Lemma exec_no_jump ss rho :
  jumps ss = false ->
  outcome_of (exec T ss rho) <> OBreak /\ outcome_of (exec T ss rho) <> OContinue.
Proof.
  unfold jumps, exec. revert rho.
  induction ss as [|s ss IH]; intros rho Hj; simpl; [split; discriminate|].
  simpl in Hj. apply orb_false_elim in Hj. destruct Hj as [H1 H2].
  pose proof (exec_stmt_no_jump s H1 rho) as Hs.
  destruct (exec_stmt T s rho) as [[o rho1] ev1].
  specialize (IH rho1 H2).
  destruct (exec_block (exec_stmt T) ss rho1) as [[o2 rho2] ev2].
  unfold outcome_of in *; simpl in *. destruct o; simpl; assumption.
Qed.

#[local] Set Warnings "-notation-for-abbreviation".
#[local] Notation moves := (moves T sh).

Lemma moves_stay ph ss :
  forallb (allowed sh ph) (block_kinds ss) = true -> moves ph ss ph.
Proof.
  intros Hk rho. exists ph. split; [|reflexivity].
  eapply phases_stay; [apply exec_kinds|exact Hk].
Qed.

Lemma moves_app ph ph1 ph2 a b :
  moves ph a ph1 -> moves ph1 b ph2 -> moves ph (a ++ b) ph2.
Proof.
  intros Ha Hb rho. rewrite exec_app.
  destruct (Ha rho) as (p1 & Hp1 & Ho1).
  destruct (exec T a rho) as [[o rho1] ev1].
  unfold keeps_phases, events_of, outcome_of in *. simpl in *.
  destruct o; try (exists p1; split; [exact Hp1|discriminate]).
  specialize (Ho1 eq_refl). subst p1.
  destruct (Hb rho1) as (p2 & Hp2 & Ho2).
  destruct (exec T b rho1) as [[o2 rho2] ev2]. simpl in *.
  exists p2. rewrite phases_app, Hp1. split; assumption.
Qed.

Lemma moves_barrier ph : moves ph [SCall "barrier" []] (other ph).
Proof.
  intros rho. exists (other ph). split; [|reflexivity]. reflexivity.
Qed.

Lemma for_iter_moves ph run i step :
  (forall rho, keeps_phases sh ph (run rho) ph) ->
  (forall rho, outcome_of (run rho) <> OBreak /\ outcome_of (run rho) <> OContinue) ->
  forall n k rho, keeps_phases sh ph (for_iter run i k step n rho) ph.
Proof.
  intros Hrun Hj. induction n as [|n IH]; intros k rho; simpl.
  - exists ph. split; reflexivity.
  - destruct (Hrun ((i, VInt k) :: rho)) as (p1 & Hp1 & Ho1).
    destruct (Hj ((i, VInt k) :: rho)) as [Hb Hc].
    destruct (run ((i, VInt k) :: rho)) as [[o rho1] ev1].
    destruct (IH (k + step) rho1) as (p2 & Hp2 & Ho2).
    destruct (for_iter run i (k + step) step n rho1) as [[o2 rho2] ev2].
    unfold keeps_phases, events_of, outcome_of in *. simpl in *.
    destruct o; try (exfalso; apply Hb; reflexivity);
      try (exfalso; apply Hc; reflexivity);
      try (exists p1; split; [exact Hp1|discriminate]).
    specialize (Ho1 eq_refl). subst p1. cbn [fst snd].
    exists p2. rewrite phases_app, Hp1. split; assumption.
Qed.

Lemma moves_for ph i lo hi step body :
  expr_kinds lo = [] -> expr_kinds hi = [] ->
  jumps body = false -> moves ph body ph ->
  moves ph [SFor i lo hi step body] ph.
Proof.
  intros Hlo Hhi Hj Hb rho. rewrite exec_single. simpl.
  pose proof (eval_kinds T lo rho) as H1. pose proof (eval_kinds T hi rho) as H2.
  rewrite Hlo in H1. rewrite Hhi in H2.
  apply emits_none in H1. apply emits_none in H2.
  destruct (eval T rho lo) as [vlo ev1], (eval T rho hi) as [vhi ev2].
  simpl in H1, H2. subst ev1 ev2.
  assert (Hstuck : keeps_phases sh ph (OStuck, rho, [] ++ []) ph)
    by (exists ph; split; [reflexivity|discriminate]).
  destruct vlo as [a|l|b|]; try exact Hstuck.
  destruct vhi as [b|l|b|]; try exact Hstuck.
  destruct (0 <? step); try exact Hstuck.
  pose proof (for_iter_moves ph (exec T body) i step Hb
                (fun rho => exec_no_jump body rho Hj) (trip_count a b step) a rho) as Hf.
  unfold exec in Hf.
  destruct (for_iter _ i a step _ rho) as [[o r] ev3]. exact Hf.
Qed.

End Discipline.

Lemma matmul_main_tiles v aShape outShape tA tB TS TSK WPT addBias act :
  let p := matmul_program v aShape outShape tA tB TS TSK WPT addBias act in
  main (userCode p)
  = before_tiles p ++ [for_upto "t" "numTiles" (tile_body p)]
    ++ after_loop "t" (main (userCode p)) /\
  tile_body p
  = tile_loads p ++ [SCall "memoryBarrierShared" []] ++ [SCall "barrier" []]
    ++ tile_products p ++ [SCall "barrier" []].
Proof.
  destruct v, tA, tB, addBias, (truthy act) eqn:E; cbn; rewrite ?E; split; reflexivity.
Qed.

Lemma matmul_tile_kinds v aShape outShape tA tB TS TSK WPT addBias act :
  let p := matmul_program v aShape outShape tA tB TS TSK WPT addBias act in
  forallb (allowed tiles Filling) (block_kinds (before_tiles p)) = true /\
  forallb (allowed tiles Filling) (block_kinds (tile_loads p)) = true /\
  forallb (allowed tiles Computing) (block_kinds (tile_products p)) = true /\
  forallb (allowed tiles Filling) (block_kinds (after_loop "t" (main (userCode p)))) = true /\
  jumps (tile_body p) = false.
Proof.
  destruct v, tA, tB, addBias, (truthy act) eqn:E; cbn; rewrite ?E;
    repeat split; reflexivity.
Qed.

Lemma matmul_keeps_phases T v aShape outShape tA tB TS TSK WPT addBias act :
  keeps_phases tiles Filling
    (run T (matmul_program v aShape outShape tA tB TS TSK WPT addBias act)) Filling.
Proof.
  unfold run. fold exec.
  destruct (matmul_main_tiles v aShape outShape tA tB TS TSK WPT addBias act) as [Hm Hb].
  destruct (matmul_tile_kinds v aShape outShape tA tB TS TSK WPT addBias act)
    as (Hpre & Hl & Hp & Hpost & Hj).
  set (p := matmul_program _ _ _ _ _ _ _ _ _ _) in *. rewrite Hm.
  apply (moves_app T tiles Filling Filling Filling); [apply moves_stay, Hpre|].
  apply (moves_app T tiles Filling Filling Filling); [|apply moves_stay, Hpost].
  apply moves_for; try reflexivity; [exact Hj|].
  rewrite Hb.
  apply (moves_app T tiles Filling Filling Filling); [apply moves_stay, Hl|].
  apply (moves_app T tiles Filling Filling Filling); [apply moves_stay; reflexivity|].
  apply (moves_app T tiles Filling Computing Filling); [apply moves_barrier|].
  apply (moves_app T tiles Computing Computing Filling); [apply moves_stay, Hp|].
  apply (moves_barrier T tiles Computing).
Qed.

Lemma conv2d_main_phases convInfo :
  let p := Conv2DProgramCS convInfo in
  main (userCode p)
  = fill_phase p ++ [SCall "memoryBarrierShared" []] ++ [SCall "barrier" []]
    ++ compute_phase p.
Proof. reflexivity. Qed.

Lemma convolution_keeps_phases T (p : GPGPUProgram) :
  main (userCode p)
  = fill_phase p ++ [SCall "memoryBarrierShared" []] ++ [SCall "barrier" []]
    ++ compute_phase p ->
  forallb (allowed caches Filling) (block_kinds (fill_phase p)) = true ->
  forallb (allowed caches Computing) (block_kinds (compute_phase p)) = true ->
  keeps_phases caches Filling (run T p) Computing.
Proof.
  intros Hm Hf Hc. unfold run. fold exec. rewrite Hm.
  apply (moves_app T caches Filling Filling Computing); [apply moves_stay, Hf|].
  apply (moves_app T caches Filling Filling Computing); [apply moves_stay; reflexivity|].
  apply (moves_app T caches Filling Computing Computing); [apply moves_barrier|].
  apply moves_stay, Hc.
Qed.

(** X3. Every invocation touches the shared arrays in step with the
    barriers: counted from the start of [main], the tiles [Asub] and [Bsub] of
    the four multiplications and the [cache] of the two convolutions are
    written only in the intervals before an odd-numbered [barrier()] and read
    only in the intervals after one, whatever the identifiers of the
    invocation and the arguments of the constructor.  A multiplication that
    runs to its end has passed an even number of barriers, a convolution one
    that is odd. *)
Theorem X3_shared_arrays_between_barriers
  (T : thread) (v : variant) (aShape outShape : list Z) (tA tB : bool) (TS TSK WPT : Z)
  (addBias : bool) (act : option string) (convInfo : Conv2DInfo) :
  keeps_phases tiles Filling
    (run T (matmul_program v aShape outShape tA tB TS TSK WPT addBias act)) Filling /\
  keeps_phases caches Filling (run T (DepthwiseConv2DProgramCS convInfo)) Computing /\
  keeps_phases caches Filling (run T (Conv2DProgramCS convInfo)) Computing.
Proof.
  split; [apply matmul_keeps_phases|]. split.
  - apply convolution_keeps_phases; reflexivity.
  - apply convolution_keeps_phases; reflexivity.
Qed.

(** ** Uniform barriers *)

Lemma trip_count_upto hi : trip_count 0 hi 1 = Z.to_nat hi.
Proof. unfold trip_count. rewrite Z.div_1_r. f_equal. lia. Qed.

Section Passing.

Variable T : thread.

Lemma for_iter_normal run i step :
  (forall rho, outcome_of (run rho) = ONormal) ->
  forall n k rho, outcome_of (for_iter run i k step n rho) = ONormal.
Proof.
  intros Hrun. induction n as [|n IH]; intros k rho; simpl; [reflexivity|].
  specialize (Hrun ((i, VInt k) :: rho)).
  destruct (run ((i, VInt k) :: rho)) as [[o rho1] ev1].
  specialize (IH (k + step) rho1).
  destruct (for_iter run i (k + step) step n rho1) as [[o2 rho2] ev2].
  unfold outcome_of in *; simpl in *. subst o. exact IH.
Qed.

Lemma exec_block_straight ss :
  Forall (fun s => stmt_straight s = true ->
                   forall rho, outcome_of (exec_stmt T s rho) = ONormal) ss ->
  forallb stmt_straight ss = true ->
  forall rho, outcome_of (exec_block (exec_stmt T) ss rho) = ONormal.
Proof.
  induction 1 as [|s ss Hs _ IH]; intros Hst rho; simpl; [reflexivity|].
  simpl in Hst. apply andb_prop in Hst. destruct Hst as [H1 H2].
  specialize (Hs H1 rho). destruct (exec_stmt T s rho) as [[o rho1] ev1].
  specialize (IH H2 rho1).
  destruct (exec_block (exec_stmt T) ss rho1) as [[o2 rho2] ev2].
  unfold outcome_of in *; simpl in *. subst o. exact IH.
Qed.

Lemma exec_stmt_straight s :
  stmt_straight s = true -> forall rho, outcome_of (exec_stmt T s rho) = ONormal.
Proof.
  induction s as [ty x dims init|lhs rhs|lhs rhs|c th el IHt IHe|i lo hi step body IH
                 |f args| | |] using stmt_induction;
    intros Hst rho; unfold outcome_of; simpl in *; try discriminate.
  - destruct init as [e|]; [destruct (eval T rho e)|]; reflexivity.
  - destruct lhs; try (destruct (eval T rho rhs); reflexivity).
    destruct (eval_list (eval T rho) idx), (eval T rho rhs); reflexivity.
  - destruct lhs; try (destruct (eval T rho rhs); reflexivity).
    destruct (eval_list (eval T rho) idx), (eval T rho rhs); reflexivity.
  - destruct lo as [a| | | | | | | |]; try discriminate.
    destruct hi as [b| | | | | | | |]; try discriminate.
    apply andb_prop in Hst. destruct Hst as [H1 H2]. simpl. rewrite H1.
    pose proof (for_iter_normal (exec_block (exec_stmt T) body) i step
                  (exec_block_straight body IH H2) (trip_count a b step) a rho) as Hf.
    destruct (for_iter _ i a step _ rho) as [[o r] ev3].
    unfold outcome_of in Hf. simpl in *. exact Hf.
  - destruct (eval_list (eval T rho) args). reflexivity.
Qed.

Lemma exec_straight ss rho :
  straight ss = true -> outcome_of (exec T ss rho) = ONormal.
Proof.
  intros H. apply exec_block_straight; [|exact H].
  apply Forall_forall. intros s _. apply exec_stmt_straight.
Qed.

Lemma exec_for_var i x hi body rho :
  builtin_var T x = None -> lookup x rho = Some (VInt hi) ->
  exec_stmt T (for_upto i (EVar x) body) rho =
  for_iter (exec T body) i 0 1 (trip_count 0 hi 1) rho.
Proof.
  intros Hb Hx. simpl. rewrite Hb, Hx. unfold exec.
  destruct (for_iter _ i 0 1 _ rho) as [[o rho1] ev]. reflexivity.
Qed.

#[local] Set Warnings "-notation-for-abbreviation".
#[local] Notation passes := (passes T).

Lemma passes_app I J K a b c1 c2 :
  passes I J a c1 -> passes J K b c2 -> passes I K (a ++ b) (c1 + c2).
Proof.
  intros Ha Hb rho HI. rewrite exec_app.
  destruct (Ha rho HI) as (Ho & HJ & Hc).
  destruct (exec T a rho) as [[o rho1] ev1].
  unfold outcome_of, env_of, events_of in *. simpl in *. subst o.
  destruct (Hb rho1 HJ) as (Ho2 & HK & Hc2).
  destruct (exec T b rho1) as [[o2 rho2] ev2]. simpl in *.
  rewrite barriers_app. auto.
Qed.

Lemma passes_straight I ss :
  straight ss = true -> ~ In (KCall "barrier") (block_kinds ss) ->
  (forall rho, I rho -> I (env_of (exec T ss rho))) ->
  passes I I ss 0.
Proof.
  intros Hs Hk HI rho Hrho. split; [apply exec_straight, Hs|].
  split; [apply HI, Hrho|]. eapply no_barriers; [apply exec_kinds|exact Hk].
Qed.

Lemma passes_barrier I : passes I I [SCall "barrier" []] 1.
Proof. intros rho HI. repeat split. exact HI. Qed.

Lemma for_iter_count (I : env -> Prop) run i step c :
  (forall k rho, I rho ->
     let r := run ((i, VInt k) :: rho) in
     outcome_of r = ONormal /\ I (env_of r) /\ barriers (events_of r) = c) ->
  forall n k rho, I rho ->
     let r := for_iter run i k step n rho in
     outcome_of r = ONormal /\ I (env_of r) /\ barriers (events_of r) = (n * c)%nat.
Proof.
  intros Hrun. induction n as [|n IH]; intros k rho HI; simpl.
  - repeat split. exact HI.
  - destruct (Hrun k rho HI) as (Ho & HI1 & Hc).
    destruct (run ((i, VInt k) :: rho)) as [[o rho1] ev1].
    unfold outcome_of, env_of, events_of in *. simpl in *. subst o.
    destruct (IH (k + step) rho1 HI1) as (Ho2 & HI2 & Hc2).
    destruct (for_iter run i (k + step) step n rho1) as [[o2 rho2] ev2]. simpl in *.
    rewrite barriers_app. repeat split; try assumption; lia.
Qed.

Lemma in_tile_frame n t ss rho :
  ~ In "numTiles" (block_binds ss) -> ~ In "t" (block_binds ss) ->
  in_tile n t rho -> in_tile n t (env_of (exec T ss rho)).
Proof.
  intros H1 H2 [Hn Ht]. split; rewrite exec_frame; assumption.
Qed.

(** The reduction over one tile: the guarded size, then the loop up to
    it. *)
Lemma products_pass aShape tA E n t i body :
  straight body = true ->
  ~ In (KCall "barrier") (block_kinds body) ->
  ~ In "numTiles" (i :: block_binds body) -> ~ In "t" (i :: block_binds body) ->
  passes (in_tile n t) (in_tile n t)
    [decl "int" "sizeTS" (sizeTS_guard aShape tA E); for_upto i "sizeTS" body] 0.
Proof.
  intros Hs Hk Hn Ht rho [H1 H2].
  set (ss := [_; _]).
  assert (Hframe : in_tile n t (env_of (exec T ss rho))).
  { apply in_tile_frame; [| |split; assumption]; subst ss; cbn; rewrite app_nil_r.
    - intros [H|H]; [discriminate|]. exact (Hn H).
    - intros [H|H]; [discriminate|]. exact (Ht H). }
  assert (Hcount : barriers (events_of (exec T ss rho)) = 0%nat).
  { eapply no_barriers; [apply exec_kinds|]. subst ss.
    cbn. rewrite app_nil_r. exact Hk. }
  split; [|split; assumption].
  subst ss. rewrite exec_cons, exec_decl. cbv beta iota.
  rewrite exec_single, exec_for_var with (hi :=
    match fst (eval T rho (sizeTS_guard aShape tA E)) with VInt s => s | _ => 0 end).
  - pose proof (for_iter_normal (exec T body) i 1
                  (fun rho => exec_straight body rho Hs)) as Hf.
    match goal with
    | |- context [for_iter ?r ?i ?k ?s ?n ?rho] =>
        specialize (Hf n k rho); destruct (for_iter r i k s n rho) as [[o r1] ev]
    end.
    unfold outcome_of in *. simpl in *. exact Hf.
  - reflexivity.
  - cbn [lookup]. rewrite String.eqb_refl. f_equal.
    unfold sizeTS_guard. cbn. rewrite H1, H2. cbn.
    destruct (t =? n - 1); cbn; [|reflexivity].
    destruct (js_rem (sharedDimensionPacked aShape tA) E =? 0); reflexivity.
Qed.

End Passing.

Lemma matmul_tile_shape v aShape outShape tA tB TS TSK WPT addBias act :
  let p := matmul_program v aShape outShape tA tB TS TSK WPT addBias act in
  let N := Math_ceil_div (sharedDimensionPacked aShape tA) (tile_edge v TS TSK) in
  before_tiles p
  = before_decl "numTiles" (before_tiles p) ++ [decl "int" "numTiles" (EInt N)]
    ++ after_decl "numTiles" (before_tiles p) /\
  tile_products p
  = [decl "int" "sizeTS" (sizeTS_guard aShape tA (tile_edge v TS TSK));
     for_upto (fst (reduction p)) "sizeTS" (snd (reduction p))].
Proof.
  destruct v, tA, tB, addBias, (truthy act) eqn:E; cbn; rewrite ?E; split; reflexivity.
Qed.

Lemma matmul_tile_straight v aShape outShape tA tB TS TSK WPT addBias act :
  let p := matmul_program v aShape outShape tA tB TS TSK WPT addBias act in
  straight (before_decl "numTiles" (before_tiles p)) = true /\
  straight (after_decl "numTiles" (before_tiles p)) = true /\
  ~ In "numTiles" (block_binds (after_decl "numTiles" (before_tiles p))) /\
  straight (tile_loads p) = true /\
  straight (snd (reduction p)) = true.
Proof.
  destruct v, tA, tB, addBias, (truthy act) eqn:E; cbn; rewrite ?E;
    repeat split; try reflexivity; not_among.
Qed.

Lemma matmul_tile_binds v aShape outShape tA tB TS TSK WPT addBias act x :
  let p := matmul_program v aShape outShape tA tB TS TSK WPT addBias act in
  In x ["numTiles"; "t"] ->
  ~ In x (block_binds (tile_loads p)) /\
  ~ In x (fst (reduction p) :: block_binds (snd (reduction p))).
Proof.
  intros p Hx. subst p. rewrite <- !mem_In.
  destruct Hx as [<-|[<-|[]]];
    destruct v, tA, tB, addBias, (truthy act) eqn:E; cbn; rewrite ?E;
    split; vm_compute; discriminate.
Qed.

Lemma matmul_tile_barriers v aShape outShape tA tB TS TSK WPT addBias act :
  let p := matmul_program v aShape outShape tA tB TS TSK WPT addBias act in
  ~ In (KCall "barrier") (block_kinds (before_tiles p)) /\
  ~ In (KCall "barrier") (block_kinds (tile_loads p)) /\
  ~ In (KCall "barrier") (block_kinds (snd (reduction p))) /\
  ~ In (KCall "barrier") (block_kinds (after_loop "t" (main (userCode p)))).
Proof.
  destruct v, tA, tB, addBias, (truthy act) eqn:E; cbn; rewrite ?E;
    repeat split; not_among.
Qed.

Lemma tile_passes T v aShape outShape tA tB TS TSK WPT addBias act n k :
  let p := matmul_program v aShape outShape tA tB TS TSK WPT addBias act in
  passes T (in_tile n k) (in_tile n k) (tile_body p) 2.
Proof.
  intros p.
  destruct (matmul_main_tiles v aShape outShape tA tB TS TSK WPT addBias act) as [_ Hb].
  destruct (matmul_tile_shape v aShape outShape tA tB TS TSK WPT addBias act) as [_ Hp].
  destruct (matmul_tile_straight v aShape outShape tA tB TS TSK WPT addBias act)
    as (_ & _ & _ & Hl & Hr).
  destruct (matmul_tile_barriers v aShape outShape tA tB TS TSK WPT addBias act)
    as (_ & Hkl & Hkr & _).
  destruct (matmul_tile_binds v aShape outShape tA tB TS TSK WPT addBias act "numTiles")
    as [Hn1 Hn2]; [cbn; auto|].
  destruct (matmul_tile_binds v aShape outShape tA tB TS TSK WPT addBias act "t")
    as [Ht1 Ht2]; [cbn; auto|].
  fold p in Hb, Hp, Hl, Hr, Hkl, Hkr, Hn1, Hn2, Ht1, Ht2.
  rewrite Hb, Hp.
  apply (passes_app T _ (in_tile n k) _ _ _ 0 2).
  { apply passes_straight; [exact Hl|exact Hkl|].
    intros rho. apply in_tile_frame; assumption. }
  apply (passes_app T _ (in_tile n k) _ _ _ 0 2).
  { apply passes_straight; [reflexivity|not_among|].
    intros rho. apply in_tile_frame; not_among. }
  apply (passes_app T _ (in_tile n k) _ _ _ 1 1); [apply passes_barrier|].
  apply (passes_app T _ (in_tile n k) _ _ _ 0 1); [|apply passes_barrier].
  apply products_pass; assumption.
Qed.

Lemma matmul_barriers T v aShape outShape tA tB TS TSK WPT addBias act :
  let p := matmul_program v aShape outShape tA tB TS TSK WPT addBias act in
  let N := Math_ceil_div (sharedDimensionPacked aShape tA) (tile_edge v TS TSK) in
  barriers (trace T p) = (2 * Z.to_nat N)%nat /\
  passes T (fun _ => True) (tiles_known N)
    (before_tiles p ++ [for_upto "t" "numTiles" (tile_body p)]) (2 * Z.to_nat N).
Proof.
  intros p N.
  destruct (matmul_main_tiles v aShape outShape tA tB TS TSK WPT addBias act) as [Hm _].
  destruct (matmul_tile_shape v aShape outShape tA tB TS TSK WPT addBias act) as [Hpre _].
  destruct (matmul_tile_straight v aShape outShape tA tB TS TSK WPT addBias act)
    as (Hs1 & Hs2 & Hn & _ & _).
  destruct (matmul_tile_barriers v aShape outShape tA tB TS TSK WPT addBias act)
    as (Hk1 & _ & _ & Hk2).
  fold p N in Hm, Hpre, Hs1, Hs2, Hn, Hk1, Hk2.
  assert (Hpass : passes T (fun _ => True) (tiles_known N)
                    (before_tiles p ++ [for_upto "t" "numTiles" (tile_body p)])
                    (2 * Z.to_nat N)).
  { apply (passes_app T _ (tiles_known N) _ _ _ 0 (2 * Z.to_nat N)).
    - intros rho _. split; [|split].
      + apply exec_straight. rewrite Hpre. unfold straight in *.
        rewrite !forallb_app, Hs1, Hs2. reflexivity.
      + rewrite Hpre, app_assoc.
        destruct (exec_app_normal T
                    (before_decl "numTiles" (before_tiles p)
                     ++ [decl "int" "numTiles" (EInt N)])
                    (after_decl "numTiles" (before_tiles p)) rho) as [_ ->].
        { apply exec_straight. unfold straight in *.
          rewrite !forallb_app, Hs1, Hs2. reflexivity. }
        unfold tiles_known. rewrite exec_frame by exact Hn.
        destruct (exec_app_normal T (before_decl "numTiles" (before_tiles p))
                    [decl "int" "numTiles" (EInt N)] rho) as [_ ->].
        { apply exec_straight. unfold straight in *.
          rewrite !forallb_app, Hs1. reflexivity. }
        rewrite exec_single, exec_decl. reflexivity.
      + eapply no_barriers; [apply exec_kinds|exact Hk1].
    - intros rho Hrho. rewrite exec_single.
      rewrite exec_for_var with (hi := N); [|reflexivity|exact Hrho].
      rewrite trip_count_upto.
      pose proof (for_iter_count (tiles_known N) (exec T (tile_body p)) "t" 1 2) as Hf.
      cbv zeta in Hf. rewrite (Nat.mul_comm 2). apply Hf; [|exact Hrho].
      intros k rho' Hrho'.
      destruct (tile_passes T v aShape outShape tA tB TS TSK WPT addBias act N k
                  (("t", VInt k) :: rho')) as (Ho & [HI _] & Hc).
      { split; [exact Hrho'|reflexivity]. }
      fold p in Ho, HI, Hc. auto. }
  split; [|exact Hpass].
  unfold trace, run. fold exec. rewrite Hm, app_assoc.
  set (rho := global_env T _ []).
  destruct (Hpass rho I) as (Ho & _ & Hc).
  rewrite exec_app.
  pose proof (exec_kinds T (after_loop "t" (main (userCode p)))) as Hpost.
  destruct (exec T (before_tiles p ++ _) rho) as [[o rho1] ev1].
  unfold outcome_of, events_of in *. cbn [fst snd] in *. subst o.
  specialize (Hpost rho1).
  destruct (exec T (after_loop "t" (main (userCode p))) rho1) as [[o2 rho2] ev2].
  cbn [fst snd] in *. rewrite barriers_app, Hc.
  rewrite (no_barriers _ _ Hpost Hk2). lia.
Qed.



(** ** The decoder *)

Lemma decode_run T x y z glsl_output coords outShape texShape :
  gl_GlobalInvocationID T = [x; y; z] ->
  let p := DecodeMatrixPackedProgram glsl_output coords outShape texShape in
  let index := 4 * (y * at_ texShape 1 + x) in
  outcome_of (run T p) = ONormal /\
  decoded T p = [VInt (index + 3); VInt (index + 2); VInt (index + 1); VInt (index + 0)] /\
  store_coordinates (trace T p) = [[x; y]] /\
  List.length (samples_of "getA" (trace T p)) = 4%nat.
Proof.
  intros Hg p index. subst p index.
  unfold decoded, trace, run, exec. zcbn. rewrite Hg. zcbn.
  change (trip_count 0 4 1) with 4%nat. zcbn.
  destruct (builtin_var T glsl_output); zcbn; repeat split; reflexivity.
Qed.

Lemma VInt_inj a b : VInt a = VInt b -> a = b.
Proof. intros H. injection H as H. exact H. Qed.

Lemma row_major_unique (W x1 y1 x2 y2 : Z) :
  0 <= x1 < W -> 0 <= x2 < W -> y1 * W + x1 = y2 * W + x2 -> x1 = x2 /\ y1 = y2.
Proof.
  intros H1 H2 H.
  assert (Hy : y1 = y2) by nia. subst y2. split; [lia|reflexivity].
Qed.

(** X5. What one invocation of the decoder does.  The invocation at
    [(x, y)] of the dispatch runs to its end, turns the four consecutive flat
    indices [4 * (y * texShape[1] + x) + i], [i = 0..3], into coordinates
    (in this order; the environment lists the latest first), samples [A]
    once for each, and stores one texel, at [(x, y)]. *)
Theorem X5_decoder_invocation
  (T : thread) (x y z : Z) (glsl_output : string)
  (coords : list string -> list Z -> string) (outShape texShape : list Z) :
  gl_GlobalInvocationID T = [x; y; z] ->
  let p := DecodeMatrixPackedProgram glsl_output coords outShape texShape in
  let index := 4 * (y * at_ texShape 1 + x) in
  outcome_of (run T p) = ONormal /\
  decoded T p = [VInt (index + 3); VInt (index + 2); VInt (index + 1); VInt (index + 0)] /\
  store_coordinates (trace T p) = [[x; y]] /\
  List.length (samples_of "getA" (trace T p)) = 4%nat.
Proof. apply decode_run. Qed.

Lemma X5_decoder_invocation_witness :
  gl_GlobalInvocationID (texel 2 1) = [2; 1; 0] /\
  let p := DecodeMatrixPackedProgram "outputColor" (fun _ _ => "") [1; 4; 6] [2; 3] in
  outcome_of (run (texel 2 1) p) = ONormal /\
  decoded (texel 2 1) p = [VInt 23; VInt 22; VInt 21; VInt 20] /\
  store_coordinates (trace (texel 2 1) p) = [[2; 1]] /\
  List.length (samples_of "getA" (trace (texel 2 1) p)) = 4%nat.
Proof.
  split; [reflexivity|].
  exact (X5_decoder_invocation (texel 2 1) 2 1 0 "outputColor" (fun _ _ => "")
           [1; 4; 6] [2; 3] eq_refl).
Defined.

(** X6. The invocations of the decoder share out the flat indices.  Over
    a texture [texShape[1]] texels wide, two invocations with
    [0 <= x < texShape[1]] that decode a common flat index are the same
    texel and store at the same place; and every flat index [n >= 0] is
    decoded by the invocation at [((n / 4) mod texShape[1],
    (n / 4) / texShape[1])], which is inside the width. *)
Theorem X6_decoder_shares_out_the_flat_indices
  (T1 T2 : thread) (x1 y1 z1 x2 y2 z2 : Z) (glsl_output : string)
  (coords : list string -> list Z -> string) (outShape texShape : list Z) :
  let p := DecodeMatrixPackedProgram glsl_output coords outShape texShape in
  let W := at_ texShape 1 in
  gl_GlobalInvocationID T1 = [x1; y1; z1] ->
  gl_GlobalInvocationID T2 = [x2; y2; z2] ->
  0 <= x1 < W -> 0 <= x2 < W ->
  ((exists v, In v (decoded T1 p) /\ In v (decoded T2 p)) ->
   x1 = x2 /\ y1 = y2 /\
   store_coordinates (trace T1 p) = store_coordinates (trace T2 p)) /\
  (forall n, 0 <= n ->
     0 <= (n / 4) mod W < W /\
     In (VInt n) (decoded (texel ((n / 4) mod W) ((n / 4) / W)) p)).
Proof.
  intros p W Hg1 Hg2 Hx1 Hx2.
  destruct (decode_run T1 x1 y1 z1 glsl_output coords outShape texShape Hg1)
    as (_ & Hd1 & Hs1 & _).
  destruct (decode_run T2 x2 y2 z2 glsl_output coords outShape texShape Hg2)
    as (_ & Hd2 & Hs2 & _).
  fold p in Hd1, Hd2, Hs1, Hs2. subst W.
  remember (at_ texShape 1) as W eqn:EW. split.
  - intros (v & Hv1 & Hv2). rewrite Hd1 in Hv1. rewrite Hd2 in Hv2.
    assert (Heq : y1 * W + x1 = y2 * W + x2).
    { cbn [In] in Hv1, Hv2.
      destruct Hv1 as [<-|[<-|[<-|[<-|[]]]]];
        destruct Hv2 as [H|[H|[H|[H|[]]]]]; apply VInt_inj in H; lia. }
    destruct (row_major_unique W x1 y1 x2 y2 Hx1 Hx2 Heq) as [-> ->].
    rewrite Hs1, Hs2. auto.
  - intros n Hn.
    assert (HW : 0 < W) by lia.
    split; [apply Z.mod_pos_bound; exact HW|].
    destruct (decode_run (texel ((n / 4) mod W) ((n / 4) / W)) ((n / 4) mod W)
                ((n / 4) / W) 0 glsl_output coords outShape texShape eq_refl)
      as (_ & Hd & _).
    fold p in Hd. rewrite <- EW in Hd. rewrite Hd.
    assert (Hq : (n / 4) / W * W + (n / 4) mod W = n / 4).
    { rewrite Z.mul_comm. symmetry. apply Z.div_mod. lia. }
    rewrite Hq.
    pose proof (Z.div_mod n 4 ltac:(lia)) as Hdm.
    pose proof (Z.mod_pos_bound n 4 ltac:(lia)) as Hb.
    assert (Hc : n mod 4 = 0 \/ n mod 4 = 1 \/ n mod 4 = 2 \/ n mod 4 = 3) by lia.
    cbn [In].
    destruct Hc as [Hc|[Hc|[Hc|Hc]]]; rewrite Hc in Hdm.
    + do 3 right. left. f_equal. lia.
    + do 2 right. left. f_equal. lia.
    + right. left. f_equal. lia.
    + left. f_equal. lia.
Qed.

Lemma X6_decoder_shares_out_the_flat_indices_witness :
  let p := DecodeMatrixPackedProgram "outputColor" (fun _ _ => "") [1; 4; 6] [2; 3] in
  gl_GlobalInvocationID (texel 2 1) = [2; 1; 0] /\
  gl_GlobalInvocationID (texel 2 1) = [2; 1; 0] /\
  0 <= 2 < at_ [2; 3] 1 /\
  ((exists v, In v (decoded (texel 2 1) p) /\ In v (decoded (texel 2 1) p)) ->
   2 = 2 /\ 1 = 1 /\
   store_coordinates (trace (texel 2 1) p) = store_coordinates (trace (texel 2 1) p)) /\
  (forall n, 0 <= n ->
     0 <= (n / 4) mod at_ [2; 3] 1 < at_ [2; 3] 1 /\
     In (VInt n) (decoded (texel ((n / 4) mod at_ [2; 3] 1) ((n / 4) / at_ [2; 3] 1)) p)).
Proof.
  intros p.
  split; [reflexivity|]. split; [reflexivity|].
  split; [vm_compute; split; [discriminate|reflexivity]|].
  exact (X6_decoder_shares_out_the_flat_indices (texel 2 1) (texel 2 1) 2 1 0 2 1 0
           "outputColor" (fun _ _ => "") [1; 4; 6] [2; 3] eq_refl eq_refl
           ltac:(vm_compute; split; [discriminate|reflexivity])
           ltac:(vm_compute; split; [discriminate|reflexivity])).
Defined.

(** ** The texels an invocation commits *)

Lemma in_counter_values k' n : forall k,
  In k' (counter_values k n) <-> k <= k' < k + Z.of_nat n.
Proof.
  induction n as [|n IH]; intros k; simpl counter_values.
  - simpl. lia.
  - simpl In. rewrite IH. lia.
Qed.

Lemma in_range k hi : In k (range hi) <-> 0 <= k < hi.
Proof. unfold range. rewrite in_counter_values. lia. Qed.

Lemma store_coordinates_app e1 e2 :
  store_coordinates (e1 ++ e2) = store_coordinates e1 ++ store_coordinates e2.
Proof. unfold store_coordinates. apply flat_map_app. Qed.

Lemma no_store_coordinates ks evs :
  emits ks evs -> ~ In (KCall "imageStore") ks -> store_coordinates evs = [].
Proof.
  intros He Hn. induction He as [|ev evs Hev _ IH]; [reflexivity|].
  unfold store_coordinates in *. cbn [flat_map]. rewrite IH, app_nil_r.
  destruct ev as [a i|a i|f a|f a]; try reflexivity.
  destruct a as [|v0 [|[z|c|b|] [|v2 [|v3 a]]]]; try reflexivity.
  destruct (String.eqb f "imageStore") eqn:E; [|reflexivity].
  apply String.eqb_eq in E. subst f. contradiction.
Qed.

Lemma holds_cons keep x v rho :
  ~ In x (map fst keep) -> holds keep rho -> holds keep ((x, v) :: rho).
Proof.
  intros Hn Hh y w Hy. cbn [lookup].
  destruct (String.eqb y x) eqn:E; [|apply Hh, Hy].
  apply String.eqb_eq in E. subst y. exfalso. apply Hn.
  apply in_map_iff. exists (x, w). split; [reflexivity|exact Hy].
Qed.

(** A counting loop whose iterations commit [f k] commits them in the order
    of the counter. *)
Lemma for_iter_stores (I : env -> Prop) run i (f : Z -> list (list Z)) :
  (forall k rho, I rho ->
     let r := run ((i, VInt k) :: rho) in
     (outcome_of r = ONormal \/ outcome_of r = OContinue) /\ I (env_of r) /\
     store_coordinates (events_of r) = f k) ->
  forall n k rho, I rho ->
     let r := for_iter run i k 1 n rho in
     outcome_of r = ONormal /\ I (env_of r) /\
     store_coordinates (events_of r) = flat_map f (counter_values k n).
Proof.
  intros Hrun. induction n as [|n IH]; intros k rho HI; simpl.
  - repeat split. exact HI.
  - destruct (Hrun k rho HI) as (Ho & HI1 & Hc).
    destruct (run ((i, VInt k) :: rho)) as [[o rho1] ev1].
    unfold outcome_of, env_of, events_of in *. simpl in *.
    destruct (IH (k + 1) rho1 HI1) as (Ho2 & HI2 & Hc2).
    destruct (for_iter run i (k + 1) 1 n rho1) as [[o2 rho2] ev2]. simpl in *.
    destruct Ho as [-> | ->]; simpl;
      rewrite store_coordinates_app, Hc, Hc2; repeat split; assumption.
Qed.

Lemma ltb_negb_geb a b : (a <? b) = negb (a >=? b).
Proof. rewrite Z.geb_leb, Z.ltb_antisym. reflexivity. Qed.

Section StoreExact.

Variable T : thread.
Variables (rows cols : Z).
Variables (iv jv rv cv : string) (re ce : expr) (WPT : Z).
Variables (act : list stmt) (acc : expr).
Variable keep : list (string * value).
Variables R C : Z -> Z.

Hypothesis cv_local : builtin_var T cv = None.
Hypothesis rv_local : builtin_var T rv = None.
Hypothesis rv_cv : String.eqb rv cv = false.
Hypothesis rv_jv : String.eqb rv jv = false.
Hypothesis act_env : forall rho, env_of (exec T act rho) = rho.
Hypothesis act_normal : forall rho, outcome_of (exec T act rho) = ONormal.
Hypothesis act_kinds : ~ In (KCall "imageStore") (block_kinds act).
Hypothesis keep_apart : forall x, In x [iv; jv; rv; cv] -> ~ In x (map fst keep).
Hypothesis re_value :
  forall k rho, holds keep rho -> fst (eval T ((iv, VInt k) :: rho) re) = VInt (R k).
Hypothesis ce_value :
  forall k rho, holds keep rho -> fst (eval T ((jv, VInt k) :: rho) ce) = VInt (C k).

#[local] Set Warnings "-notation-for-abbreviation".
#[local] Notation store_stmt := (store_stmt rv cv acc).
#[local] Notation inner_body := (inner_body cols rv cv ce act acc).
#[local] Notation outer_body := (outer_body rows cols jv rv cv re ce WPT act acc).
#[local] Notation store_nest := (store_nest rows cols iv jv rv cv re ce WPT act acc).

Lemma eval_no_stores rho e : store_coordinates (snd (eval T rho e)) = [].
Proof. eapply no_store_coordinates; [apply eval_kinds|apply expr_no_call]. Qed.

Lemma store_commits rho c r :
  lookup cv rho = Some (VInt c) -> lookup rv rho = Some (VInt r) ->
  exec T [ store_stmt ] rho
  = (ONormal, rho, snd (eval T rho (EVar "outputColor")) ++ snd (eval T rho acc)
                   ++ [Call "imageStore" [fst (eval T rho (EVar "outputColor"));
                                          VVec [c; r]; fst (eval T rho acc)]]).
Proof.
  intros Hc Hr. unfold exec. cbn. rewrite cv_local, rv_local, Hc, Hr.
  destruct (builtin_var T "outputColor") as [w|], (eval T rho acc) as [v ev]; cbn;
    rewrite ?app_nil_r; reflexivity.
Qed.

Lemma inner_body_commits r rho k :
  holds keep rho -> lookup rv rho = Some (VInt r) ->
  let res := exec T inner_body ((jv, VInt k) :: rho) in
  (outcome_of res = ONormal \/ outcome_of res = OContinue) /\
  (holds keep (env_of res) /\ lookup rv (env_of res) = Some (VInt r)) /\
  store_coordinates (events_of res) = if C k <? cols then [[C k; r]] else [].
Proof.
  intros Hk Hr res. subst res. unfold inner_body.
  assert (Hk1 : forall v, holds keep ((cv, v) :: (jv, VInt k) :: rho)).
  { intros v. apply holds_cons; [apply keep_apart; cbn; auto|].
    apply holds_cons; [apply keep_apart; cbn; auto|exact Hk]. }
  assert (Hr1 : forall v, lookup rv ((cv, v) :: (jv, VInt k) :: rho) = Some (VInt r)).
  { intros v. cbn [lookup]. rewrite rv_cv, rv_jv. exact Hr. }
  pose proof (eval_no_stores ((jv, VInt k) :: rho) ce) as Hce.
  cbn [app]. rewrite exec_cons, exec_decl. cbv beta iota.
  rewrite exec_cons, exec_guard by exact cv_local.
  cbn [lookup]. rewrite String.eqb_refl.
  rewrite (ce_value k rho Hk).
  replace (C k <? cols) with (negb (C k >=? cols))
    by (symmetry; apply ltb_negb_geb).
  destruct (C k >=? cols) eqn:E.
  - unfold outcome_of, env_of, events_of. cbn [fst snd negb]. rewrite app_nil_r.
    split; [right; reflexivity|]. split; [split; [apply Hk1|apply Hr1]|exact Hce].
  - cbv beta iota. rewrite exec_app.
    pose proof (act_env ((cv, VInt (C k)) :: (jv, VInt k) :: rho)) as He.
    pose proof (act_normal ((cv, VInt (C k)) :: (jv, VInt k) :: rho)) as Hn.
    pose proof (exec_kinds T act ((cv, VInt (C k)) :: (jv, VInt k) :: rho)) as Ha.
    apply (fun H => no_store_coordinates _ _ H act_kinds) in Ha.
    destruct (exec T act _) as [[o rho1] ev1].
    unfold outcome_of, env_of, events_of in *. cbn [fst snd] in *. subst o rho1.
    rewrite (store_commits _ (C k) r); [|cbn [lookup]; rewrite String.eqb_refl; reflexivity
                                        |apply Hr1].
    cbn [fst snd negb]. split; [left; reflexivity|].
    split; [split; [apply Hk1|apply Hr1]|].
    rewrite !store_coordinates_app, Hce, Ha, !eval_no_stores. reflexivity.
Qed.

Lemma inner_loop_commits r rho :
  holds keep rho -> lookup rv rho = Some (VInt r) ->
  let res := exec_stmt T (for_upto jv WPT inner_body) rho in
  outcome_of res = ONormal /\
  (holds keep (env_of res) /\ lookup rv (env_of res) = Some (VInt r)) /\
  store_coordinates (events_of res)
  = flat_map (fun j => if C j <? cols then [[C j; r]] else []) (range WPT).
Proof.
  intros Hk Hr. rewrite exec_for_upto, trip_count_upto.
  apply (for_iter_stores (fun rho => holds keep rho /\ lookup rv rho = Some (VInt r))
           (exec T inner_body) jv
           (fun j => if C j <? cols then [[C j; r]] else [])); [|split; assumption].
  intros k rho' [H1 H2]. apply inner_body_commits; assumption.
Qed.

Lemma outer_body_commits rho k :
  holds keep rho ->
  let res := exec T outer_body ((iv, VInt k) :: rho) in
  (outcome_of res = ONormal \/ outcome_of res = OContinue) /\
  holds keep (env_of res) /\
  store_coordinates (events_of res)
  = if R k <? rows
    then flat_map (fun j => if C j <? cols then [[C j; R k]] else []) (range WPT)
    else [].
Proof.
  intros Hk res. subst res. unfold outer_body.
  assert (Hk1 : forall v, holds keep ((rv, v) :: (iv, VInt k) :: rho)).
  { intros v. apply holds_cons; [apply keep_apart; cbn; auto|].
    apply holds_cons; [apply keep_apart; cbn; auto|exact Hk]. }
  pose proof (eval_no_stores ((iv, VInt k) :: rho) re) as Hre.
  rewrite exec_cons, exec_decl. cbv beta iota.
  rewrite exec_cons, exec_guard by exact rv_local.
  cbn [lookup]. rewrite String.eqb_refl.
  rewrite (re_value k rho Hk).
  replace (R k <? rows) with (negb (R k >=? rows))
    by (symmetry; apply ltb_negb_geb).
  destruct (R k >=? rows) eqn:E.
  - unfold outcome_of, env_of, events_of. cbn [fst snd negb]. rewrite app_nil_r.
    split; [right; reflexivity|]. split; [apply Hk1|exact Hre].
  - cbv beta iota. rewrite exec_single.
    destruct (inner_loop_commits (R k) ((rv, VInt (R k)) :: (iv, VInt k) :: rho))
      as (Ho & [Hh _] & Hc);
      [apply Hk1|cbn [lookup]; rewrite String.eqb_refl; reflexivity|].
    destruct (exec_stmt T (for_upto jv WPT inner_body) _) as [[o rho1] ev1].
    unfold outcome_of, env_of, events_of in *. cbn [fst snd negb] in *. subst o.
    split; [left; reflexivity|]. split; [exact Hh|].
    rewrite !store_coordinates_app, Hre, Hc. reflexivity.
Qed.

Lemma store_nest_commits rho :
  holds keep rho ->
  let res := exec_stmt T store_nest rho in
  outcome_of res = ONormal /\
  store_coordinates (events_of res) = committed rows cols WPT R C.
Proof.
  intros Hk. unfold store_nest. rewrite exec_for_upto, trip_count_upto.
  destruct (for_iter_stores (holds keep) (exec T outer_body) iv
              (fun i => if R i <? rows
                        then flat_map (fun j => if C j <? cols then [[C j; R i]] else [])
                               (range WPT)
                        else [])
              (fun k rho' H => outer_body_commits rho' k H) (Z.to_nat WPT) 0 rho Hk)
    as (Ho & _ & Hc).
  split; [exact Ho|exact Hc].
Qed.

End StoreExact.

Lemma activation_runs T (acc_name : string) (idx : list expr) (act : option string) :
  let acc := EIdx acc_name idx in
  let snippet := if truthy act then [SAssign acc (ECall "activation" [acc])] else [] in
  forall rho, outcome_of (exec T snippet rho) = ONormal.
Proof.
  intros acc snippet rho. subst snippet. apply exec_straight.
  destruct (truthy act); reflexivity.
Qed.

Lemma holds_frame T keep ss rho :
  (forall x, In x (map fst keep) -> ~ In x (block_binds ss)) ->
  holds keep rho -> holds keep (env_of (exec T ss rho)).
Proof.
  intros Hn Hh x v Hx. rewrite exec_frame; [apply Hh, Hx|].
  apply Hn. apply in_map_iff. exists (x, v). split; [reflexivity|exact Hx].
Qed.

Lemma commits_after T (pre : list stmt) (s : stmt) (rho : env) (l : list (list Z))
  (keep : list (string * value)) :
  outcome_of (exec T pre rho) = ONormal ->
  ~ In (KCall "imageStore") (block_kinds pre) ->
  holds keep (env_of (exec T pre rho)) ->
  (forall rho', holds keep rho' ->
                outcome_of (exec_stmt T s rho') = ONormal /\
                store_coordinates (events_of (exec_stmt T s rho')) = l) ->
  outcome_of (exec T (pre ++ [s]) rho) = ONormal /\
  store_coordinates (events_of (exec T (pre ++ [s]) rho)) = l.
Proof.
  intros Ho Hk Hh Hs. rewrite exec_app.
  pose proof (exec_kinds T pre rho) as Hpre.
  apply (fun H => no_store_coordinates _ _ H Hk) in Hpre.
  destruct (exec T pre rho) as [[o rho1] ev1].
  unfold outcome_of, env_of, events_of in *. cbn [fst snd] in *. subst o.
  destruct (Hs rho1 Hh) as [Ho2 Hc]. rewrite exec_single.
  destruct (exec_stmt T s rho1) as [[o2 rho2] ev2]. cbn [fst snd] in *.
  rewrite store_coordinates_app, Hpre, Hc. split; [exact Ho2|reflexivity].
Qed.

Lemma CSV3_commits T x y gx gy aShape outShape tA tB TS WPT addBias act :
  placed T x y gx gy ->
  let p := returned (MatMulPackedProgramCSV3 aShape outShape tA tB TS WPT addBias act) in
  outcome_of (run T p) = ONormal /\
  store_coordinates (trace T p)
  = committed (Math_ceil_div (at_ outShape 1) 2) (Math_ceil_div (at_ outShape 2) 2) WPT
      (fun i => TS * gy + y + i * js_div TS WPT)
      (fun j => TS * gx + x + j * js_div TS WPT).
Proof.
  intros [[z Hl] [gz Hw]] p.
  destruct (matmul_barriers T CSV3 aShape outShape tA tB TS 0 WPT addBias act)
    as [_ Hpass].
  unfold trace, run. fold exec.
  set (rho := global_env T _ []) in *.
  specialize (Hpass rho I). cbv zeta in Hpass. destruct Hpass as (Hn & _ & _).
  change (matmul_program CSV3 aShape outShape tA tB TS 0 WPT addBias act) with p in Hn.
  clearbody rho.
  set (m := main (userCode p)).
  destruct (activation_in_place T "result" [EVar "innerRow"; EVar "innerCol"] act)
    as [Henv Hk].
  pose proof (activation_runs T "result" [EVar "innerRow"; EVar "innerCol"] act) as Hrun.
  set (keep := [("globalRow", VInt (TS * gy + y)); ("globalCol", VInt (TS * gx + x))]).
  assert (Hm : m = firstn 10 m ++
                 [store_nest (Math_ceil_div (at_ outShape 1) 2)
                    (Math_ceil_div (at_ outShape 2) 2)
                    "innerRow" "innerCol" "outputRow" "outputCol"
                    ("globalRow" + EVar "innerRow" * js_div TS WPT)
                    ("globalCol" + EVar "innerCol" * js_div TS WPT) WPT
                    (if truthy act
                     then [SAssign (EIdx "result" [EVar "innerRow"; EVar "innerCol"])
                             (ECall "activation"
                                [EIdx "result" [EVar "innerRow"; EVar "innerCol"]])]
                     else [])
                    (EIdx "result" [EVar "innerRow"; EVar "innerCol"])])
    by reflexivity.
  assert (Hpre : firstn 10 m
                 = before_tiles p ++ [for_upto "t" "numTiles" (tile_body p)])
    by (subst m p; destruct tA, tB; reflexivity).
  rewrite Hm. apply (commits_after T _ _ rho _ keep).
  - rewrite Hpre. exact Hn.
  - subst m. destruct tA, tB; not_among.
  - rewrite Hpre in *.
    assert (Hsplit : before_tiles p ++ [for_upto "t" "numTiles" (tile_body p)]
                     = firstn 5 m ++ skipn 5 (firstn 10 m))
      by (subst m p; destruct tA, tB; reflexivity).
    rewrite Hsplit in *.
    destruct (exec_app_normal T _ _ rho Hn) as [_ ->].
    apply holds_frame.
    + intros v Hv. subst m p keep. rewrite <- mem_In.
      destruct Hv as [<-|[<-|[]]]; destruct tA, tB; vm_compute; discriminate.
    + subst m p keep. unfold exec. zcbn. rewrite Hl, Hw. zcbn.
      intros v w [H|[H|[]]]; injection H as <- <-; reflexivity.
  - intros rho' Hh.
    apply (store_nest_commits T _ _ "innerRow" "innerCol" "outputRow" "outputCol"
             _ _ WPT _ _ keep
             (fun i => TS * gy + y + i * js_div TS WPT)
             (fun j => TS * gx + x + j * js_div TS WPT));
      try reflexivity; try assumption.
    + intros v Hv. subst keep. rewrite <- mem_In.
      destruct Hv as [<-|[<-|[<-|[<-|[]]]]]; vm_compute; discriminate.
    + intros k rho0 H0. zcbn. rewrite (H0 "globalRow" (VInt (TS * gy + y))); [reflexivity|].
      subst keep. cbn. auto.
    + intros k rho0 H0. zcbn. rewrite (H0 "globalCol" (VInt (TS * gx + x))); [reflexivity|].
      subst keep. cbn. auto.
Qed.

Lemma CSV4_commits T x y gx gy aShape outShape tA tB TS TSK WPT addBias act :
  placed T x y gx gy ->
  let p := returned (MatMulPackedProgramCSV4 aShape outShape tA tB TS TSK WPT addBias act) in
  outcome_of (run T p) = ONormal /\
  store_coordinates (trace T p)
  = committed (Math_ceil_div (at_ outShape 1) 2) (Math_ceil_div (at_ outShape 2) 2) WPT
      (fun i => TS * gy + y + i * js_div TS WPT)
      (fun j => TS * gx + x + j * js_div TS WPT).
Proof.
  intros [[z Hl] [gz Hw]] p.
  destruct (matmul_barriers T CSV4 aShape outShape tA tB TS TSK WPT addBias act)
    as [_ Hpass].
  unfold trace, run. fold exec.
  set (rho := global_env T _ []) in *.
  specialize (Hpass rho I). cbv zeta in Hpass. destruct Hpass as (Hn & _ & _).
  change (matmul_program CSV4 aShape outShape tA tB TS TSK WPT addBias act) with p in Hn.
  clearbody rho.
  set (m := main (userCode p)).
  destruct (activation_in_place T "acc" [EVar "wm"; EVar "wn"] act) as [Henv Hk].
  pose proof (activation_runs T "acc" [EVar "wm"; EVar "wn"] act) as Hrun.
  set (keep := [("offsetM", VInt (TS * gy)); ("tidm", VInt y);
                ("offsetN", VInt (TS * gx)); ("tidn", VInt x)]).
  assert (Hm : m = firstn 10 m ++
                 [store_nest (Math_ceil_div (at_ outShape 1) 2)
                    (Math_ceil_div (at_ outShape 2) 2)
                    "wm" "wn" "globalRow" "globalCol"
                    ("offsetM" + "tidm" + EVar "wm" * js_div TS WPT)
                    ("offsetN" + "tidn" + EVar "wn" * js_div TS WPT) WPT
                    (if truthy act
                     then [SAssign (EIdx "acc" [EVar "wm"; EVar "wn"])
                             (ECall "activation" [EIdx "acc" [EVar "wm"; EVar "wn"]])]
                     else [])
                    (EIdx "acc" [EVar "wm"; EVar "wn"])])
    by reflexivity.
  assert (Hpre : firstn 10 m
                 = before_tiles p ++ [for_upto "t" "numTiles" (tile_body p)])
    by (subst m p; destruct tA, tB; reflexivity).
  rewrite Hm. apply (commits_after T _ _ rho _ keep).
  - rewrite Hpre. exact Hn.
  - subst m. destruct tA, tB; not_among.
  - rewrite Hpre in *.
    assert (Hsplit : before_tiles p ++ [for_upto "t" "numTiles" (tile_body p)]
                     = firstn 5 m ++ skipn 5 (firstn 10 m))
      by (subst m p; destruct tA, tB; reflexivity).
    rewrite Hsplit in *.
    destruct (exec_app_normal T _ _ rho Hn) as [_ ->].
    apply holds_frame.
    + intros v Hv. subst m p keep. rewrite <- mem_In.
      destruct Hv as [<-|[<-|[<-|[<-|[]]]]]; destruct tA, tB; vm_compute; discriminate.
    + subst m p keep. unfold exec. zcbn. rewrite Hl, Hw. zcbn.
      intros v w [H|[H|[H|[H|[]]]]]; injection H as <- <-; reflexivity.
  - intros rho' Hh.
    apply (store_nest_commits T _ _ "wm" "wn" "globalRow" "globalCol"
             _ _ WPT _ _ keep
             (fun i => TS * gy + y + i * js_div TS WPT)
             (fun j => TS * gx + x + j * js_div TS WPT));
      try reflexivity; try assumption.
    + intros v Hv. subst keep. rewrite <- mem_In.
      destruct Hv as [<-|[<-|[<-|[<-|[]]]]]; vm_compute; discriminate.
    + intros k rho0 H0. zcbn.
      rewrite (H0 "offsetM" (VInt (TS * gy))), (H0 "tidm" (VInt y));
        [reflexivity|subst keep; cbn; auto|subst keep; cbn; auto].
    + intros k rho0 H0. zcbn.
      rewrite (H0 "offsetN" (VInt (TS * gx))), (H0 "tidn" (VInt x));
        [reflexivity|subst keep; cbn; auto 6|subst keep; cbn; auto 6].
Qed.

Lemma exec_app_straight T a b rho :
  outcome_of (exec T a rho) = ONormal -> straight b = true ->
  outcome_of (exec T (a ++ b) rho) = ONormal.
Proof.
  intros Ha Hb. rewrite exec_app.
  destruct (exec T a rho) as [[o rho1] ev1].
  unfold outcome_of in *. cbn [fst] in *. subst o.
  pose proof (exec_straight T b rho1 Hb) as H.
  destruct (exec T b rho1) as [[o2 rho2] ev2]. exact H.
Qed.

Lemma flat_map_singleton {A B : Type} (f : A -> B) l :
  flat_map (fun a => [f a]) l = map f l.
Proof. induction l as [|a l IH]; simpl; [reflexivity|rewrite IH; reflexivity]. Qed.

Lemma CSV2_commits T x y gx gy aShape outShape tA tB TS WPT addBias act :
  placed T x y gx gy ->
  let p := MatMulPackedProgramCSV2 aShape outShape tA tB TS WPT addBias act in
  outcome_of (run T p) = ONormal /\
  store_coordinates (trace T p)
  = map (fun w => [TS * gx + x; TS * gy + y + w * js_div TS WPT]) (range WPT).
Proof.
  intros [[z Hl] [gz Hw]] p.
  destruct (matmul_barriers T CSV2 aShape outShape tA tB TS 0 WPT addBias act)
    as [_ Hpass].
  unfold trace, run. fold exec.
  set (rho := global_env T _ []) in *.
  specialize (Hpass rho I). cbv zeta in Hpass. destruct Hpass as (Hn & _ & _).
  change (matmul_program CSV2 aShape outShape tA tB TS 0 WPT addBias act) with p in Hn.
  clearbody rho.
  set (m := main (userCode p)).
  set (keep := [("globalRow", VInt (TS * gy + y)); ("globalCol", VInt (TS * gx + x))]).
  assert (Hm : m = removelast m ++
                 [for_upto "w" WPT
                    [ SCall "imageStore"
                        [ EVar "outputColor";
                          ECall "ivec2" [EVar "globalCol";
                                         EVar "globalRow" + EVar "w" * js_div TS WPT]%glsl;
                          EIdx "result" [EVar "w"] ] ]])
    by (subst m p; destruct tA, tB, addBias, (truthy act) eqn:E; cbn; rewrite ?E;
        reflexivity).
  assert (Hpre : removelast m
                 = (before_tiles p ++ [for_upto "t" "numTiles" (tile_body p)])
                   ++ skipn 8 (removelast m) /\
                 straight (skipn 8 (removelast m)) = true)
    by (subst m p; destruct tA, tB, addBias, (truthy act) eqn:E; cbn; rewrite ?E;
        split; reflexivity).
  destruct Hpre as [Hpre Hpost].
  assert (Hnormal : outcome_of (exec T (removelast m) rho) = ONormal).
  { rewrite Hpre. apply exec_app_straight; assumption. }
  rewrite <- flat_map_singleton.
  rewrite Hm. apply (commits_after T _ _ rho _ keep).
  - exact Hnormal.
  - subst m p. destruct tA, tB, addBias, (truthy act) eqn:E; cbn; rewrite ?E; not_among.
  - assert (Hsplit : removelast m = firstn 5 m ++ skipn 5 (removelast m))
      by (subst m p; destruct tA, tB, addBias, (truthy act) eqn:E; cbn; rewrite ?E;
          reflexivity).
    rewrite Hsplit in *.
    destruct (exec_app_normal T _ _ rho Hnormal) as [_ ->].
    apply holds_frame.
    + intros v Hv. subst m p keep. rewrite <- mem_In.
      destruct Hv as [<-|[<-|[]]];
        destruct tA, tB, addBias, (truthy act) eqn:E; cbn; rewrite ?E;
        vm_compute; discriminate.
    + subst m p keep. unfold exec. zcbn. rewrite Hl, Hw. zcbn.
      intros v w [H|[H|[]]]; injection H as <- <-; reflexivity.
  - intros rho' Hh. rewrite exec_for_upto, trip_count_upto.
    destruct (for_iter_stores (holds keep)
                (exec T [ SCall "imageStore"
                            [ EVar "outputColor";
                              ECall "ivec2"
                                [EVar "globalCol";
                                 EVar "globalRow" + EVar "w" * js_div TS WPT]%glsl;
                              EIdx "result" [EVar "w"] ] ]) "w"
                (fun w => [[TS * gx + x; TS * gy + y + w * js_div TS WPT]]))
      with (n := Z.to_nat WPT) (k := 0) (rho := rho') as (Ho & _ & Hc);
      [|exact Hh|split; [exact Ho|exact Hc]].
    intros k rho0 H0.
    assert (Hk : holds keep (("w", VInt k) :: rho0))
      by (apply holds_cons; [subst keep; not_among|exact H0]).
    unfold exec. zcbn.
    rewrite (H0 "globalRow" (VInt (TS * gy + y))) by (subst keep; cbn; auto).
    rewrite (H0 "globalCol" (VInt (TS * gx + x))) by (subst keep; cbn; auto).
    destruct (lookup "result" rho0) as [[r|l|b|]|]; zcbn;
      split; [left; reflexivity|split; [exact Hk|reflexivity]
             |left; reflexivity|split; [exact Hk|]
             |left; reflexivity|split; [exact Hk|reflexivity]
             |left; reflexivity|split; [exact Hk|reflexivity]
             |left; reflexivity|split; [exact Hk|reflexivity]].
    destruct (nth_error l (Z.to_nat k)); try destruct (0 <=? k); reflexivity.
Qed.

Lemma placed_place x y gx gy : placed (place x y gx gy) x y gx gy.
Proof. split; eexists; reflexivity. Qed.



(** X8. What an invocation of the third and of the fourth variant
    commits.  With [0 < TS], [0 < WPT] and [WPT] dividing [TS] (so that the
    interpolated [RTS = TS / WPT] is an integer) and, for the fourth variant,
    [0 < TSK] and [TS] dividing [TSK * WPT * WPT] (so that its tile edge is
    positive and its number of loads per invocation an integer): the
    invocation at [(x, y)] of the workgroup [(gx, gy)] runs to its end; its
    accumulator [(i, j)] belongs to the texel of row [TS * gy + y + i * RTS]
    and column [TS * gx + x + j * RTS], and the stores it executes are those
    of its [WPT * WPT] accumulators whose row is below
    [ceil(outputShape[1] / 2)] and whose column is below
    [ceil(outputShape[2] / 2)], each once, row by row: none of them is
    dropped, and the two variants commit the same texels. *)
Theorem X8_CSV3_CSV4_commits
  (T : thread) (x y gx gy : Z) (aShape outShape : list Z) (tA tB : bool)
  (TS TSK WPT : Z) (addBias : bool) (act : option string) :
  placed T x y gx gy ->
  0 < TS -> 0 < WPT -> TS mod WPT = 0 ->
  0 < TSK -> (TSK * WPT * WPT) mod TS = 0 ->
  let p3 := returned (MatMulPackedProgramCSV3 aShape outShape tA tB TS WPT addBias act) in
  let p4 := returned (MatMulPackedProgramCSV4 aShape outShape tA tB TS TSK WPT
                        addBias act) in
  let texels :=
    committed (Math_ceil_div (at_ outShape 1) 2) (Math_ceil_div (at_ outShape 2) 2) WPT
      (fun i => TS * gy + y + i * js_div TS WPT)
      (fun j => TS * gx + x + j * js_div TS WPT) in
  (outcome_of (run T p3) = ONormal /\ store_coordinates (trace T p3) = texels) /\
  (outcome_of (run T p4) = ONormal /\ store_coordinates (trace T p4) = texels).
Proof.
  intros Hp _ _ _ _ _. split; [apply CSV3_commits|apply CSV4_commits]; exact Hp.
Qed.

Lemma X8_CSV3_CSV4_commits_witness :
  placed (place 1 1 0 0) 1 1 0 0 /\
  0 < 4 /\ 0 < 2 /\ 4 mod 2 = 0 /\
  0 < 2 /\ (2 * 2 * 2) mod 4 = 0 /\
  let p3 := returned (MatMulPackedProgramCSV3 [1; 6; 6] [1; 6; 6] false false 4 2
                        false None) in
  let p4 := returned (MatMulPackedProgramCSV4 [1; 6; 6] [1; 6; 6] false false 4 2 2
                        false None) in
  let texels :=
    committed (Math_ceil_div (at_ [1; 6; 6] 1) 2) (Math_ceil_div (at_ [1; 6; 6] 2) 2) 2
      (fun i => 4 * 0 + 1 + i * js_div 4 2)
      (fun j => 4 * 0 + 1 + j * js_div 4 2) in
  (outcome_of (run (place 1 1 0 0) p3) = ONormal /\
   store_coordinates (trace (place 1 1 0 0) p3) = texels) /\
  (outcome_of (run (place 1 1 0 0) p4) = ONormal /\
   store_coordinates (trace (place 1 1 0 0) p4) = texels).
Proof.
  split; [split; eexists; reflexivity|].
  split; [lia|]. split; [lia|]. split; [reflexivity|].
  split; [lia|]. split; [reflexivity|].
  exact (X8_CSV3_CSV4_commits (place 1 1 0 0) 1 1 0 0 [1; 6; 6] [1; 6; 6] false false
           4 2 2 false None ltac:(split; eexists; reflexivity)
           ltac:(lia) ltac:(lia) eq_refl ltac:(lia) eq_refl).
Defined.

(** ** Each texel is committed by one invocation *)

Lemma tile_place_unique (TS RTS WPT g1 x1 j1 g2 x2 j2 : Z) :
  0 < RTS -> TS = RTS * WPT ->
  0 <= x1 < RTS -> 0 <= j1 < WPT -> 0 <= x2 < RTS -> 0 <= j2 < WPT ->
  TS * g1 + x1 + j1 * RTS = TS * g2 + x2 + j2 * RTS ->
  g1 = g2 /\ x1 = x2 /\ j1 = j2.
Proof.
  intros HR HT Hx1 Hj1 Hx2 Hj2 H. subst TS.
  assert (Hu1 : 0 <= x1 + j1 * RTS < RTS * WPT) by nia.
  assert (Hu2 : 0 <= x2 + j2 * RTS < RTS * WPT) by nia.
  assert (Hg : g1 = g2) by nia. subst g2.
  assert (Hj : j1 = j2) by nia. subst j2.
  repeat split; lia.
Qed.

Lemma exact_quotient (TS WPT : Z) :
  0 < TS -> 0 < WPT -> TS mod WPT = 0 ->
  0 < js_div TS WPT /\ TS = js_div TS WPT * WPT.
Proof.
  intros HT HW Hm. unfold js_div. rewrite Z.quot_div_nonneg by lia.
  pose proof (Z.div_mod TS WPT ltac:(lia)) as H. rewrite Hm in H.
  split; nia.
Qed.

Lemma NoDup_counter_values n : forall k, NoDup (counter_values k n).
Proof.
  induction n as [|n IH]; intros k; simpl; constructor; [|apply IH].
  rewrite in_counter_values. lia.
Qed.

Lemma NoDup_app_disjoint {A : Type} (l1 l2 : list A) :
  NoDup l1 -> NoDup l2 -> (forall a, In a l1 -> ~ In a l2) -> NoDup (l1 ++ l2).
Proof.
  intros H1 H2 Hd. induction H1 as [|a l1 Ha _ IH]; [exact H2|].
  simpl. constructor.
  - rewrite in_app_iff. intros [H|H]; [exact (Ha H)|].
    exact (Hd a (or_introl eq_refl) H).
  - apply IH. intros b Hb. apply Hd. right. exact Hb.
Qed.

Lemma NoDup_flat_map_disjoint {A B : Type} (f : A -> list B) (l : list A) :
  NoDup l -> (forall a, In a l -> NoDup (f a)) ->
  (forall a a' b, In a l -> In a' l -> In b (f a) -> In b (f a') -> a = a') ->
  NoDup (flat_map f l).
Proof.
  intros Hl. induction Hl as [|a l Ha _ IH]; intros Hf Hd; simpl; [constructor|].
  apply NoDup_app_disjoint.
  - apply Hf. left. reflexivity.
  - apply IH.
    + intros a' Ha'. apply Hf. right. exact Ha'.
    + intros a1 a2 b H1 H2. apply Hd; right; assumption.
  - intros b Hb Hin. apply in_flat_map in Hin. destruct Hin as (a' & Ha' & Hb').
    assert (a = a') by (apply (Hd a a' b); auto using in_eq, in_cons).
    subst a'. contradiction.
Qed.

Lemma in_committed rows cols WPT R C c :
  In c (committed rows cols WPT R C) <->
  exists i j, 0 <= i < WPT /\ 0 <= j < WPT /\ R i < rows /\ C j < cols /\
              c = [C j; R i].
Proof.
  unfold committed. rewrite in_flat_map. split.
  - intros (i & Hi & Hc). apply in_range in Hi.
    destruct (R i <? rows) eqn:Er; [|destruct Hc].
    apply in_flat_map in Hc. destruct Hc as (j & Hj & Hc). apply in_range in Hj.
    destruct (C j <? cols) eqn:Ec; [|destruct Hc].
    destruct Hc as [<-|[]]. exists i, j.
    apply Z.ltb_lt in Er. apply Z.ltb_lt in Ec. auto.
  - intros (i & j & Hi & Hj & Hr & Hc & ->).
    exists i. split; [apply in_range, Hi|].
    apply Z.ltb_lt in Hr. rewrite Hr. apply in_flat_map.
    exists j. split; [apply in_range, Hj|].
    apply Z.ltb_lt in Hc. rewrite Hc. left. reflexivity.
Qed.

Lemma NoDup_committed rows cols WPT R C :
  (forall i i', 0 <= i < WPT -> 0 <= i' < WPT -> R i = R i' -> i = i') ->
  (forall j j', 0 <= j < WPT -> 0 <= j' < WPT -> C j = C j' -> j = j') ->
  NoDup (committed rows cols WPT R C).
Proof.
  intros HR HC. unfold committed. apply NoDup_flat_map_disjoint.
  - apply NoDup_counter_values.
  - intros i Hi. destruct (R i <? rows); [|constructor].
    apply NoDup_flat_map_disjoint.
    + apply NoDup_counter_values.
    + intros j _. destruct (C j <? cols); repeat constructor. intros [].
    + intros j j' b Hj Hj' Hb Hb'. apply in_range in Hj. apply in_range in Hj'.
      destruct (C j <? cols); [|destruct Hb]. destruct (C j' <? cols); [|destruct Hb'].
      destruct Hb as [<-|[]]. destruct Hb' as [H|[]]. injection H as H.
      apply HC; auto.
  - intros i i' b Hi Hi' Hb Hb'. apply in_range in Hi. apply in_range in Hi'.
    destruct (R i <? rows); [|destruct Hb]. destruct (R i' <? rows); [|destruct Hb'].
    apply in_flat_map in Hb. destruct Hb as (j & _ & Hb).
    apply in_flat_map in Hb'. destruct Hb' as (j' & _ & Hb').
    destruct (C j <? cols); [|destruct Hb]. destruct (C j' <? cols); [|destruct Hb'].
    destruct Hb as [<-|[]]. destruct Hb' as [H|[]]. injection H as _ H.
    apply HR; auto.
Qed.

Section OneInvocationPerTexel.

Variables TS RTS WPT : Z.
Hypothesis RTS_pos : 0 < RTS.
Hypothesis tile : TS = RTS * WPT.

Variables x1 y1 gx1 gy1 x2 y2 gx2 gy2 : Z.

Let R1 (i : Z) : Z := TS * gy1 + y1 + i * RTS.
Let C1 (j : Z) : Z := TS * gx1 + x1 + j * RTS.
Let R2 (i : Z) : Z := TS * gy2 + y2 + i * RTS.
Let C2 (j : Z) : Z := TS * gx2 + x2 + j * RTS.

Lemma strided_injective (a i i' : Z) : a + i * RTS = a + i' * RTS -> i = i'.
Proof. intros H. nia. Qed.

Lemma committed_once rows cols : NoDup (committed rows cols WPT R1 C1).
Proof.
  apply NoDup_committed; intros i i' _ _ H; eapply strided_injective; exact H.
Qed.

Lemma committed_apart rows cols c :
  0 <= x1 < RTS -> 0 <= y1 < RTS -> 0 <= x2 < RTS -> 0 <= y2 < RTS ->
  In c (committed rows cols WPT R1 C1) -> In c (committed rows cols WPT R2 C2) ->
  x1 = x2 /\ y1 = y2 /\ gx1 = gx2 /\ gy1 = gy2.
Proof.
  intros Hx1 Hy1 Hx2 Hy2 H1 H2.
  apply in_committed in H1. destruct H1 as (i & j & Hi & Hj & _ & _ & ->).
  apply in_committed in H2. destruct H2 as (i' & j' & Hi' & Hj' & _ & _ & H).
  injection H as Hc Hr. unfold R1, R2, C1, C2 in *.
  destruct (tile_place_unique TS RTS WPT gx1 x1 j gx2 x2 j') as (? & ? & ?); auto.
  destruct (tile_place_unique TS RTS WPT gy1 y1 i gy2 y2 i') as (? & ? & ?); auto.
Qed.

Let S1 (w : Z) : list Z := [TS * gx1 + x1; TS * gy1 + y1 + w * RTS].
Let S2 (w : Z) : list Z := [TS * gx2 + x2; TS * gy2 + y2 + w * RTS].

Lemma column_once : NoDup (map S1 (range WPT)).
Proof.
  rewrite <- flat_map_singleton. apply NoDup_flat_map_disjoint.
  - apply NoDup_counter_values.
  - intros w _. repeat constructor. intros [].
  - intros w w' b _ _ [<-|[]] [H|[]]. unfold S1 in H. injection H as H.
    symmetry. eapply strided_injective. exact H.
Qed.

Lemma column_apart c :
  0 <= x1 < TS -> 0 <= y1 < RTS -> 0 <= x2 < TS -> 0 <= y2 < RTS ->
  In c (map S1 (range WPT)) -> In c (map S2 (range WPT)) ->
  x1 = x2 /\ y1 = y2 /\ gx1 = gx2 /\ gy1 = gy2.
Proof.
  intros Hx1 Hy1 Hx2 Hy2 H1 H2.
  apply in_map_iff in H1. destruct H1 as (w & <- & Hw). apply in_range in Hw.
  apply in_map_iff in H2. destruct H2 as (w' & H & Hw'). apply in_range in Hw'.
  unfold S1, S2 in H. injection H as Hc Hr.
  destruct (tile_place_unique TS RTS WPT gy1 y1 w gy2 y2 w') as (? & ? & ?); auto.
  assert (gx1 = gx2) by nia. subst. repeat split; lia.
Qed.

End OneInvocationPerTexel.

(** X9. No texel is committed twice.  In the second, third and fourth
    variant, with [0 < TS], [0 < WPT] and [WPT] dividing [TS], take two
    invocations inside the workgroup size the program declares
    ([localGroupSize = [L0, L1]], local ids [0 <= x < L0], [0 <= y < L1]):
    the stores of one invocation go to pairwise distinct texels, and if the
    two invocations store to a common texel, they are the same invocation of
    the same workgroup. *)
Theorem X9_no_texel_is_committed_twice
  (v : variant) (T1 T2 : thread) (x1 y1 gx1 gy1 x2 y2 gx2 gy2 L0 L1 : Z)
  (aShape outShape : list Z) (tA tB : bool) (TS TSK WPT : Z)
  (addBias : bool) (act : option string) :
  let p := matmul_program v aShape outShape tA tB TS TSK WPT addBias act in
  v <> CSV1 -> 0 < TS -> 0 < WPT -> TS mod WPT = 0 ->
  localGroupSize p = Some [L0; L1] ->
  placed T1 x1 y1 gx1 gy1 -> placed T2 x2 y2 gx2 gy2 ->
  0 <= x1 < L0 -> 0 <= y1 < L1 -> 0 <= x2 < L0 -> 0 <= y2 < L1 ->
  NoDup (store_coordinates (trace T1 p)) /\
  (forall c, In c (store_coordinates (trace T1 p)) ->
             In c (store_coordinates (trace T2 p)) ->
             x1 = x2 /\ y1 = y2 /\ gx1 = gx2 /\ gy1 = gy2).
Proof.
  intros p Hv HTS HWPT Hdiv HL HT1 HT2 Hx1 Hy1 Hx2 Hy2.
  destruct (exact_quotient TS WPT HTS HWPT Hdiv) as [HR Htile].
  subst p. destruct v; [contradiction| | |].
  - injection HL as <- <-.
    destruct (CSV2_commits T1 x1 y1 gx1 gy1 aShape outShape tA tB TS WPT addBias act HT1)
      as [_ E1].
    destruct (CSV2_commits T2 x2 y2 gx2 gy2 aShape outShape tA tB TS WPT addBias act HT2)
      as [_ E2].
    unfold matmul_program, returned, construct, result.
    rewrite E1, E2. split.
    + apply (column_once TS (js_div TS WPT) WPT HR).
    + intros c. apply (column_apart TS (js_div TS WPT) WPT HR Htile); assumption.
  - injection HL as <- <-.
    destruct (CSV3_commits T1 x1 y1 gx1 gy1 aShape outShape tA tB TS WPT addBias act HT1)
      as [_ E1].
    destruct (CSV3_commits T2 x2 y2 gx2 gy2 aShape outShape tA tB TS WPT addBias act HT2)
      as [_ E2].
    unfold matmul_program, construct. rewrite E1, E2. split.
    + apply (committed_once TS (js_div TS WPT) WPT HR).
    + intros c. apply (committed_apart TS (js_div TS WPT) WPT HR Htile); assumption.
  - injection HL as <- <-.
    destruct (CSV4_commits T1 x1 y1 gx1 gy1 aShape outShape tA tB TS TSK WPT addBias act
                HT1) as [_ E1].
    destruct (CSV4_commits T2 x2 y2 gx2 gy2 aShape outShape tA tB TS TSK WPT addBias act
                HT2) as [_ E2].
    unfold matmul_program, construct. rewrite E1, E2. split.
    + apply (committed_once TS (js_div TS WPT) WPT HR).
    + intros c. apply (committed_apart TS (js_div TS WPT) WPT HR Htile); assumption.
Qed.

Lemma X9_no_texel_is_committed_twice_witness :
  let p := matmul_program CSV3 [1; 6; 6] [1; 6; 6] false false 4 2 2 false None in
  CSV3 <> CSV1 /\ 0 < 4 /\ 0 < 2 /\ 4 mod 2 = 0 /\
  localGroupSize p = Some [2; 2] /\
  placed (place 1 0 0 0) 1 0 0 0 /\ placed (place 0 1 1 0) 0 1 1 0 /\
  NoDup (store_coordinates (trace (place 1 0 0 0) p)) /\
  (forall c, In c (store_coordinates (trace (place 1 0 0 0) p)) ->
             In c (store_coordinates (trace (place 0 1 1 0) p)) ->
             1 = 0 /\ 0 = 1 /\ 0 = 1 /\ 0 = 0).
Proof.
  intros p.
  split; [discriminate|]. split; [lia|]. split; [lia|]. split; [reflexivity|].
  split; [reflexivity|].
  split; [split; eexists; reflexivity|]. split; [split; eexists; reflexivity|].
  exact (X9_no_texel_is_committed_twice CSV3 (place 1 0 0 0) (place 0 1 1 0)
           1 0 0 0 0 1 1 0 2 2 [1; 6; 6] [1; 6; 6] false false 4 2 2 false None
           ltac:(discriminate) ltac:(lia) ltac:(lia) eq_refl eq_refl
           ltac:(split; eexists; reflexivity) ltac:(split; eexists; reflexivity)
           ltac:(lia) ltac:(lia) ltac:(lia) ltac:(lia)).
Defined.

Lemma tile_place_exists (TS RTS WPT c : Z) :
  0 < RTS -> 0 < WPT -> TS = RTS * WPT ->
  0 <= (c mod TS) mod RTS < RTS /\
  0 <= (c mod TS) / RTS < WPT /\
  TS * (c / TS) + (c mod TS) mod RTS + (c mod TS) / RTS * RTS = c.
Proof.
  intros HR HW HT.
  assert (HTS : 0 < TS) by nia.
  pose proof (Z.mod_pos_bound c TS HTS) as Hu.
  pose proof (Z.div_mod c TS ltac:(lia)) as Hc.
  pose proof (Z.mod_pos_bound (c mod TS) RTS HR) as Hx.
  pose proof (Z.div_mod (c mod TS) RTS ltac:(lia)) as Hd.
  split; [exact Hx|]. split; [|lia].
  split.
  - apply Z.div_pos; lia.
  - apply Z.div_lt_upper_bound; [exact HR|]. lia.
Qed.

(** X10. Every texel of the packed output is committed, in the third and
    in the fourth variant.  With [0 < TS], [0 < WPT] and [WPT] dividing [TS]
    (so [RTS = TS / WPT]) and, for the fourth variant, [0 < TSK] and [TS]
    dividing [TSK * WPT * WPT], the texel [(c, r)] with
    [r < ceil(outputShape[1] / 2)] and [c < ceil(outputShape[2] / 2)] is
    stored by the invocation of the workgroup [(c / TS, r / TS)] whose local
    id is [((c mod TS) mod RTS, (r mod TS) mod RTS)], and this local id is
    inside the declared workgroup size [RTS x RTS]. *)
Theorem X10_every_texel_is_committed
  (T : thread) (c r : Z) (aShape outShape : list Z) (tA tB : bool) (TS TSK WPT : Z)
  (addBias : bool) (act : option string) :
  let RTS := js_div TS WPT in
  let p v := matmul_program v aShape outShape tA tB TS TSK WPT addBias act in
  let x := (c mod TS) mod RTS in
  let y := (r mod TS) mod RTS in
  0 < TS -> 0 < WPT -> TS mod WPT = 0 ->
  0 < TSK -> (TSK * WPT * WPT) mod TS = 0 ->
  placed T x y (c / TS) (r / TS) ->
  r < Math_ceil_div (at_ outShape 1) 2 -> c < Math_ceil_div (at_ outShape 2) 2 ->
  localGroupSize (p CSV3) = Some [RTS; RTS] /\
  localGroupSize (p CSV4) = Some [RTS; RTS] /\
  0 <= x < RTS /\ 0 <= y < RTS /\
  In [c; r] (store_coordinates (trace T (p CSV3))) /\
  In [c; r] (store_coordinates (trace T (p CSV4))).
Proof.
  intros RTS p x y HTS HWPT Hdiv _ _ HT Hrows Hcols.
  destruct (exact_quotient TS WPT HTS HWPT Hdiv) as [HR Htile]. fold RTS in HR, Htile.
  destruct (tile_place_exists TS RTS WPT c HR HWPT Htile) as (Hx & Hj & Hc).
  destruct (tile_place_exists TS RTS WPT r HR HWPT Htile) as (Hy & Hi & Hr).
  split; [reflexivity|]. split; [reflexivity|].
  split; [exact Hx|]. split; [exact Hy|].
  destruct (CSV3_commits T _ _ _ _ aShape outShape tA tB TS WPT addBias act HT)
    as [_ E3].
  destruct (CSV4_commits T _ _ _ _ aShape outShape tA tB TS TSK WPT addBias act HT)
    as [_ E4].
  subst p. unfold matmul_program, construct. rewrite E3, E4.
  assert (Hin : In [c; r]
                  (committed (Math_ceil_div (at_ outShape 1) 2)
                     (Math_ceil_div (at_ outShape 2) 2) WPT
                     (fun i => TS * (r / TS) + y + i * js_div TS WPT)
                     (fun j => TS * (c / TS) + x + j * js_div TS WPT))).
  { apply in_committed. exists ((r mod TS) / RTS), ((c mod TS) / RTS).
    fold RTS. subst x y. rewrite Hc, Hr. auto. }
  split; exact Hin.
Qed.

Lemma X10_every_texel_is_committed_witness :
  let RTS := js_div 4 2 in
  let p v := matmul_program v [1; 6; 6] [1; 12; 12] false false 4 2 2 false None in
  let x := (5 mod 4) mod RTS in
  let y := (3 mod 4) mod RTS in
  0 < 4 /\ 0 < 2 /\ 4 mod 2 = 0 /\
  0 < 2 /\ (2 * 2 * 2) mod 4 = 0 /\
  placed (place 1 1 1 0) x y (5 / 4) (3 / 4) /\
  3 < Math_ceil_div (at_ [1; 12; 12] 1) 2 /\ 5 < Math_ceil_div (at_ [1; 12; 12] 2) 2 /\
  localGroupSize (p CSV3) = Some [RTS; RTS] /\
  localGroupSize (p CSV4) = Some [RTS; RTS] /\
  0 <= x < RTS /\ 0 <= y < RTS /\
  In [5; 3] (store_coordinates (trace (place 1 1 1 0) (p CSV3))) /\
  In [5; 3] (store_coordinates (trace (place 1 1 1 0) (p CSV4))).
Proof.
  intros RTS p x y.
  split; [lia|]. split; [lia|]. split; [reflexivity|].
  split; [lia|]. split; [reflexivity|].
  split; [split; eexists; reflexivity|].
  split; [reflexivity|]. split; [reflexivity|].
  exact (X10_every_texel_is_committed (place 1 1 1 0) 5 3 [1; 6; 6] [1; 12; 12]
           false false 4 2 2 false None ltac:(lia) ltac:(lia) eq_refl
           ltac:(lia) eq_refl
           ltac:(split; eexists; reflexivity) eq_refl eq_refl).
Defined.



(** ** Indices of the shared tiles *)

Lemma for_iter_range (I : env -> Prop) (P : event -> Prop) run i :
  forall n k0,
  (forall k rho, k0 <= k < k0 + Z.of_nat n -> I rho ->
     let r := run ((i, VInt k) :: rho) in
     outcome_of r = ONormal /\ Forall P (events_of r) /\ I (env_of r)) ->
  forall rho, I rho ->
     let r := for_iter run i k0 1 n rho in
     outcome_of r = ONormal /\ Forall P (events_of r) /\ I (env_of r).
Proof.
  induction n as [|n IH]; intros k0 Hrun rho HI; simpl.
  - repeat split; [constructor|exact HI].
  - destruct (Hrun k0 rho ltac:(lia) HI) as (Ho & HP & HI1).
    destruct (run ((i, VInt k0) :: rho)) as [[o rho1] ev1].
    unfold outcome_of, env_of, events_of in *. simpl in *. subst o.
    destruct (IH (k0 + 1) (fun k rho' Hk => Hrun k rho' ltac:(lia)) rho1 HI1)
      as (Ho2 & HP2 & HI2).
    destruct (for_iter run i (k0 + 1) 1 n rho1) as [[o2 rho2] ev2]. simpl in *.
    repeat split; [exact Ho2|apply Forall_app; split; assumption|exact HI2].
Qed.

Lemma holds_incl keep keep' rho : incl keep' keep -> holds keep rho -> holds keep' rho.
Proof. intros Hi Hh x v Hx. apply Hh, Hi, Hx. Qed.

Lemma holds_bind keep x v rho :
  ~ In x (map fst keep) -> holds keep rho -> holds ((x, v) :: keep) ((x, v) :: rho).
Proof.
  intros Hn Hh y w [E|Hy].
  - injection E as <- <-. cbn [lookup]. rewrite String.eqb_refl. reflexivity.
  - exact (holds_cons keep x v rho Hn Hh y w Hy).
Qed.

Section Safe.

Variable T : thread.
Variable P : event -> Prop.

#[local] Set Warnings "-notation-for-abbreviation".
#[local] Notation safe := (safe T P).

Lemma safe_app k1 k2 k3 a b : safe k1 a k2 -> safe k2 b k3 -> safe k1 (a ++ b) k3.
Proof.
  intros Ha Hb rho Hk. rewrite exec_app.
  destruct (Ha rho Hk) as (Ho & HP & Hk2).
  destruct (exec T a rho) as [[o rho1] ev1].
  unfold outcome_of, env_of, events_of in *. simpl in *. subst o.
  destruct (Hb rho1 Hk2) as (Ho2 & HP2 & Hk3).
  destruct (exec T b rho1) as [[o2 rho2] ev2]. simpl in *.
  repeat split; [exact Ho2|apply Forall_app; split; assumption|exact Hk3].
Qed.

Lemma safe_weaken k1 k2 k1' k2' ss :
  safe k1 ss k2 -> incl k1 k1' -> incl k2' k2 -> safe k1' ss k2'.
Proof.
  intros Hs H1 H2 rho Hk.
  destruct (Hs rho (holds_incl _ _ _ H1 Hk)) as (Ho & HP & Hk2).
  repeat split; [exact Ho|exact HP|exact (holds_incl _ _ _ H2 Hk2)].
Qed.

(** Blocks without branches whose events are all of kinds that satisfy [P]
    keep what they do not bind. *)
Lemma safe_quiet keep ss :
  straight ss = true ->
  (forall ev, In (kind_of ev) (block_kinds ss) -> P ev) ->
  (forall x, In x (map fst keep) -> ~ In x (block_binds ss)) ->
  safe keep ss keep.
Proof.
  intros Hs Hk Hn rho Hh. split; [apply exec_straight, Hs|].
  split; [|apply holds_frame; assumption].
  eapply Forall_impl; [|apply exec_kinds]. exact Hk.
Qed.

Lemma safe_for_upto keep i hi body :
  ~ In i (map fst keep) ->
  (forall k, 0 <= k < hi -> safe ((i, VInt k) :: keep) body keep) ->
  safe keep [for_upto i (EInt hi) body] keep.
Proof.
  intros Hi Hb rho Hh. rewrite exec_single, exec_for_upto, trip_count_upto.
  apply (for_iter_range (holds keep) P (exec T body) i (Z.to_nat hi) 0); [|exact Hh].
  intros k rho' Hk Hh'.
  apply (Hb k ltac:(lia) ((i, VInt k) :: rho')). apply holds_bind; assumption.
Qed.

Lemma safe_for_var keep i x hi body :
  builtin_var T x = None -> In (x, VInt hi) keep ->
  ~ In i (map fst keep) ->
  (forall k, 0 <= k < hi -> safe ((i, VInt k) :: keep) body keep) ->
  safe keep [for_upto i (EVar x) body] keep.
Proof.
  intros Hx Hin Hi Hb rho Hh.
  rewrite exec_single, (exec_for_var T i x hi body rho Hx (Hh x _ Hin)), trip_count_upto.
  apply (for_iter_range (holds keep) P (exec T body) i (Z.to_nat hi) 0); [|exact Hh].
  intros k rho' Hk Hh'.
  apply (Hb k ltac:(lia) ((i, VInt k) :: rho')). apply holds_bind; assumption.
Qed.

(** A declaration whose initialiser is computed from the kept locals. *)
Lemma safe_decl keep ty x e v :
  (forall rho, holds keep rho -> fst (eval T rho e) = v) ->
  (forall ev, In (kind_of ev) (expr_kinds e) -> P ev) ->
  ~ In x (map fst keep) ->
  safe keep [decl ty x e] ((x, v) :: keep).
Proof.
  intros Hv Hk Hn rho Hh. rewrite exec_single, exec_decl.
  unfold outcome_of, env_of, events_of. cbn [fst snd].
  split; [reflexivity|]. split.
  - eapply Forall_impl; [|apply eval_kinds]. exact Hk.
  - rewrite (Hv rho Hh). apply holds_bind; assumption.
Qed.

End Safe.

Lemma eval_sizeTS_guard_env T aShape tA E n t rho :
  lookup "t" rho = Some (VInt t) -> lookup "numTiles" rho = Some (VInt n) ->
  fst (eval T rho (sizeTS_guard aShape tA E))
  = VInt (sizeTS_value (sharedDimensionPacked aShape tA) E n t).
Proof.
  intros H2 H1. unfold sizeTS_guard, sizeTS_value. cbn. rewrite H1, H2. cbn.
  destruct (t =? n - 1); cbn; [|reflexivity].
  destruct (js_rem (sharedDimensionPacked aShape tA) E =? 0); reflexivity.
Qed.

Lemma sizeTS_value_le R E n t : 0 < E -> sizeTS_value R E n t <= E.
Proof.
  intros HE. unfold sizeTS_value, js_rem.
  destruct ((t =? n - 1) && negb (Z.rem R E =? 0)); [|lia].
  pose proof (Z.rem_bound_abs R E ltac:(lia)). lia.
Qed.

Section TileBounds.

Variable T : thread.
Variables a0 a1 b0 b1 : Z.

#[local] Set Warnings "-notation-for-abbreviation".
#[local] Notation P := (tiles_in_bounds a0 a1 b0 b1).
#[local] Notation safe := (safe T (tiles_in_bounds a0 a1 b0 b1)).

Lemma off_tiles_in_bounds ks ev :
  forallb off_tiles ks = true -> In (kind_of ev) ks -> P ev.
Proof.
  intros Hq Hin. rewrite forallb_forall in Hq. specialize (Hq _ Hin).
  destruct ev as [a i|a i|f a|f a]; try (split; reflexivity);
    unfold off_tiles, tiles, mem in Hq; cbn in Hq;
    unfold tiles_in_bounds, in_bounds;
    destruct (String.eqb a "Asub"), (String.eqb a "Bsub"); try discriminate;
    split; reflexivity.
Qed.

Lemma eval_off_tiles rho e :
  forallb off_tiles (expr_kinds e) = true -> Forall P (snd (eval T rho e)).
Proof.
  intros Hq. eapply Forall_impl; [|apply eval_kinds].
  intros ev. apply off_tiles_in_bounds, Hq.
Qed.

Lemma eval_pair rho e1 e2 :
  eval_list (eval T rho) [e1; e2]
  = ([fst (eval T rho e1); fst (eval T rho e2)],
     snd (eval T rho e1) ++ snd (eval T rho e2) ++ []).
Proof.
  cbn. destruct (eval T rho e1), (eval T rho e2). reflexivity.
Qed.

(** [a[e1][e2] = rhs;] *)
Lemma safe_load keep a e1 e2 rhs r c :
  (forall rho, holds keep rho ->
     fst (eval T rho e1) = VInt r /\ fst (eval T rho e2) = VInt c) ->
  forallb off_tiles (expr_kinds e1 ++ expr_kinds e2 ++ expr_kinds rhs) = true ->
  P (AWrite a [VInt r; VInt c]) ->
  safe keep [SAssign (EIdx a [e1; e2]) rhs] keep.
Proof.
  intros Hv Hq HP rho Hh. rewrite exec_single.
  rewrite !forallb_app in Hq. apply andb_prop in Hq. destruct Hq as [Hq1 Hq].
  apply andb_prop in Hq. destruct Hq as [Hq2 Hq3].
  cbn [exec_stmt]. rewrite eval_pair. destruct (Hv rho Hh) as [-> ->].
  pose proof (eval_off_tiles rho e1 Hq1) as H1.
  pose proof (eval_off_tiles rho e2 Hq2) as H2.
  pose proof (eval_off_tiles rho rhs Hq3) as H3.
  destruct (eval T rho rhs) as [v ev]. cbn [snd] in H3.
  unfold outcome_of, env_of, events_of. cbn [fst snd].
  split; [reflexivity|]. split; [|exact Hh].
  rewrite app_nil_r. repeat (apply Forall_app; split); try assumption.
  constructor; [exact HP|constructor].
Qed.

Lemma eval_fetch rho a e1 e2 r c :
  fst (eval T rho e1) = VInt r -> fst (eval T rho e2) = VInt c ->
  forallb off_tiles (expr_kinds e1 ++ expr_kinds e2) = true ->
  P (ARead a [VInt r; VInt c]) ->
  Forall P (snd (eval T rho (EIdx a [e1; e2]))).
Proof.
  intros E1 E2 Hq HP.
  rewrite forallb_app in Hq. apply andb_prop in Hq. destruct Hq as [Hq1 Hq2].
  pose proof (eval_off_tiles rho e1 Hq1) as H1.
  pose proof (eval_off_tiles rho e2 Hq2) as H2.
  cbn [eval]. rewrite eval_pair, E1, E2, app_nil_r.
  assert (Hd : Forall P ((snd (eval T rho e1) ++ snd (eval T rho e2))
                         ++ [ARead a [VInt r; VInt c]])).
  { repeat (apply Forall_app; split); try assumption.
    constructor; [exact HP|constructor]. }
  destruct (lookup a rho) as [[z|l|b|]|]; exact Hd.
Qed.

(** [ty x = a[e1][e2];] *)
Lemma safe_fetch keep ty x a e1 e2 r c :
  (forall rho, holds keep rho ->
     fst (eval T rho e1) = VInt r /\ fst (eval T rho e2) = VInt c) ->
  forallb off_tiles (expr_kinds e1 ++ expr_kinds e2) = true ->
  P (ARead a [VInt r; VInt c]) ->
  ~ In x (map fst keep) ->
  safe keep [decl ty x (EIdx a [e1; e2])] keep.
Proof.
  intros Hv Hq HP Hn rho Hh. rewrite exec_single, exec_decl.
  destruct (Hv rho Hh) as [E1 E2].
  unfold outcome_of, env_of, events_of. cbn [fst snd].
  split; [reflexivity|]. split; [apply (eval_fetch rho a e1 e2 r c); assumption|].
  apply holds_cons; assumption.
Qed.

(** [b[e0] = a[e1][e2];] for a private array [b]. *)
Lemma safe_stage keep b e0 a e1 e2 r c :
  (forall rho, holds keep rho ->
     fst (eval T rho e1) = VInt r /\ fst (eval T rho e2) = VInt c) ->
  forallb off_tiles (KWrite b :: expr_kinds e0 ++ expr_kinds e1 ++ expr_kinds e2) = true ->
  P (ARead a [VInt r; VInt c]) ->
  safe keep [SAssign (EIdx b [e0]) (EIdx a [e1; e2])] keep.
Proof.
  intros Hv Hq HP rho Hh. rewrite exec_single.
  cbn [forallb] in Hq. apply andb_prop in Hq. destruct Hq as [Hb Hq].
  rewrite forallb_app in Hq. apply andb_prop in Hq. destruct Hq as [Hq0 Hq].
  destruct (Hv rho Hh) as [E1 E2].
  pose proof (eval_fetch rho a e1 e2 r c E1 E2 Hq HP) as Hread.
  pose proof (eval_off_tiles rho e0 Hq0) as H0.
  cbn [exec_stmt eval_list].
  destruct (eval T rho e0) as [v0 ev0]. cbn [snd] in H0.
  destruct (eval T rho (EIdx a [e1; e2])) as [v ev]. cbn [snd] in Hread.
  unfold outcome_of, env_of, events_of. cbn [fst snd].
  split; [reflexivity|]. split; [|exact Hh].
  rewrite app_nil_r. repeat (apply Forall_app; split); try assumption.
  constructor; [|constructor].
  apply (off_tiles_in_bounds [KWrite b]); [|left; reflexivity].
  cbn [forallb]. rewrite Hb. reflexivity.
Qed.

End TileBounds.

Lemma safe_then_quiet T P keep' pre post rho :
  safe T P [] pre keep' ->
  (forall ev, In (kind_of ev) (block_kinds post) -> P ev) ->
  Forall P (events_of (exec T (pre ++ post) rho)).
Proof.
  intros Hs Hq. apply exec_app_events.
  - apply Hs. intros x v [].
  - intros _. eapply Forall_impl; [|apply exec_kinds]. exact Hq.
Qed.

Ltac kept :=
  repeat first [left; reflexivity | right].

Ltac eval_kept :=
  let rho := fresh "rho" in
  let Hh := fresh "Hh" in
  intros rho Hh; zcbn;
  repeat match goal with
         | |- context [lookup ?x rho] =>
             let H := fresh in
             eassert (H : lookup x rho = Some _) by (apply Hh; kept);
             rewrite H; clear H; zcbn
         end;
  try (split; reflexivity); try reflexivity.

Ltac apart :=
  let x := fresh "x" in
  let Hx := fresh "Hx" in
  intros x Hx; rewrite <- mem_In; cbn in Hx;
  repeat (destruct Hx as [<-|Hx]; [cbn; discriminate|]); destruct Hx.

Ltac in_bounds_solve :=
  unfold tiles_in_bounds, in_bounds; cbn [String.eqb Ascii.eqb Bool.eqb];
  rewrite ?andb_true_iff, ?Z.leb_le, ?Z.ltb_lt; repeat split; try lia; try nia.

Ltac split_block n :=
  match goal with
  | |- safe ?T ?P ?k ?ss ?k' =>
      let a := eval cbv [firstn] in (firstn n ss) in
      let b := eval cbv [skipn] in (skipn n ss) in
      change (safe T P k (a ++ b) k')
  end.

(** The first [n] statements lead to [K]. *)
Ltac step n K := split_block n; apply safe_app with (k2 := K).

Ltac open_block :=
  cbn [decl decl_array for_upto if_
       tile_loads tile_products tile_body until_call after_call loop_body before_loop
       before_tiles main userCode MatMulPackedProgramCSV1 MatMulPackedProgramCSV2
       MatMulPackedProgramCSV3 MatMulPackedProgramCSV4 returned result app
       String.eqb Ascii.eqb Bool.eqb reduction fst snd].

(** The block [a], a prefix of the goal's, leads to [K]. *)
Ltac step_over a K :=
  match goal with
  | |- safe ?T ?P ?k (a ++ ?b) ?k' => apply safe_app with (k2 := K)
  end.

Ltac quiet_block :=
  apply safe_quiet;
  [reflexivity|intros ?ev; apply off_tiles_in_bounds; reflexivity|apart].

Ltac incl_solve := first [apply incl_refl | apply incl_tl; incl_solve].

(** The last statements keep [K], of which the goal wants a part. *)
Ltac quiet_end K :=
  apply safe_weaken with (k1 := K) (k2 := K);
  [quiet_block|apply incl_refl|incl_solve].

Ltac prologue_block Hl :=
  let rho := fresh "rho" in
  intros rho _; unfold exec; zcbn; rewrite Hl; zcbn;
  split; [reflexivity|]; split; [repeat constructor|];
  let v := fresh "v" in
  let w := fresh "w" in
  let H := fresh "H" in
  intros v w H; cbn [In] in H;
  repeat (destruct H as [H|H]; [injection H as <- <-; reflexivity|]); destruct H.

Ltac quiet_kinds := let ev := fresh "ev" in intros ev; apply off_tiles_in_bounds; reflexivity.

(** [int x = e;] where [e] is computed from the kept locals. *)
Ltac declare K val :=
  step 1%nat K; [apply (safe_decl _ _ _ _ _ _ val); [eval_kept|quiet_kinds|not_among]|].

Lemma CSV1_tiles T x y gx gy aShape outShape tA tB TS addBias act :
  0 < TS -> placed T x y gx gy -> 0 <= x < TS -> 0 <= y < TS ->
  Forall (tiles_in_bounds TS TS TS TS)
    (trace T (MatMulPackedProgramCSV1 aShape outShape tA tB TS addBias act)).
Proof.
  intros HTS [[z Hl] [gz Hw]] Hx Hy.
  set (p := MatMulPackedProgramCSV1 aShape outShape tA tB TS addBias act).
  destruct (matmul_main_tiles CSV1 aShape outShape tA tB TS 0 0 addBias act) as [Hm Hb].
  change (matmul_program CSV1 aShape outShape tA tB TS 0 0 addBias act) with p in Hm, Hb.
  unfold trace, run. fold exec. rewrite Hm, app_assoc.
  set (N := Math_ceil_div (sharedDimensionPacked aShape tA) TS).
  pose (keep := [("numTiles", VInt N); ("row", VInt y); ("col", VInt x)]).
  apply (safe_then_quiet T _ keep).
  2:{ intros ev. apply off_tiles_in_bounds.
      subst p. destruct addBias, (truthy act) eqn:E; cbn; rewrite ?E; reflexivity. }
  apply safe_app with (k2 := keep).
  { intros rho _. subst p keep. unfold exec. zcbn. rewrite Hl. zcbn.
    split; [reflexivity|]. split; [repeat constructor|].
    intros v w [H|[H|[H|[]]]]; injection H as <- <-; reflexivity. }
  apply safe_for_var with (hi := N); [reflexivity|kept|not_among|].
  intros k Hk.
  set (s := sizeTS_value (sharedDimensionPacked aShape tA) TS N k).
  pose proof (sizeTS_value_le (sharedDimensionPacked aShape tA) TS N k HTS) as Hs. fold s in Hs.
  pose (keep1 := ("t", VInt k) :: keep).
  pose (keep2 := ("sizeTS", VInt s) :: keep1).
  assert (Hsize : forall rho, holds keep1 rho ->
            fst (eval T rho (sizeTS_guard aShape tA TS)) = VInt s).
  { intros rho Hh. apply eval_sizeTS_guard_env; apply Hh; kept. }
  clearbody s. clear Hm Hb. subst p. destruct tA, tB; open_block.
  all: step 2%nat keep1; [quiet_block|].
  all: step 1%nat keep1;
    [apply (safe_load T _ _ _ _ _ _ _ _ _ y x); [eval_kept|reflexivity|in_bounds_solve]|].
  all: step 1%nat keep1;
    [apply (safe_load T _ _ _ _ _ _ _ _ _ y x); [eval_kept|reflexivity|in_bounds_solve]|].
  all: step 2%nat keep1; [quiet_block|].
  all: step 1%nat keep2;
    [apply safe_decl;
     [exact Hsize|intros ev; apply off_tiles_in_bounds; reflexivity|not_among]|].
  all: step 1%nat keep2; [|quiet_end keep2].
  all: apply safe_for_var with (hi := s); [reflexivity|kept|not_among|].
  all: intros i Hi; pose (keep3 := ("i", VInt i) :: keep2).
  all: step 1%nat keep3;
    [apply (safe_fetch T _ _ _ _ _ _ _ _ _ _ y i);
     [eval_kept|reflexivity|in_bounds_solve|not_among]|].
  all: step 1%nat keep3;
    [apply (safe_fetch T _ _ _ _ _ _ _ _ _ _ i x);
     [eval_kept|reflexivity|in_bounds_solve|not_among]|].
  all: quiet_end keep3.
Qed.

Lemma CSV2_tiles T x y gx gy aShape outShape tA tB TS WPT addBias act :
  0 < TS -> 0 < WPT -> TS mod WPT = 0 ->
  placed T x y gx gy -> 0 <= x < TS -> 0 <= y < js_div TS WPT ->
  Forall (tiles_in_bounds TS TS TS TS)
    (trace T (MatMulPackedProgramCSV2 aShape outShape tA tB TS WPT addBias act)).
Proof.
  intros HTS HWPT Hdiv [[z Hl] [gz Hw]] Hx Hy.
  destruct (exact_quotient TS WPT HTS HWPT Hdiv) as [HR Htile].
  set (p := MatMulPackedProgramCSV2 aShape outShape tA tB TS WPT addBias act).
  destruct (matmul_main_tiles CSV2 aShape outShape tA tB TS 0 WPT addBias act) as [Hm _].
  change (matmul_program CSV2 aShape outShape tA tB TS 0 WPT addBias act) with p in Hm.
  unfold trace, run. fold exec. rewrite Hm, app_assoc.
  set (N := Math_ceil_div (sharedDimensionPacked aShape tA) TS).
  pose (keep := [("numTiles", VInt N); ("row", VInt y); ("col", VInt x)]).
  apply (safe_then_quiet T _ keep).
  2:{ intros ev. apply off_tiles_in_bounds.
      subst p. destruct addBias, (truthy act) eqn:E; cbn; rewrite ?E; reflexivity. }
  apply safe_app with (k2 := keep).
  { subst p keep. prologue_block Hl. }
  apply safe_for_var with (hi := N); [reflexivity|kept|not_among|].
  intros k Hk.
  set (s := sizeTS_value (sharedDimensionPacked aShape tA) TS N k).
  pose proof (sizeTS_value_le (sharedDimensionPacked aShape tA) TS N k HTS) as Hs. fold s in Hs.
  pose (keep1 := ("t", VInt k) :: keep).
  pose (keep2 := ("sizeTS", VInt s) :: keep1).
  assert (Hsize : forall rho, holds keep1 rho ->
            fst (eval T rho (sizeTS_guard aShape tA TS)) = VInt s).
  { intros rho Hh. apply eval_sizeTS_guard_env; apply Hh; kept. }
  clearbody s. clear Hm. subst p. destruct tA, tB; open_block.
  all: step 2%nat keep1; [quiet_block|].
  all: step 1%nat keep1;
       [apply safe_for_upto; [not_among|];
            intros w Hw'; pose (keep3 := ("w", VInt w) :: keep1);
            step 1%nat keep3;
            [apply (safe_load T _ _ _ _ _ _ _ _ _ (y + w * js_div TS WPT) x);
             [eval_kept|reflexivity|in_bounds_solve]|];
            apply safe_weaken with (k1 := keep3) (k2 := keep3);
            [|apply incl_refl|incl_solve];
            apply (safe_load T _ _ _ _ _ _ _ _ _ (y + w * js_div TS WPT) x);
            [eval_kept|reflexivity|in_bounds_solve]|].
  all: step 2%nat keep1; [quiet_block|].
  all: step 1%nat keep2;
    [apply safe_decl;
     [exact Hsize|intros ev; apply off_tiles_in_bounds; reflexivity|not_among]|].
  all: step 1%nat keep2; [|quiet_end keep2].
  all: apply safe_for_var with (hi := s); [reflexivity|kept|not_among|].
  all: intros i Hi; pose (keep3 := ("i", VInt i) :: keep2).
  all: step 1%nat keep3;
    [apply (safe_fetch T _ _ _ _ _ _ _ _ _ _ i x);
     [eval_kept|reflexivity|in_bounds_solve|not_among]|].
  all: apply safe_weaken with (k1 := keep3) (k2 := keep3); [|apply incl_refl|incl_solve].
  all: apply safe_for_upto; [not_among|].
  all: intros w Hw'; pose (keep4 := ("w", VInt w) :: keep3).
  all: step 1%nat keep4;
    [apply (safe_fetch T _ _ _ _ _ _ _ _ _ _ (y + w * js_div TS WPT) i);
     [eval_kept|reflexivity|in_bounds_solve|not_among]|].
  all: quiet_end keep4.
Qed.

Lemma CSV3_tiles T x y gx gy aShape outShape tA tB TS WPT addBias act :
  0 < TS -> 0 < WPT -> TS mod WPT = 0 ->
  placed T x y gx gy -> 0 <= x < js_div TS WPT -> 0 <= y < js_div TS WPT ->
  Forall (tiles_in_bounds TS TS TS TS)
    (trace T (returned (MatMulPackedProgramCSV3 aShape outShape tA tB TS WPT addBias act))).
Proof.
  intros HTS HWPT Hdiv [[z Hl] [gz Hw]] Hx Hy.
  destruct (exact_quotient TS WPT HTS HWPT Hdiv) as [HR Htile].
  set (p := returned (MatMulPackedProgramCSV3 aShape outShape tA tB TS WPT addBias act)).
  destruct (matmul_main_tiles CSV3 aShape outShape tA tB TS 0 WPT addBias act) as [Hm _].
  change (matmul_program CSV3 aShape outShape tA tB TS 0 WPT addBias act) with p in Hm.
  unfold trace, run. fold exec. rewrite Hm, app_assoc.
  set (N := Math_ceil_div (sharedDimensionPacked aShape tA) TS).
  pose (keep0 := [("row", VInt y); ("col", VInt x)]).
  pose (keep := ("numTiles", VInt N) :: keep0).
  apply (safe_then_quiet T _ keep).
  2:{ intros ev. apply off_tiles_in_bounds.
      subst p. destruct (truthy act) eqn:E; cbn; rewrite ?E; reflexivity. }
  apply safe_app with (k2 := keep).
  { subst p. destruct tA, tB; open_block.
    all: step 5%nat keep0; [subst keep0; prologue_block Hl|].
    all: step 3%nat keep0; [quiet_block|].
    all: apply safe_decl with (v := VInt N); [eval_kept|quiet_kinds|not_among]. }
  apply safe_for_var with (hi := N); [reflexivity|kept|not_among|].
  intros k Hk.
  set (s := sizeTS_value (sharedDimensionPacked aShape tA) TS N k).
  pose proof (sizeTS_value_le (sharedDimensionPacked aShape tA) TS N k HTS) as Hs. fold s in Hs.
  pose (keep1 := ("t", VInt k) :: keep).
  pose (keep2 := ("sizeTS", VInt s) :: keep1).
  assert (Hsize : forall rho, holds keep1 rho ->
            fst (eval T rho (sizeTS_guard aShape tA TS)) = VInt s).
  { intros rho Hh. apply eval_sizeTS_guard_env; apply Hh; kept. }
  clearbody s. clear Hm. subst p. destruct tA, tB; open_block.
  all: step 2%nat keep1; [quiet_block|].
  all: step 1%nat keep1;
       [apply safe_for_upto; [not_among|];
            intros i Hi; pose (keepR := ("innerRow", VInt i) :: keep1);
            pose (keepR' := ("inputRow", VInt (y + i * js_div TS WPT)) :: keepR);
            declare keepR' (VInt (y + i * js_div TS WPT));
            apply safe_weaken with (k1 := keepR') (k2 := keepR');
            [|apply incl_refl|incl_solve];
            apply safe_for_upto; [not_among|];
            intros j Hj; pose (keepC := ("innerCol", VInt j) :: keepR');
            pose (keepC' := ("inputCol", VInt (x + j * js_div TS WPT)) :: keepC);
            declare keepC' (VInt (x + j * js_div TS WPT));
            step 1%nat keepC';
            [apply (safe_load T _ _ _ _ _ _ _ _ _
                      (y + i * js_div TS WPT) (x + j * js_div TS WPT));
             [eval_kept|reflexivity|in_bounds_solve]|];
            apply safe_weaken with (k1 := keepC') (k2 := keepC');
            [|apply incl_refl|incl_solve];
            apply (safe_load T _ _ _ _ _ _ _ _ _
                     (y + i * js_div TS WPT) (x + j * js_div TS WPT));
            [eval_kept|reflexivity|in_bounds_solve]|].
  all: step 2%nat keep1; [quiet_block|].
  all: step 1%nat keep2;
    [apply safe_decl; [exact Hsize|quiet_kinds|not_among]|].
  all: step 1%nat keep2; [|quiet_end keep2].
  all: apply safe_for_var with (hi := s); [reflexivity|kept|not_among|].
  all: intros kk Hkk; pose (keep3 := ("k", VInt kk) :: keep2).
  all: step 1%nat keep3;
       [apply safe_for_upto; [not_among|];
            intros i Hi; pose (keep4 := ("inner", VInt i) :: keep3);
            apply safe_weaken with (k1 := keep4) (k2 := keep4);
            [|apply incl_refl|incl_solve];
            apply (safe_stage T _ _ _ _ _ _ _ _ _ _ kk (x + i * js_div TS WPT));
            [eval_kept|reflexivity|in_bounds_solve]|].
  all: apply safe_weaken with (k1 := keep3) (k2 := keep3); [|apply incl_refl|incl_solve].
  all: apply safe_for_upto; [not_among|].
  all: intros i Hi; pose (keep4 := ("innerRow", VInt i) :: keep3).
  all: step 1%nat keep4;
    [apply (safe_fetch T _ _ _ _ _ _ _ _ _ _ (y + i * js_div TS WPT) kk);
     [eval_kept|reflexivity|in_bounds_solve|not_among]|].
  all: quiet_end keep4.
Qed.

Lemma CSV4_load_bounds (TS TSK WPT RTS LPTA x y i : Z) :
  0 < RTS -> TS = RTS * WPT -> 0 < WPT -> 0 < TSK ->
  LPTA * TS <= TSK * WPT * WPT ->
  0 <= x < RTS -> 0 <= y < RTS -> 0 <= i < LPTA ->
  let id := i * RTS * RTS + (y * RTS + x) in
  (0 <= Z.quot id TSK < TS) /\ (0 <= imod id TSK < TSK).
Proof.
  intros HR HT HW HK HL Hx Hy Hi id.
  assert (H0 : 0 <= id) by (subst id; nia).
  assert (H1 : id < LPTA * (RTS * RTS)) by (subst id; nia).
  assert (H2 : LPTA * (RTS * RTS) <= TSK * TS).
  { assert (H : LPTA * (RTS * RTS) * TS <= TSK * TS * TS).
    { replace (TSK * TS * TS) with (TSK * WPT * WPT * (RTS * RTS)) by (subst TS; ring).
      replace (LPTA * (RTS * RTS) * TS) with (LPTA * TS * (RTS * RTS)) by ring.
      apply Z.mul_le_mono_nonneg_r; [nia|exact HL]. }
    assert (HTS : 0 < TS) by nia. nia. }
  clearbody id. unfold imod. rewrite Z.quot_div_nonneg by lia.
  pose proof (Z.div_mod id TSK ltac:(lia)) as Hd.
  pose proof (Z.mod_pos_bound id TSK HK) as Hm.
  split.
  - split; [apply Z.div_pos; lia|].
    apply Z.div_lt_upper_bound; [exact HK|]. nia.
  - lia.
Qed.

Lemma CSV4_tiles T x y gx gy aShape outShape tA tB TS TSK WPT addBias act :
  0 < TS -> 0 < WPT -> TS mod WPT = 0 -> 0 < TSK -> (TSK * WPT * WPT) mod TS = 0 ->
  placed T x y gx gy -> 0 <= x < js_div TS WPT -> 0 <= y < js_div TS WPT ->
  Forall (tiles_in_bounds TS TSK TSK TS)
    (trace T (returned (MatMulPackedProgramCSV4 aShape outShape tA tB TS TSK WPT
                          addBias act))).
Proof.
  intros HTS HWPT Hdiv HTSK Hdiv' [[z Hl] [gz Hw]] Hx Hy.
  destruct (exact_quotient TS WPT HTS HWPT Hdiv) as [HR Htile].
  destruct (exact_quotient (TSK * WPT * WPT) TS ltac:(nia) HTS Hdiv') as [HL HLPTA].
  set (p := returned (MatMulPackedProgramCSV4 aShape outShape tA tB TS TSK WPT addBias act)).
  destruct (matmul_main_tiles CSV4 aShape outShape tA tB TS TSK WPT addBias act) as [Hm _].
  change (matmul_program CSV4 aShape outShape tA tB TS TSK WPT addBias act) with p in Hm.
  unfold trace, run. fold exec. rewrite Hm, app_assoc.
  set (N := Math_ceil_div (sharedDimensionPacked aShape tA) TSK).
  pose (keep0 := [("tidm", VInt y); ("tidn", VInt x)]).
  pose (keep := ("numTiles", VInt N) :: keep0).
  apply (safe_then_quiet T _ keep).
  2:{ intros ev. apply off_tiles_in_bounds.
      subst p. destruct (truthy act) eqn:E; cbn; rewrite ?E; reflexivity. }
  apply safe_app with (k2 := keep).
  { subst p. destruct tA, tB; open_block.
    all: step 5%nat keep0; [subst keep0; prologue_block Hl|].
    all: step 3%nat keep0; [quiet_block|].
    all: apply safe_decl with (v := VInt N); [eval_kept|quiet_kinds|not_among]. }
  apply safe_for_var with (hi := N); [reflexivity|kept|not_among|].
  intros k Hk.
  set (s := sizeTS_value (sharedDimensionPacked aShape tA) TSK N k).
  pose proof (sizeTS_value_le (sharedDimensionPacked aShape tA) TSK N k HTSK) as Hs.
  fold s in Hs.
  pose (keep1 := ("t", VInt k) :: keep).
  pose (keep2 := ("sizeTS", VInt s) :: keep1).
  assert (Hsize : forall rho, holds keep1 rho ->
            fst (eval T rho (sizeTS_guard aShape tA TSK)) = VInt s).
  { intros rho Hh. apply eval_sizeTS_guard_env; apply Hh; kept. }
  clearbody s. clear Hm. subst p. destruct tA, tB; open_block.
  all: step 1%nat keep1;
       [apply safe_for_upto; [not_among|];
        intros i Hi;
        set (tid := y * js_div TS WPT + x);
        set (id := i * js_div TS WPT * js_div TS WPT + tid);
        destruct (CSV4_load_bounds TS TSK WPT (js_div TS WPT)
                    (js_div (TSK * WPT * WPT) TS) x y i) as [Hrow Hcol];
        [assumption|assumption|assumption|assumption|lia|assumption|assumption|assumption|];
        fold tid id in Hrow, Hcol;
        pose (k0 := ("i", VInt i) :: keep1);
        pose (k1 := ("tid", VInt tid) :: k0);
        pose (k2 := ("id", VInt id) :: k1);
        pose (k3 := ("row", VInt (Z.quot id TSK)) :: k2);
        pose (k4 := ("col", VInt (imod id TSK)) :: k3);
        declare k1 (VInt tid);
        declare k2 (VInt id);
        declare k3 (VInt (Z.quot id TSK));
        declare k4 (VInt (imod id TSK));
        step 1%nat k4; [quiet_block|];
        step 1%nat k4;
        [apply (safe_load T _ _ _ _ _ _ _ _ _ (Z.quot id TSK) (imod id TSK));
         [eval_kept|reflexivity|in_bounds_solve]|];
        apply safe_weaken with (k1 := k4) (k2 := k4); [|apply incl_refl|incl_solve];
        apply (safe_load T _ _ _ _ _ _ _ _ _ (imod id TSK) (Z.quot id TSK));
        [eval_kept|reflexivity|in_bounds_solve]|].
  all: step 2%nat keep1; [quiet_block|].
  all: step 1%nat keep2;
    [apply safe_decl; [exact Hsize|quiet_kinds|not_among]|].
  all: step 1%nat keep2; [|quiet_end keep2].
  all: apply safe_for_var with (hi := s); [reflexivity|kept|not_among|].
  all: intros kk Hkk; pose (keep3 := ("k", VInt kk) :: keep2).
  all: step 1%nat keep3;
       [apply safe_for_upto; [not_among|];
        intros i Hi; pose (k0 := ("wn", VInt i) :: keep3);
        pose (k1 := ("col", VInt (x + i * js_div TS WPT)) :: k0);
        declare k1 (VInt (x + i * js_div TS WPT));
        apply safe_weaken with (k1 := k1) (k2 := k1); [|apply incl_refl|incl_solve];
        apply (safe_stage T _ _ _ _ _ _ _ _ _ _ kk (x + i * js_div TS WPT));
        [eval_kept|reflexivity|in_bounds_solve]|].
  all: apply safe_weaken with (k1 := keep3) (k2 := keep3); [|apply incl_refl|incl_solve].
  all: apply safe_for_upto; [not_among|].
  all: intros i Hi; pose (k0 := ("wm", VInt i) :: keep3).
  all: pose (k1 := ("row", VInt (y + i * js_div TS WPT)) :: k0).
  all: declare k1 (VInt (y + i * js_div TS WPT)).
  all: step 1%nat k1;
    [apply (safe_fetch T _ _ _ _ _ _ _ _ _ _ (y + i * js_div TS WPT) kk);
     [eval_kept|reflexivity|in_bounds_solve|not_among]|].
  all: quiet_end k1.
Qed.

Lemma matmul_extents T v aShape outShape tA tB TS TSK WPT addBias act :
  let p := matmul_program v aShape outShape tA tB TS TSK WPT addBias act in
  extents T "Asub" p = Some [VInt TS; VInt (tile_edge v TS TSK)] /\
  extents T "Bsub" p = Some [VInt (tile_edge v TS TSK); VInt TS].
Proof.
  destruct act as [[|c s]|]; destruct v; split; reflexivity.
Qed.

(** X12. The shared tiles are indexed inside their extents.  Under the
    tiling invariants of the variant ([0 < TS]; [0 < WPT] dividing [TS] where
    there is a [WPT]; for the fourth variant also [0 < TSK] and [TS] dividing
    [TSK * WPT * WPT]), for every invocation whose local id lies inside the
    workgroup size the program declares, every access to [Asub] and to
    [Bsub], in the loads, in the products and anywhere else in [main], has two
    integer indices inside the extents the program declares for the array:
    [TS x TS] for both in the first three variants, [TS x TSK] and
    [TSK x TS] in the fourth. *)
Theorem X12_tiles_are_indexed_in_bounds
  (v : variant) (T : thread) (x y gx gy L0 L1 : Z)
  (aShape outShape : list Z) (tA tB : bool) (TS TSK WPT : Z)
  (addBias : bool) (act : option string) :
  let p := matmul_program v aShape outShape tA tB TS TSK WPT addBias act in
  well_tiled v TS TSK WPT ->
  localGroupSize p = Some [L0; L1] ->
  placed T x y gx gy -> 0 <= x < L0 -> 0 <= y < L1 ->
  exists a0 a1 b0 b1,
    extents T "Asub" p = Some [VInt a0; VInt a1] /\
    extents T "Bsub" p = Some [VInt b0; VInt b1] /\
    Forall (tiles_in_bounds a0 a1 b0 b1) (trace T p).
Proof.
  intros p Hw HL HT Hx Hy.
  destruct (matmul_extents T v aShape outShape tA tB TS TSK WPT addBias act) as [EA EB].
  fold p in EA, EB.
  exists TS, (tile_edge v TS TSK), (tile_edge v TS TSK), TS.
  split; [exact EA|]. split; [exact EB|].
  subst p. destruct v; cbn [well_tiled] in Hw; injection HL as <- <-; cbn [tile_edge].
  - apply (CSV1_tiles T x y gx gy); assumption.
  - destruct Hw as (H1 & H2 & H3). apply (CSV2_tiles T x y gx gy); assumption.
  - destruct Hw as (H1 & H2 & H3). apply (CSV3_tiles T x y gx gy); assumption.
  - destruct Hw as (H1 & H2 & H3 & H4 & H5). apply (CSV4_tiles T x y gx gy); assumption.
Qed.

Lemma X12_tiles_are_indexed_in_bounds_witness :
  let p := matmul_program CSV4 [1; 6; 6] [1; 6; 6] false false 4 2 2 false None in
  well_tiled CSV4 4 2 2 /\
  localGroupSize p = Some [2; 2] /\
  placed (place 1 1 0 0) 1 1 0 0 /\ 0 <= 1 < 2 /\
  exists a0 a1 b0 b1,
    extents (place 1 1 0 0) "Asub" p = Some [VInt a0; VInt a1] /\
    extents (place 1 1 0 0) "Bsub" p = Some [VInt b0; VInt b1] /\
    Forall (tiles_in_bounds a0 a1 b0 b1) (trace (place 1 1 0 0) p).
Proof.
  intros p.
  split; [cbn; repeat split; lia|]. split; [reflexivity|].
  split; [split; eexists; reflexivity|]. split; [lia|].
  exact (X12_tiles_are_indexed_in_bounds CSV4 (place 1 1 0 0) 1 1 0 0 2 2
           [1; 6; 6] [1; 6; 6] false false 4 2 2 false None
           ltac:(cbn; repeat split; lia) eq_refl
           ltac:(split; eexists; reflexivity) ltac:(lia) ltac:(lia)).
Defined.

(** ** Filling the cache *)

Lemma for_iter_range_jump (I : env -> Prop) (P : event -> Prop) run i :
  forall n k0,
  (forall k rho, k0 <= k < k0 + Z.of_nat n -> I rho ->
     let r := run ((i, VInt k) :: rho) in
     (outcome_of r = ONormal \/ outcome_of r = OContinue \/ outcome_of r = OBreak) /\
     Forall P (events_of r) /\ I (env_of r)) ->
  forall rho, I rho ->
     let r := for_iter run i k0 1 n rho in
     outcome_of r = ONormal /\ Forall P (events_of r) /\ I (env_of r).
Proof.
  induction n as [|n IH]; intros k0 Hrun rho HI; simpl.
  - repeat split; [constructor|exact HI].
  - destruct (Hrun k0 rho ltac:(lia) HI) as (Ho & HP & HI1).
    destruct (run ((i, VInt k0) :: rho)) as [[o rho1] ev1].
    unfold outcome_of, env_of, events_of in *. simpl in *.
    destruct (IH (k0 + 1) (fun k rho' Hk => Hrun k rho' ltac:(lia)) rho1 HI1)
      as (Ho2 & HP2 & HI2).
    destruct (for_iter run i (k0 + 1) 1 n rho1) as [[o2 rho2] ev2]. simpl in *.
    destruct Ho as [-> |[-> | ->]]; simpl;
      repeat split; try assumption; apply Forall_app; split; assumption.
Qed.

Lemma quot_mod_bounds (i w h : Z) :
  0 <= i < h * w -> 0 < w ->
  0 <= Z.quot i w < h /\ 0 <= imod i w < w.
Proof.
  intros Hi Hw. unfold imod. rewrite Z.quot_div_nonneg by lia.
  pose proof (Z.div_mod i w ltac:(lia)) as Hd.
  pose proof (Z.mod_pos_bound i w Hw) as Hm.
  split; [|lia].
  split; [apply Z.div_pos; lia|].
  apply Z.div_lt_upper_bound; [exact Hw|]. nia.
Qed.

Section DepthwiseFill.

Variable convInfo : Conv2DInfo.
Variable T : thread.
Variables b y z w : Z.

Let p := DepthwiseConv2DProgramCS convInfo.
Let channelMul := js_div (outChannels convInfo) (inChannels convInfo).
Let cacheW := depthwise_cacheW convInfo.
Let cacheC := js_div (8 * channelMul) channelMul.
Let rC := y * strideHeight convInfo - top (padInfo convInfo).
Let cC := z * strideWidth convInfo - left (padInfo convInfo).
Let dC := Z.quot w channelMul.

Let keep : list (string * value) :=
  [ ("index", VInt (gl_LocalInvocationIndex T));
    ("cacheHW", VInt (filterHeight convInfo * cacheW));
    ("cacheW", VInt cacheW); ("cacheC", VInt cacheC);
    ("cacheRCorner", VInt rC); ("cacheCCorner", VInt cC);
    ("cacheDCorner", VInt dC); ("batch", VInt b) ].

Hypothesis first_coords : firstThreadOutputCoords T = [b; y; z; w].

Lemma depthwise_fill_entry :
  exists rho,
    exec T (firstn 7 (main (userCode p))) (global_env T (globals (userCode p)) [])
    = (ONormal, rho, []) /\ holds keep rho.
Proof.
  unfold exec. zcbn. rewrite first_coords. zcbn.
  eexists. split; [reflexivity|].
  intros x v H. subst keep. cbn [In] in H.
  repeat (destruct H as [H|H]; [injection H as <- <-; reflexivity|]). destruct H.
Qed.

Hypothesis index_nonneg : 0 <= gl_LocalInvocationIndex T.
Hypothesis cacheW_pos : 0 < cacheW.
Hypothesis channel_nonneg : 0 <= dC.

#[local] Set Warnings "-notation-for-abbreviation".
#[local] Notation P := (fill_ok convInfo (filterHeight convInfo) (cacheW * cacheC)).

Lemma depthwise_fill_statement rho :
  holds keep rho ->
  Forall P (events_of (exec_stmt T (nth 7 (main (userCode p)) SReturn) rho)).
Proof.
  intros Hh.
  assert (Hi : lookup "index" rho = Some (VInt (gl_LocalInvocationIndex T)))
    by (apply Hh; subst keep; kept).
  assert (Hhw : lookup "cacheHW" rho = Some (VInt (filterHeight convInfo * cacheW)))
    by (apply Hh; subst keep; kept).
  assert (Hcw : lookup "cacheW" rho = Some (VInt cacheW)) by (apply Hh; subst keep; kept).
  assert (Hc : lookup "cacheC" rho = Some (VInt cacheC)) by (apply Hh; subst keep; kept).
  assert (Hrc : lookup "cacheRCorner" rho = Some (VInt rC)) by (apply Hh; subst keep; kept).
  assert (Hcc : lookup "cacheCCorner" rho = Some (VInt cC)) by (apply Hh; subst keep; kept).
  assert (Hdc : lookup "cacheDCorner" rho = Some (VInt dC)) by (apply Hh; subst keep; kept).
  assert (Hb : lookup "batch" rho = Some (VInt b)) by (apply Hh; subst keep; kept).
  set (idx := gl_LocalInvocationIndex T) in *.
  unfold events_of. zcbn. rewrite Hi, Hhw. zcbn.
  destruct (idx <? filterHeight convInfo * cacheW) eqn:E0; zcbn; [|constructor].
  apply Z.ltb_lt in E0.
  destruct (quot_mod_bounds idx cacheW (filterHeight convInfo)) as [Hrow Hcol];
    [lia|exact cacheW_pos|].
  rewrite Hrc, Hcc, Hcw. zcbn. change (0 <? 1) with true.
  set (row := Z.quot idx cacheW) in *. set (col := imod idx cacheW) in *.
  destruct (rC + row >=? 0) eqn:E1; zcbn; [|constructor].
  destruct (cC + col >=? 0) eqn:E2; zcbn; [|constructor].
  destruct (rC + row <? inHeight convInfo) eqn:E3; zcbn; [|constructor].
  destruct (cC + col <? inWidth convInfo) eqn:E4; zcbn; [|constructor].
  rewrite Z.geb_leb in E1, E2. apply Z.leb_le in E1, E2. apply Z.ltb_lt in E3, E4.
  rewrite Hc. zcbn. rewrite trip_count_upto.
  match goal with
  | |- context [for_iter ?run ?i ?k ?s ?n ?r] =>
      pose proof (for_iter_range_jump
                    (fun rho0 => lookup "cacheDCorner" rho0 = Some (VInt dC) /\
                                 lookup "cacheRCorner" rho0 = Some (VInt rC) /\
                                 lookup "cacheCCorner" rho0 = Some (VInt cC) /\
                                 lookup "cacheC" rho0 = Some (VInt cacheC) /\
                                 lookup "batch" rho0 = Some (VInt b) /\
                                 lookup "row" rho0 = Some (VInt row) /\
                                 lookup "col" rho0 = Some (VInt col))
                    P run i n k) as Hrule;
      assert (Hloop : Forall P (events_of (for_iter run i k s n r)));
      [ apply Hrule; [|zcbn; auto 10]; clear Hrule;
        intros k' rho' Hk' (H1 & H2 & H3 & H4 & H5 & H6 & H7); zcbn;
        rewrite H1; zcbn;
        destruct (dC + k' >=? inChannels convInfo) eqn:E5; zcbn;
        unfold outcome_of, events_of, env_of; cbn [fst snd];
        [split; [auto|split; [apply Forall_nil|zcbn; auto 10]]|];
        rewrite ?H1, ?H2, ?H3, ?H4, ?H5, ?H6, ?H7; zcbn;
        split; [auto|split; [|zcbn; auto 10]];
        rewrite Z.geb_leb in E5; apply Z.leb_gt in E5
      | destruct (for_iter run i k s n r) as [[o rho1] ev1];
        unfold events_of in Hloop; cbn [snd] in Hloop;
        destruct o; zcbn; rewrite ?app_nil_r; exact Hloop ]
  end.
  repeat constructor; unfold in_bounds, sample_in_input; cbn [String.eqb Ascii.eqb Bool.eqb];
    rewrite ?andb_true_iff, ?Z.leb_le, ?Z.ltb_lt; repeat split; try lia; try nia.
Qed.

End DepthwiseFill.

Lemma depthwise_fill_safe convInfo T b y z w :
  firstThreadOutputCoords T = [b; y; z; w] ->
  0 <= gl_LocalInvocationIndex T -> 0 < depthwise_cacheW convInfo ->
  0 < inChannels convInfo -> 0 < outChannels convInfo ->
  outChannels convInfo mod inChannels convInfo = 0 -> 0 <= w ->
  let p := DepthwiseConv2DProgramCS convInfo in
  extents T "cache" p
  = Some [VInt (filterHeight convInfo); VInt (depthwise_cacheW convInfo * 8)] /\
  Forall (fill_ok convInfo (filterHeight convInfo) (depthwise_cacheW convInfo * 8))
    (fill_events T p).
Proof.
  intros Hf Hidx Hcw Hin Hout Hdiv Hw p. subst p.
  destruct (exact_quotient _ _ Hout Hin Hdiv) as [Hcm _].
  assert (HC : js_div (8 * js_div (outChannels convInfo) (inChannels convInfo))
                 (js_div (outChannels convInfo) (inChannels convInfo)) = 8)
    by (unfold js_div at 1; apply Z.quot_mul; lia).
  split.
  - unfold extents. zcbn. rewrite HC. reflexivity.
  - unfold fill_events.
    change (fill_phase (DepthwiseConv2DProgramCS convInfo))
      with (firstn 7 (main (userCode (DepthwiseConv2DProgramCS convInfo)))
            ++ [nth 7 (main (userCode (DepthwiseConv2DProgramCS convInfo))) SReturn]).
    rewrite exec_app.
    destruct (depthwise_fill_entry convInfo T b y z w Hf) as (rho & -> & Hh).
    rewrite exec_single.
    pose proof (depthwise_fill_statement convInfo T b y z w Hidx Hcw
                  ltac:(apply Z.quot_pos; lia) rho Hh) as Hs.
    rewrite HC in Hs.
    destruct (exec_stmt T _ rho) as [[o rho1] ev1]. exact Hs.
Qed.

Section Conv2DFill.

Variable convInfo : Conv2DInfo.
Variable T : thread.
Variables b y z d : Z.

Let p := Conv2DProgramCS convInfo.
Let cacheW := conv2d_cacheW convInfo.
Let rC := y * strideHeight convInfo.
Let cC := 16 * Z.quot z 16 * strideWidth convInfo.

Let keep : list (string * value) :=
  [ ("index", VInt (gl_LocalInvocationIndex T));
    ("cacheHW", VInt (3 * cacheW));
    ("cacheW", VInt cacheW);
    ("cacheRCorner", VInt rC); ("cacheCCorner", VInt cC);
    ("batch", VInt b) ].

Hypothesis own_coords : outputCoords T = [b; y; z; d].

Lemma conv2d_fill_entry :
  exists rho,
    exec T (firstn 10 (main (userCode p))) (global_env T (globals (userCode p)) [])
    = (ONormal, rho, []) /\ holds keep rho.
Proof.
  unfold exec. zcbn. rewrite own_coords. zcbn.
  eexists. split; [reflexivity|].
  intros x v H. subst keep. cbn [In] in H.
  repeat (destruct H as [H|H]; [injection H as <- <-; reflexivity|]). destruct H.
Qed.

Hypothesis index_nonneg : 0 <= gl_LocalInvocationIndex T.
Hypothesis cacheW_pos : 0 < cacheW.
Hypothesis corner_nonneg : 0 <= rC /\ 0 <= cC.

#[local] Set Warnings "-notation-for-abbreviation".
#[local] Notation P := (fill_ok convInfo 3 (cacheW * inChannels convInfo)).

Lemma conv2d_fill_statement rho :
  holds keep rho ->
  Forall P (events_of (exec_stmt T (nth 10 (main (userCode p)) SReturn) rho)).
Proof.
  intros Hh.
  assert (Hi : lookup "index" rho = Some (VInt (gl_LocalInvocationIndex T)))
    by (apply Hh; subst keep; kept).
  assert (Hhw : lookup "cacheHW" rho = Some (VInt (3 * cacheW)))
    by (apply Hh; subst keep; kept).
  assert (Hcw : lookup "cacheW" rho = Some (VInt cacheW)) by (apply Hh; subst keep; kept).
  assert (Hrc : lookup "cacheRCorner" rho = Some (VInt rC)) by (apply Hh; subst keep; kept).
  assert (Hcc : lookup "cacheCCorner" rho = Some (VInt cC)) by (apply Hh; subst keep; kept).
  assert (Hb : lookup "batch" rho = Some (VInt b)) by (apply Hh; subst keep; kept).
  set (idx := gl_LocalInvocationIndex T) in *.
  unfold events_of. zcbn. rewrite Hi, Hhw. zcbn.
  destruct (idx <? 3 * cacheW) eqn:E0; zcbn; [|constructor].
  apply Z.ltb_lt in E0.
  destruct (quot_mod_bounds idx cacheW 3) as [Hrow Hcol]; [lia|exact cacheW_pos|].
  rewrite Hrc, Hcc, Hcw. zcbn. change (0 <? 1) with true.
  set (row := Z.quot idx cacheW) in *. set (col := imod idx cacheW) in *.
  destruct (rC + row <? inHeight convInfo) eqn:E3; zcbn; [|constructor].
  destruct (cC + col <? inWidth convInfo) eqn:E4; zcbn; [|constructor].
  apply Z.ltb_lt in E3, E4. rewrite trip_count_upto.
  match goal with
  | |- context [for_iter ?run ?i ?k ?s ?n ?r] =>
      pose proof (for_iter_range_jump
                    (fun rho0 => lookup "cacheRCorner" rho0 = Some (VInt rC) /\
                                 lookup "cacheCCorner" rho0 = Some (VInt cC) /\
                                 lookup "batch" rho0 = Some (VInt b) /\
                                 lookup "row" rho0 = Some (VInt row) /\
                                 lookup "col" rho0 = Some (VInt col))
                    P run i n k) as Hrule;
      assert (Hloop : Forall P (events_of (for_iter run i k s n r)));
      [ apply Hrule; [|zcbn; auto 10]; clear Hrule;
        intros k' rho' Hk' (H2 & H3 & H5 & H6 & H7); zcbn;
        rewrite ?H2, ?H3, ?H5, ?H6, ?H7; zcbn;
        unfold outcome_of, events_of, env_of; cbn [fst snd];
        split; [auto|split; [|zcbn; auto 10]]
      | destruct (for_iter run i k s n r) as [[o rho1] ev1];
        unfold events_of in Hloop; cbn [snd] in Hloop;
        destruct o; zcbn; rewrite ?app_nil_r; exact Hloop ]
  end.
  destruct corner_nonneg as [Hr0 Hc0].
  repeat constructor; unfold in_bounds, sample_in_input; cbn [String.eqb Ascii.eqb Bool.eqb];
    rewrite ?andb_true_iff, ?Z.leb_le, ?Z.ltb_lt; repeat split; try lia; try nia.
Qed.

End Conv2DFill.

Lemma conv2d_fill_safe convInfo T b y z d :
  outputCoords T = [b; y; z; d] ->
  0 <= gl_LocalInvocationIndex T ->
  0 <= strideHeight convInfo -> 0 <= strideWidth convInfo -> 0 <= y -> 0 <= z ->
  let p := Conv2DProgramCS convInfo in
  extents T "cache" p
  = Some [VInt 3; VInt (conv2d_cacheW convInfo * inChannels convInfo)] /\
  Forall (fill_ok convInfo 3 (conv2d_cacheW convInfo * inChannels convInfo))
    (fill_events T p).
Proof.
  intros Hf Hidx Hsh Hsw Hy Hz p. subst p.
  split; [reflexivity|].
  unfold fill_events.
  change (fill_phase (Conv2DProgramCS convInfo))
    with (firstn 10 (main (userCode (Conv2DProgramCS convInfo)))
          ++ [nth 10 (main (userCode (Conv2DProgramCS convInfo))) SReturn]).
  rewrite exec_app.
  destruct (conv2d_fill_entry convInfo T b y z d Hf) as (rho & -> & Hh).
  rewrite exec_single.
  pose proof (conv2d_fill_statement convInfo T b y z Hidx) as Hs.
  cbv zeta in Hs.
  assert (Hq : 0 <= Z.quot z 16) by (apply Z.quot_pos; lia).
  specialize (Hs ltac:(unfold conv2d_cacheW; lia) ltac:(split; nia) rho Hh).
  destruct (exec_stmt T _ rho) as [[o rho1] ev1]. exact Hs.
Qed.

(** X13. The fill of the depthwise cache is safe.  For a depthwise
    descriptor whose [outChannels] is a positive multiple of a positive
    [inChannels] and whose cache is at least one pixel wide, and for an
    invocation with a non-negative local index whose workgroup starts at a
    non-negative channel: the cache is declared with
    [filterHeight x (cacheW * 8)] cells, [cacheW = 6 * strideWidth +
    filterWidth]; every cell the fill writes is inside these extents; and
    every [getX] of the fill reads the input at a row in [[0, inHeight)], a
    column in [[0, inWidth)] and a channel in [[0, inChannels)]. *)
Theorem X13_depthwise_fill_is_safe
  (convInfo : Conv2DInfo) (T : thread) (b y z w : Z) :
  firstThreadOutputCoords T = [b; y; z; w] ->
  0 <= gl_LocalInvocationIndex T -> 0 < depthwise_cacheW convInfo ->
  0 < inChannels convInfo -> 0 < outChannels convInfo ->
  outChannels convInfo mod inChannels convInfo = 0 -> 0 <= w ->
  let p := DepthwiseConv2DProgramCS convInfo in
  extents T "cache" p
  = Some [VInt (filterHeight convInfo); VInt (depthwise_cacheW convInfo * 8)] /\
  Forall (fill_ok convInfo (filterHeight convInfo) (depthwise_cacheW convInfo * 8))
    (fill_events T p).
Proof. apply depthwise_fill_safe. Qed.

Lemma X13_depthwise_fill_is_safe_witness :
  firstThreadOutputCoords out_of_range_thread = [0; 1; 1; 0] /\
  0 <= gl_LocalInvocationIndex out_of_range_thread /\
  0 < depthwise_cacheW depthwise_example /\
  0 < inChannels depthwise_example /\ 0 < outChannels depthwise_example /\
  outChannels depthwise_example mod inChannels depthwise_example = 0 /\
  let p := DepthwiseConv2DProgramCS depthwise_example in
  extents out_of_range_thread "cache" p
  = Some [VInt (filterHeight depthwise_example);
          VInt (depthwise_cacheW depthwise_example * 8)] /\
  Forall (fill_ok depthwise_example (filterHeight depthwise_example)
            (depthwise_cacheW depthwise_example * 8))
    (fill_events out_of_range_thread p).
Proof.
  split; [reflexivity|]. split; [vm_compute; discriminate|].
  split; [reflexivity|]. split; [reflexivity|]. split; [reflexivity|].
  split; [reflexivity|].
  exact (X13_depthwise_fill_is_safe depthwise_example out_of_range_thread 0 1 1 0
           eq_refl ltac:(vm_compute; discriminate) eq_refl eq_refl eq_refl eq_refl
           ltac:(lia)).
Defined.

(** X14. The fill of the cache of the standard convolution is safe.  For
    non-negative strides and an invocation with a non-negative local index and
    non-negative output row and column: the cache is declared with
    [3 x (cacheW * inChannels)] cells, [cacheW = 16 * strideWidth + 1]; every
    cell the fill writes is inside these extents; and every [getX] of the fill
    reads the input at a row in [[0, inHeight)], a column in [[0, inWidth)]
    and a channel in [[0, inChannels)]. *)
Theorem X14_conv2d_fill_is_safe
  (convInfo : Conv2DInfo) (T : thread) (b y z d : Z) :
  outputCoords T = [b; y; z; d] ->
  0 <= gl_LocalInvocationIndex T ->
  0 <= strideHeight convInfo -> 0 <= strideWidth convInfo -> 0 <= y -> 0 <= z ->
  let p := Conv2DProgramCS convInfo in
  extents T "cache" p
  = Some [VInt 3; VInt (conv2d_cacheW convInfo * inChannels convInfo)] /\
  Forall (fill_ok convInfo 3 (conv2d_cacheW convInfo * inChannels convInfo))
    (fill_events T p).
Proof. apply conv2d_fill_safe. Qed.

Lemma X14_conv2d_fill_is_safe_witness :
  outputCoords pixel_1_0 = [0; 1; 0; 0] /\
  0 <= gl_LocalInvocationIndex pixel_1_0 /\
  0 <= strideHeight padded_conv /\ 0 <= strideWidth padded_conv /\
  let p := Conv2DProgramCS padded_conv in
  extents pixel_1_0 "cache" p
  = Some [VInt 3; VInt (conv2d_cacheW padded_conv * inChannels padded_conv)] /\
  Forall (fill_ok padded_conv 3 (conv2d_cacheW padded_conv * inChannels padded_conv))
    (fill_events pixel_1_0 p).
Proof.
  split; [reflexivity|]. split; [vm_compute; discriminate|].
  split; [vm_compute; discriminate|]. split; [vm_compute; discriminate|].
  exact (X14_conv2d_fill_is_safe padded_conv pixel_1_0 0 1 0 0 eq_refl
           ltac:(vm_compute; discriminate) ltac:(vm_compute; discriminate)
           ltac:(vm_compute; discriminate) ltac:(lia) ltac:(lia)).
Defined.

(** ** Loading the shared tiles *)

Lemma tile_stores_app a b : tile_stores (a ++ b) = tile_stores a ++ tile_stores b.
Proof. apply filter_app. Qed.

Lemma tile_stores_silent evs : Forall silent evs -> tile_stores evs = [].
Proof.
  induction 1 as [|ev evs H _ IH]; [reflexivity|].
  unfold tile_stores in *. cbn [filter]. unfold silent in H. rewrite H. exact IH.
Qed.

Lemma no_store_silent ks :
  forallb no_store ks = true -> forall ev, In (kind_of ev) ks -> silent ev.
Proof.
  intros Hq ev Hin. rewrite forallb_forall in Hq. specialize (Hq _ Hin).
  destruct ev as [a i|a i|f a|f a]; try reflexivity.
  unfold silent, tile_store. cbn [kind_of no_store] in Hq.
  destruct (mem a tiles); [discriminate|reflexivity].
Qed.

Lemma eval_silent T rho e :
  forallb no_store (expr_kinds e) = true -> tile_stores (snd (eval T rho e)) = [].
Proof.
  intros Hq. apply tile_stores_silent.
  eapply Forall_impl; [|apply eval_kinds]. apply no_store_silent, Hq.
Qed.

Lemma for_iter_fills (I : env -> Prop) run i (f : Z -> list event) :
  forall n k0,
  (forall k rho, k0 <= k < k0 + Z.of_nat n -> I rho ->
     let r := run ((i, VInt k) :: rho) in
     outcome_of r = ONormal /\ tile_stores (events_of r) = f k /\ I (env_of r)) ->
  forall rho, I rho ->
     let r := for_iter run i k0 1 n rho in
     outcome_of r = ONormal /\
     tile_stores (events_of r) = flat_map f (counter_values k0 n) /\ I (env_of r).
Proof.
  induction n as [|n IH]; intros k0 Hrun rho HI; simpl.
  - repeat split. exact HI.
  - destruct (Hrun k0 rho ltac:(lia) HI) as (Ho & HP & HI1).
    destruct (run ((i, VInt k0) :: rho)) as [[o rho1] ev1].
    unfold outcome_of, env_of, events_of in *. simpl in *. subst o.
    destruct (IH (k0 + 1) (fun k rho' Hk => Hrun k rho' ltac:(lia)) rho1 HI1)
      as (Ho2 & HP2 & HI2).
    destruct (for_iter run i (k0 + 1) 1 n rho1) as [[o2 rho2] ev2]. simpl in *.
    repeat split; [exact Ho2| |exact HI2].
    rewrite tile_stores_app, HP, HP2. reflexivity.
Qed.

Section Fills.

Variable T : thread.

#[local] Set Warnings "-notation-for-abbreviation".
#[local] Notation fills := (fills T).
#[local] Notation quiet := (safe T silent).

Lemma fills_app k1 k2 k3 a b L1 L2 :
  fills k1 a k2 L1 -> fills k2 b k3 L2 -> fills k1 (a ++ b) k3 (L1 ++ L2).
Proof.
  intros Ha Hb rho Hk. rewrite exec_app.
  destruct (Ha rho Hk) as (Ho & HP & Hk2).
  destruct (exec T a rho) as [[o rho1] ev1].
  unfold outcome_of, env_of, events_of in *. simpl in *. subst o.
  destruct (Hb rho1 Hk2) as (Ho2 & HP2 & Hk3).
  destruct (exec T b rho1) as [[o2 rho2] ev2]. simpl in *.
  repeat split; [exact Ho2| |exact Hk3].
  rewrite tile_stores_app, HP, HP2. reflexivity.
Qed.

Lemma fills_quiet k1 k2 ss : quiet k1 ss k2 -> fills k1 ss k2 [].
Proof.
  intros Hs rho Hk. destruct (Hs rho Hk) as (Ho & HP & Hk2).
  repeat split; [exact Ho|apply tile_stores_silent, HP|exact Hk2].
Qed.

(** Statements without stores to the tiles before and after those with. *)
Lemma fills_after k1 k2 k3 a b L :
  quiet k1 a k2 -> fills k2 b k3 L -> fills k1 (a ++ b) k3 L.
Proof. intros Ha Hb. apply (fills_app k1 k2 k3 a b [] L); [apply fills_quiet, Ha|exact Hb]. Qed.

Lemma fills_before k1 k2 k3 a b L :
  fills k1 a k2 L -> quiet k2 b k3 -> fills k1 (a ++ b) k3 L.
Proof.
  intros Ha Hb. rewrite <- (app_nil_r L).
  apply (fills_app k1 k2 k3 a b L []); [exact Ha|apply fills_quiet, Hb].
Qed.

Lemma fills_weaken k1 k2 k1' k2' ss L :
  fills k1 ss k2 L -> incl k1 k1' -> incl k2' k2 -> fills k1' ss k2' L.
Proof.
  intros Hs H1 H2 rho Hk.
  destruct (Hs rho (holds_incl _ _ _ H1 Hk)) as (Ho & HP & Hk2).
  repeat split; [exact Ho|exact HP|exact (holds_incl _ _ _ H2 Hk2)].
Qed.

Lemma fills_for_upto keep i hi body f :
  ~ In i (map fst keep) ->
  (forall k, 0 <= k < hi -> fills ((i, VInt k) :: keep) body keep (f k)) ->
  fills keep [for_upto i (EInt hi) body] keep (flat_map f (range hi)).
Proof.
  intros Hi Hb rho Hh. rewrite exec_single, exec_for_upto, trip_count_upto.
  apply (for_iter_fills (holds keep) (exec T body) i f (Z.to_nat hi) 0); [|exact Hh].
  intros k rho' Hk Hh'.
  apply (Hb k ltac:(lia) ((i, VInt k) :: rho')). apply holds_bind; assumption.
Qed.

Lemma fills_for_var keep i x hi body f :
  builtin_var T x = None -> In (x, VInt hi) keep ->
  ~ In i (map fst keep) ->
  (forall k, 0 <= k < hi -> fills ((i, VInt k) :: keep) body keep (f k)) ->
  fills keep [for_upto i (EVar x) body] keep (flat_map f (range hi)).
Proof.
  intros Hx Hin Hi Hb rho Hh.
  rewrite exec_single, (exec_for_var T i x hi body rho Hx (Hh x _ Hin)), trip_count_upto.
  apply (for_iter_fills (holds keep) (exec T body) i f (Z.to_nat hi) 0); [|exact Hh].
  intros k rho' Hk Hh'.
  apply (Hb k ltac:(lia) ((i, VInt k) :: rho')). apply holds_bind; assumption.
Qed.

(** [a[e1][e2] = rhs;] for a tile [a]. *)
Lemma fills_load keep a e1 e2 rhs r c :
  (forall rho, holds keep rho ->
     fst (eval T rho e1) = VInt r /\ fst (eval T rho e2) = VInt c) ->
  forallb no_store (expr_kinds e1 ++ expr_kinds e2 ++ expr_kinds rhs) = true ->
  mem a tiles = true ->
  fills keep [SAssign (EIdx a [e1; e2]) rhs] keep [AWrite a [VInt r; VInt c]].
Proof.
  intros Hv Hq Ha rho Hh. rewrite exec_single.
  rewrite !forallb_app in Hq. apply andb_prop in Hq. destruct Hq as [Hq1 Hq].
  apply andb_prop in Hq. destruct Hq as [Hq2 Hq3].
  cbn [exec_stmt]. rewrite eval_pair. destruct (Hv rho Hh) as [-> ->].
  pose proof (eval_silent T rho e1 Hq1) as H1.
  pose proof (eval_silent T rho e2 Hq2) as H2.
  pose proof (eval_silent T rho rhs Hq3) as H3.
  destruct (eval T rho rhs) as [v ev]. cbn [snd] in H3.
  unfold outcome_of, env_of, events_of. cbn [fst snd].
  split; [reflexivity|]. split; [|exact Hh].
  rewrite !tile_stores_app, H1, H2, H3.
  unfold tile_stores. cbn [filter tile_store app]. rewrite Ha. reflexivity.
Qed.

(** The two loads of a tile iteration. *)
Lemma fills_pair keep e1 e2 rhs e1' e2' rhs' r c r' c' :
  (forall rho, holds keep rho ->
     fst (eval T rho e1) = VInt r /\ fst (eval T rho e2) = VInt c) ->
  (forall rho, holds keep rho ->
     fst (eval T rho e1') = VInt r' /\ fst (eval T rho e2') = VInt c') ->
  forallb no_store (expr_kinds e1 ++ expr_kinds e2 ++ expr_kinds rhs) = true ->
  forallb no_store (expr_kinds e1' ++ expr_kinds e2' ++ expr_kinds rhs') = true ->
  fills keep [SAssign (EIdx "Asub" [e1; e2]) rhs; SAssign (EIdx "Bsub" [e1'; e2']) rhs']
    keep (store_pair r c r' c').
Proof.
  intros Hv Hv' Hq Hq'.
  apply (fills_app keep keep keep [_] [_] [_] [_]); apply fills_load;
    assumption || reflexivity.
Qed.

End Fills.

Lemma fills_then_quiet T keep' pre post rho L :
  fills T [] pre keep' L ->
  forallb no_store (block_kinds post) = true ->
  tile_stores (events_of (exec T (pre ++ post) rho)) = L.
Proof.
  intros Hs Hq. rewrite exec_app.
  destruct (Hs rho) as (Ho & HL & _); [intros x v []|].
  destruct (exec T pre rho) as [[o rho1] ev1].
  unfold outcome_of, events_of in *. cbn [fst snd] in *. subst o.
  pose proof (exec_kinds T post rho1) as Hk.
  destruct (exec T post rho1) as [[o2 rho2] ev2].
  unfold events_of in Hk. cbn [fst snd] in *.
  rewrite tile_stores_app, HL, (tile_stores_silent ev2), app_nil_r; [reflexivity|].
  eapply Forall_impl; [|exact Hk]. apply no_store_silent, Hq.
Qed.

Ltac fsplit n :=
  match goal with
  | |- fills ?T ?k ?ss ?k' ?L =>
      let a := eval cbv [firstn] in (firstn n ss) in
      let b := eval cbv [skipn] in (skipn n ss) in
      change (fills T k (a ++ b) k' L)
  end.

(** The first [n] statements store nothing in the tiles and lead to [K]. *)
Ltac skip n K := fsplit n; apply fills_after with (k2 := K).

(** The first [n] statements are the loads and lead to [K]. *)
Ltac loading n K := fsplit n; apply fills_before with (k2 := K).

Ltac hush_kinds := apply no_store_silent; reflexivity.

Ltac hush := apply safe_quiet; [reflexivity|hush_kinds|apart].

Ltac hush_end K :=
  apply safe_weaken with (k1 := K) (k2 := K); [hush|apply incl_refl|incl_solve].

Ltac hush_declare K val :=
  step 1%nat K; [apply (safe_decl _ _ _ _ _ _ val); [eval_kept|hush_kinds|not_among]|].

Ltac pair_at := apply fills_pair; [eval_kept|eval_kept|reflexivity|reflexivity].

Lemma CSV1_fills T x y gx gy aShape outShape tA tB TS addBias act :
  placed T x y gx gy ->
  tile_stores (trace T (MatMulPackedProgramCSV1 aShape outShape tA tB TS addBias act))
  = flat_map (fun _ => loads CSV1 TS 0 0 x y)
      (range (Math_ceil_div (sharedDimensionPacked aShape tA) TS)).
Proof.
  intros [[z Hl] [gz Hw]].
  set (p := MatMulPackedProgramCSV1 aShape outShape tA tB TS addBias act).
  destruct (matmul_main_tiles CSV1 aShape outShape tA tB TS 0 0 addBias act) as [Hm _].
  change (matmul_program CSV1 aShape outShape tA tB TS 0 0 addBias act) with p in Hm.
  unfold trace, run. fold exec. rewrite Hm, app_assoc.
  set (N := Math_ceil_div (sharedDimensionPacked aShape tA) TS).
  pose (keep := [("numTiles", VInt N); ("row", VInt y); ("col", VInt x)]).
  apply (fills_then_quiet T keep).
  2:{ subst p. destruct addBias, (truthy act) eqn:E; cbn; rewrite ?E; reflexivity. }
  apply fills_after with (k2 := keep).
  { subst p keep. prologue_block Hl. }
  apply fills_for_var with (hi := N) (f := fun _ => loads CSV1 TS 0 0 x y);
    [reflexivity|kept|not_among|].
  intros k Hk.
  set (s := sizeTS_value (sharedDimensionPacked aShape tA) TS N k).
  pose (keep1 := ("t", VInt k) :: keep).
  pose (keep2 := ("sizeTS", VInt s) :: keep1).
  assert (Hsize : forall rho, holds keep1 rho ->
            fst (eval T rho (sizeTS_guard aShape tA TS)) = VInt s).
  { intros rho Hh. apply eval_sizeTS_guard_env; apply Hh; kept. }
  clearbody s. clear Hm. subst p. unfold loads. destruct tA, tB; open_block.
  all: skip 2%nat keep1; [hush|].
  all: loading 2%nat keep1; [pair_at|].
  all: step 2%nat keep1; [hush|].
  all: step 1%nat keep2; [apply safe_decl; [exact Hsize|hush_kinds|not_among]|].
  all: step 1%nat keep2; [|hush_end keep2].
  all: apply safe_for_var with (hi := s); [reflexivity|kept|not_among|].
  all: intros i Hi; pose (keep3 := ("i", VInt i) :: keep2).
  all: hush_end keep3.
Qed.

Lemma CSV2_fills T x y gx gy aShape outShape tA tB TS WPT addBias act :
  placed T x y gx gy ->
  tile_stores (trace T (MatMulPackedProgramCSV2 aShape outShape tA tB TS WPT addBias act))
  = flat_map (fun _ => loads CSV2 TS 0 WPT x y)
      (range (Math_ceil_div (sharedDimensionPacked aShape tA) TS)).
Proof.
  intros [[z Hl] [gz Hw]].
  set (p := MatMulPackedProgramCSV2 aShape outShape tA tB TS WPT addBias act).
  destruct (matmul_main_tiles CSV2 aShape outShape tA tB TS 0 WPT addBias act) as [Hm _].
  change (matmul_program CSV2 aShape outShape tA tB TS 0 WPT addBias act) with p in Hm.
  unfold trace, run. fold exec. rewrite Hm, app_assoc.
  set (N := Math_ceil_div (sharedDimensionPacked aShape tA) TS).
  pose (keep := [("numTiles", VInt N); ("row", VInt y); ("col", VInt x)]).
  apply (fills_then_quiet T keep).
  2:{ subst p. destruct addBias, (truthy act) eqn:E; cbn; rewrite ?E; reflexivity. }
  apply fills_after with (k2 := keep).
  { subst p keep. prologue_block Hl. }
  apply fills_for_var with (hi := N) (f := fun _ => loads CSV2 TS 0 WPT x y);
    [reflexivity|kept|not_among|].
  intros k Hk.
  set (s := sizeTS_value (sharedDimensionPacked aShape tA) TS N k).
  pose (keep1 := ("t", VInt k) :: keep).
  pose (keep2 := ("sizeTS", VInt s) :: keep1).
  assert (Hsize : forall rho, holds keep1 rho ->
            fst (eval T rho (sizeTS_guard aShape tA TS)) = VInt s).
  { intros rho Hh. apply eval_sizeTS_guard_env; apply Hh; kept. }
  clearbody s. clear Hm. subst p. unfold loads. destruct tA, tB; open_block.
  all: skip 2%nat keep1; [hush|].
  all: loading 1%nat keep1;
    [apply fills_for_upto; [not_among|];
     intros w Hw'; pose (keep3 := ("w", VInt w) :: keep1);
     apply fills_weaken with (k1 := keep3) (k2 := keep3); [|apply incl_refl|incl_solve];
     pair_at|].
  all: step 2%nat keep1; [hush|].
  all: step 1%nat keep2; [apply safe_decl; [exact Hsize|hush_kinds|not_among]|].
  all: step 1%nat keep2; [|hush_end keep2].
  all: apply safe_for_var with (hi := s); [reflexivity|kept|not_among|].
  all: intros i Hi; pose (keep3 := ("i", VInt i) :: keep2).
  all: hush_end keep3.
Qed.

Lemma CSV3_fills T x y gx gy aShape outShape tA tB TS WPT addBias act :
  placed T x y gx gy ->
  tile_stores
    (trace T (returned (MatMulPackedProgramCSV3 aShape outShape tA tB TS WPT addBias act)))
  = flat_map (fun _ => loads CSV3 TS 0 WPT x y)
      (range (Math_ceil_div (sharedDimensionPacked aShape tA) TS)).
Proof.
  intros [[z Hl] [gz Hw]].
  set (p := returned (MatMulPackedProgramCSV3 aShape outShape tA tB TS WPT addBias act)).
  destruct (matmul_main_tiles CSV3 aShape outShape tA tB TS 0 WPT addBias act) as [Hm _].
  change (matmul_program CSV3 aShape outShape tA tB TS 0 WPT addBias act) with p in Hm.
  unfold trace, run. fold exec. rewrite Hm, app_assoc.
  set (N := Math_ceil_div (sharedDimensionPacked aShape tA) TS).
  pose (keep0 := [("row", VInt y); ("col", VInt x)]).
  pose (keep := ("numTiles", VInt N) :: keep0).
  apply (fills_then_quiet T keep).
  2:{ subst p. destruct (truthy act) eqn:E; cbn; rewrite ?E; reflexivity. }
  apply fills_after with (k2 := keep).
  { subst p. destruct tA, tB; open_block.
    all: step 5%nat keep0; [subst keep0; prologue_block Hl|].
    all: step 3%nat keep0; [hush|].
    all: apply safe_decl with (v := VInt N); [eval_kept|hush_kinds|not_among]. }
  apply fills_for_var with (hi := N) (f := fun _ => loads CSV3 TS 0 WPT x y);
    [reflexivity|kept|not_among|].
  intros k Hk.
  set (s := sizeTS_value (sharedDimensionPacked aShape tA) TS N k).
  pose (keep1 := ("t", VInt k) :: keep).
  pose (keep2 := ("sizeTS", VInt s) :: keep1).
  assert (Hsize : forall rho, holds keep1 rho ->
            fst (eval T rho (sizeTS_guard aShape tA TS)) = VInt s).
  { intros rho Hh. apply eval_sizeTS_guard_env; apply Hh; kept. }
  clearbody s. clear Hm. subst p. unfold loads. destruct tA, tB; open_block.
  all: skip 2%nat keep1; [hush|].
  all: loading 1%nat keep1;
    [apply fills_for_upto; [not_among|];
     intros i Hi; pose (keepR := ("innerRow", VInt i) :: keep1);
     pose (keepR' := ("inputRow", VInt (y + i * js_div TS WPT)) :: keepR);
     skip 1%nat keepR';
     [apply (safe_decl _ _ _ _ _ _ (VInt (y + i * js_div TS WPT)));
      [eval_kept|hush_kinds|not_among]|];
     apply fills_weaken with (k1 := keepR') (k2 := keepR'); [|apply incl_refl|incl_solve];
     apply fills_for_upto; [not_among|];
     intros j Hj; pose (keepC := ("innerCol", VInt j) :: keepR');
     pose (keepC' := ("inputCol", VInt (x + j * js_div TS WPT)) :: keepC);
     skip 1%nat keepC';
     [apply (safe_decl _ _ _ _ _ _ (VInt (x + j * js_div TS WPT)));
      [eval_kept|hush_kinds|not_among]|];
     apply fills_weaken with (k1 := keepC') (k2 := keepC'); [|apply incl_refl|incl_solve];
     pair_at|].
  all: step 2%nat keep1; [hush|].
  all: step 1%nat keep2; [apply safe_decl; [exact Hsize|hush_kinds|not_among]|].
  all: step 1%nat keep2; [|hush_end keep2].
  all: apply safe_for_var with (hi := s); [reflexivity|kept|not_among|].
  all: intros kk Hkk; pose (keep3 := ("k", VInt kk) :: keep2).
  all: hush_end keep3.
Qed.

Lemma CSV4_fills T x y gx gy aShape outShape tA tB TS TSK WPT addBias act :
  placed T x y gx gy ->
  tile_stores
    (trace T (returned (MatMulPackedProgramCSV4 aShape outShape tA tB TS TSK WPT
                          addBias act)))
  = flat_map (fun _ => loads CSV4 TS TSK WPT x y)
      (range (Math_ceil_div (sharedDimensionPacked aShape tA) TSK)).
Proof.
  intros [[z Hl] [gz Hw]].
  set (p := returned (MatMulPackedProgramCSV4 aShape outShape tA tB TS TSK WPT addBias act)).
  destruct (matmul_main_tiles CSV4 aShape outShape tA tB TS TSK WPT addBias act) as [Hm _].
  change (matmul_program CSV4 aShape outShape tA tB TS TSK WPT addBias act) with p in Hm.
  unfold trace, run. fold exec. rewrite Hm, app_assoc.
  set (N := Math_ceil_div (sharedDimensionPacked aShape tA) TSK).
  pose (keep0 := [("tidm", VInt y); ("tidn", VInt x)]).
  pose (keep := ("numTiles", VInt N) :: keep0).
  apply (fills_then_quiet T keep).
  2:{ subst p. destruct (truthy act) eqn:E; cbn; rewrite ?E; reflexivity. }
  apply fills_after with (k2 := keep).
  { subst p. destruct tA, tB; open_block.
    all: step 5%nat keep0; [subst keep0; prologue_block Hl|].
    all: step 3%nat keep0; [hush|].
    all: apply safe_decl with (v := VInt N); [eval_kept|hush_kinds|not_among]. }
  apply fills_for_var with (hi := N) (f := fun _ => loads CSV4 TS TSK WPT x y);
    [reflexivity|kept|not_among|].
  intros k Hk.
  set (s := sizeTS_value (sharedDimensionPacked aShape tA) TSK N k).
  pose (keep1 := ("t", VInt k) :: keep).
  pose (keep2 := ("sizeTS", VInt s) :: keep1).
  assert (Hsize : forall rho, holds keep1 rho ->
            fst (eval T rho (sizeTS_guard aShape tA TSK)) = VInt s).
  { intros rho Hh. apply eval_sizeTS_guard_env; apply Hh; kept. }
  clearbody s. clear Hm. subst p. unfold loads. destruct tA, tB; open_block.
  all: loading 1%nat keep1;
    [apply fills_for_upto; [not_among|];
     intros i Hi;
     set (tid := y * js_div TS WPT + x);
     set (id := i * js_div TS WPT * js_div TS WPT + tid);
     pose (k0 := ("i", VInt i) :: keep1);
     pose (k1 := ("tid", VInt tid) :: k0);
     pose (k2 := ("id", VInt id) :: k1);
     pose (k3 := ("row", VInt (Z.quot id TSK)) :: k2);
     pose (k4 := ("col", VInt (imod id TSK)) :: k3);
     skip 1%nat k1;
     [apply (safe_decl _ _ _ _ _ _ (VInt tid)); [eval_kept|hush_kinds|not_among]|];
     skip 1%nat k2;
     [apply (safe_decl _ _ _ _ _ _ (VInt id)); [eval_kept|hush_kinds|not_among]|];
     skip 1%nat k3;
     [apply (safe_decl _ _ _ _ _ _ (VInt (Z.quot id TSK)));
      [eval_kept|hush_kinds|not_among]|];
     skip 1%nat k4;
     [apply (safe_decl _ _ _ _ _ _ (VInt (imod id TSK)));
      [eval_kept|hush_kinds|not_among]|];
     skip 1%nat k4; [hush|];
     apply fills_weaken with (k1 := k4) (k2 := k4); [|apply incl_refl|incl_solve];
     pair_at|].
  all: step 2%nat keep1; [hush|].
  all: step 1%nat keep2; [apply safe_decl; [exact Hsize|hush_kinds|not_among]|].
  all: step 1%nat keep2; [|hush_end keep2].
  all: apply safe_for_var with (hi := s); [reflexivity|kept|not_among|].
  all: intros kk Hkk; pose (keep3 := ("k", VInt kk) :: keep2).
  all: hush_end keep3.
Qed.

Lemma matmul_fills v T x y gx gy aShape outShape tA tB TS TSK WPT addBias act :
  placed T x y gx gy ->
  tile_stores (trace T (matmul_program v aShape outShape tA tB TS TSK WPT addBias act))
  = flat_map (fun _ => loads v TS TSK WPT x y)
      (range (Math_ceil_div (sharedDimensionPacked aShape tA) (tile_edge v TS TSK))).
Proof.
  intros HT. destruct v.
  - exact (CSV1_fills T x y gx gy aShape outShape tA tB TS addBias act HT).
  - exact (CSV2_fills T x y gx gy aShape outShape tA tB TS WPT addBias act HT).
  - exact (CSV3_fills T x y gx gy aShape outShape tA tB TS WPT addBias act HT).
  - exact (CSV4_fills T x y gx gy aShape outShape tA tB TS TSK WPT addBias act HT).
Qed.



(** ** The loads of a workgroup partition the tiles *)

Lemma in_store_pair ev r c r' c' :
  In ev (store_pair r c r' c') <->
  ev = AWrite "Asub" [VInt r; VInt c] \/ ev = AWrite "Bsub" [VInt r'; VInt c'].
Proof. unfold store_pair. cbn [In]. intuition congruence. Qed.

Lemma NoDup_store_pair r c r' c' : NoDup (store_pair r c r' c').
Proof.
  unfold store_pair. constructor; [|constructor; [intros []|constructor]].
  intros [H|[]]. discriminate.
Qed.

Lemma in_flat_range {A : Type} (f : Z -> list A) (hi : Z) (a : A) :
  In a (flat_map f (range hi)) <-> exists k, 0 <= k < hi /\ In a (f k).
Proof.
  rewrite in_flat_map. split; intros (k & Hk & Ha); exists k; split;
    try assumption; apply in_range; assumption.
Qed.

Lemma NoDup_flat_range {A : Type} (f : Z -> list A) (hi : Z) :
  (forall k, 0 <= k < hi -> NoDup (f k)) ->
  (forall k k' a, 0 <= k < hi -> 0 <= k' < hi -> In a (f k) -> In a (f k') -> k = k') ->
  NoDup (flat_map f (range hi)).
Proof.
  intros Hf Hd. apply NoDup_flat_map_disjoint.
  - apply NoDup_counter_values.
  - intros k Hk. apply Hf, in_range, Hk.
  - intros k k' a Hk Hk'. apply Hd; apply in_range; assumption.
Qed.

Lemma strided_unique (RTS y1 w1 y2 w2 : Z) :
  0 <= y1 < RTS -> 0 <= y2 < RTS ->
  y1 + w1 * RTS = y2 + w2 * RTS -> y1 = y2 /\ w1 = w2.
Proof. intros H1 H2 H. assert (w1 = w2) by nia. subst w2. split; lia. Qed.


Lemma cell_index (TSK id : Z) :
  0 < TSK -> 0 <= id -> Z.quot id TSK * TSK + imod id TSK = id /\ 0 <= imod id TSK < TSK.
Proof.
  intros HK Hid. unfold imod. rewrite Z.quot_div_nonneg by lia.
  pose proof (Z.mod_pos_bound id TSK HK) as Hm.
  pose proof (Z.div_mod id TSK ltac:(lia)) as Hd. split; lia.
Qed.


Lemma same_cell (TSK id1 id2 : Z) :
  Z.quot id1 TSK = Z.quot id2 TSK -> imod id1 TSK = imod id2 TSK -> id1 = id2.
Proof. unfold imod. intros -> H. lia. Qed.

Section Partition.

Variables (TS TSK WPT : Z).

#[local] Set Warnings "-notation-for-abbreviation".
#[local] Notation RTS := (js_div TS WPT).
#[local] Notation LPTA := (js_div (TSK * WPT * WPT) TS).

(** An invocation stores no cell twice in one iteration. *)
Lemma loads_once v x y :
  well_tiled v TS TSK WPT -> NoDup (loads v TS TSK WPT x y).
Proof.
  intros Hw. destruct v; cbn [well_tiled] in Hw; unfold loads.
  - apply NoDup_store_pair.
  - destruct Hw as (HTS & HWPT & Hdiv).
    destruct (exact_quotient TS WPT HTS HWPT Hdiv) as [HR _].
    apply NoDup_flat_range; [intros; apply NoDup_store_pair|].
    intros k k' ev _ _ H1 H2. rewrite in_store_pair in H1, H2.
    destruct H1 as [-> | ->], H2 as [H2|H2]; try discriminate;
      injection H2 as H2; nia.
  - destruct Hw as (HTS & HWPT & Hdiv).
    destruct (exact_quotient TS WPT HTS HWPT Hdiv) as [HR _].
    apply NoDup_flat_range.
    + intros i _. apply NoDup_flat_range; [intros; apply NoDup_store_pair|].
      intros k k' ev _ _ H1 H2. rewrite in_store_pair in H1, H2.
      destruct H1 as [-> | ->], H2 as [H2|H2]; try discriminate;
        injection H2 as H2; nia.
    + intros i i' ev _ _ H1 H2. rewrite in_flat_range in H1, H2.
      destruct H1 as (j & _ & H1), H2 as (j' & _ & H2).
      rewrite in_store_pair in H1, H2.
      destruct H1 as [-> | ->], H2 as [H2|H2]; try discriminate;
        injection H2 as H2 _; nia.
  - destruct Hw as (HTS & HWPT & Hdiv & HTSK & Hdiv').
    destruct (exact_quotient TS WPT HTS HWPT Hdiv) as [HR _].
    apply NoDup_flat_range; [intros; apply NoDup_store_pair|].
    intros k k' ev _ _ H1 H2. cbv zeta in H1, H2. rewrite in_store_pair in H1, H2.
    destruct H1 as [-> | ->], H2 as [H2|H2]; try discriminate;
      injection H2 as Ha Hb;
      [pose proof (same_cell _ _ _ Ha Hb) as E
      |pose proof (same_cell _ _ _ Hb Ha) as E]; nia.
Qed.

(** Two invocations of a workgroup store different cells. *)
Lemma loads_owner v aShape outShape tA tB addBias act L0 L1 x1 y1 x2 y2 ev :
  well_tiled v TS TSK WPT ->
  localGroupSize (matmul_program v aShape outShape tA tB TS TSK WPT addBias act)
  = Some [L0; L1] ->
  0 <= x1 < L0 -> 0 <= y1 < L1 -> 0 <= x2 < L0 -> 0 <= y2 < L1 ->
  In ev (loads v TS TSK WPT x1 y1) -> In ev (loads v TS TSK WPT x2 y2) ->
  x1 = x2 /\ y1 = y2.
Proof.
  intros Hw HL Hx1 Hy1 Hx2 Hy2 H1 H2.
  destruct v; cbn [well_tiled] in Hw; injection HL as <- <-; unfold loads in H1, H2.
  - rewrite in_store_pair in H1, H2.
    destruct H1 as [-> | ->], H2 as [H2|H2]; try discriminate;
      injection H2 as -> ->; split; reflexivity.
  - destruct Hw as (HTS & HWPT & Hdiv).
    rewrite in_flat_range in H1, H2.
    destruct H1 as (w1 & _ & H1), H2 as (w2 & _ & H2).
    rewrite in_store_pair in H1, H2.
    destruct H1 as [-> | ->], H2 as [H2|H2]; try discriminate;
      injection H2 as Hr ->; split; [reflexivity| |reflexivity|];
      apply (strided_unique RTS y1 w1 y2 w2); assumption.
  - destruct Hw as (HTS & HWPT & Hdiv).
    rewrite in_flat_range in H1, H2.
    destruct H1 as (i1 & _ & H1), H2 as (i2 & _ & H2).
    rewrite in_flat_range in H1, H2.
    destruct H1 as (j1 & _ & H1), H2 as (j2 & _ & H2).
    rewrite in_store_pair in H1, H2.
    destruct H1 as [-> | ->], H2 as [H2|H2]; try discriminate;
      injection H2 as Hr Hc; split;
      [apply (strided_unique RTS x1 j1 x2 j2)|apply (strided_unique RTS y1 i1 y2 i2)
      |apply (strided_unique RTS x1 j1 x2 j2)|apply (strided_unique RTS y1 i1 y2 i2)];
      assumption.
  - destruct Hw as (HTS & HWPT & Hdiv & HTSK & Hdiv').
    destruct (exact_quotient TS WPT HTS HWPT Hdiv) as [HR _].
    rewrite in_flat_range in H1, H2.
    destruct H1 as (i1 & Hi1 & H1), H2 as (i2 & Hi2 & H2).
    cbv zeta in H1, H2. rewrite in_store_pair in H1, H2.
    assert (E : i1 * RTS * RTS + (y1 * RTS + x1) = i2 * RTS * RTS + (y2 * RTS + x2)).
    { destruct H1 as [-> | ->], H2 as [H2|H2]; try discriminate;
        injection H2 as Ha Hb;
        [exact (same_cell _ _ _ Ha Hb)|exact (same_cell _ _ _ Hb Ha)]. }
    assert (Ht : y1 * RTS + x1 = y2 * RTS + x2).
    { apply (strided_unique (RTS * RTS) _ i1 _ i2); [nia|nia|lia]. }
    destruct (strided_unique RTS x1 y1 x2 y2) as [-> ->]; [lia|lia|lia|].
    split; reflexivity.
Qed.


End Partition.

Lemma stored_iff v T x y gx gy aShape outShape tA tB TS TSK WPT addBias act a idx :
  placed T x y gx gy -> In a tiles ->
  In (AWrite a idx)
    (trace T (matmul_program v aShape outShape tA tB TS TSK WPT addBias act)) <->
  0 < Math_ceil_div (sharedDimensionPacked aShape tA) (tile_edge v TS TSK) /\
  In (AWrite a idx) (loads v TS TSK WPT x y).
Proof.
  intros HT Ha.
  assert (Hs : tile_store (AWrite a idx) = true) by (apply mem_In, Ha).
  pose proof (matmul_fills v T x y gx gy aShape outShape tA tB TS TSK WPT addBias act HT)
    as E.
  unfold tile_stores in E. split.
  - intros Hin.
    assert (H : In (AWrite a idx)
                  (filter tile_store
                     (trace T (matmul_program v aShape outShape tA tB TS TSK WPT
                                 addBias act))))
      by (apply filter_In; split; assumption).
    rewrite E, in_flat_range in H. destruct H as (k & Hk & H). split; [lia|exact H].
  - intros [HN Hin].
    assert (H : In (AWrite a idx)
                  (filter tile_store
                     (trace T (matmul_program v aShape outShape tA tB TS TSK WPT
                                 addBias act)))).
    { rewrite E, in_flat_range. exists 0. split; [lia|exact Hin]. }
    apply filter_In in H. apply H.
Qed.

(** X16. No cell of a shared tile is stored by two invocations.  Under the
    tiling invariants of the variant, an invocation whose local id lies
    inside the workgroup size stores no cell of [Asub] or [Bsub] twice in one
    tile iteration, and two such invocations that store the same cell of the
    same tile anywhere in [main] have the same local id. *)
Theorem X16_no_cell_is_loaded_by_two_invocations
  (v : variant) (T1 T2 : thread) (x1 y1 x2 y2 gx gy gx' gy' L0 L1 : Z)
  (aShape outShape : list Z) (tA tB : bool) (TS TSK WPT : Z)
  (addBias : bool) (act : option string) (a : string) (idx : list value) :
  let p := matmul_program v aShape outShape tA tB TS TSK WPT addBias act in
  well_tiled v TS TSK WPT ->
  localGroupSize p = Some [L0; L1] ->
  placed T1 x1 y1 gx gy -> 0 <= x1 < L0 -> 0 <= y1 < L1 ->
  placed T2 x2 y2 gx' gy' -> 0 <= x2 < L0 -> 0 <= y2 < L1 ->
  NoDup (loads v TS TSK WPT x1 y1) /\
  (In a tiles -> In (AWrite a idx) (trace T1 p) -> In (AWrite a idx) (trace T2 p) ->
   x1 = x2 /\ y1 = y2).
Proof.
  intros p Hw HL HT1 Hx1 Hy1 HT2 Hx2 Hy2.
  split; [apply loads_once, Hw|].
  intros Ha H1 H2. subst p.
  apply (stored_iff v T1 x1 y1 gx gy) in H1; [|assumption|assumption].
  apply (stored_iff v T2 x2 y2 gx' gy') in H2; [|assumption|assumption].
  destruct H1 as [_ H1], H2 as [_ H2].
  exact (loads_owner TS TSK WPT v aShape outShape tA tB addBias act L0 L1
           x1 y1 x2 y2 _ Hw HL Hx1 Hy1 Hx2 Hy2 H1 H2).
Qed.

Lemma X16_no_cell_is_loaded_by_two_invocations_witness :
  let p := matmul_program CSV4 [1; 6; 6] [1; 6; 6] false false 4 2 2 false None in
  well_tiled CSV4 4 2 2 /\
  localGroupSize p = Some [2; 2] /\
  placed (place 1 1 0 0) 1 1 0 0 /\ placed (place 1 1 2 0) 1 1 2 0 /\
  NoDup (loads CSV4 4 2 2 1 1) /\
  (In "Asub" tiles ->
   In (AWrite "Asub" [VInt 3; VInt 1]) (trace (place 1 1 0 0) p) ->
   In (AWrite "Asub" [VInt 3; VInt 1]) (trace (place 1 1 2 0) p) ->
   1 = 1 /\ 1 = 1).
Proof.
  intros p.
  split; [cbn; repeat split; lia|]. split; [reflexivity|].
  split; [split; eexists; reflexivity|]. split; [split; eexists; reflexivity|].
  exact (X16_no_cell_is_loaded_by_two_invocations CSV4 (place 1 1 0 0) (place 1 1 2 0)
           1 1 1 1 0 0 2 0 2 2 [1; 6; 6] [1; 6; 6] false false 4 2 2 false None
           "Asub" [VInt 3; VInt 1]
           ltac:(cbn; repeat split; lia) eq_refl
           ltac:(split; eexists; reflexivity) ltac:(lia) ltac:(lia)
           ltac:(split; eexists; reflexivity) ltac:(lia) ltac:(lia)).
Defined.



(** ** What the convolutions read after the barrier *)

Lemma observe_app {A : Type} (view : event -> option A) a b :
  observe view (a ++ b) = observe view a ++ observe view b.
Proof. apply flat_map_app. Qed.

Lemma steps_range hi : steps 0 1 (trip_count 0 hi 1) = range hi.
Proof.
  rewrite trip_count_upto. unfold range. generalize 0.
  induction (Z.to_nat hi) as [|n IH]; intros k; simpl; [reflexivity|].
  rewrite IH. reflexivity.
Qed.

Section Yields.

Context {A : Type}.
Variable T : thread.
Variable view : event -> option A.
Variable K : kind -> bool.

(** The view keeps events of the kinds [K] only. *)
Hypothesis view_kind : forall ev, K (kind_of ev) = false -> view ev = None.

#[local] Set Warnings "-notation-for-abbreviation".
#[local] Notation yields := (yields T view).
#[local] Notation mute := (fun k => negb (K k)).

Lemma observe_mute ks evs :
  forallb mute ks = true -> emits ks evs -> observe view evs = [].
Proof.
  intros Hq He. rewrite forallb_forall in Hq.
  induction He as [|ev evs Hin _ IH]; [reflexivity|].
  unfold observe in *. cbn [flat_map]. rewrite IH, view_kind; [reflexivity|].
  specialize (Hq _ Hin). destruct (K (kind_of ev)); [discriminate|reflexivity].
Qed.

Lemma eval_mute rho e :
  forallb mute (expr_kinds e) = true -> observe view (snd (eval T rho e)) = [].
Proof. intros Hq. apply (observe_mute _ _ Hq), eval_kinds. Qed.

Lemma for_iter_yields (I : env -> Prop) run i step (f : Z -> list A) :
  forall n k0,
  (forall k rho, In k (steps k0 step n) -> I rho ->
     let r := run ((i, VInt k) :: rho) in
     (outcome_of r = ONormal \/ outcome_of r = OContinue) /\
     observe view (events_of r) = f k /\ I (env_of r)) ->
  forall rho, I rho ->
     let r := for_iter run i k0 step n rho in
     outcome_of r = ONormal /\
     observe view (events_of r) = flat_map f (steps k0 step n) /\ I (env_of r).
Proof.
  induction n as [|n IH]; intros k0 Hrun rho HI; simpl.
  - repeat split. exact HI.
  - destruct (Hrun k0 rho (or_introl eq_refl) HI) as (Ho & HP & HI1).
    destruct (run ((i, VInt k0) :: rho)) as [[o rho1] ev1].
    unfold outcome_of, env_of, events_of in *. simpl in *.
    destruct (IH (k0 + step) (fun k rho' Hk => Hrun k rho' (or_intror Hk)) rho1 HI1)
      as (Ho2 & HP2 & HI2).
    destruct (for_iter run i (k0 + step) step n rho1) as [[o2 rho2] ev2]. simpl in *.
    destruct Ho as [-> | ->]; simpl;
      (repeat split; [exact Ho2| |exact HI2]);
      rewrite observe_app, HP, HP2; reflexivity.
Qed.

Lemma yields_app k1 k2 k3 a b o L1 L2 :
  yields k1 a ONormal k2 L1 -> yields k2 b o k3 L2 -> yields k1 (a ++ b) o k3 (L1 ++ L2).
Proof.
  intros Ha Hb rho Hk. rewrite exec_app.
  destruct (Ha rho Hk) as (Ho & HP & Hk2).
  destruct (exec T a rho) as [[o1 rho1] ev1].
  unfold outcome_of, env_of, events_of in *. simpl in *. subst o1.
  destruct (Hb rho1 Hk2) as (Ho2 & HP2 & Hk3).
  destruct (exec T b rho1) as [[o2 rho2] ev2]. simpl in *.
  repeat split; [exact Ho2| |exact Hk3].
  rewrite observe_app, HP, HP2. reflexivity.
Qed.

(** A block that jumps skips what follows it. *)
Lemma yields_stop k1 k2 a b o L :
  yields k1 a o k2 L -> o <> ONormal -> yields k1 (a ++ b) o k2 L.
Proof.
  intros Ha Ho rho Hk. rewrite exec_app.
  destruct (Ha rho Hk) as (Ho1 & HP & Hk2).
  destruct (exec T a rho) as [[o1 rho1] ev1].
  unfold outcome_of, env_of, events_of in *. simpl in *. subst o1.
  destruct o; try contradiction; simpl; repeat split; assumption.
Qed.

Lemma yields_weaken k1 k2 k1' k2' ss o L :
  yields k1 ss o k2 L -> incl k1 k1' -> incl k2' k2 -> yields k1' ss o k2' L.
Proof.
  intros Hs H1 H2 rho Hk.
  destruct (Hs rho (holds_incl _ _ _ H1 Hk)) as (Ho & HP & Hk2).
  repeat split; [exact Ho|exact HP|exact (holds_incl _ _ _ H2 Hk2)].
Qed.

(** A block that ends normally and has no event of the kinds [K]. *)
Lemma yields_mute keep ss :
  (forall rho, holds keep rho -> outcome_of (exec T ss rho) = ONormal) ->
  forallb mute (block_kinds ss) = true ->
  (forall x, In x (map fst keep) -> ~ In x (block_binds ss)) ->
  yields keep ss ONormal keep [].
Proof.
  intros Ho Hq Hn rho Hh. split; [apply Ho, Hh|].
  split; [|apply holds_frame; assumption].
  apply (observe_mute _ _ Hq), exec_kinds.
Qed.

Lemma yields_straight keep ss :
  straight ss = true ->
  forallb mute (block_kinds ss) = true ->
  (forall x, In x (map fst keep) -> ~ In x (block_binds ss)) ->
  yields keep ss ONormal keep [].
Proof. intros Hs. apply yields_mute. intros rho _. apply exec_straight, Hs. Qed.

(** [ty x = e;] where [e] is computed from the kept locals. *)
Lemma yields_decl keep ty x e v :
  (forall rho, holds keep rho -> fst (eval T rho e) = v) ->
  forallb mute (expr_kinds e) = true ->
  ~ In x (map fst keep) ->
  yields keep [decl ty x e] ONormal ((x, v) :: keep) [].
Proof.
  intros Hv Hk Hn rho Hh. rewrite exec_single, exec_decl.
  unfold outcome_of, env_of, events_of. cbn [fst snd].
  split; [reflexivity|]. split; [apply eval_mute, Hk|].
  rewrite (Hv rho Hh). apply holds_bind; assumption.
Qed.

(** [ty x = e;] where the view keeps [L] of the events of [e]. *)
Lemma yields_decl_events keep ty x e L :
  (forall rho, holds keep rho -> observe view (snd (eval T rho e)) = L) ->
  ~ In x (map fst keep) ->
  yields keep [decl ty x e] ONormal keep L.
Proof.
  intros Hv Hn rho Hh. rewrite exec_single, exec_decl.
  unfold outcome_of, env_of, events_of. cbn [fst snd].
  split; [reflexivity|]. split; [apply Hv, Hh|]. apply holds_cons; assumption.
Qed.

(** [x += e;] *)
Lemma yields_add_events keep x e L :
  (forall rho, holds keep rho -> observe view (snd (eval T rho e)) = L) ->
  ~ In x (map fst keep) ->
  yields keep [SAddAssign (EVar x) e] ONormal keep L.
Proof.
  intros Hv Hn rho Hh. rewrite exec_single. cbn [exec_stmt].
  specialize (Hv rho Hh). destruct (eval T rho e) as [v ev]. cbn [snd] in Hv.
  unfold outcome_of, env_of, events_of. cbn [fst snd].
  split; [reflexivity|]. split; [exact Hv|]. apply holds_cons; assumption.
Qed.

(** [if (true) { th } else { el }] and [if (false) ..], as the constructor
    interpolates them. *)
Lemma yields_if_const keep (b : bool) th el o keep' L :
  yields keep (if b then th else el) o keep' L ->
  yields keep [SIf (EBool b) th el] o keep' L.
Proof.
  intros H rho Hh. specialize (H rho Hh). rewrite exec_single. cbn [exec_stmt eval].
  unfold exec in H. destruct b;
    destruct (exec_block (exec_stmt T) _ rho) as [[o1 rho1] ev1]; exact H.
Qed.

(** [f(args);] *)
Lemma yields_call keep f args L :
  (forall rho, holds keep rho ->
     observe view (events_of (exec_stmt T (SCall f args) rho)) = L) ->
  yields keep [SCall f args] ONormal keep L.
Proof.
  intros Hv rho Hh. rewrite exec_single. specialize (Hv rho Hh).
  cbn [exec_stmt] in *. destruct (eval_list (eval T rho) args) as [vs ev].
  repeat split; [exact Hv|exact Hh].
Qed.

Lemma yields_nil keep : yields keep [] ONormal keep [].
Proof. intros rho Hh. repeat split. exact Hh. Qed.

(** Counting loops whose iterations end normally or with [continue]. *)
Lemma yields_for keep i lo hi step body f :
  0 < step -> ~ In i (map fst keep) ->
  (forall k, In k (steps lo step (trip_count lo hi step)) ->
     exists o, (o = ONormal \/ o = OContinue) /\
               yields ((i, VInt k) :: keep) body o keep (f k)) ->
  yields keep [SFor i (EInt lo) (EInt hi) step body] ONormal keep
    (flat_map f (steps lo step (trip_count lo hi step))).
Proof.
  intros Hs Hi Hb rho Hh. rewrite exec_single. cbn [exec_stmt eval].
  apply Z.ltb_lt in Hs. rewrite Hs. fold (exec T body).
  pose proof (for_iter_yields (holds keep) (exec T body) i step f
                (trip_count lo hi step) lo) as Hl.
  cbv zeta in Hl. specialize (Hl
    (fun k rho' Hk Hh' =>
       match Hb k Hk with
       | ex_intro _ o (conj Ho Hy) =>
           match Hy ((i, VInt k) :: rho') (holds_bind _ _ _ _ Hi Hh') with
           | conj H1 H2 =>
               conj (match Ho with
                     | or_introl E => or_introl (eq_trans H1 E)
                     | or_intror E => or_intror (eq_trans H1 E)
                     end) H2
           end
       end) rho Hh).
  destruct (for_iter (exec T body) i lo step (trip_count lo hi step) rho)
    as [[o rho1] ev]. exact Hl.
Qed.

Lemma yields_for_upto keep i hi body f :
  ~ In i (map fst keep) ->
  (forall k, 0 <= k < hi ->
     exists o, (o = ONormal \/ o = OContinue) /\
               yields ((i, VInt k) :: keep) body o keep (f k)) ->
  yields keep [for_upto i (EInt hi) body] ONormal keep (flat_map f (range hi)).
Proof.
  intros Hi Hb. rewrite <- steps_range. apply yields_for; [lia|exact Hi|].
  intros k Hk. rewrite steps_range in Hk. apply Hb, in_range, Hk.
Qed.

(** [int x = e; if (x < 0 || x >= B) continue;] and what an accepted
    position executes. *)
Lemma yields_window keep x e v B rest keep' L :
  builtin_var T x = None ->
  (forall rho, holds keep rho -> fst (eval T rho e) = VInt v) ->
  forallb mute (expr_kinds e) = true ->
  ~ In x (map fst keep) ->
  incl keep' ((x, VInt v) :: keep) ->
  ((v <? 0) || (v >=? B) = false ->
   yields ((x, VInt v) :: keep) rest ONormal keep' L) ->
  exists o, (o = ONormal \/ o = OContinue) /\
    yields keep
      (decl "int" x e :: if_ ((EVar x < 0) || (EVar x >= EInt B)) [ SContinue ] :: rest)
      o keep' (if (v <? 0) || (v >=? B) then [] else L).
Proof.
  intros Hx Hv Hq Hn Hincl Hrest.
  set (K1 := (x, VInt v) :: keep) in *.
  assert (Hd : yields keep [decl "int" x e] ONormal K1 [])
    by (apply yields_decl; assumption).
  assert (Hg : forall rho, holds K1 rho ->
            exec T [if_ ((EVar x < 0) || (EVar x >= EInt B)) [ SContinue ]] rho
            = (if (v <? 0) || (v >=? B) then OContinue else ONormal, rho, [])).
  { intros rho Hh. rewrite exec_single, exec_window_guard by exact Hx.
    rewrite (Hh x (VInt v) (or_introl eq_refl)).
    destruct ((v <? 0) || (v >=? B)); reflexivity. }
  destruct ((v <? 0) || (v >=? B)) eqn:E.
  - exists OContinue. split; [right; reflexivity|].
    change (decl "int" x e :: if_ ((EVar x < 0) || (EVar x >= EInt B)) [ SContinue ] :: rest)
      with ([decl "int" x e]
            ++ [if_ ((EVar x < 0) || (EVar x >= EInt B)) [ SContinue ]] ++ rest).
    apply (yields_app keep K1 keep' _ _ OContinue [] []); [exact Hd|].
    apply yields_stop; [|discriminate].
    intros rho Hh. rewrite (Hg rho Hh).
    repeat split. exact (holds_incl _ _ _ Hincl Hh).
  - exists ONormal. split; [left; reflexivity|].
    change (decl "int" x e :: if_ ((EVar x < 0) || (EVar x >= EInt B)) [ SContinue ] :: rest)
      with ([decl "int" x e]
            ++ [if_ ((EVar x < 0) || (EVar x >= EInt B)) [ SContinue ]] ++ rest).
    apply (yields_app keep K1 keep' _ _ ONormal [] L); [exact Hd|].
    apply (yields_app K1 K1 keep' _ _ ONormal [] L); [|apply Hrest; reflexivity].
    intros rho Hh. rewrite (Hg rho Hh). repeat split. exact Hh.
Qed.

End Yields.

Lemma counter_values_app k n m :
  counter_values k (n + m) = counter_values k n ++ counter_values (k + Z.of_nat n) m.
Proof.
  revert k. induction n as [|n IH]; intros k.
  - simpl. rewrite Z.add_0_r. reflexivity.
  - simpl counter_values. rewrite IH. simpl. do 3 f_equal. lia.
Qed.

Lemma steps_blocks {A : Type} (g : Z -> A) (q : nat) : forall k,
  flat_map (fun d1 => [g d1; g (d1 + 1); g (d1 + 2); g (d1 + 3)]) (steps k 4 q)
  = map g (counter_values k (4 * q)).
Proof.
  induction q as [|q IH]; intros k; [reflexivity|].
  replace (4 * S q)%nat with (4 + 4 * q)%nat by lia.
  rewrite counter_values_app, map_app. cbn [steps flat_map].
  rewrite IH. cbn [counter_values map app].
  replace (k + Z.of_nat 4) with (k + 4) by lia.
  replace (k + 1 + 1) with (k + 2) by lia.
  replace (k + 2 + 1) with (k + 3) by lia. reflexivity.
Qed.

(** The blocks of four and the remainder are the channels [0 .. inChannels),
    each once, in order. *)
Lemma vec4_blocks_cover {A : Type} (inChannels : Z) (g : Z -> A) :
  vec4_blocks inChannels g = map g (range inChannels).
Proof.
  unfold vec4_blocks, Math_floor_div, js_rem, trip_count, range.
  destruct (Z.ltb_spec inChannels 0) as [Hneg|Hpos].
  - assert (Hr : Z.rem inChannels 4 <= 0).
    { replace inChannels with (- - inChannels) by lia.
      rewrite Z.rem_opp_l, Z.rem_mod_nonneg by lia.
      pose proof (Z.mod_pos_bound (- inChannels) 4 ltac:(lia)). lia. }
    assert (Hq : inChannels / 4 < 0) by (apply Z.div_lt_upper_bound; lia).
    assert (Hn : (inChannels / 4 * 4 - 0 + 4 - 1) / 4 < 0)
      by (apply Z.div_lt_upper_bound; lia).
    replace (Z.to_nat ((inChannels / 4 * 4 - 0 + 4 - 1) / 4)) with 0%nat by lia.
    replace (Z.to_nat inChannels) with 0%nat by lia.
    destruct (Z.rem inChannels 4 =? 1) eqn:E1; [lia|].
    destruct (Z.rem inChannels 4 =? 2) eqn:E2; [lia|].
    destruct (Z.rem inChannels 4 =? 3) eqn:E3; [lia|]. reflexivity.
  - rewrite Z.rem_mod_nonneg by lia.
    pose proof (Z.div_mod inChannels 4 ltac:(lia)) as Hd.
    pose proof (Z.mod_pos_bound inChannels 4 ltac:(lia)) as Hm.
    assert (Hq : 0 <= inChannels / 4) by (apply Z.div_pos; lia).
    set (q := inChannels / 4) in *. set (r := inChannels mod 4) in *.
    replace ((q * 4 - 0 + 4 - 1) / 4) with q.
    2:{ apply (Z.div_unique_pos _ _ q 3); lia. }
    rewrite steps_blocks.
    replace (Z.to_nat inChannels) with (4 * Z.to_nat q + Z.to_nat r)%nat by lia.
    rewrite counter_values_app, map_app. f_equal.
    replace (0 + Z.of_nat (4 * Z.to_nat q)) with (q * 4) by lia.
    assert (Hc : r = 0 \/ r = 1 \/ r = 2 \/ r = 3) by lia.
    destruct Hc as [-> |[-> |[-> | ->]]]; simpl; rewrite <- ?Z.add_assoc; reflexivity.
Qed.

Lemma flat_map_nested {A B C : Type} (h : B -> list C) (f : A -> list B) (l : list A) :
  flat_map h (flat_map f l) = flat_map (fun x => flat_map h (f x)) l.
Proof.
  induction l as [|a l IH]; [reflexivity|].
  cbn [flat_map]. rewrite flat_map_app, IH. reflexivity.
Qed.

Lemma flat_map_taps {A : Type} (convInfo : Conv2DInfo) (X Y : Z) (h : Z * Z -> list A) :
  flat_map h (taps convInfo X Y)
  = flat_map (fun wR =>
                if (X + wR * dilationHeight convInfo <? 0)
                   || (X + wR * dilationHeight convInfo >=? inHeight convInfo)
                then []
                else
                  flat_map (fun wC =>
                              if (Y + wC * dilationWidth convInfo <? 0)
                                 || (Y + wC * dilationWidth convInfo >=? inWidth convInfo)
                              then []
                              else h (wR, wC))
                    (range (filterWidth convInfo)))
      (range (filterHeight convInfo)).
Proof.
  unfold taps. rewrite flat_map_nested. apply flat_map_ext. intros wR. cbv zeta.
  destruct (_ || _); [reflexivity|].
  rewrite flat_map_nested. apply flat_map_ext. intros wC.
  destruct (_ || _); [reflexivity|]. cbn. apply app_nil_r.
Qed.

Section YieldsMore.

Context {A : Type}.
Variable T : thread.
Variable view : event -> option A.
Variable K : kind -> bool.
Hypothesis view_kind : forall ev, K (kind_of ev) = false -> view ev = None.

#[local] Set Warnings "-notation-for-abbreviation".
#[local] Notation yields := (yields T view).

(** Statements the view keeps nothing of, before and after those it keeps
    something of. *)
Lemma yields_after k1 k2 k3 a b o L :
  yields k1 a ONormal k2 [] -> yields k2 b o k3 L -> yields k1 (a ++ b) o k3 L.
Proof. intros Ha Hb. exact (yields_app T view k1 k2 k3 a b o [] L Ha Hb). Qed.

Lemma yields_before k1 k2 k3 a b L :
  yields k1 a ONormal k2 L -> yields k2 b ONormal k3 [] ->
  yields k1 (a ++ b) ONormal k3 L.
Proof.
  intros Ha Hb. rewrite <- (app_nil_r L).
  exact (yields_app T view k1 k2 k3 a b ONormal L [] Ha Hb).
Qed.

End YieldsMore.

Ltac ysplit n :=
  match goal with
  | |- yields ?T ?v ?k ?ss ?o ?k' ?L =>
      let a := eval cbv [firstn] in (firstn n ss) in
      let b := eval cbv [skipn] in (skipn n ss) in
      change (yields T v k (a ++ b) o k' L)
  end.

(** The view keeps nothing of the first [n] statements, which lead to [K]. *)
Ltac pass n K := ysplit n; apply yields_after with (k2 := K).

(** The view keeps nothing of what follows the first [n] statements. *)
Ltac last_of n K := ysplit n; apply yields_before with (k2 := K).

Ltac literal_tests :=
  try change (0 =? 0) with true; try change (1 =? 0) with false;
  try change (2 =? 0) with false.

(** What the view keeps of the events of an expression over the kept
    locals; the shared [cache] is no local. *)
Ltac events_kept :=
  let rho := fresh "rho" in
  let Hh := fresh "Hh" in
  intros rho Hh; zcbn; literal_tests;
  repeat (match goal with
          | |- context [lookup "cache" rho] =>
              destruct (lookup "cache" rho) as [[?|?|?|]|]
          | |- context [lookup ?x rho] =>
              let H := fresh in
              eassert (H : lookup x rho = Some _) by (apply Hh; kept);
              rewrite H; clear H
          end; zcbn; literal_tests);
  first [reflexivity | repeat (f_equal; try lia)].

Ltac mute_straight view_kind :=
  apply (yields_straight _ _ _ view_kind); [reflexivity|reflexivity|apart].

Ltac mute_end view_kind K :=
  apply yields_weaken with (k1 := K) (k2 := K);
  [mute_straight view_kind|apply incl_refl|incl_solve].

Lemma weight_kind_view ev : weight_kind (kind_of ev) = false -> weight ev = None.
Proof. destruct ev as [a i|a i|f a|f a]; cbn; try reflexivity. intros ->. reflexivity. Qed.

Lemma cache_read_kind_view ev :
  cache_read_kind (kind_of ev) = false -> cache_read ev = None.
Proof. destruct ev as [a i|a i|f a|f a]; cbn; try reflexivity. intros ->. reflexivity. Qed.

Lemma milestone_kind_view ev : milestone_kind (kind_of ev) = false -> milestone ev = None.
Proof.
  destruct ev as [a i|a i|f a|f a]; try reflexivity.
  cbn [kind_of milestone_kind milestone]. intros ->. reflexivity.
Qed.

Section Conv2DTaps.

Variable convInfo : Conv2DInfo.
Variable T : thread.
Variables b y z d2 : Z.

Let p := Conv2DProgramCS convInfo.
Let cacheW := conv2d_cacheW convInfo.
Let rC := y * strideHeight convInfo.
Let cC := 16 * Z.quot z 16 * strideWidth convInfo.
Let X := y * strideHeight convInfo - top (padInfo convInfo).
Let Y := z * strideWidth convInfo - left (padInfo convInfo).

Let keep : list (string * value) :=
  [ ("index", VInt (gl_LocalInvocationIndex T));
    ("cacheHW", VInt (3 * cacheW));
    ("cacheW", VInt cacheW);
    ("cacheRCorner", VInt rC); ("cacheCCorner", VInt cC);
    ("xRCorner", VInt X); ("xCCorner", VInt Y); ("d2", VInt d2) ].

Hypothesis own_coords : outputCoords T = [b; y; z; d2].

Lemma conv2d_entry :
  exists rho,
    exec T (firstn 10 (main (userCode p))) (global_env T (globals (userCode p)) [])
    = (ONormal, rho, []) /\ holds keep rho.
Proof.
  unfold exec. zcbn. rewrite own_coords. zcbn.
  eexists. split; [reflexivity|].
  intros x v H. subst keep. cbn [In] in H.
  repeat (destruct H as [H|H]; [injection H as <- <-; reflexivity|]). destruct H.
Qed.

Lemma conv2d_fill_normal rho :
  holds keep rho ->
  outcome_of (exec T [nth 10 (main (userCode p)) SReturn] rho) = ONormal.
Proof.
  intros Hh.
  assert (Hi : lookup "index" rho = Some (VInt (gl_LocalInvocationIndex T)))
    by (apply Hh; subst keep; kept).
  assert (Hhw : lookup "cacheHW" rho = Some (VInt (3 * cacheW)))
    by (apply Hh; subst keep; kept).
  assert (Hcw : lookup "cacheW" rho = Some (VInt cacheW)) by (apply Hh; subst keep; kept).
  assert (Hrc : lookup "cacheRCorner" rho = Some (VInt rC)) by (apply Hh; subst keep; kept).
  assert (Hcc : lookup "cacheCCorner" rho = Some (VInt cC)) by (apply Hh; subst keep; kept).
  set (idx := gl_LocalInvocationIndex T) in *.
  rewrite exec_single. unfold outcome_of. zcbn. rewrite Hi, Hhw. zcbn.
  destruct (idx <? 3 * cacheW); zcbn; [|reflexivity].
  rewrite Hrc, Hcc, Hcw. zcbn. change (0 <? 1) with true.
  destruct (rC + Z.quot idx cacheW <? inHeight convInfo); zcbn; [|reflexivity].
  destruct (cC + imod idx cacheW <? inWidth convInfo); zcbn; [|reflexivity].
  match goal with
  | |- context [for_iter ?run ?i ?k ?s ?n ?r] =>
      assert (Hloop : outcome_of (for_iter run i k s n r) = ONormal);
      [ apply for_iter_normal; intros rho'; unfold outcome_of; zcbn;
        repeat match goal with
               | |- context [match ?e with _ => _ end] => destruct e
               end; reflexivity
      | destruct (for_iter run i k s n r) as [[o rho1] ev1];
        unfold outcome_of in Hloop; cbn [fst] in Hloop; subst o; reflexivity ]
  end.
Qed.

Let rejected (x0 dilation bound k : Z) : bool :=
  (x0 + k * dilation <? 0) || (x0 + k * dilation >=? bound).

(** What a view presents of the compute phase, when it presents [g wR wC c]
    of the accesses to the channel [c] under the tap [(wR, wC)]. *)
Let presented {A : Type} (g : Z -> Z -> Z -> A) : list A :=
  flat_map (fun wR =>
              if rejected X (dilationHeight convInfo) (inHeight convInfo) wR then []
              else
                flat_map (fun wC =>
                            if rejected Y (dilationWidth convInfo) (inWidth convInfo) wC
                            then []
                            else vec4_blocks (inChannels convInfo) (g wR wC))
                  (range (filterWidth convInfo)))
    (range (filterHeight convInfo)).

Lemma conv2d_taps_weights :
  yields T weight keep [nth 14 (main (userCode p)) SReturn] ONormal keep
    (presented (fun wR wC c => [VInt wR; VInt wC; VInt c; VInt d2])).
Proof.
  unfold p. cbn [Conv2DProgramCS main userCode nth].
  apply yields_for_upto; [not_among|]. intros wR HwR.
  set (xR := X + wR * dilationHeight convInfo).
  pose (K0 := ("wR", VInt wR) :: keep).
  pose (K1 := ("xR", VInt xR) :: K0).
  pose (K2 := ("sR", VInt (xR - rC)) :: K1).
  apply (yields_window _ _ _ weight_kind_view K0 "xR" _ xR);
    [reflexivity|eval_kept|reflexivity|not_among|subst K0; incl_solve|].
  intros HaR.
  pass 1%nat K2.
  { apply (yields_decl _ _ _ weight_kind_view); [eval_kept|reflexivity|not_among]. }
  apply yields_weaken with (k1 := K2) (k2 := K2); [|apply incl_refl|incl_solve].
  apply yields_for_upto; [not_among|]. intros wC HwC.
  set (xC := Y + wC * dilationWidth convInfo).
  pose (K3 := ("wC", VInt wC) :: K2).
  pose (K4 := ("xC", VInt xC) :: K3).
  pose (K5 := ("sC", VInt ((xC - cC) * inChannels convInfo)) :: K4).
  apply (yields_window _ _ _ weight_kind_view K3 "xC" _ xC);
    [reflexivity|eval_kept|reflexivity|not_among|subst K3; incl_solve|].
  intros HaC.
  pass 1%nat K5.
  { apply (yields_decl _ _ _ weight_kind_view); [eval_kept|reflexivity|not_among]. }
  apply yields_weaken with (k1 := K5) (k2 := K5); [|apply incl_refl|incl_solve].
  unfold vec4_blocks. ysplit 1%nat. apply yields_app with (k2 := K5).
  - apply yields_for; [lia|not_among|]. intros d1 _. exists ONormal.
    split; [left; reflexivity|].
    pose (K6 := ("d1", VInt d1) :: K5).
    pass 1%nat K6; [mute_straight weight_kind_view|].
    last_of 1%nat K6; [|mute_end weight_kind_view K6].
    apply yields_decl_events; [events_kept|not_among].
  - apply yields_if_const.
    destruct (js_rem (inChannels convInfo) 4 =? 1).
    { apply yields_add_events; [events_kept|not_among]. }
    apply yields_if_const.
    destruct (js_rem (inChannels convInfo) 4 =? 2).
    { pass 1%nat K5; [mute_straight weight_kind_view|].
      last_of 1%nat K5; [|mute_straight weight_kind_view].
      apply yields_decl_events; [events_kept|not_among]. }
    apply yields_if_const.
    destruct (js_rem (inChannels convInfo) 4 =? 3).
    { pass 1%nat K5; [mute_straight weight_kind_view|].
      last_of 1%nat K5; [|mute_straight weight_kind_view].
      apply yields_decl_events; [events_kept|not_among]. }
    apply yields_nil.
Qed.

Lemma conv2d_taps_reads :
  yields T cache_read keep [nth 14 (main (userCode p)) SReturn] ONormal keep
    (presented (fun wR wC c => conv2d_cell convInfo y z wR wC c)).
Proof.
  unfold p, conv2d_cell. cbn [Conv2DProgramCS main userCode nth].
  apply yields_for_upto; [not_among|]. intros wR HwR.
  set (xR := X + wR * dilationHeight convInfo).
  pose (K0 := ("wR", VInt wR) :: keep).
  pose (K1 := ("xR", VInt xR) :: K0).
  pose (K2 := ("sR", VInt (xR - rC)) :: K1).
  apply (yields_window _ _ _ cache_read_kind_view K0 "xR" _ xR);
    [reflexivity|eval_kept|reflexivity|not_among|subst K0; incl_solve|].
  intros HaR.
  pass 1%nat K2.
  { apply (yields_decl _ _ _ cache_read_kind_view); [eval_kept|reflexivity|not_among]. }
  apply yields_weaken with (k1 := K2) (k2 := K2); [|apply incl_refl|incl_solve].
  apply yields_for_upto; [not_among|]. intros wC HwC.
  set (xC := Y + wC * dilationWidth convInfo).
  pose (K3 := ("wC", VInt wC) :: K2).
  pose (K4 := ("xC", VInt xC) :: K3).
  pose (K5 := ("sC", VInt ((xC - cC) * inChannels convInfo)) :: K4).
  apply (yields_window _ _ _ cache_read_kind_view K3 "xC" _ xC);
    [reflexivity|eval_kept|reflexivity|not_among|subst K3; incl_solve|].
  intros HaC.
  pass 1%nat K5.
  { apply (yields_decl _ _ _ cache_read_kind_view); [eval_kept|reflexivity|not_among]. }
  apply yields_weaken with (k1 := K5) (k2 := K5); [|apply incl_refl|incl_solve].
  unfold vec4_blocks. ysplit 1%nat. apply yields_app with (k2 := K5).
  - apply yields_for; [lia|not_among|]. intros d1 _. exists ONormal.
    split; [left; reflexivity|].
    pose (K6 := ("d1", VInt d1) :: K5).
    last_of 1%nat K6; [|mute_end cache_read_kind_view K6].
    apply yields_decl_events; [events_kept|not_among].
  - apply yields_if_const.
    destruct (js_rem (inChannels convInfo) 4 =? 1).
    { apply yields_add_events; [events_kept|not_among]. }
    apply yields_if_const.
    destruct (js_rem (inChannels convInfo) 4 =? 2).
    { last_of 1%nat K5; [|mute_straight cache_read_kind_view].
      apply yields_decl_events; [events_kept|not_among]. }
    apply yields_if_const.
    destruct (js_rem (inChannels convInfo) 4 =? 3).
    { last_of 1%nat K5; [|mute_straight cache_read_kind_view].
      apply yields_decl_events; [events_kept|not_among]. }
    apply yields_nil.
Qed.

(** From the fill to [setOutput]: the fill and the statements around the
    loop nest present nothing of the channels. *)
Lemma conv2d_body {A : Type} (view : event -> option A) (K : kind -> bool) (L : list A) :
  (forall ev, K (kind_of ev) = false -> view ev = None) ->
  forallb (fun k => negb (K k))
    (block_kinds (firstn 4 (skipn 10 (main (userCode p))))
     ++ block_kinds (skipn 15 (main (userCode p)))) = true ->
  yields T view keep [nth 14 (main (userCode p)) SReturn] ONormal keep L ->
  yields T view keep (skipn 10 (main (userCode p))) ONormal keep L.
Proof.
  intros view_kind Hq Hloop. rewrite forallb_app in Hq.
  apply andb_prop in Hq. destruct Hq as [Hq1 Hq2].
  change (skipn 10 (main (userCode p)))
    with ([nth 10 (main (userCode p)) SReturn]
          ++ firstn 3 (skipn 11 (main (userCode p)))
          ++ [nth 14 (main (userCode p)) SReturn]
          ++ skipn 15 (main (userCode p))).
  change (firstn 4 (skipn 10 (main (userCode p))))
    with ([nth 10 (main (userCode p)) SReturn]
          ++ firstn 3 (skipn 11 (main (userCode p)))) in Hq1.
  unfold block_kinds in Hq1. rewrite flat_map_app, forallb_app in Hq1.
  apply andb_prop in Hq1. destruct Hq1 as [Hq0 Hq1].
  apply yields_after with (k2 := keep).
  { apply (yields_mute _ _ _ view_kind); [|exact Hq0|unfold p; apart].
    intros rho Hh. apply conv2d_fill_normal, Hh. }
  apply yields_after with (k2 := keep).
  { apply (yields_straight _ _ _ view_kind); [reflexivity|exact Hq1|unfold p; apart]. }
  apply yields_before with (k2 := keep); [exact Hloop|].
  apply (yields_straight _ _ _ view_kind); [reflexivity|exact Hq2|unfold p; apart].
Qed.

Lemma conv2d_observed {A : Type} (view : event -> option A) (L : list A) :
  yields T view keep (skipn 10 (main (userCode p))) ONormal keep L ->
  observe view (trace T p) = L.
Proof.
  intros Hy. unfold trace, run. fold exec.
  rewrite <- (firstn_skipn 10 (main (userCode p))), exec_app.
  destruct conv2d_entry as (rho & -> & Hh).
  destruct (Hy rho Hh) as (_ & HL & _).
  destruct (exec T (skipn 10 (main (userCode p))) rho) as [[o rho1] ev1].
  exact HL.
Qed.

Lemma presented_taps {A : Type} (g : Z -> Z -> Z -> A) :
  presented g
  = flat_map (fun t => map (g (fst t) (snd t)) (range (inChannels convInfo)))
      (taps convInfo X Y).
Proof.
  rewrite flat_map_taps. unfold presented, rejected.
  apply flat_map_ext. intros wR. destruct (_ || _); [reflexivity|].
  apply flat_map_ext. intros wC. destruct (_ || _); [reflexivity|].
  apply vec4_blocks_cover.
Qed.

Lemma conv2d_milestones :
  yields T milestone keep (skipn 10 (main (userCode p))) ONormal keep
    ["barrier"; "setOutput"].
Proof.
  change (skipn 10 (main (userCode p)))
    with ([nth 10 (main (userCode p)) SReturn]
          ++ [SCall "memoryBarrierShared" []]
          ++ [SCall "barrier" []]
          ++ [decl "float" "dotProd" (EFloat 0 "0")]
          ++ [nth 14 (main (userCode p)) SReturn]
          ++ [SCall "setOutput" [EVar "dotProd"]]).
  apply yields_after with (k2 := keep).
  { apply (yields_mute _ _ _ milestone_kind_view); [|reflexivity|unfold p; apart].
    intros rho Hh. apply conv2d_fill_normal, Hh. }
  apply yields_after with (k2 := keep); [mute_straight milestone_kind_view|].
  apply (yields_app T milestone keep keep keep _ _ ONormal ["barrier"] ["setOutput"]).
  { apply yields_call. intros rho _. reflexivity. }
  apply yields_after with (k2 := keep); [mute_straight milestone_kind_view|].
  apply yields_after with (k2 := keep).
  { apply (yields_mute _ _ _ milestone_kind_view); [|reflexivity|unfold p; apart].
    intros rho Hh. apply (conv2d_taps_weights rho Hh). }
  apply yields_call. intros rho _. reflexivity.
Qed.

End Conv2DTaps.

(** X18. The standard convolution reads every input channel under every
    accepted tap, once.  For an invocation whose output coordinates are
    [(b, y, z, d2)], the samples of the filter in the whole of [main] are, tap
    after tap in the order of the loop nest and for the taps [(wR, wC)] that
    meet the input inside only, [getW(wR, wC, c, d2)] for [c = 0, 1, ..,
    inChannels - 1] in this order, each once; and the cells of the cache that
    are read are, for the same taps and the same channels in the same order,
    [cache[sR][sC + c]].  The blocks of four channels and the remainder of
    one, two or three leave no channel out and take none twice, whatever
    [inChannels] is. *)
Theorem X18_conv2d_reads_every_channel_once
  (convInfo : Conv2DInfo) (T : thread) (b y z d2 : Z) :
  outputCoords T = [b; y; z; d2] ->
  let p := Conv2DProgramCS convInfo in
  let corner := window_corner convInfo y z in
  observe weight (trace T p)
  = flat_map (fun t => map (fun c => [VInt (fst t); VInt (snd t); VInt c; VInt d2])
                         (range (inChannels convInfo)))
      (taps convInfo (fst corner) (snd corner)) /\
  observe cache_read (trace T p)
  = flat_map (fun t => map (conv2d_cell convInfo y z (fst t) (snd t))
                         (range (inChannels convInfo)))
      (taps convInfo (fst corner) (snd corner)).
Proof.
  intros Hc p corner. subst p corner. unfold window_corner. cbn [fst snd]. split.
  - etransitivity;
      [|exact (presented_taps convInfo y z
                 (fun wR wC c => [VInt wR; VInt wC; VInt c; VInt d2]))].
    apply (conv2d_observed convInfo T b y z d2 Hc).
    apply conv2d_body with (K := weight_kind);
      [exact weight_kind_view|reflexivity|apply conv2d_taps_weights].
  - etransitivity;
      [|exact (presented_taps convInfo y z
                 (fun wR wC c => conv2d_cell convInfo y z wR wC c))].
    apply (conv2d_observed convInfo T b y z d2 Hc).
    apply conv2d_body with (K := cache_read_kind);
      [exact cache_read_kind_view|reflexivity|apply conv2d_taps_reads].
Qed.

Lemma X18_conv2d_reads_every_channel_once_witness :
  outputCoords pixel_1_0 = [0; 1; 0; 0] /\
  let p := Conv2DProgramCS padded_conv in
  let corner := window_corner padded_conv 1 0 in
  observe weight (trace pixel_1_0 p)
  = flat_map (fun t => map (fun c => [VInt (fst t); VInt (snd t); VInt c; VInt 0])
                         (range (inChannels padded_conv)))
      (taps padded_conv (fst corner) (snd corner)) /\
  observe cache_read (trace pixel_1_0 p)
  = flat_map (fun t => map (conv2d_cell padded_conv 1 0 (fst t) (snd t))
                         (range (inChannels padded_conv)))
      (taps padded_conv (fst corner) (snd corner)).
Proof.
  split; [reflexivity|].
  exact (X18_conv2d_reads_every_channel_once padded_conv pixel_1_0 0 1 0 0 eq_refl).
Defined.

(** X19. The standard convolution discards no invocation.  Every
    invocation whose output coordinates have four components passes
    [barrier()] exactly once and then calls [setOutput] exactly once, whatever
    its coordinates and whatever the descriptor: neither the guard of the fill
    nor the guards of the window keep it from the barrier or from committing
    its output, and no invocation is turned away for lying outside the
    output. *)
Theorem X19_conv2d_discards_no_invocation
  (convInfo : Conv2DInfo) (T : thread) (b y z d2 : Z) :
  outputCoords T = [b; y; z; d2] ->
  observe milestone (trace T (Conv2DProgramCS convInfo)) = ["barrier"; "setOutput"].
Proof.
  intros Hc. apply (conv2d_observed convInfo T b y z d2 Hc). apply conv2d_milestones.
Qed.

Lemma X19_conv2d_discards_no_invocation_witness :
  outputCoords pixel_1_0 = [0; 1; 0; 0] /\
  observe milestone (trace pixel_1_0 (Conv2DProgramCS padded_conv))
  = ["barrier"; "setOutput"].
Proof.
  split; [reflexivity|].
  exact (X19_conv2d_discards_no_invocation padded_conv pixel_1_0 0 1 0 0 eq_refl).
Defined.

Section DepthwiseTaps.

Variable convInfo : Conv2DInfo.
Variable T : thread.
Variables b0 y0 z0 w0 b y z d2 gx : Z.
Variable gs : list Z.

Let p := DepthwiseConv2DProgramCS convInfo.
Let channelMul := js_div (outChannels convInfo) (inChannels convInfo).
Let cacheW := depthwise_cacheW convInfo.
Let cacheC := js_div (8 * channelMul) channelMul.
Let rC := y0 * strideHeight convInfo - top (padInfo convInfo).
Let cC := z0 * strideWidth convInfo - left (padInfo convInfo).
Let dC := Z.quot w0 channelMul.
Let X := y * strideHeight convInfo - top (padInfo convInfo).
Let Y := z * strideWidth convInfo - left (padInfo convInfo).
Let d1 := Z.quot d2 channelMul.

Let keep : list (string * value) :=
  [ ("index", VInt (gl_LocalInvocationIndex T));
    ("cacheHW", VInt (filterHeight convInfo * cacheW));
    ("cacheW", VInt cacheW); ("cacheC", VInt cacheC);
    ("cacheRCorner", VInt rC); ("cacheCCorner", VInt cC);
    ("cacheDCorner", VInt dC);
    ("strides", VVec [strideHeight convInfo; strideWidth convInfo]);
    ("pads", VVec [top (padInfo convInfo); left (padInfo convInfo)]) ].

Let keep' : list (string * value) :=
  [ ("d1", VInt d1); ("q", VInt (d2 - d1 * channelMul));
    ("xRCorner", VInt X); ("xCCorner", VInt Y);
    ("cacheC", VInt cacheC);
    ("cacheRCorner", VInt rC); ("cacheCCorner", VInt cC);
    ("cacheDCorner", VInt dC) ].

Hypothesis first_coords : firstThreadOutputCoords T = [b0; y0; z0; w0].
Hypothesis own_coords : outputCoords T = [b; y; z; d2].
Hypothesis global_id : gl_GlobalInvocationID T = gx :: gs.

Lemma depthwise_entry :
  exists rho,
    exec T (firstn 7 (main (userCode p))) (global_env T (globals (userCode p)) [])
    = (ONormal, rho, []) /\ holds keep rho.
Proof.
  unfold exec. zcbn. rewrite first_coords. zcbn.
  eexists. split; [reflexivity|].
  intros x v H. subst keep. cbn [In] in H.
  repeat (destruct H as [H|H]; [injection H as <- <-; reflexivity|]). destruct H.
Qed.

Lemma depthwise_fill_normal rho :
  holds keep rho ->
  outcome_of (exec T [nth 7 (main (userCode p)) SReturn] rho) = ONormal.
Proof.
  intros Hh. rewrite exec_single.
  apply (fill_statement_normal convInfo T rho (gl_LocalInvocationIndex T)
           (filterHeight convInfo * cacheW) cacheW rC cC dC cacheC);
    apply Hh; subst keep; kept.
Qed.

(** The statements between the discard and the loop nest. *)
Lemma depthwise_corners {A : Type} (view : event -> option A) (K : kind -> bool) :
  (forall ev, K (kind_of ev) = false -> view ev = None) ->
  yields T view keep (firstn 8 (skipn 11 (main (userCode p)))) ONormal keep' [].
Proof.
  intros view_kind rho Hh.
  assert (Hs : lookup "strides" rho
               = Some (VVec [strideHeight convInfo; strideWidth convInfo]))
    by (apply Hh; subst keep; kept).
  assert (Hp : lookup "pads" rho
               = Some (VVec [top (padInfo convInfo); left (padInfo convInfo)]))
    by (apply Hh; subst keep; kept).
  unfold exec, outcome_of, events_of, env_of. zcbn. rewrite own_coords. zcbn.
  rewrite Hs, Hp. zcbn.
  split; [reflexivity|]. split; [reflexivity|].
  intros x v H. subst keep'. cbn [In] in H.
  repeat (destruct H as [H|H];
          [injection H as <- <-;
           first [reflexivity
                 |cbn [lookup String.eqb Ascii.eqb Bool.eqb]; apply Hh; subst keep; kept]|]).
  destruct H.
Qed.

Let rejected (x0 dilation bound k : Z) : bool :=
  (x0 + k * dilation <? 0) || (x0 + k * dilation >=? bound).

Let presented {A : Type} (g : Z -> Z -> A) : list A :=
  flat_map (fun wR =>
              if rejected X (dilationHeight convInfo) (inHeight convInfo) wR then []
              else
                flat_map (fun wC =>
                            if rejected Y (dilationWidth convInfo) (inWidth convInfo) wC
                            then []
                            else [g wR wC])
                  (range (filterWidth convInfo)))
    (range (filterHeight convInfo)).

Lemma depthwise_taps_weights :
  yields T weight keep' [nth 19 (main (userCode p)) SReturn] ONormal keep'
    (presented (fun wR wC => depthwise_weight convInfo d2 wR wC)).
Proof.
  unfold p, depthwise_weight. cbn [DepthwiseConv2DProgramCS main userCode nth].
  apply yields_for_upto; [not_among|]. intros wR HwR.
  set (xR := X + wR * dilationHeight convInfo).
  pose (K0 := ("wR", VInt wR) :: keep').
  pose (K1 := ("xR", VInt xR) :: K0).
  pose (K2 := ("sR", VInt (xR - rC)) :: K1).
  apply (yields_window _ _ _ weight_kind_view K0 "xR" _ xR);
    [reflexivity|eval_kept|reflexivity|not_among|subst K0; incl_solve|].
  intros HaR.
  pass 1%nat K2.
  { apply (yields_decl _ _ _ weight_kind_view); [eval_kept|reflexivity|not_among]. }
  apply yields_weaken with (k1 := K2) (k2 := K2); [|apply incl_refl|incl_solve].
  apply yields_for_upto; [not_among|]. intros wC HwC.
  set (xC := Y + wC * dilationWidth convInfo).
  pose (K3 := ("wC", VInt wC) :: K2).
  pose (K4 := ("xC", VInt xC) :: K3).
  pose (K5 := ("sC", VInt ((xC - cC) * cacheC)) :: K4).
  apply (yields_window _ _ _ weight_kind_view K3 "xC" _ xC);
    [reflexivity|eval_kept|reflexivity|not_among|subst K3; incl_solve|].
  intros HaC.
  pass 1%nat K5.
  { apply (yields_decl _ _ _ weight_kind_view); [eval_kept|reflexivity|not_among]. }
  apply yields_weaken with (k1 := K5) (k2 := K5); [|apply incl_refl|incl_solve].
  pass 1%nat K5; [mute_straight weight_kind_view|].
  last_of 1%nat K5; [|mute_straight weight_kind_view].
  apply yields_decl_events; [events_kept|not_among].
Qed.

Lemma depthwise_taps_reads :
  yields T cache_read keep' [nth 19 (main (userCode p)) SReturn] ONormal keep'
    (presented (fun wR wC => depthwise_cell convInfo y0 z0 w0 y z d2 wR wC)).
Proof.
  unfold p, depthwise_cell. cbn [DepthwiseConv2DProgramCS main userCode nth].
  apply yields_for_upto; [not_among|]. intros wR HwR.
  set (xR := X + wR * dilationHeight convInfo).
  pose (K0 := ("wR", VInt wR) :: keep').
  pose (K1 := ("xR", VInt xR) :: K0).
  pose (K2 := ("sR", VInt (xR - rC)) :: K1).
  apply (yields_window _ _ _ cache_read_kind_view K0 "xR" _ xR);
    [reflexivity|eval_kept|reflexivity|not_among|subst K0; incl_solve|].
  intros HaR.
  pass 1%nat K2.
  { apply (yields_decl _ _ _ cache_read_kind_view); [eval_kept|reflexivity|not_among]. }
  apply yields_weaken with (k1 := K2) (k2 := K2); [|apply incl_refl|incl_solve].
  apply yields_for_upto; [not_among|]. intros wC HwC.
  set (xC := Y + wC * dilationWidth convInfo).
  pose (K3 := ("wC", VInt wC) :: K2).
  pose (K4 := ("xC", VInt xC) :: K3).
  pose (K5 := ("sC", VInt ((xC - cC) * cacheC)) :: K4).
  apply (yields_window _ _ _ cache_read_kind_view K3 "xC" _ xC);
    [reflexivity|eval_kept|reflexivity|not_among|subst K3; incl_solve|].
  intros HaC.
  pass 1%nat K5.
  { apply (yields_decl _ _ _ cache_read_kind_view); [eval_kept|reflexivity|not_among]. }
  apply yields_weaken with (k1 := K5) (k2 := K5); [|apply incl_refl|incl_solve].
  last_of 1%nat K5; [|mute_straight cache_read_kind_view].
  apply yields_decl_events; [events_kept|not_among].
Qed.

(** The discard: [if (int(gl_GlobalInvocationID.x) >= outChannels) return;]. *)
Lemma depthwise_discard {A : Type} (view : event -> option A) :
  yields T view keep [nth 10 (main (userCode p)) SReturn]
    (if gx >=? outChannels convInfo then OReturn else ONormal) keep [].
Proof.
  intros rho Hh. rewrite exec_single.
  unfold outcome_of, events_of, env_of. zcbn. rewrite global_id. zcbn.
  destruct (gx >=? outChannels convInfo); zcbn; repeat split; exact Hh.
Qed.

(** From the fill to the end of [main]. *)
Lemma depthwise_body {A : Type} (view : event -> option A) (K : kind -> bool)
  (L1 L2 L3 : list A) :
  (forall ev, K (kind_of ev) = false -> view ev = None) ->
  K (KWrite "cache") = false -> K (KSample "getX") = false ->
  yields T view keep (firstn 2 (skipn 8 (main (userCode p)))) ONormal keep L1 ->
  yields T view keep' [nth 19 (main (userCode p)) SReturn] ONormal keep' L2 ->
  yields T view keep' (skipn 20 (main (userCode p))) ONormal keep' L3 ->
  exists o k,
    yields T view keep (skipn 7 (main (userCode p))) o k
      (L1 ++ if gx >=? outChannels convInfo then [] else L2 ++ L3).
Proof.
  intros view_kind Kw Kx Hsync Hloop Hout.
  change (skipn 7 (main (userCode p)))
    with ([nth 7 (main (userCode p)) SReturn]
          ++ firstn 2 (skipn 8 (main (userCode p)))
          ++ [nth 10 (main (userCode p)) SReturn]
          ++ firstn 8 (skipn 11 (main (userCode p)))
          ++ [nth 19 (main (userCode p)) SReturn]
          ++ skipn 20 (main (userCode p))).
  assert (Hfill : yields T view keep [nth 7 (main (userCode p)) SReturn] ONormal keep []).
  { apply (yields_mute _ _ _ view_kind); [|cbn; rewrite Kw, Kx; reflexivity|unfold p; apart].
    intros rho Hh. apply depthwise_fill_normal, Hh. }
  pose proof (depthwise_discard view) as Hd.
  destruct (gx >=? outChannels convInfo).
  - exists OReturn, keep.
    apply yields_after with (k2 := keep); [exact Hfill|].
    apply yields_app with (k2 := keep); [exact Hsync|].
    apply yields_stop; [exact Hd|discriminate].
  - exists ONormal, keep'.
    apply yields_after with (k2 := keep); [exact Hfill|].
    apply yields_app with (k2 := keep); [exact Hsync|].
    apply yields_after with (k2 := keep); [exact Hd|].
    apply yields_after with (k2 := keep'); [exact (depthwise_corners view K view_kind)|].
    apply yields_app with (k2 := keep'); [exact Hloop|exact Hout].
Qed.

Lemma depthwise_observed {A : Type} (view : event -> option A) (L : list A) o k :
  yields T view keep (skipn 7 (main (userCode p))) o k L ->
  observe view (trace T p) = L.
Proof.
  intros Hy. unfold trace, run. fold exec.
  rewrite <- (firstn_skipn 7 (main (userCode p))), exec_app.
  destruct depthwise_entry as (rho & -> & Hh).
  destruct (Hy rho Hh) as (_ & HL & _).
  destruct (exec T (skipn 7 (main (userCode p))) rho) as [[o1 rho1] ev1].
  exact HL.
Qed.

Lemma depthwise_presented_taps {A : Type} (g : Z -> Z -> A) :
  presented g = map (fun t => g (fst t) (snd t)) (taps convInfo X Y).
Proof.
  rewrite <- flat_map_singleton, flat_map_taps. reflexivity.
Qed.

Lemma depthwise_weights_observed :
  observe weight (trace T p)
  = if gx >=? outChannels convInfo then []
    else presented (fun wR wC => depthwise_weight convInfo d2 wR wC).
Proof.
  destruct (depthwise_body weight weight_kind []
              (presented (fun wR wC => depthwise_weight convInfo d2 wR wC)) []
              weight_kind_view eq_refl eq_refl) as (o & k & H).
  - mute_straight weight_kind_view.
  - exact depthwise_taps_weights.
  - mute_straight weight_kind_view.
  - rewrite (depthwise_observed _ _ _ _ H). cbn [app].
    destruct (gx >=? outChannels convInfo); [reflexivity|apply app_nil_r].
Qed.

Lemma depthwise_reads_observed :
  observe cache_read (trace T p)
  = if gx >=? outChannels convInfo then []
    else presented (fun wR wC => depthwise_cell convInfo y0 z0 w0 y z d2 wR wC).
Proof.
  destruct (depthwise_body cache_read cache_read_kind []
              (presented (fun wR wC => depthwise_cell convInfo y0 z0 w0 y z d2 wR wC)) []
              cache_read_kind_view eq_refl eq_refl) as (o & k & H).
  - mute_straight cache_read_kind_view.
  - exact depthwise_taps_reads.
  - mute_straight cache_read_kind_view.
  - rewrite (depthwise_observed _ _ _ _ H). cbn [app].
    destruct (gx >=? outChannels convInfo); [reflexivity|apply app_nil_r].
Qed.

Lemma depthwise_milestones_observed :
  observe milestone (trace T p)
  = "barrier" :: (if gx >=? outChannels convInfo then [] else ["setOutput"]).
Proof.
  destruct (depthwise_body milestone milestone_kind ["barrier"] [] ["setOutput"]
              milestone_kind_view eq_refl eq_refl) as (o & k & H).
  - change (firstn 2 (skipn 8 (main (userCode p))))
      with ([SCall "memoryBarrierShared" []] ++ [SCall "barrier" []]).
    apply yields_after with (k2 := keep); [mute_straight milestone_kind_view|].
    apply yields_call. intros rho _. reflexivity.
  - apply (yields_mute _ _ _ milestone_kind_view); [|reflexivity|unfold p; apart].
    intros rho Hh. apply (depthwise_taps_weights rho Hh).
  - apply yields_call. intros rho _. reflexivity.
  - rewrite (depthwise_observed _ _ _ _ H). reflexivity.
Qed.

End DepthwiseTaps.

(** X20. The depthwise convolution multiplies every accepted tap once.
    For a descriptor with positive channel counts and [inChannels] dividing
    [outChannels] (the interpolated [channelMul] is then an integer), and
    for an invocation whose output coordinates are [(b, y, z, d2)], in a
    workgroup whose first invocation has the output coordinates
    [(b0, y0, z0, w0)]: unless the invocation is discarded
    ([gl_GlobalInvocationID.x >= outChannels]), the samples of the filter in
    the whole of [main] are [getW(wR, wC, d1, q)] with [d1 = d2 / channelMul]
    and [q = d2 - d1 * channelMul], one for each tap [(wR, wC)] that meets the
    input inside, in the order of the loop nest, and the cells of the cache
    that are read are, for the same taps in the same order,
    [cache[sR][sC + d1 - cacheDCorner]]; a discarded invocation samples no
    weight and reads no cell. *)
Theorem X20_depthwise_multiplies_every_tap_once
  (convInfo : Conv2DInfo) (T : thread) (b0 y0 z0 w0 b y z d2 gx : Z) (gs : list Z) :
  firstThreadOutputCoords T = [b0; y0; z0; w0] ->
  outputCoords T = [b; y; z; d2] ->
  gl_GlobalInvocationID T = gx :: gs ->
  0 < inChannels convInfo -> 0 < outChannels convInfo ->
  outChannels convInfo mod inChannels convInfo = 0 ->
  let p := DepthwiseConv2DProgramCS convInfo in
  let corner := window_corner convInfo y z in
  let accepted :=
    if gx >=? outChannels convInfo then []
    else taps convInfo (fst corner) (snd corner) in
  observe weight (trace T p)
  = map (fun t => depthwise_weight convInfo d2 (fst t) (snd t)) accepted /\
  observe cache_read (trace T p)
  = map (fun t => depthwise_cell convInfo y0 z0 w0 y z d2 (fst t) (snd t)) accepted.
Proof.
  intros Hf Hc Hg _ _ _ p corner accepted. subst p corner accepted.
  unfold window_corner. cbn [fst snd]. split.
  - rewrite (depthwise_weights_observed convInfo T b0 y0 z0 w0 b y z d2 gx gs Hf Hc Hg).
    destruct (gx >=? outChannels convInfo); [reflexivity|].
    exact (depthwise_presented_taps convInfo y z
             (fun wR wC => depthwise_weight convInfo d2 wR wC)).
  - rewrite (depthwise_reads_observed convInfo T b0 y0 z0 w0 b y z d2 gx gs Hf Hc Hg).
    destruct (gx >=? outChannels convInfo); [reflexivity|].
    exact (depthwise_presented_taps convInfo y z
             (fun wR wC => depthwise_cell convInfo y0 z0 w0 y z d2 wR wC)).
Qed.

Lemma X20_depthwise_multiplies_every_tap_once_witness :
  firstThreadOutputCoords (first_group 9) = [0; 0; 0; 0] /\
  outputCoords (first_group 9) = [0; 0; 1; 1] /\
  gl_GlobalInvocationID (first_group 9) = 1 :: [1; 0] /\
  0 < inChannels depthwise_5x5 /\ 0 < outChannels depthwise_5x5 /\
  outChannels depthwise_5x5 mod inChannels depthwise_5x5 = 0 /\
  let p := DepthwiseConv2DProgramCS depthwise_5x5 in
  let corner := window_corner depthwise_5x5 0 1 in
  let accepted :=
    if 1 >=? outChannels depthwise_5x5 then []
    else taps depthwise_5x5 (fst corner) (snd corner) in
  observe weight (trace (first_group 9) p)
  = map (fun t => depthwise_weight depthwise_5x5 1 (fst t) (snd t)) accepted /\
  observe cache_read (trace (first_group 9) p)
  = map (fun t => depthwise_cell depthwise_5x5 0 0 0 0 1 1 (fst t) (snd t)) accepted.
Proof.
  split; [reflexivity|]. split; [reflexivity|]. split; [reflexivity|].
  split; [reflexivity|]. split; [reflexivity|]. split; [reflexivity|].
  exact (X20_depthwise_multiplies_every_tap_once depthwise_5x5 (first_group 9)
           0 0 0 0 0 0 1 1 1 [1; 0] eq_refl eq_refl eq_refl eq_refl eq_refl eq_refl).
Defined.

(** X21. The depthwise convolution commits exactly when it does not
    discard.  For a descriptor with positive channel counts and [inChannels]
    dividing [outChannels] (the interpolated [channelMul] is then an
    integer), every invocation passes [barrier()] exactly once; an invocation
    with [gl_GlobalInvocationID.x < outChannels] then calls [setOutput]
    exactly once, whatever taps its window guards reject, and an invocation
    with [gl_GlobalInvocationID.x >= outChannels] never calls it. *)
Theorem X21_depthwise_commits_unless_discarded
  (convInfo : Conv2DInfo) (T : thread) (b0 y0 z0 w0 b y z d2 gx : Z) (gs : list Z) :
  firstThreadOutputCoords T = [b0; y0; z0; w0] ->
  outputCoords T = [b; y; z; d2] ->
  gl_GlobalInvocationID T = gx :: gs ->
  0 < inChannels convInfo -> 0 < outChannels convInfo ->
  outChannels convInfo mod inChannels convInfo = 0 ->
  observe milestone (trace T (DepthwiseConv2DProgramCS convInfo))
  = "barrier" :: (if gx >=? outChannels convInfo then [] else ["setOutput"]).
Proof.
  intros Hf Hc Hg _ _ _.
  exact (depthwise_milestones_observed convInfo T b0 y0 z0 w0 b y z d2 gx gs Hf Hc Hg).
Qed.

Lemma X21_depthwise_commits_unless_discarded_witness :
  firstThreadOutputCoords out_of_range_thread = [0; 1; 1; 0] /\
  outputCoords out_of_range_thread = [0; 1; 1; 7] /\
  gl_GlobalInvocationID out_of_range_thread = 7 :: [1; 1] /\
  0 < inChannels depthwise_example /\ 0 < outChannels depthwise_example /\
  outChannels depthwise_example mod inChannels depthwise_example = 0 /\
  observe milestone (trace out_of_range_thread (DepthwiseConv2DProgramCS depthwise_example))
  = "barrier" :: (if 7 >=? outChannels depthwise_example then [] else ["setOutput"]).
Proof.
  split; [reflexivity|]. split; [reflexivity|]. split; [reflexivity|].
  split; [reflexivity|]. split; [reflexivity|]. split; [reflexivity|].
  exact (X21_depthwise_commits_unless_discarded depthwise_example out_of_range_thread
           0 1 1 0 0 1 1 7 7 [1; 1] eq_refl eq_refl eq_refl eq_refl eq_refl eq_refl).
Defined.

(** ** The traffic of the shared tiles *)

Section YieldsLoops.

Context {A : Type}.
Variable T : thread.
Variable view : event -> option A.

#[local] Set Warnings "-notation-for-abbreviation".
#[local] Notation yields := (yields T view).


(** [a[idx] = rhs;] *)
Lemma yields_assign_idx keep a idx rhs L :
  (forall rho, holds keep rho ->
     observe view (events_of (exec_stmt T (SAssign (EIdx a idx) rhs) rho)) = L) ->
  yields keep [SAssign (EIdx a idx) rhs] ONormal keep L.
Proof.
  intros Hv rho Hh. rewrite exec_single. specialize (Hv rho Hh).
  cbn [exec_stmt] in *. destruct (eval_list (eval T rho) idx) as [vs ev1].
  destruct (eval T rho rhs) as [v ev2].
  repeat split; [exact Hv|exact Hh].
Qed.

(** Loop bodies that end normally. *)
Lemma normally keep body keep' (L : list A) :
  yields keep body ONormal keep' L ->
  exists o, (o = ONormal \/ o = OContinue) /\ yields keep body o keep' L.
Proof. intros H. exists ONormal. split; [left; reflexivity|exact H]. Qed.

End YieldsLoops.

Lemma flat_map_none {A B : Type} (l : list A) : flat_map (fun _ => @nil B) l = [].
Proof. induction l as [|a l IH]; [reflexivity|exact IH]. Qed.

(** What the view keeps of the events of a statement or of an expression
    over the kept locals; the arrays are no locals. *)
Ltac observed_kept :=
  let rho := fresh "rho" in
  let Hh := fresh "Hh" in
  intros rho Hh; unfold events_of; zcbn; literal_tests;
  repeat (match goal with
          | |- context [lookup ?x rho] =>
              first [ let H := fresh in
                      eassert (H : lookup x rho = Some _) by (apply Hh; kept);
                      rewrite H; clear H
                    | destruct (lookup x rho) as [[?|?|?|]|] ]
          end; zcbn; literal_tests);
  first [reflexivity | repeat (f_equal; try lia)].





(** The goal keeps a part of [K]. *)
Ltac keeping K :=
  apply yields_weaken with (k1 := K) (k2 := K); [|apply incl_refl|incl_solve].




















(** *** The tiles cut the reduction dimension exactly *)




Lemma flat_map_map {A B C : Type} (f : B -> list C) (g : A -> B) (l : list A) :
  flat_map f (map g l) = flat_map (fun a => f (g a)) l.
Proof. induction l as [|a l IH]; [reflexivity|]. cbn. rewrite IH. reflexivity. Qed.








(** ** What the cache holds *)

Lemma fill_kind_view ev : fill_kind (kind_of ev) = false -> fill_event ev = None.
Proof.
  destruct ev as [a i|a i|f a|f a]; try reflexivity;
    cbn [kind_of fill_kind fill_event]; intros ->; reflexivity.
Qed.

Lemma for_iter_until {A : Type} (view : event -> option A) (I : env -> Prop) run i
  (f : Z -> list A) :
  forall (m n : nat) k0, (m <= n)%nat ->
  (forall k rho, k0 <= k < k0 + Z.of_nat m -> I rho ->
     let r := run ((i, VInt k) :: rho) in
     outcome_of r = ONormal /\ observe view (events_of r) = f k /\ I (env_of r)) ->
  ((m < n)%nat -> forall rho, I rho ->
     let r := run ((i, VInt (k0 + Z.of_nat m)) :: rho) in
     outcome_of r = OBreak /\ observe view (events_of r) = [] /\ I (env_of r)) ->
  forall rho, I rho ->
     let r := for_iter run i k0 1 n rho in
     outcome_of r = ONormal /\
     observe view (events_of r) = flat_map f (counter_values k0 m) /\ I (env_of r).
Proof.
  induction m as [|m IH]; intros n k0 Hmn Hrun Hbrk rho HI.
  - destruct n as [|n]; simpl; [repeat split; exact HI|].
    destruct (Hbrk ltac:(lia) rho HI) as (Ho & HL & HI1).
    rewrite Z.add_0_r in Ho, HL, HI1.
    destruct (run ((i, VInt k0) :: rho)) as [[o rho1] ev1].
    unfold outcome_of, env_of, events_of in *. simpl in *. subst o.
    repeat split; assumption.
  - destruct n as [|n]; [lia|]. simpl.
    destruct (Hrun k0 rho ltac:(lia) HI) as (Ho & HL & HI1).
    destruct (run ((i, VInt k0) :: rho)) as [[o rho1] ev1].
    unfold outcome_of, env_of, events_of in *. simpl in *. subst o.
    assert (Hbrk' : (m < n)%nat -> forall rho', I rho' ->
              let r := run ((i, VInt (k0 + 1 + Z.of_nat m)) :: rho') in
              outcome_of r = OBreak /\ observe view (events_of r) = [] /\ I (env_of r)).
    { intros Hlt rho' HI'.
      replace (k0 + 1 + Z.of_nat m) with (k0 + Z.of_nat (S m)) by lia.
      apply Hbrk; [lia|exact HI']. }
    destruct (IH n (k0 + 1) ltac:(lia) (fun k rho' Hk => Hrun k rho' ltac:(lia))
                Hbrk' rho1 HI1) as (Ho2 & HL2 & HI2).
    destruct (for_iter run i (k0 + 1) 1 n rho1) as [[o2 rho2] ev2]. simpl in *.
    repeat split; [exact Ho2| |exact HI2].
    rewrite observe_app, HL, HL2. reflexivity.
Qed.

Section YieldsBranches.

Context {A : Type}.
Variable T : thread.
Variable view : event -> option A.

#[local] Set Warnings "-notation-for-abbreviation".
#[local] Notation yields := (yields T view).

(** [if (c) { th } else { el }] where [c] is computed from the kept
    locals. *)
Lemma yields_if keep c (b : bool) th el o keep' L :
  (forall rho, holds keep rho -> eval T rho c = (VBool b, [])) ->
  yields keep (if b then th else el) o keep' L ->
  yields keep [SIf c th el] o keep' L.
Proof.
  intros Hc H rho Hh. specialize (H rho Hh). rewrite exec_single. cbn [exec_stmt].
  rewrite (Hc rho Hh). unfold exec in H.
  destruct b; destruct (exec_block (exec_stmt T) _ rho) as [[o1 rho1] ev1]; exact H.
Qed.

(** A counting loop that stops at [m]: by its bound, or by a [break]. *)
Lemma yields_for_until keep i x hi m body f :
  builtin_var T x = None -> In (x, VInt hi) keep ->
  ~ In i (map fst keep) ->
  0 <= m -> m <= Z.max 0 hi ->
  (forall k, 0 <= k < m -> yields ((i, VInt k) :: keep) body ONormal keep (f k)) ->
  (m < hi -> yields ((i, VInt m) :: keep) body OBreak keep []) ->
  yields keep [for_upto i (EVar x) body] ONormal keep (flat_map f (range m)).
Proof.
  intros Hx Hin Hi Hm0 Hm Hb Hbrk rho Hh.
  rewrite exec_single, (exec_for_var T i x hi body rho Hx (Hh x _ Hin)), trip_count_upto.
  unfold range.
  apply (for_iter_until view (holds keep) (exec T body) i f (Z.to_nat m) (Z.to_nat hi) 0);
    [lia| | |exact Hh].
  - intros k rho' Hk Hh'.
    apply (Hb k ltac:(lia) ((i, VInt k) :: rho')). apply holds_bind; assumption.
  - intros Hlt rho' Hh'. rewrite Z.add_0_l, Z2Nat.id by lia.
    apply (Hbrk ltac:(lia) ((i, VInt m) :: rho')). apply holds_bind; assumption.
Qed.

(** The trace of a body that computes [keep] without an event, then runs
    [mid], then statements the view keeps nothing of. *)
Lemma observed_from (K : kind -> bool) pre mid post rho0 rho1 keep o keep' L :
  (forall ev, K (kind_of ev) = false -> view ev = None) ->
  exec T pre rho0 = (ONormal, rho1, []) -> holds keep rho1 ->
  yields keep mid o keep' L ->
  forallb (fun k => negb (K k)) (block_kinds post) = true ->
  observe view (events_of (exec T (pre ++ mid ++ post) rho0)) = L.
Proof.
  intros view_kind Hpre Hh Hmid Hq. rewrite exec_app, Hpre, exec_app.
  destruct (Hmid rho1 Hh) as (Ho & HL & _).
  destruct (exec T mid rho1) as [[o1 rho2] ev1].
  unfold outcome_of, events_of in *. cbn [fst snd] in *. subst o1.
  pose proof (exec_kinds T post rho2) as Hk.
  destruct (exec T post rho2) as [[o2 rho3] ev2].
  unfold events_of in Hk. cbn [fst snd] in Hk.
  pose proof (observe_mute view K view_kind _ ev2 Hq Hk) as Hn.
  destruct o; cbn [fst snd app]; rewrite ?observe_app, ?Hn, ?app_nil_r; exact HL.
Qed.

End YieldsBranches.

(** The value of a condition over the kept locals. *)
Ltac cond_kept :=
  let rho := fresh "rho" in
  let Hh := fresh "Hh" in
  intros rho Hh; zcbn;
  repeat match goal with
         | |- context [lookup ?x rho] =>
             let H := fresh in
             eassert (H : lookup x rho = Some _) by (apply Hh; kept);
             rewrite H; clear H; zcbn
         end;
  repeat match goal with
         | |- context [Z.ltb ?a ?b] => destruct (Z.ltb a b); zcbn
         | |- context [Z.geb ?a ?b] => destruct (Z.geb a b); zcbn
         end;
  reflexivity.

Section Conv2DFilled.

Variable convInfo : Conv2DInfo.
Variable T : thread.
Variables b y z d2 : Z.

Let p := Conv2DProgramCS convInfo.
Let cacheW := conv2d_cacheW convInfo.
Let rC := y * strideHeight convInfo.
Let cC := 16 * Z.quot z 16 * strideWidth convInfo.
Let idx := gl_LocalInvocationIndex T.

Let keep : list (string * value) :=
  [ ("index", VInt idx); ("cacheHW", VInt (3 * cacheW)); ("cacheW", VInt cacheW);
    ("cacheRCorner", VInt rC); ("cacheCCorner", VInt cC); ("batch", VInt b) ].

Hypothesis own_coords : outputCoords T = [b; y; z; d2].

Lemma conv2d_fill_yields :
  yields T fill_event keep [nth 10 (main (userCode p)) SReturn] ONormal keep
    (flat_map stored (conv2d_filled convInfo idx b y z)).
Proof.
  unfold p, conv2d_filled. cbn [Conv2DProgramCS main userCode nth]. unfold if_.
  fold cacheW rC cC.
  apply (yields_if T fill_event keep _ (idx <? 3 * cacheW)); [cond_kept|].
  destruct (idx <? 3 * cacheW); cbn [andb]; [|apply yields_nil].
  pose (K1 := ("row", VInt (Z.quot idx cacheW)) :: keep).
  pose (K2 := ("col", VInt (imod idx cacheW)) :: K1).
  pass 1%nat K1.
  { apply (yields_decl _ _ _ fill_kind_view); [eval_kept|reflexivity|not_among]. }
  pass 1%nat K2.
  { apply (yields_decl _ _ _ fill_kind_view); [eval_kept|reflexivity|not_among]. }
  keeping K2.
  apply (yields_if T fill_event K2 _
           ((rC + Z.quot idx cacheW <? inHeight convInfo)
            && (cC + imod idx cacheW <? inWidth convInfo))); [cond_kept|].
  destruct ((rC + Z.quot idx cacheW <? inHeight convInfo)
            && (cC + imod idx cacheW <? inWidth convInfo)); [|apply yields_nil].
  rewrite flat_map_map.
  apply yields_for_upto; [not_among|]. intros i Hi. apply normally.
  keeping (("i", VInt i) :: K2).
  unfold stored. cbn [fst snd].
  apply yields_assign_idx. observed_kept.
Qed.

Lemma conv2d_fill_observed :
  observe fill_event (trace T p) = flat_map stored (conv2d_filled convInfo idx b y z).
Proof.
  unfold trace, run. fold exec.
  destruct (conv2d_fill_entry convInfo T b y z d2 own_coords) as (rho & Hpre & Hh).
  change (main (userCode p))
    with (firstn 10 (main (userCode p))
          ++ [nth 10 (main (userCode p)) SReturn] ++ skipn 11 (main (userCode p))).
  apply (observed_from T fill_event fill_kind _ _ _ _ rho keep ONormal keep _
           fill_kind_view Hpre Hh conv2d_fill_yields).
  reflexivity.
Qed.

End Conv2DFilled.

Section DepthwiseFilled.

Variable convInfo : Conv2DInfo.
Variable T : thread.
Variables b0 y0 z0 w0 : Z.

Let p := DepthwiseConv2DProgramCS convInfo.
Let channelMul := js_div (outChannels convInfo) (inChannels convInfo).
Let cacheW := depthwise_cacheW convInfo.
Let cacheC := js_div (8 * channelMul) channelMul.
Let rC := y0 * strideHeight convInfo - top (padInfo convInfo).
Let cC := z0 * strideWidth convInfo - left (padInfo convInfo).
Let dC := Z.quot w0 channelMul.
Let idx := gl_LocalInvocationIndex T.

Let keep : list (string * value) :=
  [ ("index", VInt idx);
    ("cacheHW", VInt (filterHeight convInfo * cacheW));
    ("cacheW", VInt cacheW); ("cacheC", VInt cacheC);
    ("cacheRCorner", VInt rC); ("cacheCCorner", VInt cC);
    ("cacheDCorner", VInt dC); ("batch", VInt b0) ].

Hypothesis first_coords : firstThreadOutputCoords T = [b0; y0; z0; w0].

Lemma depthwise_fill_yields :
  yields T fill_event keep [nth 7 (main (userCode p)) SReturn] ONormal keep
    (flat_map stored (depthwise_filled convInfo idx b0 y0 z0 w0)).
Proof.
  unfold p, depthwise_filled. cbn [DepthwiseConv2DProgramCS main userCode nth]. unfold if_.
  fold channelMul. fold cacheW cacheC rC cC dC.
  apply (yields_if T fill_event keep _ (idx <? filterHeight convInfo * cacheW));
    [cond_kept|].
  destruct (idx <? filterHeight convInfo * cacheW); cbn [andb]; [|apply yields_nil].
  set (row := Z.quot idx cacheW). set (col := imod idx cacheW).
  pose (K1 := ("row", VInt row) :: keep).
  pose (K2 := ("col", VInt col) :: K1).
  pass 1%nat K1.
  { apply (yields_decl _ _ _ fill_kind_view); [eval_kept|reflexivity|not_among]. }
  pass 1%nat K2.
  { apply (yields_decl _ _ _ fill_kind_view); [eval_kept|reflexivity|not_among]. }
  keeping K2.
  apply (yields_if T fill_event K2 _
           ((rC + row >=? 0) && (cC + col >=? 0) && (rC + row <? inHeight convInfo)
            && (cC + col <? inWidth convInfo))); [cond_kept|].
  destruct ((rC + row >=? 0) && (cC + col >=? 0) && (rC + row <? inHeight convInfo)
            && (cC + col <? inWidth convInfo)); [|apply yields_nil].
  rewrite flat_map_map.
  set (m := Z.min cacheC (inChannels convInfo - dC)).
  replace (range m) with (range (Z.max 0 m)) by (unfold range; f_equal; lia).
  apply yields_for_until with (hi := cacheC); [reflexivity|kept|not_among|lia|lia| |].
  - intros i Hi. keeping (("i", VInt i) :: K2).
    pass 1%nat (("i", VInt i) :: K2).
    { apply (yields_if T fill_event _ _ false); [|apply yields_nil].
      intros rho Hh. zcbn.
      rewrite (Hh "cacheDCorner" (VInt dC)) by kept.
      rewrite (Hh "i" (VInt i)) by kept. zcbn.
      replace (dC + i >=? inChannels convInfo) with false
        by (symmetry; rewrite Z.geb_leb; apply Z.leb_gt; lia).
      reflexivity. }
    unfold stored. cbn [fst snd].
    apply yields_assign_idx. observed_kept.
  - intros Hlt. keeping (("i", VInt (Z.max 0 m)) :: K2).
    ysplit 1%nat. apply yields_stop; [|discriminate].
    apply (yields_if T fill_event _ _ true).
    + intros rho Hh. zcbn.
      rewrite (Hh "cacheDCorner" (VInt dC)) by kept.
      rewrite (Hh "i" (VInt (Z.max 0 m))) by kept. zcbn.
      replace (dC + Z.max 0 m >=? inChannels convInfo) with true
        by (symmetry; rewrite Z.geb_leb; apply Z.leb_le; lia).
      reflexivity.
    + intros rho Hh. rewrite exec_single. repeat split. exact Hh.
Qed.

Lemma depthwise_fill_observed :
  observe fill_event (trace T p)
  = flat_map stored (depthwise_filled convInfo idx b0 y0 z0 w0).
Proof.
  unfold trace, run. fold exec.
  destruct (depthwise_fill_entry convInfo T b0 y0 z0 w0 first_coords) as (rho & Hpre & Hh).
  change (main (userCode p))
    with (firstn 7 (main (userCode p))
          ++ [nth 7 (main (userCode p)) SReturn] ++ skipn 8 (main (userCode p))).
  apply (observed_from T fill_event fill_kind _ _ _ _ rho keep ONormal keep _
           fill_kind_view Hpre Hh depthwise_fill_yields).
  reflexivity.
Qed.

End DepthwiseFilled.

Ltac same_texel :=
  match goal with
  | |- [VInt ?b; VInt ?a1; VInt ?a2; VInt ?a3] = [VInt ?b; VInt ?c1; VInt ?c2; VInt ?c3] =>
      replace a1 with c1 by lia; replace a2 with c2 by lia; replace a3 with c3 by lia;
      reflexivity
  end.

Lemma cell_inj (a b a' b' : Z) :
  [VInt a; VInt b] = [VInt a'; VInt b'] -> a = a' /\ b = b'.
Proof. intros H. injection H as -> ->. split; reflexivity. Qed.

(** X24. What the cache of the standard convolution holds.  For an
    invocation whose output coordinates are [(b, y, z, d2)], the samples of
    the input and the stores to the cache in the whole of [main] are those of
    its fill, each store being preceded by the sample stored: when its local
    index is below [cacheHW] and its row and column of the cache fall below
    [inHeight] and [inWidth], the values [x(b, cacheRCorner + row,
    cacheCCorner + col, i)] into [cache[row][col * inChannels + i]] for
    [i = 0, .., inChannels - 1], and nothing otherwise.  So a cell holds what
    the taps expect of it: if the cell [cache[sR][sC + c]] that the invocation
    of the output pixel [(y, z')] of the same block of sixteen columns reads
    for the tap [(wR, wC)] and the channel [c] is filled here, it is filled
    with [x(b, xR, xC, c)], the input under the tap. *)
Theorem X24_what_the_conv2d_cache_holds
  (convInfo : Conv2DInfo) (T : thread) (b y z d2 : Z) :
  outputCoords T = [b; y; z; d2] ->
  let filled := conv2d_filled convInfo (gl_LocalInvocationIndex T) b y z in
  observe fill_event (trace T (Conv2DProgramCS convInfo)) = flat_map stored filled /\
  forall (z' wR wC c : Z) (texel : list value),
    Z.quot z' 16 = Z.quot z 16 -> 0 <= c < inChannels convInfo ->
    In (texel, conv2d_cell convInfo y z' wR wC c) filled ->
    texel = [VInt b;
             VInt (fst (window_corner convInfo y z') + wR * dilationHeight convInfo);
             VInt (snd (window_corner convInfo y z') + wC * dilationWidth convInfo);
             VInt c].
Proof.
  intros Hc filled. split; [exact (conv2d_fill_observed convInfo T b y z d2 Hc)|].
  intros z' wR wC c texel Hz Hch Hin. subst filled.
  unfold conv2d_filled in Hin.
  destruct (_ && _) in Hin; [|destruct Hin].
  apply in_map_iff in Hin. destruct Hin as (i & E & Hi). apply in_range in Hi.
  unfold conv2d_cell, window_corner in *. cbn [fst snd]. rewrite Hz in E.
  apply pair_equal_spec in E. destruct E as [<- E].
  apply cell_inj in E. destruct E as [Hrow Hcol].
  assert (Hq : i + imod (gl_LocalInvocationIndex T) (conv2d_cacheW convInfo)
                   * inChannels convInfo
               = c + (z' * strideWidth convInfo - left (padInfo convInfo)
                      + wC * dilationWidth convInfo
                      - 16 * Z.quot z 16 * strideWidth convInfo)
                     * inChannels convInfo) by lia.
  destruct (strided_unique _ _ _ _ _ Hi Hch Hq) as [Ei Hc'].
  same_texel.
Qed.

Lemma X24_what_the_conv2d_cache_holds_witness :
  outputCoords pixel_1_0 = [0; 1; 0; 0] /\
  let filled := conv2d_filled padded_conv (gl_LocalInvocationIndex pixel_1_0) 0 1 0 in
  observe fill_event (trace pixel_1_0 (Conv2DProgramCS padded_conv))
  = flat_map stored filled /\
  forall (z' wR wC c : Z) (texel : list value),
    Z.quot z' 16 = Z.quot 0 16 -> 0 <= c < inChannels padded_conv ->
    In (texel, conv2d_cell padded_conv 1 z' wR wC c) filled ->
    texel = [VInt 0;
             VInt (fst (window_corner padded_conv 1 z') + wR * dilationHeight padded_conv);
             VInt (snd (window_corner padded_conv 1 z') + wC * dilationWidth padded_conv);
             VInt c].
Proof.
  split; [reflexivity|].
  exact (X24_what_the_conv2d_cache_holds padded_conv pixel_1_0 0 1 0 0 eq_refl).
Defined.

(** X25. What the cache of the depthwise convolution holds.  For a
    descriptor with positive channel counts and [inChannels] dividing
    [outChannels] (the interpolated [channelMul] and [cacheC] are then
    integers), and for an
    invocation of a workgroup whose first invocation has the output
    coordinates [(b0, y0, z0, w0)], the samples of the input and the stores to
    the cache in the whole of [main] are those of its fill, each store being
    preceded by the sample stored: when its local index is below [cacheHW] and
    its position lies inside the input, the values [x(b0, cacheRCorner + row,
    cacheCCorner + col, cacheDCorner + i)] into [cache[row][col * cacheC + i]]
    for [i] from 0 up to the first of [cacheC] and
    [inChannels - cacheDCorner] (the [break]), and nothing otherwise.  So a
    cell holds what the taps expect of it: if the cell
    [cache[sR][sC + d1 - cacheDCorner]] that an invocation of the workgroup
    reads for the tap [(wR, wC)], with its channel [d1] among the [cacheC]
    channels of the workgroup, is filled here, it is filled with
    [x(b0, xR, xC, d1)], the input under the tap. *)
Theorem X25_what_the_depthwise_cache_holds
  (convInfo : Conv2DInfo) (T : thread) (b0 y0 z0 w0 : Z) :
  firstThreadOutputCoords T = [b0; y0; z0; w0] ->
  0 < inChannels convInfo -> 0 < outChannels convInfo ->
  outChannels convInfo mod inChannels convInfo = 0 ->
  let filled :=
    depthwise_filled convInfo (gl_LocalInvocationIndex T) b0 y0 z0 w0 in
  let channelMul := js_div (outChannels convInfo) (inChannels convInfo) in
  observe fill_event (trace T (DepthwiseConv2DProgramCS convInfo))
  = flat_map stored filled /\
  forall (y z d2 wR wC : Z) (texel : list value),
    0 <= Z.quot d2 channelMul - Z.quot w0 channelMul < js_div (8 * channelMul) channelMul ->
    In (texel, depthwise_cell convInfo y0 z0 w0 y z d2 wR wC) filled ->
    texel = [VInt b0;
             VInt (fst (window_corner convInfo y z) + wR * dilationHeight convInfo);
             VInt (snd (window_corner convInfo y z) + wC * dilationWidth convInfo);
             VInt (Z.quot d2 channelMul)].
Proof.
  intros Hf _ _ _ filled channelMul.
  split; [exact (depthwise_fill_observed convInfo T b0 y0 z0 w0 Hf)|].
  intros y z d2 wR wC texel Hd Hin. subst filled.
  unfold depthwise_filled in Hin. fold channelMul in Hin.
  destruct (_ && _) in Hin; [|destruct Hin].
  apply in_map_iff in Hin. destruct Hin as (i & E & Hi). apply in_range in Hi.
  unfold depthwise_cell, window_corner in *. fold channelMul in E. cbn [fst snd].
  apply pair_equal_spec in E. destruct E as [<- E].
  apply cell_inj in E. destruct E as [Hrow Hcol].
  assert (Hi' : 0 <= i < js_div (8 * channelMul) channelMul) by lia.
  assert (Hq : i + imod (gl_LocalInvocationIndex T) (depthwise_cacheW convInfo)
                   * js_div (8 * channelMul) channelMul
               = (Z.quot d2 channelMul - Z.quot w0 channelMul)
                 + (z * strideWidth convInfo - left (padInfo convInfo)
                    + wC * dilationWidth convInfo
                    - (z0 * strideWidth convInfo - left (padInfo convInfo)))
                   * js_div (8 * channelMul) channelMul) by lia.
  destruct (strided_unique _ _ _ _ _ Hi' Hd Hq) as [Ei Hc'].
  same_texel.
Qed.

Lemma X25_what_the_depthwise_cache_holds_witness :
  firstThreadOutputCoords out_of_range_thread = [0; 1; 1; 0] /\
  0 < inChannels depthwise_example /\ 0 < outChannels depthwise_example /\
  outChannels depthwise_example mod inChannels depthwise_example = 0 /\
  let filled :=
    depthwise_filled depthwise_example (gl_LocalInvocationIndex out_of_range_thread)
      0 1 1 0 in
  let channelMul := js_div (outChannels depthwise_example) (inChannels depthwise_example) in
  observe fill_event (trace out_of_range_thread (DepthwiseConv2DProgramCS depthwise_example))
  = flat_map stored filled /\
  forall (y z d2 wR wC : Z) (texel : list value),
    0 <= Z.quot d2 channelMul - Z.quot 0 channelMul < js_div (8 * channelMul) channelMul ->
    In (texel, depthwise_cell depthwise_example 1 1 0 y z d2 wR wC) filled ->
    texel = [VInt 0;
             VInt (fst (window_corner depthwise_example y z)
                   + wR * dilationHeight depthwise_example);
             VInt (snd (window_corner depthwise_example y z)
                   + wC * dilationWidth depthwise_example);
             VInt (Z.quot d2 channelMul)].
Proof.
  split; [reflexivity|].
  split; [reflexivity|]. split; [reflexivity|]. split; [reflexivity|].
  exact (X25_what_the_depthwise_cache_holds depthwise_example out_of_range_thread
           0 1 1 0 eq_refl eq_refl eq_refl eq_refl).
Defined.
(** ** The phases of the depthwise convolution *)

Lemma observe_every evs : observe every_event evs = evs.
Proof.
  induction evs as [|ev evs IH]; [reflexivity|].
  change (observe every_event (ev :: evs)) with (ev :: observe every_event evs).
  rewrite IH. reflexivity.
Qed.

Lemma every_kind_view ev : every_kind (kind_of ev) = false -> every_event ev = None.
Proof. discriminate. Qed.

(** [x += e;] on a local that holds a float. *)
Lemma yields_add_opaque {A : Type} T (view : event -> option A) keep x e L :
  In (x, VOpq) keep -> (forall v, In (x, v) keep -> v = VOpq) ->
  (forall rho, holds keep rho -> observe view (snd (eval T rho e)) = L) ->
  yields T view keep [SAddAssign (EVar x) e] ONormal keep L.
Proof.
  intros Hin Huniq Hv rho Hh. rewrite exec_single. cbn [exec_stmt].
  specialize (Hv rho Hh). destruct (eval T rho e) as [v ev]. cbn [snd] in Hv.
  rewrite (Hh x VOpq Hin).
  unfold outcome_of, env_of, events_of. cbn [fst snd].
  split; [reflexivity|]. split; [exact Hv|].
  intros y w Hy. cbn [lookup]. destruct (String.eqb y x) eqn:E.
  - apply String.eqb_eq in E. subst y. rewrite (Huniq w Hy). reflexivity.
  - apply Hh, Hy.
Qed.

Section DepthwisePhases.

Variable convInfo : Conv2DInfo.
Variable T : thread.
Variables b0 y0 z0 w0 b y z d2 gx : Z.
Variable gs : list Z.

Let p := DepthwiseConv2DProgramCS convInfo.
Let channelMul := js_div (outChannels convInfo) (inChannels convInfo).
Let cacheW := depthwise_cacheW convInfo.
Let cacheC := js_div (8 * channelMul) channelMul.
Let rC := y0 * strideHeight convInfo - top (padInfo convInfo).
Let cC := z0 * strideWidth convInfo - left (padInfo convInfo).
Let dC := Z.quot w0 channelMul.
Let X := y * strideHeight convInfo - top (padInfo convInfo).
Let Y := z * strideWidth convInfo - left (padInfo convInfo).
Let d1 := Z.quot d2 channelMul.
Let idx := gl_LocalInvocationIndex T.

Let keep : list (string * value) :=
  [ ("index", VInt idx);
    ("cacheHW", VInt (filterHeight convInfo * cacheW));
    ("cacheW", VInt cacheW); ("cacheC", VInt cacheC);
    ("cacheRCorner", VInt rC); ("cacheCCorner", VInt cC);
    ("cacheDCorner", VInt dC); ("batch", VInt b0);
    ("strides", VVec [strideHeight convInfo; strideWidth convInfo]);
    ("pads", VVec [top (padInfo convInfo); left (padInfo convInfo)]) ].

Let keep' : list (string * value) :=
  [ ("dotProd", VOpq);
    ("d1", VInt d1); ("q", VInt (d2 - d1 * channelMul));
    ("xRCorner", VInt X); ("xCCorner", VInt Y);
    ("cacheC", VInt cacheC);
    ("cacheRCorner", VInt rC); ("cacheCCorner", VInt cC);
    ("cacheDCorner", VInt dC) ].

Hypothesis first_coords : firstThreadOutputCoords T = [b0; y0; z0; w0].
Hypothesis own_coords : outputCoords T = [b; y; z; d2].
Hypothesis global_id : gl_GlobalInvocationID T = gx :: gs.

Lemma phases_entry :
  exists rho,
    exec T (firstn 7 (main (userCode p))) (global_env T (globals (userCode p)) [])
    = (ONormal, rho, []) /\ holds keep rho.
Proof.
  unfold exec. zcbn. rewrite first_coords. zcbn.
  eexists. split; [reflexivity|].
  intros x v H. subst keep. cbn [In] in H.
  repeat (destruct H as [H|H]; [injection H as <- <-; reflexivity|]). destruct H.
Qed.

(** The fill: [if (index < cacheHW) { .. }]. *)
Lemma phases_fill :
  yields T every_event keep [nth 7 (main (userCode p)) SReturn] ONormal keep
    (filling_events convInfo idx b0 y0 z0 w0).
Proof.
  unfold p, filling_events, depthwise_filled.
  cbn [DepthwiseConv2DProgramCS main userCode nth]. unfold if_.
  fold channelMul. fold cacheW cacheC rC cC dC.
  apply (yields_if T every_event keep _ (idx <? filterHeight convInfo * cacheW));
    [cond_kept|].
  destruct (idx <? filterHeight convInfo * cacheW); cbn [andb]; [|apply yields_nil].
  set (row := Z.quot idx cacheW). set (col := imod idx cacheW).
  pose (K1 := ("row", VInt row) :: keep).
  pose (K2 := ("col", VInt col) :: K1).
  pass 1%nat K1.
  { apply (yields_decl _ _ _ every_kind_view); [eval_kept|reflexivity|not_among]. }
  pass 1%nat K2.
  { apply (yields_decl _ _ _ every_kind_view); [eval_kept|reflexivity|not_among]. }
  keeping K2.
  apply (yields_if T every_event K2 _
           ((rC + row >=? 0) && (cC + col >=? 0) && (rC + row <? inHeight convInfo)
            && (cC + col <? inWidth convInfo))); [cond_kept|].
  destruct ((rC + row >=? 0) && (cC + col >=? 0) && (rC + row <? inHeight convInfo)
            && (cC + col <? inWidth convInfo)); [|apply yields_nil].
  rewrite flat_map_map.
  set (m := Z.min cacheC (inChannels convInfo - dC)).
  replace (range m) with (range (Z.max 0 m)) by (unfold range; f_equal; lia).
  apply yields_for_until with (hi := cacheC); [reflexivity|kept|not_among|lia|lia| |].
  - intros i Hi. keeping (("i", VInt i) :: K2).
    pass 1%nat (("i", VInt i) :: K2).
    { apply (yields_if T every_event _ _ false); [|apply yields_nil].
      intros rho Hh. zcbn.
      rewrite (Hh "cacheDCorner" (VInt dC)) by kept.
      rewrite (Hh "i" (VInt i)) by kept. zcbn.
      replace (dC + i >=? inChannels convInfo) with false
        by (symmetry; rewrite Z.geb_leb; apply Z.leb_gt; lia).
      reflexivity. }
    unfold stored. cbn [fst snd].
    apply yields_assign_idx. observed_kept.
  - intros Hlt. keeping (("i", VInt (Z.max 0 m)) :: K2).
    ysplit 1%nat. apply yields_stop; [|discriminate].
    apply (yields_if T every_event _ _ true).
    + intros rho Hh. zcbn.
      rewrite (Hh "cacheDCorner" (VInt dC)) by kept.
      rewrite (Hh "i" (VInt (Z.max 0 m))) by kept. zcbn.
      replace (dC + Z.max 0 m >=? inChannels convInfo) with true
        by (symmetry; rewrite Z.geb_leb; apply Z.leb_le; lia).
      reflexivity.
    + intros rho Hh. rewrite exec_single. repeat split. exact Hh.
Qed.

(** The fence and the barrier. *)
Lemma phases_synchronisation :
  yields T every_event keep (firstn 2 (skipn 8 (main (userCode p)))) ONormal keep
    synchronisation.
Proof.
  change (firstn 2 (skipn 8 (main (userCode p))))
    with ([SCall "memoryBarrierShared" []] ++ [SCall "barrier" []]).
  change synchronisation with ([Call "memoryBarrierShared" []] ++ [Call "barrier" []]).
  apply yields_app with (k2 := keep); apply yields_call; intros rho _; reflexivity.
Qed.

(** The discard: [if (int(gl_GlobalInvocationID.x) >= outChannels) return;]. *)
Lemma phases_discard :
  yields T every_event keep [nth 10 (main (userCode p)) SReturn]
    (if gx >=? outChannels convInfo then OReturn else ONormal) keep [].
Proof.
  intros rho Hh. rewrite exec_single.
  unfold outcome_of, events_of, env_of. zcbn. rewrite global_id. zcbn.
  destruct (gx >=? outChannels convInfo); zcbn; repeat split; exact Hh.
Qed.

(** The statements between the discard and the loop nest. *)
Lemma phases_corners :
  yields T every_event keep (firstn 8 (skipn 11 (main (userCode p)))) ONormal keep' [].
Proof.
  intros rho Hh.
  assert (Hs : lookup "strides" rho
               = Some (VVec [strideHeight convInfo; strideWidth convInfo]))
    by (apply Hh; subst keep; kept).
  assert (Hp : lookup "pads" rho
               = Some (VVec [top (padInfo convInfo); left (padInfo convInfo)]))
    by (apply Hh; subst keep; kept).
  unfold exec, outcome_of, events_of, env_of. zcbn. rewrite own_coords. zcbn.
  rewrite Hs, Hp. zcbn.
  split; [reflexivity|]. split; [reflexivity|].
  intros x v H. subst keep'. cbn [In] in H.
  repeat (destruct H as [H|H];
          [injection H as <- <-;
           first [reflexivity
                 |cbn [lookup String.eqb Ascii.eqb Bool.eqb]; apply Hh; subst keep; kept]|]).
  destruct H.
Qed.

(** The loop nest over the taps. *)
Lemma phases_taps :
  yields T every_event keep' [nth 19 (main (userCode p)) SReturn] ONormal keep'
    (flat_map (tap_events convInfo y0 z0 w0 y z d2) (taps convInfo X Y)).
Proof.
  rewrite flat_map_taps.
  unfold p, tap_events, depthwise_cell, depthwise_weight.
  cbn [DepthwiseConv2DProgramCS main userCode nth fst snd].
  apply yields_for_upto; [not_among|]. intros wR HwR.
  set (xR := X + wR * dilationHeight convInfo).
  pose (K0 := ("wR", VInt wR) :: keep').
  pose (K1 := ("xR", VInt xR) :: K0).
  pose (K2 := ("sR", VInt (xR - rC)) :: K1).
  apply (yields_window _ _ _ every_kind_view K0 "xR" _ xR);
    [reflexivity|eval_kept|reflexivity|not_among|subst K0; incl_solve|].
  intros HaR.
  pass 1%nat K2.
  { apply (yields_decl _ _ _ every_kind_view); [eval_kept|reflexivity|not_among]. }
  apply yields_weaken with (k1 := K2) (k2 := K2); [|apply incl_refl|incl_solve].
  apply yields_for_upto; [not_among|]. intros wC HwC.
  set (xC := Y + wC * dilationWidth convInfo).
  pose (K3 := ("wC", VInt wC) :: K2).
  pose (K4 := ("xC", VInt xC) :: K3).
  pose (K5 := ("sC", VInt ((xC - cC) * cacheC)) :: K4).
  apply (yields_window _ _ _ every_kind_view K3 "xC" _ xC);
    [reflexivity|eval_kept|reflexivity|not_among|subst K3; incl_solve|].
  intros HaC.
  pass 1%nat K5.
  { apply (yields_decl _ _ _ every_kind_view); [eval_kept|reflexivity|not_among]. }
  apply yields_weaken with (k1 := K5) (k2 := K5); [|apply incl_refl|incl_solve].
  ysplit 1%nat.
  match goal with
  | |- yields _ _ _ _ _ _ [?r; ?s] => change [r; s] with ([r] ++ [s] ++ [])
  end.
  apply yields_app with (k2 := K5).
  { apply yields_decl_events; [events_kept|not_among]. }
  ysplit 1%nat. apply yields_app with (k2 := K5).
  { apply yields_decl_events; [events_kept|not_among]. }
  apply yields_add_opaque; [kept| |intros rho Hh; reflexivity].
  intros v Hv. subst K5 K4 K3 K2 K1 K0 keep'. cbn [In] in Hv.
  repeat (destruct Hv as [Hv|Hv]; [first [discriminate Hv|injection Hv as <-; reflexivity]|]).
  destruct Hv.
Qed.

(** The commit. *)
Lemma phases_commit :
  yields T every_event keep' (skipn 20 (main (userCode p))) ONormal keep'
    [Call "setOutput" [VOpq]].
Proof.
  apply yields_call. intros rho Hh. unfold events_of. zcbn.
  rewrite (Hh "dotProd" VOpq) by (subst keep'; kept). reflexivity.
Qed.

(** From the fill to the end of [main]. *)
Lemma phases_body :
  exists k,
    yields T every_event keep (skipn 7 (main (userCode p)))
      (if gx >=? outChannels convInfo then OReturn else ONormal) k
      (filling_events convInfo idx b0 y0 z0 w0 ++ synchronisation
       ++ if gx >=? outChannels convInfo then []
          else compute_events convInfo y0 z0 w0 y z d2).
Proof.
  change (skipn 7 (main (userCode p)))
    with ([nth 7 (main (userCode p)) SReturn]
          ++ firstn 2 (skipn 8 (main (userCode p)))
          ++ [nth 10 (main (userCode p)) SReturn]
          ++ firstn 8 (skipn 11 (main (userCode p)))
          ++ [nth 19 (main (userCode p)) SReturn]
          ++ skipn 20 (main (userCode p))).
  pose proof phases_discard as Hd.
  unfold compute_events, window_corner. cbn [fst snd]. fold X Y.
  destruct (gx >=? outChannels convInfo).
  - exists keep.
    apply yields_app with (k2 := keep); [exact phases_fill|].
    apply yields_app with (k2 := keep); [exact phases_synchronisation|].
    apply yields_stop; [exact Hd|discriminate].
  - exists keep'.
    apply yields_app with (k2 := keep); [exact phases_fill|].
    apply yields_app with (k2 := keep); [exact phases_synchronisation|].
    apply (yields_app T every_event keep keep keep' _ _ ONormal [] _); [exact Hd|].
    apply (yields_app T every_event keep keep' keep' _ _ ONormal [] _);
      [exact phases_corners|].
    apply yields_app with (k2 := keep'); [exact phases_taps|exact phases_commit].
Qed.

Lemma phases_run :
  trace T p
  = filling_events convInfo idx b0 y0 z0 w0 ++ synchronisation
    ++ (if gx >=? outChannels convInfo then []
        else compute_events convInfo y0 z0 w0 y z d2) /\
  outcome_of (run T p) = (if gx >=? outChannels convInfo then OReturn else ONormal).
Proof.
  destruct phases_body as (k & Hy).
  unfold trace, run. fold exec.
  rewrite <- (firstn_skipn 7 (main (userCode p))), exec_app.
  destruct phases_entry as (rho & -> & Hh).
  destruct (Hy rho Hh) as (Ho & HL & _).
  destruct (exec T (skipn 7 (main (userCode p))) rho) as [[o1 rho1] ev1].
  unfold outcome_of, events_of in *. cbn [fst snd app] in *.
  rewrite observe_every in HL. split; [exact HL|exact Ho].
Qed.

End DepthwisePhases.

(** C6. The order of the phases of the depthwise convolution.  For a
    descriptor with positive channel counts and [inChannels] dividing
    [outChannels] (the interpolated [channelMul] is then an integer), take
    any invocation: [(b0, y0, z0, w0)] are the output coordinates of the
    first invocation of its workgroup, [(b, y, z, d2)] its own, and [gx] its
    [gl_GlobalInvocationID.x].  In the text of [main] the fill comes first,
    then [memoryBarrierShared(); barrier();], then the discard
    [if (int(gl_GlobalInvocationID.x) >= outChannels) return;], then the
    rest.  The events the invocation records are, in this order and with
    nothing else: those of its fill (for a local index below [cacheHW] whose
    cell lies inside the input, the sample of [x] and the store of every
    channel up to the [break]; they depend on the local index and on the
    first invocation of the workgroup only, not on [gx]), the fence and
    the barrier, and then, if [gx < outChannels], the load of the cache and
    the sample of [W] of every tap inside the input followed by
    [setOutput]; if [gx >= outChannels] nothing follows the barrier and
    the invocation returns.  No invocation returns before the barrier. *)
Theorem C6_depthwise_phase_order
  (convInfo : Conv2DInfo) (T : thread) (b0 y0 z0 w0 b y z d2 gx : Z) (gs : list Z) :
  firstThreadOutputCoords T = [b0; y0; z0; w0] ->
  outputCoords T = [b; y; z; d2] ->
  gl_GlobalInvocationID T = gx :: gs ->
  0 < inChannels convInfo -> 0 < outChannels convInfo ->
  outChannels convInfo mod inChannels convInfo = 0 ->
  let p := DepthwiseConv2DProgramCS convInfo in
  let fill := filling_events convInfo (gl_LocalInvocationIndex T) b0 y0 z0 w0 in
  let compute := compute_events convInfo y0 z0 w0 y z d2 in
  let discard :=
    if_ (ECall "int" [EField (EVar "gl_GlobalInvocationID") "x"]
         >= EInt (outChannels convInfo))%glsl [ SReturn ] in
  main (userCode p)
  = fill_phase p ++ [SCall "memoryBarrierShared" []; SCall "barrier" []]
    ++ compute_phase p /\
  hd SReturn (compute_phase p) = discard /\
  trace T p
  = fill ++ synchronisation ++ (if gx >=? outChannels convInfo then [] else compute) /\
  outcome_of (run T p) = (if gx >=? outChannels convInfo then OReturn else ONormal).
Proof.
  intros Hf Hc Hg _ _ _ p fill compute discard.
  split; [reflexivity|]. split; [reflexivity|].
  exact (phases_run convInfo T b0 y0 z0 w0 b y z d2 gx gs Hf Hc Hg).
Qed.

Lemma C6_depthwise_phase_order_witness :
  firstThreadOutputCoords out_of_range_thread = [0; 1; 1; 0] /\
  outputCoords out_of_range_thread = [0; 1; 1; 7] /\
  gl_GlobalInvocationID out_of_range_thread = 7 :: [1; 1] /\
  0 < inChannels depthwise_example /\ 0 < outChannels depthwise_example /\
  outChannels depthwise_example mod inChannels depthwise_example = 0 /\
  let p := DepthwiseConv2DProgramCS depthwise_example in
  let fill :=
    filling_events depthwise_example (gl_LocalInvocationIndex out_of_range_thread)
      0 1 1 0 in
  let compute := compute_events depthwise_example 1 1 0 1 1 7 in
  let discard :=
    if_ (ECall "int" [EField (EVar "gl_GlobalInvocationID") "x"]
         >= EInt (outChannels depthwise_example))%glsl [ SReturn ] in
  main (userCode p)
  = fill_phase p ++ [SCall "memoryBarrierShared" []; SCall "barrier" []]
    ++ compute_phase p /\
  hd SReturn (compute_phase p) = discard /\
  trace out_of_range_thread p
  = fill ++ synchronisation
    ++ (if 7 >=? outChannels depthwise_example then [] else compute) /\
  outcome_of (run out_of_range_thread p)
  = (if 7 >=? outChannels depthwise_example then OReturn else ONormal).
Proof.
  split; [reflexivity|]. split; [reflexivity|]. split; [reflexivity|].
  split; [reflexivity|]. split; [reflexivity|]. split; [reflexivity|].
  exact (C6_depthwise_phase_order depthwise_example out_of_range_thread
           0 1 1 0 0 1 1 7 7 [1; 1] eq_refl eq_refl eq_refl eq_refl eq_refl eq_refl).
Defined.

(** The order at work for an invocation inside the output: the invocation
    of channel 1 of the output pixel (0, 1) of the 5 x 5 example, whose cell
    of the cache lies outside the input, fills nothing, passes the fence and
    the barrier, multiplies its twenty taps (four rows of five) and
    commits. *)
Lemma in_range_thread_computes :
  let p := DepthwiseConv2DProgramCS depthwise_5x5 in
  filling_events depthwise_5x5 (gl_LocalInvocationIndex (first_group 9)) 0 0 0 0 = [] /\
  trace (first_group 9) p = synchronisation ++ compute_events depthwise_5x5 0 0 0 0 1 1 /\
  List.length (compute_events depthwise_5x5 0 0 0 0 1 1) = 41%nat /\
  outcome_of (run (first_group 9) p) = ONormal.
Proof. vm_compute. repeat split. Qed.
